(** * domainsd: the connection handling and forwarding core

    A shallow embedding of [tools/domainsd-cpp/domainsd.cpp] and the
    properties of its HTTP framing, keep-alive derivation, upstream
    pool and per-client handler, and of its command line, its admission
    of clients and its routes file.

    Conventions of the embedding:
    - a [std::string] is a [string]; sizes and positions ([size_t]) are
      [Z], with the 64-bit wrap-around written out where a request or a
      response controls the operands;
    - [std::unordered_map] is a [gmap];
    - a C++ exception that the code catches becomes [None]; one that it
      does not catch becomes the outcome [Uncaught], a read outside a
      buffer the outcome [Undefined];
    - a loop that is not bounded by its input takes a [fuel] argument
      and answers [OutOfFuel] when it is used up;
    - the kernel is a script: every socket carries the list of results
      its successive [recv], [send] and peek calls will see. *)

From Stdlib Require Import ZArith String Ascii List Lia Bool.
From stdpp Require Import gmap strings list fin_maps pretty.

Open Scope string_scope.
Open Scope Z_scope.

(** ** Characters and [std::string] *)

Definition CR : ascii := "013"%char.
Definition LF : ascii := "010"%char.
Definition CRLF : string := String CR (String LF "").
Definition CRLFCRLF : string := CRLF +:+ CRLF.

Definition code (c : ascii) : Z := Z.of_N (N_of_ascii c).

(** [std::isspace] in the "C" locale: space, \t, \n, \v, \f, \r. *)
Definition isspace (c : ascii) : bool :=
  (code c =? 32) || ((9 <=? code c) && (code c <=? 13)).

(** [std::tolower] in the "C" locale. *)
Definition tolower (c : ascii) : ascii :=
  if (65 <=? code c) && (code c <=? 90)
  then ascii_of_N (Z.to_N (code c + 32))
  else c.

Fixpoint to_lower (s : string) : string :=
  match s with
  | EmptyString => EmptyString
  | String c s' => String (tolower c) (to_lower s')
  end.

(** 2^64, the modulus of [size_t] and [unsigned long (long)]. *)
Definition two64 : Z := 18446744073709551616.
Definition wrap64 (z : Z) : Z := z mod two64.

Definition size (s : string) : Z := Z.of_nat (String.length s).

(** [s.substr(pos, n)].  The C++ call throws [std::out_of_range] when
    [pos > s.size()]; [substr_throws] is that test, and [substr] is the
    value otherwise ([n] is clamped to what is left). *)
Definition substr_throws (s : string) (pos : Z) : bool := size s <? pos.

Definition substr (s : string) (pos n : Z) : string :=
  if substr_throws s pos then ""
  else String.substring (Z.to_nat pos) (Z.to_nat (Z.min n (size s - pos))) s.

(** [s.substr(pos)], i.e. [n = npos]. *)
Definition substr_from (s : string) (pos : Z) : string :=
  substr s pos (size s).

(** [s.find(pat, pos)]; [None] is [npos]. *)
Definition find (s pat : string) (pos : Z) : option Z :=
  if size s <? pos then None
  else Z.of_nat <$> String.index (Z.to_nat pos) pat s.

Definition find_char (s : string) (c : ascii) : option Z :=
  find s (String c "") 0.

(** [s.rfind(c)]: the last position of [c]. *)
Fixpoint rfind_nat (s : string) (c : ascii) : option nat :=
  match s with
  | EmptyString => None
  | String a s' =>
      match rfind_nat s' c with
      | Some i => Some (S i)
      | None => if Ascii.eqb a c then Some O else None
      end
  end.

Definition rfind_char (s : string) (c : ascii) : option Z :=
  Z.of_nat <$> rfind_nat s c.

(** [x.find(pat) != std::string::npos] *)
Definition found (r : option Z) : bool :=
  match r with Some _ => true | None => false end.

(** [trim]: [begin] runs forward over white space, [end] runs backward. *)
Fixpoint ltrim (s : string) : string :=
  match s with
  | EmptyString => EmptyString
  | String c s' => if isspace c then ltrim s' else s
  end.

Fixpoint rtrim (s : string) : string :=
  match s with
  | EmptyString => EmptyString
  | String c s' =>
      match rtrim s' with
      | EmptyString => if isspace c then EmptyString else String c EmptyString
      | r => String c r
      end
  end.

Definition trim (s : string) : string := rtrim (ltrim s).

Definition strip_port_from_host (host : string) : string :=
  match find_char host ":" with
  | None => host
  | Some pos => substr host 0 pos
  end.

(** [if (!line.empty() && line.back() == '\r') line.pop_back();] *)
Fixpoint strip_cr (line : string) : string :=
  match line with
  | EmptyString => EmptyString
  | String c EmptyString => if Ascii.eqb c CR then EmptyString else line
  | String c s' => String c (strip_cr s')
  end.

(** The lines successive [std::getline] calls read from a stream over
    [s]: each call takes the bytes up to the next \n and drops it; a call
    on an exhausted stream fails, which ends the list. *)
Fixpoint getlines (s : string) : list string :=
  match s with
  | EmptyString => []
  | String c s' =>
      if Ascii.eqb c LF then EmptyString :: getlines s'
      else match getlines s' with
           | [] => [String c EmptyString]
           | l :: ls => String c l :: ls
           end
  end.

(** ** Number parsing: [strtol] and friends, [std::sto*], [operator>>] *)

Definition digit_of (base : Z) (c : ascii) : option Z :=
  let n := code c in
  let d := if (48 <=? n) && (n <=? 57) then n - 48
           else if (97 <=? n) && (n <=? 122) then n - 87
           else if (65 <=? n) && (n <=? 90) then n - 55
           else 36 in
  if d <? base then Some d else None.

Fixpoint scan_digits_from (base acc : Z) (s : string) : Z * string :=
  match s with
  | EmptyString => (acc, EmptyString)
  | String c s' =>
      match digit_of base c with
      | Some d => scan_digits_from base (acc * base + d) s'
      | None => (acc, s)
      end
  end.

(** The longest run of digits at the head of [s], at least one. *)
Definition scan_digits (base : Z) (s : string) : option (Z * string) :=
  match s with
  | EmptyString => None
  | String c s' =>
      match digit_of base c with
      | Some d => Some (scan_digits_from base d s')
      | None => None
      end
  end.

Definition scan_sign (s : string) : bool * string :=
  match s with
  | String "-"%char r => (true, r)
  | String "+"%char r => (false, r)
  | _ => (false, s)
  end.

(** A "0x" or "0X" that base 16 skips when a hex digit follows it. *)
Definition skip_hex_prefix (base : Z) (s : string) : string :=
  match s with
  | String "0"%char (String x (String d r)) =>
      if (base =? 16) && (Ascii.eqb x "x" || Ascii.eqb x "X")
         && bool_decide (is_Some (digit_of 16 d))
      then String d r else s
  | _ => s
  end.

(** What the [strto*] family reads: white space, a sign, the digits.
    The result is the sign, the magnitude as a mathematical integer, and
    the text after the digits; [None] when there is no digit. *)
Definition strto (base : Z) (s : string) : option (bool * Z * string) :=
  let '(neg, s1) := scan_sign (ltrim s) in
  match scan_digits base (skip_hex_prefix base s1) with
  | Some (v, r) => Some (neg, v, r)
  | None => None
  end.

(** [std::stoull(s, nullptr, base)] and [std::stoul(s)] (both 64-bit
    here): [None] when the call throws ([invalid_argument] without a
    digit, [out_of_range] when the magnitude exceeds 2^64-1).  A minus
    sign negates modulo 2^64, as [strtoull] does. *)
Definition stoull (base : Z) (s : string) : option Z :=
  match strto base s with
  | None => None
  | Some (neg, v, _) =>
      if two64 <=? v then None
      else Some (if neg then wrap64 (two64 - v) else v)
  end.

Definition stoul (s : string) : option Z := stoull 10 s.

Definition INT_MAX : Z := 2147483647.
Definition INT_MIN : Z := -2147483648.

(** [std::stoi(s)]: [None] when it throws. *)
Definition stoi (s : string) : option Z :=
  match strto 10 s with
  | None => None
  | Some (neg, v, _) =>
      let n := if neg then - v else v in
      if (n <? INT_MIN) || (INT_MAX <? n) then None else Some n
  end.

Fixpoint take_token (s : string) : string * string :=
  match s with
  | EmptyString => (EmptyString, EmptyString)
  | String c s' =>
      if isspace c then (EmptyString, s)
      else let '(t, r) := take_token s' in (String c t, r)
  end.

(** [stream >> word] for a [std::string]: skip white space, take the run
    of other bytes; the extraction fails when none is left.  The result
    is the word and the unread rest of the stream. *)
Definition extract_word (s : string) : option (string * string) :=
  match ltrim s with
  | EmptyString => None
  | s1 => Some (take_token s1)
  end.

(** [stream >> n] for an [int]: skip white space, a sign, the digits; the
    extraction fails without a digit or when the value does not fit. *)
Definition extract_int (s : string) : option (Z * string) :=
  let '(neg, s1) := scan_sign (ltrim s) in
  match scan_digits 10 s1 with
  | None => None
  | Some (v, r) =>
      let n := if neg then - v else v in
      if (n <? INT_MIN) || (INT_MAX <? n) then None else Some (n, r)
  end.

(** [std::to_string] and [ostream <<] of an integer. *)
Definition to_string (n : Z) : string := pretty n.

(** ** Requests *)

Record Request := {
  req_method : string;
  req_path : string;
  req_version : string;
  req_headers : list (string * string);
  req_headers_lc : gmap string string;
  req_body : string;
  req_leftover : string;
  req_normalized_host : string;
  req_chunked : bool;
  req_client_wants_keepalive : bool;
}.

Fixpoint iequals_ascii (a b : string) : bool :=
  match a, b with
  | EmptyString, EmptyString => true
  | String ac a', String bc b' =>
      if Ascii.eqb (tolower ac) (tolower bc) then iequals_ascii a' b' else false
  | _, _ => false
  end.

Definition should_skip_forward_header (key : string) : bool :=
  iequals_ascii key "host" || iequals_ascii key "connection" ||
  iequals_ascii key "proxy-connection" || iequals_ascii key "x-forwarded-for" ||
  iequals_ascii key "x-forwarded-host" || iequals_ascii key "x-forwarded-proto" ||
  iequals_ascii key "content-length" || iequals_ascii key "transfer-encoding".

Definition request_wants_keepalive (req : Request) : bool :=
  let '(connection_close, connection_keepalive) :=
    match req_headers_lc req !! "connection" with
    | Some v =>
        let connection := to_lower v in
        (found (find connection "close" 0), found (find connection "keep-alive" 0))
    | None => (false, false)
    end in
  let version := to_lower (req_version req) in
  if String.eqb version "http/1.1" then negb connection_close
  else if String.eqb version "http/1.0" then connection_keepalive
  else false.

(** [parse_host_port]: [Some (host, port)] when the C++ function returns
    true.  When it returns false the caller never reads the two
    out-parameters, so the model drops them. *)
Definition parse_host_port (target : string) : option (string * Z) :=
  match rfind_char target ":" with
  | None => None
  | Some pos =>
      if (pos =? 0) || (size target <=? pos + 1) then None
      else
        let host := substr target 0 pos in
        match stoi (substr_from target (pos + 1)) with
        | None => None
        | Some port =>
            if (1 <=? port) && (port <=? 65535) then Some (host, port) else None
        end
  end.

(** ** Response heads *)

Record ResponseMeta := {
  status_code : Z;
  meta_chunked : bool;
  connection_close : bool;
  no_body : bool;
  content_length : option Z;
}.

(** A default-constructed [ResponseMeta]. *)
Definition empty_meta : ResponseMeta := {|
  status_code := 0; meta_chunked := false; connection_close := false;
  no_body := false; content_length := None;
|}.

Definition set_chunked (b : bool) (m : ResponseMeta) : ResponseMeta :=
  {| status_code := status_code m; meta_chunked := b;
     connection_close := connection_close m; no_body := no_body m;
     content_length := content_length m |}.

Definition set_content_length (n : option Z) (m : ResponseMeta) : ResponseMeta :=
  {| status_code := status_code m; meta_chunked := meta_chunked m;
     connection_close := connection_close m; no_body := no_body m;
     content_length := n |}.

Definition set_connection_close (b : bool) (m : ResponseMeta) : ResponseMeta :=
  {| status_code := status_code m; meta_chunked := meta_chunked m;
     connection_close := b; no_body := no_body m;
     content_length := content_length m |}.

Definition set_status_code (n : Z) (m : ResponseMeta) : ResponseMeta :=
  {| status_code := n; meta_chunked := meta_chunked m;
     connection_close := connection_close m; no_body := no_body m;
     content_length := content_length m |}.

Definition set_no_body (b : bool) (m : ResponseMeta) : ResponseMeta :=
  {| status_code := status_code m; meta_chunked := meta_chunked m;
     connection_close := connection_close m; no_body := b;
     content_length := content_length m |}.

(** The [while (std::getline(s, line))] loop of [parse_response_headers];
    [None] when a [content-length] value makes [std::stoull] throw. *)
Fixpoint response_header_lines (lines : list string) (out : ResponseMeta)
  : option ResponseMeta :=
  match lines with
  | [] => Some out
  | line0 :: rest =>
      let line := strip_cr line0 in
      if String.eqb line "" then Some out
      else
        match find_char line ":" with
        | None => response_header_lines rest out
        | Some pos =>
            let key := to_lower (trim (substr line 0 pos)) in
            let val := to_lower (trim (substr_from line (pos + 1))) in
            if String.eqb key "transfer-encoding" && found (find val "chunked" 0)
            then response_header_lines rest (set_chunked true out)
            else if String.eqb key "content-length" then
              match stoull 10 val with
              | None => None
              | Some n => response_header_lines rest (set_content_length (Some n) out)
              end
            else if String.eqb key "connection" && found (find val "close" 0)
            then response_header_lines rest (set_connection_close true out)
            else response_header_lines rest out
        end
  end.

(** [informational] in [parse_response_headers]. *)
Definition informational (status : Z) : bool :=
  (100 <=? status) && (status <? 200) && negb (status =? 101).

(** The last lines of [parse_response_headers]. *)
Definition classify_body (req_method : string) (out : ResponseMeta) : ResponseMeta :=
  let method := to_lower req_method in
  let out := set_no_body (String.eqb method "head" || informational (status_code out)
                          || (status_code out =? 204) || (status_code out =? 304)) out in
  if no_body out then set_content_length (Some 0) (set_chunked false out) else out.

(** [parse_response_headers(raw_headers, req_method, out)] with [out] a
    fresh [ResponseMeta], as its one caller passes it; [None] when the
    function returns false. *)
Definition parse_response_headers (raw_headers req_method : string)
  : option ResponseMeta :=
  match getlines raw_headers with
  | [] => None
  | line0 :: rest =>
      let line := strip_cr line0 in
      match extract_word line with
      | None => None
      | Some (http_version, after_version) =>
          match extract_int after_version with
          | None => None
          | Some (code, _) =>
              match response_header_lines rest (set_status_code code empty_meta) with
              | None => None
              | Some out => Some (classify_body req_method out)
              end
          end
      end
  end.

(** ** The kernel as a script *)

Inductive Errno :=
| EAGAIN | EWOULDBLOCK | EINTR | ETIMEDOUT | ECONNRESET | EPIPE | ECONNREFUSED.

Global Instance Errno_eq_dec : EqDecision Errno.
Proof. solve_decision. Defined.

(** [std::strerror], with the texts of glibc. *)
Definition strerror (e : Errno) : string :=
  match e with
  | EAGAIN | EWOULDBLOCK => "Resource temporarily unavailable"
  | EINTR => "Interrupted system call"
  | ETIMEDOUT => "Connection timed out"
  | ECONNRESET => "Connection reset by peer"
  | EPIPE => "Broken pipe"
  | ECONNREFUSED => "Connection refused"
  end.

(** What one blocking [recv] call returns: [Recv b] hands over the bytes
    [b] (so [n = size b]; [Recv ""] is the [n == 0] of a closed peer),
    [RecvErr e] is [n < 0] with [errno = e].  A socket's incoming side is
    the list of the results its next calls will see; once the list is
    used up the peer has closed and every later call returns 0.  One
    event is one call: the model never splits the bytes of an event, so a
    script offers at most [kIoBufferSize] bytes per event. *)
Inductive recv_event :=
| Recv (bytes : string)
| RecvErr (e : Errno).

(** Outcome of a computation that may leave the thread by an exception
    nobody catches ([Uncaught]), read outside a buffer ([Undefined]), or
    whose loop needs more steps than the model was given. *)
Inductive outcome (A : Type) : Type :=
| Ret (a : A)
| Uncaught
| Undefined
| OutOfFuel.
Arguments Ret {A} a.
Arguments Uncaught {A}.
Arguments Undefined {A}.
Arguments OutOfFuel {A}.

Global Instance outcome_ret : MRet outcome := @Ret.
Global Instance outcome_bind : MBind outcome := λ A B f m,
  match m with
  | Ret a => f a
  | Uncaught => Uncaught
  | Undefined => Undefined
  | OutOfFuel => OutOfFuel
  end.

Definition kMaxHeaderBytes : Z := 1024 * 1024.

(** ** Reading a request *)

(** [recv_append(fd, buf, error)]: the error ([None] when the call
    returns true), the buffer and the rest of the script. *)
Fixpoint recv_append (rx : list recv_event) (buf : string)
  : option string * string * list recv_event :=
  match rx with
  | [] => (Some "client closed connection", buf, [])
  | Recv bytes :: rx' =>
      if size bytes =? 0 then (Some "client closed connection", buf, rx')
      else (None, buf +:+ bytes, rx')
  | RecvErr e :: rx' =>
      if decide (e = EINTR) then recv_append rx' buf
      else (Some ("recv failed: " +:+ strerror e), buf, rx')
  end.

Fixpoint ensure_bytes_available (fuel : nat) (rx : list recv_event)
    (buf : string) (need : Z)
  : outcome (option string * string * list recv_event) :=
  if need <=? size buf then Ret (None, buf, rx)
  else
    match fuel with
    | O => OutOfFuel
    | S fuel' =>
        match recv_append rx buf with
        | (Some error, buf', rx') => Ret (Some error, buf', rx')
        | (None, buf', rx') => ensure_bytes_available fuel' rx' buf' need
        end
    end.

(** What [decode_chunked_body] leaves behind: the error when it returns
    false, else the decoded body and the leftover. *)
Inductive chunked_result :=
| ChunkedFail (error : string)
| ChunkedOk (out_body leftover : string).

(** The trailer loop of [decode_chunked_body] (the [for] after a chunk of
    size zero). *)
Fixpoint consume_trailers (fuel : nat) (rx : list recv_event) (buf : string)
    (cursor : Z) (out_body : string)
  : outcome (chunked_result * list recv_event) :=
  match fuel with
  | O => OutOfFuel
  | S fuel' =>
      match find buf CRLF cursor with
      | None =>
          match recv_append rx buf with
          | (Some error, _, rx') => Ret (ChunkedFail error, rx')
          | (None, buf', rx') => consume_trailers fuel' rx' buf' cursor out_body
          end
      | Some trailer_end =>
          let trailer_line := substr buf cursor (trailer_end - cursor) in
          let cursor := trailer_end + 2 in
          if String.eqb trailer_line "" then
            Ret (ChunkedOk out_body (substr_from buf cursor), rx)
          else consume_trailers fuel' rx buf cursor out_body
      end
  end.

(** The main loop of [decode_chunked_body]; one round reads a size line
    and its chunk, or receives more bytes. *)
Fixpoint decode_chunked_loop (fuel : nat) (rx : list recv_event) (buf : string)
    (cursor : Z) (out_body : string)
  : outcome (chunked_result * list recv_event) :=
  match fuel with
  | O => OutOfFuel
  | S fuel' =>
      match find buf CRLF cursor with
      | Some line_end =>
          let line := trim (substr buf cursor (line_end - cursor)) in
          let cursor := line_end + 2 in
          let size_str := match find_char line ";" with
                          | None => line
                          | Some semi => substr line 0 semi
                          end in
          match stoull 16 size_str with
          | None => Ret (ChunkedFail "invalid chunk size", rx)
          | Some chunk_size =>
              '(error, buf, rx) ←
                ensure_bytes_available fuel' rx buf (wrap64 (cursor + chunk_size + 2));
              match error with
              | Some e => Ret (ChunkedFail e, rx)
              | None =>
                  if chunk_size =? 0 then
                    consume_trailers fuel' rx buf cursor out_body
                  else
                    let out_body := out_body +:+ substr buf cursor chunk_size in
                    let cursor := wrap64 (cursor + chunk_size) in
                    if substr_throws buf cursor then Uncaught
                    else if negb (String.eqb (substr buf cursor 2) CRLF) then
                      Ret (ChunkedFail "invalid chunk terminator", rx)
                    else
                      decode_chunked_loop fuel' rx buf (wrap64 (cursor + 2)) out_body
              end
          end
      | None =>
          match recv_append rx buf with
          | (Some error, _, rx') => Ret (ChunkedFail error, rx')
          | (None, buf', rx') => decode_chunked_loop fuel' rx' buf' cursor out_body
          end
      end
  end.

Definition decode_chunked_body (fuel : nat) (rx : list recv_event)
    (initial : string) : outcome (chunked_result * list recv_event) :=
  decode_chunked_loop fuel rx initial 0 "".

(** The [while (true)] at the top of [read_request]: the error, or the
    buffer with the position of the first blank line in it. *)
Fixpoint read_head (rx : list recv_event) (buf : string)
  : (string + string * Z) * list recv_event :=
  match find buf CRLFCRLF 0 with
  | Some header_end => (inr (buf, header_end), rx)
  | None =>
      if kMaxHeaderBytes <? size buf then (inl "request headers too large", rx)
      else
        match rx with
        | [] => (inl "client closed before request", [])
        | Recv bytes :: rx' =>
            if size bytes =? 0 then (inl "client closed before request", rx')
            else read_head rx' (buf +:+ bytes)
        | RecvErr e :: rx' =>
            if decide (e = EINTR) then read_head rx' buf
            else (inl ("recv failed: " +:+ strerror e), rx')
        end
  end.

(** [rl >> req.method >> req.path >> req.version] *)
Definition parse_request_line (line : string) : option (string * string * string) :=
  '(method, r1) ← extract_word line;
  '(path, r2) ← extract_word r1;
  '(version, _) ← extract_word r2;
  Some (method, path, version).

(** The header loop of [read_request]: [req.headers] and [req.headers_lc]. *)
Fixpoint request_header_lines (lines : list string)
    (headers : list (string * string)) (headers_lc : gmap string string)
  : list (string * string) * gmap string string :=
  match lines with
  | [] => (headers, headers_lc)
  | line0 :: rest =>
      let line := strip_cr line0 in
      if String.eqb line "" then (headers, headers_lc)
      else
        match find_char line ":" with
        | None => request_header_lines rest headers headers_lc
        | Some pos =>
            let key := trim (substr line 0 pos) in
            let val := trim (substr_from line (pos + 1)) in
            request_header_lines rest (headers ++ [(key, val)])
                                 (<[to_lower key := val]> headers_lc)
        end
  end.

(** The [while (req.body.size() < content_length)] loop: the body read so
    far when the peer stops early, else the bytes read. *)
Fixpoint read_body (rx : list recv_event) (body : string) (content_length : Z)
  : option string * list recv_event :=
  if content_length <=? size body then (Some body, rx)
  else
    match rx with
    | [] => (None, [])
    | Recv bytes :: rx' =>
        if size bytes =? 0 then (None, rx')
        else read_body rx' (body +:+ bytes) content_length
    | RecvErr e :: rx' =>
        if decide (e = EINTR) then read_body rx' body content_length
        else (None, rx')
    end.

Inductive read_result :=
| ReadFail (error : string)
| ReadOk (req : Request) (pending : string).

(** The three assignments that end every successful path of
    [read_request]: the body, the leftover and the keep-alive flag. *)
Definition with_body (req : Request) (body leftover : string) : Request :=
  {| req_method := req_method req; req_path := req_path req;
     req_version := req_version req; req_headers := req_headers req;
     req_headers_lc := req_headers_lc req;
     req_body := body; req_leftover := leftover;
     req_normalized_host := req_normalized_host req;
     req_chunked := req_chunked req;
     req_client_wants_keepalive := request_wants_keepalive req |}.

(** [req.chunked = chunked;] *)
Definition with_chunked (req : Request) (chunked : bool) : Request :=
  {| req_method := req_method req; req_path := req_path req;
     req_version := req_version req; req_headers := req_headers req;
     req_headers_lc := req_headers_lc req;
     req_body := req_body req; req_leftover := req_leftover req;
     req_normalized_host := req_normalized_host req;
     req_chunked := chunked;
     req_client_wants_keepalive := req_client_wants_keepalive req |}.

(** [std::string::max_size()]: [reserve] throws [std::length_error] when
    it is asked for more.  The value is the library's; this is the one of
    libstdc++ on a 64-bit target, (2^63 - 2) / 2. *)
Definition string_max_size : Z := 4611686018427387903.

(** The part of [read_request] after the header loop: framing selection
    and the body.  [req] holds the request line and the headers.
    [req.body.reserve(content_length)] throws for a length past
    [string_max_size], and nothing catches it; an allocation that fails
    for lack of memory is not followed.  (The [reserve(8192)] calls only
    size buffers; they leave no trace here.) *)
Definition read_framed_body (fuel : nat) (rx : list recv_event)
    (req : Request) (initial : string)
  : outcome (read_result * list recv_event) :=
  let content_length :=
    match req_headers_lc req !! "content-length" with
    | Some v => stoul v
    | None => Some 0
    end in
  match content_length with
  | None => Ret (ReadFail "invalid content-length", rx)
  | Some content_length =>
      let chunked :=
        match req_headers_lc req !! "transfer-encoding" with
        | Some v => found (find (to_lower v) "chunked" 0)
        | None => false
        end in
      let req := with_chunked req chunked in
      if chunked then
        '(r, rx) ← decode_chunked_body fuel rx initial;
        match r with
        | ChunkedFail error => Ret (ReadFail error, rx)
        | ChunkedOk body leftover =>
            Ret (ReadOk (with_body req body leftover) leftover, rx)
        end
      else if content_length <=? size initial then
        let body := substr initial 0 content_length in
        let leftover := substr_from initial content_length in
        Ret (ReadOk (with_body req body leftover) leftover, rx)
      else if string_max_size <? content_length then Uncaught
      else
        match read_body rx initial content_length with
        | (None, rx) => Ret (ReadFail "client closed before full request body", rx)
        | (Some body, rx) =>
            let '(body, leftover) :=
              if content_length <? size body
              then (substr body 0 content_length, substr_from body content_length)
              else (body, "") in
            Ret (ReadOk (with_body req body leftover) leftover, rx)
        end
  end.

(** The part of [read_request] between the head and the body: request
    line, headers, normalized host. *)
Definition parse_head (headers_blob : string) : string + Request :=
  match getlines headers_blob with
  | [] => inl "missing request line"
  | line0 :: rest =>
      match parse_request_line (strip_cr line0) with
      | None => inl "invalid request line"
      | Some (method, path, version) =>
          let '(headers, headers_lc) := request_header_lines rest [] ∅ in
          let normalized_host :=
            match headers_lc !! "host" with
            | Some v => to_lower (strip_port_from_host (trim v))
            | None => ""
            end in
          inr {| req_method := method; req_path := path; req_version := version;
                 req_headers := headers; req_headers_lc := headers_lc;
                 req_body := ""; req_leftover := "";
                 req_normalized_host := normalized_host;
                 req_chunked := false; req_client_wants_keepalive := false |}
      end
  end.

(** [read_request(client_fd, pending, req, error)] on a client socket
    whose incoming side is [rx]. *)
Definition read_request (fuel : nat) (rx : list recv_event) (pending : string)
  : outcome (read_result * list recv_event) :=
  match read_head rx pending with
  | (inl error, rx) => Ret (ReadFail error, rx)
  | (inr (buf, header_end), rx) =>
      let headers_len := header_end + 4 in
      let headers_blob := substr buf 0 headers_len in
      match parse_head headers_blob with
      | inl error => Ret (ReadFail error, rx)
      | inr req => read_framed_body fuel rx req (substr_from buf headers_len)
      end
  end.

(** ** Sockets and the world around the handler *)

(** What one [::send] call shows its caller, the result [n] and
    [errno]: [Sent k] takes up to [k] of the bytes offered, at least
    one; [SendErr e] is [n < 0] with [errno = e]; [SendNone e] is
    [n == 0], with [errno] left as it was, holding [e] from an earlier
    call.  Once the list is used up the peer is gone and every later
    call fails. *)
Inductive send_event :=
| Sent (k : positive)
| SendErr (e : Errno)
| SendNone (e : Errno).

(** A socket: the scripts of its next [recv] calls, [send] calls and
    non-blocking peeks, and the bytes written to it so far. *)
Record Socket := {
  rx : list recv_event;
  tx : list send_event;
  peeks : list recv_event;
  wire : string;
}.

(** A descriptor the kernel knows nothing about. *)
Definition no_socket : Socket :=
  {| rx := []; tx := []; peeks := []; wire := "" |}.

Record PooledConn := {
  fd : Z;
  created_at : Z;
  last_used_at : Z;
}.

Record UpstreamPool := {
  by_key : gmap string (list PooledConn);
  idle_total : Z;
}.

(** The tunables that [main] fixes before the listener starts. *)
Record Config := {
  pool_max_idle_per_key : Z;
  pool_max_idle_total : Z;
  pool_idle_timeout : Z;
  pool_max_age : Z;
  upstream_connect_timeout_ms : Z;
  upstream_io_timeout_ms : Z;
  client_io_timeout_ms : Z;
  max_active_clients : Z;
}.

Definition default_config : Config := {|
  pool_max_idle_per_key := 8;
  pool_max_idle_total := 256;
  pool_idle_timeout := 15000;
  pool_max_age := 120000;
  upstream_connect_timeout_ms := 10000;
  upstream_io_timeout_ms := 15000;
  client_io_timeout_ms := 30000;
  max_active_clients := 128;
|}.

(** Everything outside the handler's locals.
    - [sockets]: the descriptors and their scripts;
    - [closed]: the [close] calls made, latest first;
    - [pool]: [g_upstream_pool];
    - [routes]: the table a [RouteTable::lookup] consults once its reload
      check is done (the check reads the clock, see [reload_if_needed]);
    - [connects]: what the next [connect_upstream] calls return, with the
      [errno] they leave;
    - [clock]: the next readings of [steady_clock::now()], in ms;
    - [running]: the next values read from [g_running];
    - [active_clients], [overload_rejections]: the two counters. *)
Record World := {
  sockets : gmap Z Socket;
  closed : list Z;
  pool : UpstreamPool;
  routes : gmap string string;
  connects : list (Z * Errno);
  clock : list Z;
  running : list bool;
  active_clients : Z;
  overload_rejections : Z;
}.

Definition set_sockets (s : gmap Z Socket) (w : World) : World :=
  {| sockets := s; closed := closed w; pool := pool w; routes := routes w;
     connects := connects w; clock := clock w; running := running w;
     active_clients := active_clients w;
     overload_rejections := overload_rejections w |}.

Definition set_closed (c : list Z) (w : World) : World :=
  {| sockets := sockets w; closed := c; pool := pool w; routes := routes w;
     connects := connects w; clock := clock w; running := running w;
     active_clients := active_clients w;
     overload_rejections := overload_rejections w |}.

Definition set_pool (p : UpstreamPool) (w : World) : World :=
  {| sockets := sockets w; closed := closed w; pool := p; routes := routes w;
     connects := connects w; clock := clock w; running := running w;
     active_clients := active_clients w;
     overload_rejections := overload_rejections w |}.

Definition set_connects (c : list (Z * Errno)) (w : World) : World :=
  {| sockets := sockets w; closed := closed w; pool := pool w; routes := routes w;
     connects := c; clock := clock w; running := running w;
     active_clients := active_clients w;
     overload_rejections := overload_rejections w |}.

Definition set_clock (c : list Z) (w : World) : World :=
  {| sockets := sockets w; closed := closed w; pool := pool w; routes := routes w;
     connects := connects w; clock := c; running := running w;
     active_clients := active_clients w;
     overload_rejections := overload_rejections w |}.

Definition set_running (r : list bool) (w : World) : World :=
  {| sockets := sockets w; closed := closed w; pool := pool w; routes := routes w;
     connects := connects w; clock := clock w; running := r;
     active_clients := active_clients w;
     overload_rejections := overload_rejections w |}.

Definition socket_of (w : World) (fd : Z) : Socket :=
  default no_socket (sockets w !! fd).

Definition put_socket (fd : Z) (s : Socket) (w : World) : World :=
  set_sockets (<[fd := s]> (sockets w)) w.

(** [close(fd)] *)
Definition close (fd : Z) (w : World) : World :=
  set_closed (fd :: closed w) w.

(** [std::chrono::steady_clock::now()] *)
Definition steady_clock_now (w : World) : Z * World :=
  match clock w with
  | [] => (0, w)
  | t :: c => (t, set_clock c w)
  end.

(** The [while (off < len)] loop of [send_all]; [data] is what is still
    to be written and [wire] what has been.  The test of [errno] is the
    same after [n < 0] and after [n == 0]. *)
Fixpoint send_all_loop (tx : list send_event) (data wire : string)
  : bool * list send_event * string :=
  if size data =? 0 then (true, tx, wire)
  else
    match tx with
    | [] => (false, [], wire)
    | Sent k :: tx' =>
        let n := Z.min (Z.pos k) (size data) in
        send_all_loop tx' (substr_from data n) (wire +:+ substr data 0 n)
    | SendErr e :: tx' | SendNone e :: tx' =>
        if decide (e = EINTR) then send_all_loop tx' data wire
        else (false, tx', wire)
    end.

Definition send_all (fd : Z) (data : string) (w : World) : bool * World :=
  let s := socket_of w fd in
  let '(ok, tx', wire') := send_all_loop (tx s) data (wire s) in
  (ok, put_socket fd {| rx := rx s; tx := tx'; peeks := peeks s; wire := wire' |} w).

Definition kHeaderName : string := "X-Flow-Domainsd".
Definition kHeaderValue : string := "1".

Definition simple_response (status : Z) (reason body : string) : string :=
  "HTTP/1.1 " +:+ to_string status +:+ " " +:+ reason +:+ CRLF
  +:+ kHeaderName +:+ ": " +:+ kHeaderValue +:+ CRLF
  +:+ "Content-Type: text/plain; charset=utf-8" +:+ CRLF
  +:+ "Content-Length: " +:+ to_string (size body) +:+ CRLF
  +:+ "Connection: close" +:+ CRLFCRLF
  +:+ body.

(** [send_simple_response]; the result of [send_all] is dropped. *)
Definition send_simple_response (fd : Z) (status : Z) (reason body : string)
    (w : World) : World :=
  (send_all fd (simple_response status reason body) w).2.

(** ** The upstream pool *)

(** [socket_is_idle_usable] on the script of the descriptor's peeks. *)
Fixpoint socket_is_idle_usable_on (peeks : list recv_event)
  : bool * list recv_event :=
  match peeks with
  | [] => (false, [])
  | Recv bytes :: rest =>
      if size bytes =? 0 then (false, rest)
      else (false, rest)
  | RecvErr e :: rest =>
      if bool_decide (e = EAGAIN) || bool_decide (e = EWOULDBLOCK) then (true, rest)
      else if decide (e = EINTR) then socket_is_idle_usable_on rest
      else (false, rest)
  end.

Definition socket_is_idle_usable (fd : Z) (w : World) : bool * World :=
  let s := socket_of w fd in
  let '(usable, peeks') := socket_is_idle_usable_on (peeks s) in
  (usable, put_socket fd {| rx := rx s; tx := tx s; peeks := peeks'; wire := wire s |} w).

Definition is_conn_fresh (cfg : Config) (now : Z) (conn : PooledConn) : bool :=
  if pool_idle_timeout cfg <? now - last_used_at conn then false
  else if pool_max_age cfg <? now - created_at conn then false
  else true.

(** [idle_total_ = idle_total_ > 0 ? idle_total_ - 1 : 0] *)
Definition dec_idle (idle_total : Z) : Z :=
  if 0 <? idle_total then idle_total - 1 else 0.

(** The inner loop of [reap_locked] on one key: the entries kept, in
    order. *)
Fixpoint reap_conns (cfg : Config) (now : Z) (conns : list PooledConn)
    (w : World) (idle : Z) : list PooledConn * World * Z :=
  match conns with
  | [] => ([], w, idle)
  | conn :: rest =>
      let '(keep, w) :=
        if is_conn_fresh cfg now conn then socket_is_idle_usable (fd conn) w
        else (false, w) in
      if keep then
        let '(kept, w, idle) := reap_conns cfg now rest w idle in
        (conn :: kept, w, idle)
      else reap_conns cfg now rest (close (fd conn) w) (dec_idle idle)
  end.

(** [reap_locked(now)]: every key is visited once; a key left without
    entries is erased. *)
Definition reap_step (cfg : Config) (now : Z) (key : string)
    (conns : list PooledConn)
    (acc : gmap string (list PooledConn) * World * Z)
  : gmap string (list PooledConn) * World * Z :=
  let '(m, w, idle) := acc in
  let '(kept, w, idle) := reap_conns cfg now conns w idle in
  (match kept with [] => m | _ => <[key := kept]> m end, w, idle).

Definition reap_locked (cfg : Config) (now : Z) (w : World) : World :=
  let '(m, w, idle) :=
    map_fold (reap_step cfg now) (∅, w, idle_total (pool w)) (by_key (pool w)) in
  set_pool {| by_key := m; idle_total := idle |} w.

(** [connect_upstream(host, port)]: the descriptor, or -1. *)
Definition connect_upstream (host : string) (port : Z) (w : World)
  : Z * Errno * World :=
  match connects w with
  | [] => (-1, ECONNREFUSED, w)
  | (fd, e) :: c => (fd, e, set_connects c w)
  end.

(** The [while (!conns.empty())] loop of [acquire]; [back_first] is the
    vector from its back. *)
Fixpoint acquire_pop (cfg : Config) (now : Z) (back_first : list PooledConn)
    (w : World) (idle : Z) : option Z * list PooledConn * World * Z :=
  match back_first with
  | [] => (None, [], w, idle)
  | conn :: rest =>
      let idle := dec_idle idle in
      let '(usable, w) :=
        if is_conn_fresh cfg now conn then socket_is_idle_usable (fd conn) w
        else (false, w) in
      if usable then (Some (fd conn), rest, w, idle)
      else acquire_pop cfg now rest (close (fd conn) w) idle
  end.

(** [UpstreamPool::acquire]: the descriptor (or -1) and, when it is -1,
    the [errno] the failed connect leaves (a pooled descriptor comes
    with [EAGAIN], the [errno] of its successful probe). *)
Definition acquire (cfg : Config) (key host : string) (port : Z) (w : World)
  : Z * Errno * World :=
  let '(now, w) := steady_clock_now w in
  let w := reap_locked cfg now w in
  match by_key (pool w) !! key with
  | Some conns =>
      let '(got, rest, w', idle) :=
        acquire_pop cfg now (rev conns) w (idle_total (pool w)) in
      let w' := set_pool {| by_key := <[key := rev rest]> (by_key (pool w));
                            idle_total := idle |} w' in
      match got with
      | Some fd => (fd, EAGAIN, w')
      | None => connect_upstream host port w'
      end
  | None => connect_upstream host port w
  end.

(** [UpstreamPool::release] *)
Definition release (cfg : Config) (key : string) (fd : Z) (w : World) : World :=
  if fd <? 0 then w
  else
    let '(usable, w) := socket_is_idle_usable fd w in
    if negb usable then close fd w
    else
      let '(now, w) := steady_clock_now w in
      let w := reap_locked cfg now w in
      if pool_max_idle_total cfg <=? idle_total (pool w) then close fd w
      else
        let conns := default [] (by_key (pool w) !! key) in
        if pool_max_idle_per_key cfg <=? Z.of_nat (length conns) then
          set_pool {| by_key := <[key := conns]> (by_key (pool w));
                      idle_total := idle_total (pool w) |} (close fd w)
        else
          set_pool {| by_key := <[key := (conns ++ [{| fd := fd; created_at := now;
                                                       last_used_at := now |}])%list]>
                                  (by_key (pool w));
                      idle_total := wrap64 (idle_total (pool w) + 1) |} w.

(** [UpstreamPool::discard] *)
Definition discard (fd : Z) (w : World) : World :=
  if 0 <=? fd then close fd w else w.

(** ** Relaying the upstream response *)

(** One blocking [recv] on a descriptor. *)
Definition sys_recv (fd : Z) (w : World) : recv_event * World :=
  let s := socket_of w fd in
  match rx s with
  | [] => (Recv "", w)
  | ev :: rx' =>
      (ev, put_socket fd {| rx := rx'; tx := tx s; peeks := peeks s; wire := wire s |} w)
  end.

Fixpoint recv_append_upstream_on (rx : list recv_event) (buf : string)
  : bool * string * list recv_event :=
  match rx with
  | [] => (false, buf, [])
  | Recv bytes :: rx' =>
      if size bytes =? 0 then (false, buf, rx')
      else (true, buf +:+ bytes, rx')
  | RecvErr e :: rx' =>
      if decide (e = EINTR) then recv_append_upstream_on rx' buf
      else (false, buf, rx')
  end.

(** [recv_append_upstream(fd, buf)] *)
Definition recv_append_upstream (fd : Z) (buf : string) (w : World)
  : bool * string * World :=
  let s := socket_of w fd in
  let '(ok, buf', rx') := recv_append_upstream_on (rx s) buf in
  (ok, buf', put_socket fd {| rx := rx'; tx := tx s; peeks := peeks s; wire := wire s |} w).

(** The [while (sent < body_len)] loop of [relay_body_with_length]. *)
Fixpoint relay_body_loop (fuel : nat) (upstream_fd client_fd : Z)
    (sent body_len : Z) (w : World) : outcome (bool * World) :=
  if body_len <=? sent then Ret (true, w)
  else
    match fuel with
    | O => OutOfFuel
    | S fuel' =>
        match sys_recv upstream_fd w with
        | (Recv bytes, w) =>
            let n := size bytes in
            if n =? 0 then Ret (false, w)
            else
              let to_send := Z.min n (body_len - sent) in
              let '(ok, w) := send_all client_fd (substr bytes 0 to_send) w in
              if negb ok then Ret (false, w)
              else if to_send <? n then Ret (false, w)
              else relay_body_loop fuel' upstream_fd client_fd (sent + to_send) body_len w
        | (RecvErr e, w) =>
            if decide (e = EINTR)
            then relay_body_loop fuel' upstream_fd client_fd sent body_len w
            else Ret (false, w)
        end
    end.

Definition relay_body_with_length (fuel : nat) (upstream_fd client_fd : Z)
    (body_buf : string) (body_len : Z) (w : World) : outcome (bool * World) :=
  if negb (size body_buf =? 0) then
    let first := Z.min (size body_buf) body_len in
    let '(ok, w) := if 0 <? first then send_all client_fd (substr body_buf 0 first) w
                    else (true, w) in
    if negb ok then Ret (false, w)
    else if body_len <? size body_buf then Ret (false, w)
    else relay_body_loop fuel upstream_fd client_fd first body_len w
  else relay_body_loop fuel upstream_fd client_fd 0 body_len w.

(** [while (cond) { if (!recv_append_upstream(fd, buf)) return false; }]
    with [cond] the test [buf.size() < need]. *)
Fixpoint recv_until_size (fuel : nat) (upstream_fd : Z) (buf : string)
    (need : Z) (w : World) : outcome (bool * string * World) :=
  if need <=? size buf then Ret (true, buf, w)
  else
    match fuel with
    | O => OutOfFuel
    | S fuel' =>
        let '(ok, buf, w) := recv_append_upstream upstream_fd buf w in
        if negb ok then Ret (false, buf, w)
        else recv_until_size fuel' upstream_fd buf need w
    end.

(** The same loop with [cond] the test [buf.find(pat, cursor) == npos];
    on success the position found comes back too. *)
Fixpoint recv_until_found (fuel : nat) (upstream_fd : Z) (buf pat : string)
    (cursor : Z) (w : World) : outcome (option Z * string * World) :=
  match find buf pat cursor with
  | Some at_ => Ret (Some at_, buf, w)
  | None =>
      match fuel with
      | O => OutOfFuel
      | S fuel' =>
          let '(ok, buf, w) := recv_append_upstream upstream_fd buf w in
          if negb ok then Ret (None, buf, w)
          else recv_until_found fuel' upstream_fd buf pat cursor w
      end
  end.

(** What [relay_chunked_body] returns, together with two of its locals
    at that point: [end], once the \r\n\r\n after the zero-size chunk has
    been found, and [buf], every byte received from the upstream for
    this body. *)
Fixpoint relay_chunked_loop (fuel : nat) (upstream_fd client_fd : Z)
    (buf : string) (cursor : Z) (w : World)
  : outcome (bool * option Z * string * World) :=
  match fuel with
  | O => OutOfFuel
  | S fuel' =>
      '(line_end, buf, w) ← recv_until_found fuel' upstream_fd buf CRLF cursor w;
      match line_end with
      | None => Ret (false, None, buf, w)
      | Some line_end =>
          let line := trim (substr buf cursor (line_end - cursor)) in
          let size_str := match find_char line ";" with
                          | None => line
                          | Some semi => substr line 0 semi
                          end in
          match stoull 16 size_str with
          | None => Ret (false, None, buf, w)
          | Some chunk_size =>
              let chunk_prefix := line_end + 2 in
              let chunk_end := wrap64 (chunk_prefix + chunk_size + 2) in
              '(ok, buf, w) ← recv_until_size fuel' upstream_fd buf chunk_end w;
              if negb ok then Ret (false, None, buf, w)
              else if substr_throws buf (wrap64 (chunk_prefix + chunk_size)) then Uncaught
              else if negb (String.eqb (substr buf (wrap64 (chunk_prefix + chunk_size)) 2) CRLF)
              then Ret (false, None, buf, w)
              else if chunk_end <? cursor then Undefined
              else
                let '(ok, w) := send_all client_fd (substr buf cursor (chunk_end - cursor)) w in
                if negb ok then Ret (false, None, buf, w)
                else
                  let cursor := chunk_end in
                  if chunk_size =? 0 then
                    '(trailer_end, buf, w) ←
                      recv_until_found fuel' upstream_fd buf CRLFCRLF cursor w;
                    match trailer_end with
                    | None => Ret (false, None, buf, w)
                    | Some trailer_end =>
                        let end_ := trailer_end + 4 in
                        let '(ok, w) :=
                          send_all client_fd (substr buf cursor (end_ - cursor)) w in
                        if negb ok then Ret (false, Some end_, buf, w)
                        else Ret (end_ =? size buf, Some end_, buf, w)
                    end
                  else relay_chunked_loop fuel' upstream_fd client_fd buf cursor w
          end
      end
  end.

Definition relay_chunked_body (fuel : nat) (upstream_fd client_fd : Z)
    (buf : string) (w : World) : outcome (bool * World) :=
  '(complete, _, _, w) ← relay_chunked_loop fuel upstream_fd client_fd buf 0 w;
  Ret (complete, w).

Record RelayOutcome := {
  upstream_reusable : bool;
  client_can_keepalive : bool;
}.

(** [return {};] *)
Definition no_reuse : RelayOutcome :=
  {| upstream_reusable := false; client_can_keepalive := false |}.

(** The first loop of [relay_response_and_decide_reuse]: the buffer and
    the position of the blank line, or nothing when the function gives
    up. *)
Fixpoint relay_read_head (fuel : nat) (upstream_fd : Z) (buf : string)
    (w : World) : outcome (option (string * Z) * World) :=
  match find buf CRLFCRLF 0 with
  | Some header_end => Ret (Some (buf, header_end), w)
  | None =>
      match fuel with
      | O => OutOfFuel
      | S fuel' =>
          let '(ok, buf, w) := recv_append_upstream upstream_fd buf w in
          if negb ok then Ret (None, w)
          else if kMaxHeaderBytes <? size buf then Ret (None, w)
          else relay_read_head fuel' upstream_fd buf w
      end
  end.

(** The last loop of [relay_response_and_decide_reuse]: forward until
    the upstream closes. *)
Fixpoint relay_until_close (fuel : nat) (upstream_fd client_fd : Z) (w : World)
  : outcome World :=
  match fuel with
  | O => OutOfFuel
  | S fuel' =>
      match sys_recv upstream_fd w with
      | (Recv bytes, w) =>
          if size bytes =? 0 then Ret w
          else
            let '(ok, w) := send_all client_fd bytes w in
            if negb ok then Ret w
            else relay_until_close fuel' upstream_fd client_fd w
      | (RecvErr e, w) =>
          if decide (e = EINTR) then relay_until_close fuel' upstream_fd client_fd w
          else Ret w
      end
  end.

(** The part of [relay_response_and_decide_reuse] after the head has
    been forwarded: the body, by the framing [meta] selects. *)
Definition relay_body (fuel : nat) (upstream_fd client_fd : Z)
    (meta : ResponseMeta) (body_buf : string) (w : World)
  : outcome (RelayOutcome * World) :=
  if no_body meta then
    if negb (size body_buf =? 0) then
      let '(_, w) := send_all client_fd body_buf w in
      Ret (no_reuse, w)
    else
      Ret ({| upstream_reusable := negb (connection_close meta);
              client_can_keepalive := negb (connection_close meta) |}, w)
  else if meta_chunked meta then
    '(complete, w) ← relay_chunked_body fuel upstream_fd client_fd body_buf w;
    let keepalive := complete && negb (connection_close meta) in
    Ret ({| upstream_reusable := keepalive; client_can_keepalive := keepalive |}, w)
  else
    match content_length meta with
    | Some len =>
        '(ok, w) ← relay_body_with_length fuel upstream_fd client_fd body_buf len w;
        let keepalive := ok && negb (connection_close meta) in
        Ret ({| upstream_reusable := keepalive; client_can_keepalive := keepalive |}, w)
    | None =>
        let '(ok, w) := if negb (size body_buf =? 0) then send_all client_fd body_buf w
                        else (true, w) in
        if negb ok then Ret (no_reuse, w)
        else
          w ← relay_until_close fuel upstream_fd client_fd w;
          Ret (no_reuse, w)
    end.

Definition relay_response_and_decide_reuse (fuel : nat)
    (upstream_fd client_fd : Z) (req_method : string) (w : World)
  : outcome (RelayOutcome * World) :=
  '(head, w) ← relay_read_head fuel upstream_fd "" w;
  match head with
  | None => Ret (no_reuse, w)
  | Some (buf, header_end) =>
      let hdr_len := header_end + 4 in
      let raw_headers := substr buf 0 hdr_len in
      match parse_response_headers raw_headers req_method with
      | None => Ret (no_reuse, w)
      | Some meta =>
          let '(ok, w) := send_all client_fd raw_headers w in
          if negb ok then Ret (no_reuse, w)
          else relay_body fuel upstream_fd client_fd meta (substr_from buf hdr_len) w
      end
  end.

(** ** The per-client handler *)

Definition NL : string := String LF "".

Definition is_upgrade_request (req : Request) : bool :=
  match req_headers_lc req !! "upgrade" with
  | None => false
  | Some _ =>
      match req_headers_lc req !! "connection" with
      | None => false
      | Some conn => found (find (to_lower conn) "upgrade" 0)
      end
  end.

(** The [for] over [req.headers] in [build_upstream_request]. *)
Fixpoint forwarded_headers (headers : list (string * string)) : string :=
  match headers with
  | [] => ""
  | (key, value) :: rest =>
      if should_skip_forward_header key then forwarded_headers rest
      else key +:+ ": " +:+ value +:+ CRLF +:+ forwarded_headers rest
  end.

Definition build_upstream_request (req : Request) (host_header : string)
    (tunnel_upgrade keepalive_upstream : bool) : string :=
  let original_host := default host_header (req_headers_lc req !! "host") in
  req_method req +:+ " " +:+ req_path req +:+ " " +:+ req_version req +:+ CRLF
  +:+ forwarded_headers (req_headers req)
  +:+ "Host: " +:+ host_header +:+ CRLF
  +:+ "X-Forwarded-Host: " +:+ original_host +:+ CRLF
  +:+ "X-Forwarded-Proto: http" +:+ CRLF
  +:+ (if tunnel_upgrade then
         let up := default "websocket" (req_headers_lc req !! "upgrade") in
         "Connection: Upgrade" +:+ CRLF +:+ "Upgrade: " +:+ up +:+ CRLF +:+ CRLF
       else
         "Connection: " +:+ (if keepalive_upstream then "keep-alive" else "close") +:+ CRLF
         +:+ "Content-Length: " +:+ to_string (size (req_body req)) +:+ CRLFCRLF
         +:+ req_body req).

(** [read_request] on the client's descriptor. *)
Definition read_request_from (fuel : nat) (client_fd : Z) (pending : string)
    (w : World) : outcome (read_result * World) :=
  let s := socket_of w client_fd in
  '(r, rx') ← read_request fuel (rx s) pending;
  Ret (r, put_socket client_fd
            {| rx := rx'; tx := tx s; peeks := peeks s; wire := wire s |} w).

(** [RouteTable::reload_if_needed]: it reads the clock first; what its
    check of the routes file leaves in [routes_] is the table [routes w]. *)
Definition reload_if_needed (w : World) : World :=
  (steady_clock_now w).2.

(** [RouteTable::lookup]: the target, and the world after the reload
    check. *)
Definition routes_lookup (host : string) (w : World) : option string * World :=
  let w := reload_if_needed w in
  (routes w !! to_lower host, w).

(** [g_running.load()]; a script used up means the process is shutting
    down. *)
Definition load_running (w : World) : bool * World :=
  match running w with
  | [] => (false, w)
  | b :: r => (b, set_running r w)
  end.

Definition health_path : string := "/_flow/domains/health".

Section Handler.

Variable cfg : Config.

(** [tunnel_bidirectional(a_fd, b_fd)] runs two threads over the two
    descriptors; the handler only sees the world it leaves. *)
Variable tunnel_bidirectional : Z → Z → World → World.

(** The body of the health answer. *)
Definition health_body (w : World) : string :=
  "ok active_clients=" +:+ to_string (active_clients w)
  +:+ " overload_rejections=" +:+ to_string (overload_rejections w)
  +:+ " max_active_clients=" +:+ to_string (max_active_clients cfg)
  +:+ " upstream_connect_timeout_ms=" +:+ to_string (upstream_connect_timeout_ms cfg)
  +:+ " upstream_io_timeout_ms=" +:+ to_string (upstream_io_timeout_ms cfg)
  +:+ " client_io_timeout_ms=" +:+ to_string (client_io_timeout_ms cfg)
  +:+ " pool_max_idle_per_key=" +:+ to_string (pool_max_idle_per_key cfg)
  +:+ " pool_max_idle_total=" +:+ to_string (pool_max_idle_total cfg)
  +:+ " pool_idle_timeout_ms=" +:+ to_string (pool_idle_timeout cfg)
  +:+ " pool_max_age_ms=" +:+ to_string (pool_max_age cfg)
  +:+ NL.

Definition health_response (req : Request) (w : World) : string :=
  let body_s := health_body w in
  "HTTP/1.1 200 OK" +:+ CRLF
  +:+ kHeaderName +:+ ": " +:+ kHeaderValue +:+ CRLF
  +:+ "Content-Type: text/plain; charset=utf-8" +:+ CRLF
  +:+ "Content-Length: " +:+ to_string (size body_s) +:+ CRLF
  +:+ "Connection: "
  +:+ (if req_client_wants_keepalive req then "keep-alive" else "close")
  +:+ CRLFCRLF
  +:+ body_s.

(** The locals of [handle_client] that live across iterations. *)
Record Handler := {
  pending : string;
  cached_upstream_fd : Z;
  cached_upstream_key : string;
}.

Definition set_pending (p : string) (h : Handler) : Handler :=
  {| pending := p; cached_upstream_fd := cached_upstream_fd h;
     cached_upstream_key := cached_upstream_key h |}.

Definition set_cached (fd : Z) (key : string) (h : Handler) : Handler :=
  {| pending := pending h; cached_upstream_fd := fd; cached_upstream_key := key |}.

Definition discard_cached (h : Handler) (w : World) : Handler * World :=
  if 0 <=? cached_upstream_fd h
  then (set_cached (-1) "" h, discard (cached_upstream_fd h) w)
  else (h, w).

Definition release_cached (h : Handler) (w : World) : Handler * World :=
  if (0 <=? cached_upstream_fd h) && negb (String.eqb (cached_upstream_key h) "")
  then (set_cached (-1) "" h,
        release cfg (cached_upstream_key h) (cached_upstream_fd h) w)
  else (h, w).

(** How one round of the [while] ends: [continue] or [break]. *)
Inductive ctl := Continue | Break.

(** What the round does with the outcome of the relay: keep or discard
    the upstream, go on or leave. *)
Definition decide_reuse (relay : RelayOutcome) (upstream_fd : Z)
    (upstream_key : string) (used_cached : bool) (req : Request)
    (h : Handler) (w : World) : ctl * Handler * World :=
  let '(h, w) :=
    if upstream_reusable relay then (set_cached upstream_fd upstream_key h, w)
    else (if used_cached then set_cached (-1) "" h else h, discard upstream_fd w) in
  if negb (req_client_wants_keepalive req && client_can_keepalive relay)
  then (Break, h, w)
  else (Continue, h, w).

(** The round from [relay_response_and_decide_reuse] to its end. *)
Definition relay_and_decide (fuel : nat) (client_fd upstream_fd : Z)
    (upstream_key : string) (used_cached : bool) (req : Request)
    (h : Handler) (w : World) : outcome (ctl * Handler * World) :=
  '(relay, w) ← relay_response_and_decide_reuse fuel upstream_fd client_fd
                  (req_method req) w;
  Ret (decide_reuse relay upstream_fd upstream_key used_cached req h w).

(** The round from the upgrade test to its end, for a request whose
    route target parsed as [upstream_host:upstream_port]. *)
Definition forward (fuel : nat) (client_fd : Z) (req : Request)
    (upstream_host : string) (upstream_port : Z) (h : Handler) (w : World)
  : outcome (ctl * Handler * World) :=
  let upgrade := is_upgrade_request req in
  let upstream_key := upstream_host +:+ ":" +:+ to_string upstream_port in
  let '(h, w) := if upgrade then release_cached h w else (h, w) in
  let '(used_cached, upstream_fd, errno, h, w) :=
    if negb upgrade && (0 <=? cached_upstream_fd h)
       && String.eqb (cached_upstream_key h) upstream_key
    then (true, cached_upstream_fd h, EAGAIN, h, w)
    else
      let '(h, w) := if negb upgrade then release_cached h w else (h, w) in
      let '(fd, e, w) :=
        if upgrade then connect_upstream upstream_host upstream_port w
        else acquire cfg upstream_key upstream_host upstream_port w in
      (false, fd, e, h, w) in
  if upstream_fd <? 0 then
    if decide (errno = ETIMEDOUT)
    then Ret (Break, h, send_simple_response client_fd 504 "Gateway Timeout"
                          ("Upstream connect timed out" +:+ NL) w)
    else Ret (Break, h, send_simple_response client_fd 502 "Bad Gateway"
                          ("Upstream connection failed" +:+ NL) w)
  else
    let host_header :=
      if String.eqb upstream_host "127.0.0.1" || String.eqb upstream_host "::1"
      then "localhost" else upstream_host in
    let upstream_req := build_upstream_request req host_header upgrade true in
    let '(sent, w) := send_all upstream_fd upstream_req w in
    let '(used_cached, upstream_fd, h, w) :=
      if sent then (used_cached, upstream_fd, h, w)
      else if negb upgrade && used_cached then
        let '(h, w) := discard_cached h w in
        let '(fd, _, w) := acquire cfg upstream_key upstream_host upstream_port w in
        if fd <? 0 then (used_cached, fd, h, w)
        else
          let '(sent, w) := send_all fd upstream_req w in
          if sent then (false, fd, h, w)
          else (used_cached, -1, h, discard fd w)
      else if upgrade then (used_cached, -1, h, close upstream_fd w)
      else (used_cached, -1, h, discard upstream_fd w) in
    if upstream_fd <? 0 then
      Ret (Break, h, send_simple_response client_fd 502 "Bad Gateway"
                       ("Failed to forward request" +:+ NL) w)
    else if upgrade then
      let '(ok, w) := if negb (size (req_leftover req) =? 0)
                      then send_all upstream_fd (req_leftover req) w
                      else (true, w) in
      if negb ok then Ret (Break, h, close upstream_fd w)
      else Ret (Break, h, close upstream_fd (tunnel_bidirectional client_fd upstream_fd w))
    else relay_and_decide fuel client_fd upstream_fd upstream_key used_cached req h w.

(** What the round does with a request that was read. *)
Definition serve (fuel : nat) (client_fd : Z) (req : Request)
    (h : Handler) (w : World) : outcome (ctl * Handler * World) :=
  if String.eqb (req_path req) health_path then
    let '(ok, w) := send_all client_fd (health_response req w) w in
    if negb ok || negb (req_client_wants_keepalive req)
    then Ret (Break, h, w) else Ret (Continue, h, w)
  else if size (req_normalized_host req) =? 0 then
    Ret (Break, h, send_simple_response client_fd 400 "Bad Request"
                     ("Missing Host header" +:+ NL) w)
  else
    let req_host := req_normalized_host req in
    let '(route, w) := routes_lookup req_host w in
    match route with
    | None =>
        Ret (Break, h, send_simple_response client_fd 404 "Not Found"
                         ("No local route configured for " +:+ req_host +:+ NL) w)
    | Some target =>
        match parse_host_port target with
        | None =>
            Ret (Break, h, send_simple_response client_fd 502 "Bad Gateway"
                             ("Invalid target route" +:+ NL) w)
        | Some (upstream_host, upstream_port) =>
            forward fuel client_fd req upstream_host upstream_port h w
        end
    end.

(** What the round does when [read_request] returns false. *)
Definition reject (client_fd : Z) (parse_error : string) (w : World) : World :=
  if negb (size parse_error =? 0)
     && negb (String.eqb parse_error "client closed before request")
     && negb (String.eqb parse_error "client closed connection")
  then send_simple_response client_fd 400 "Bad Request" (parse_error +:+ NL) w
  else w.

(** One round of the [while] in [handle_client]. *)
Definition handle_client_round (fuel : nat) (client_fd : Z)
    (h : Handler) (w : World) : outcome (ctl * Handler * World) :=
  '(r, w) ← read_request_from fuel client_fd (pending h) w;
  match r with
  | ReadFail parse_error =>
      Ret (Break, set_pending "" h, reject client_fd parse_error w)
  | ReadOk req pending' =>
      serve fuel client_fd req (set_pending pending' h) w
  end.

(** The [while (g_running.load())] of [handle_client]; [rounds] bounds
    the number of rounds the model follows. *)
Fixpoint handle_client_loop (rounds fuel : nat) (client_fd : Z)
    (h : Handler) (w : World) : outcome (Handler * World) :=
  match rounds with
  | O => OutOfFuel
  | S rounds' =>
      let '(go, w) := load_running w in
      if negb go then Ret (h, w)
      else
        '(c, h, w) ← handle_client_round fuel client_fd h w;
        match c with
        | Break => Ret (h, w)
        | Continue => handle_client_loop rounds' fuel client_fd h w
        end
  end.

(** [handle_client(client_fd, routes)] *)
Definition handle_client (rounds fuel : nat) (client_fd : Z) (w : World)
  : outcome World :=
  '(h, w) ← handle_client_loop rounds fuel client_fd
              {| pending := ""; cached_upstream_fd := -1; cached_upstream_key := "" |} w;
  let '(_, w) := release_cached h w in
  Ret (close client_fd w).

End Handler.


(** ** The command line *)

(** [parse_u64_arg(raw, out)]: what it returns and what it leaves in
    [out].  [idx] is the number of bytes [std::stoull] has read. *)
Definition parse_u64_arg (raw : string) (out : Z) : bool * Z :=
  if String.eqb raw "" then (false, out)
  else
    match strto 10 raw with
    | None => (false, out)
    | Some (neg, v, rest) =>
        if two64 <=? v then (false, out)
        else
          let idx := size raw - size rest in
          (idx =? size raw, if neg then wrap64 (two64 - v) else v)
    end.

Definition INT32_MAX : Z := 2147483647.

(** [assign_positive_int(value, target)]: the result and [target]. *)
Definition assign_positive_int (value : string) (target : Z) : bool * Z :=
  let '(ok, parsed) := parse_u64_arg value 0 in
  if negb ok || (parsed =? 0) || (INT32_MAX <? parsed) then (false, target)
  else (true, parsed).

(** [assign_positive_size(value, target)]; the largest [size_t] is
    2^64-1. *)
Definition assign_positive_size (value : string) (target : Z) : bool * Z :=
  let '(ok, parsed) := parse_u64_arg value 0 in
  if negb ok || (parsed =? 0) || (two64 - 1 <? parsed) then (false, target)
  else (true, parsed).

(** The locals and globals that [main] sets from its arguments. *)
Record Startup := {
  listen : string;
  routes_path : string;
  pidfile : string;
  launchd_socket_name : string;
  config : Config;
}.

Definition initial_startup : Startup := {|
  listen := "127.0.0.1:80"; routes_path := ""; pidfile := "";
  launchd_socket_name := ""; config := default_config;
|}.

Definition set_config (c : Config) (st : Startup) : Startup :=
  {| listen := listen st; routes_path := routes_path st; pidfile := pidfile st;
     launchd_socket_name := launchd_socket_name st; config := c |}.

(** One option that takes a value, [arg] being its name: the new state,
    or the exit status of [main]. *)
Definition set_option (arg value : string) (st : Startup) : Z + Startup :=
  let c := config st in
  let number (assign : string → Z → bool * Z) (old : Z) (put : Z → Config) :=
    let '(ok, n) := assign value old in
    if ok then inr (set_config (put n) st) else inl 2 in
  if String.eqb arg "--listen" then
    inr {| listen := value; routes_path := routes_path st; pidfile := pidfile st;
           launchd_socket_name := launchd_socket_name st; config := c |}
  else if String.eqb arg "--routes" then
    inr {| listen := listen st; routes_path := value; pidfile := pidfile st;
           launchd_socket_name := launchd_socket_name st; config := c |}
  else if String.eqb arg "--pidfile" then
    inr {| listen := listen st; routes_path := routes_path st; pidfile := value;
           launchd_socket_name := launchd_socket_name st; config := c |}
  else if String.eqb arg "--launchd-socket" then
    inr {| listen := listen st; routes_path := routes_path st; pidfile := pidfile st;
           launchd_socket_name := value; config := c |}
  else if String.eqb arg "--max-active-clients" then
    number assign_positive_int (max_active_clients c) (λ n,
      {| pool_max_idle_per_key := pool_max_idle_per_key c;
         pool_max_idle_total := pool_max_idle_total c;
         pool_idle_timeout := pool_idle_timeout c;
         pool_max_age := pool_max_age c;
         upstream_connect_timeout_ms := upstream_connect_timeout_ms c;
         upstream_io_timeout_ms := upstream_io_timeout_ms c;
         client_io_timeout_ms := client_io_timeout_ms c;
         max_active_clients := n |})
  else if String.eqb arg "--upstream-connect-timeout-ms" then
    number assign_positive_int (upstream_connect_timeout_ms c) (λ n,
      {| pool_max_idle_per_key := pool_max_idle_per_key c;
         pool_max_idle_total := pool_max_idle_total c;
         pool_idle_timeout := pool_idle_timeout c;
         pool_max_age := pool_max_age c;
         upstream_connect_timeout_ms := n;
         upstream_io_timeout_ms := upstream_io_timeout_ms c;
         client_io_timeout_ms := client_io_timeout_ms c;
         max_active_clients := max_active_clients c |})
  else if String.eqb arg "--upstream-io-timeout-ms" then
    number assign_positive_int (upstream_io_timeout_ms c) (λ n,
      {| pool_max_idle_per_key := pool_max_idle_per_key c;
         pool_max_idle_total := pool_max_idle_total c;
         pool_idle_timeout := pool_idle_timeout c;
         pool_max_age := pool_max_age c;
         upstream_connect_timeout_ms := upstream_connect_timeout_ms c;
         upstream_io_timeout_ms := n;
         client_io_timeout_ms := client_io_timeout_ms c;
         max_active_clients := max_active_clients c |})
  else if String.eqb arg "--client-io-timeout-ms" then
    number assign_positive_int (client_io_timeout_ms c) (λ n,
      {| pool_max_idle_per_key := pool_max_idle_per_key c;
         pool_max_idle_total := pool_max_idle_total c;
         pool_idle_timeout := pool_idle_timeout c;
         pool_max_age := pool_max_age c;
         upstream_connect_timeout_ms := upstream_connect_timeout_ms c;
         upstream_io_timeout_ms := upstream_io_timeout_ms c;
         client_io_timeout_ms := n;
         max_active_clients := max_active_clients c |})
  else if String.eqb arg "--pool-max-idle-per-key" then
    number assign_positive_size (pool_max_idle_per_key c) (λ n,
      {| pool_max_idle_per_key := n;
         pool_max_idle_total := pool_max_idle_total c;
         pool_idle_timeout := pool_idle_timeout c;
         pool_max_age := pool_max_age c;
         upstream_connect_timeout_ms := upstream_connect_timeout_ms c;
         upstream_io_timeout_ms := upstream_io_timeout_ms c;
         client_io_timeout_ms := client_io_timeout_ms c;
         max_active_clients := max_active_clients c |})
  else if String.eqb arg "--pool-max-idle-total" then
    number assign_positive_size (pool_max_idle_total c) (λ n,
      {| pool_max_idle_per_key := pool_max_idle_per_key c;
         pool_max_idle_total := n;
         pool_idle_timeout := pool_idle_timeout c;
         pool_max_age := pool_max_age c;
         upstream_connect_timeout_ms := upstream_connect_timeout_ms c;
         upstream_io_timeout_ms := upstream_io_timeout_ms c;
         client_io_timeout_ms := client_io_timeout_ms c;
         max_active_clients := max_active_clients c |})
  else if String.eqb arg "--pool-idle-timeout-ms" then
    number assign_positive_int 0 (λ ms,
      {| pool_max_idle_per_key := pool_max_idle_per_key c;
         pool_max_idle_total := pool_max_idle_total c;
         pool_idle_timeout := ms;
         pool_max_age := pool_max_age c;
         upstream_connect_timeout_ms := upstream_connect_timeout_ms c;
         upstream_io_timeout_ms := upstream_io_timeout_ms c;
         client_io_timeout_ms := client_io_timeout_ms c;
         max_active_clients := max_active_clients c |})
  else if String.eqb arg "--pool-max-age-ms" then
    number assign_positive_int 0 (λ ms,
      {| pool_max_idle_per_key := pool_max_idle_per_key c;
         pool_max_idle_total := pool_max_idle_total c;
         pool_idle_timeout := pool_idle_timeout c;
         pool_max_age := ms;
         upstream_connect_timeout_ms := upstream_connect_timeout_ms c;
         upstream_io_timeout_ms := upstream_io_timeout_ms c;
         client_io_timeout_ms := client_io_timeout_ms c;
         max_active_clients := max_active_clients c |})
  else inl 2.

(** The [for] loop of [main] over [argv[1..]]: the exit status when
    [main] returns from inside the loop, else the state after it.  An
    option name that is the last argument has no value and falls
    through to the error at the end of the loop body, like a name that
    is not known. *)
Fixpoint parse_args (args : list string) (st : Startup) : Z + Startup :=
  match args with
  | [] => inr st
  | arg :: rest =>
      if String.eqb arg "-h" || String.eqb arg "--help" then inl 0
      else
        match rest with
        | [] => inl 2
        | value :: rest' =>
            match set_option arg value st with
            | inl status => inl status
            | inr st' => parse_args rest' st'
            end
        end
  end.

(** [parse_listen] *)
Definition parse_listen (listen : string) : option (string * Z) :=
  parse_host_port listen.

(** [main] up to the point where it writes the pid file: the exit
    status, or the state with [listen_host] and [listen_port]. *)
Definition main_setup (args : list string) : Z + Startup * string * Z :=
  match parse_args args initial_startup with
  | inl status => inl status
  | inr st =>
      if String.eqb (routes_path st) "" || String.eqb (pidfile st) "" then inl 2
      else
        match parse_listen (listen st) with
        | None => inl 2
        | Some (listen_host, listen_port) =>
            let c := config st in
            let c :=
              if pool_max_idle_total c <? pool_max_idle_per_key c then
                {| pool_max_idle_per_key := pool_max_idle_per_key c;
                   pool_max_idle_total := pool_max_idle_per_key c;
                   pool_idle_timeout := pool_idle_timeout c;
                   pool_max_age := pool_max_age c;
                   upstream_connect_timeout_ms := upstream_connect_timeout_ms c;
                   upstream_io_timeout_ms := upstream_io_timeout_ms c;
                   client_io_timeout_ms := client_io_timeout_ms c;
                   max_active_clients := max_active_clients c |}
              else c in
            inr (set_config c st, listen_host, listen_port)
        end
  end.

(** ** Admission of clients *)

(** [g_active_clients] is an [std::atomic<int>]: its arithmetic wraps
    at 32 bits. *)
Definition wrap32 (z : Z) : Z := (z + 2147483648) mod 4294967296 - 2147483648.

(** Where the accepting thread stands in [try_acquire_client_slot]:
    outside it, after the [fetch_add] that gave [prev], or after the
    [fetch_sub] of the rejecting branch. *)
Inductive acceptor :=
| Outside
| Added (prev : Z)
| Undone.

(** The two counters, the handler threads that have been started and
    have not yet run their [SlotGuard] destructor, and the accepting
    thread. *)
Record Admission := {
  counter : Z;
  rejections : Z;
  handlers : Z;
  accepting : acceptor;
}.

(** The atomic steps of the accept loop and of the handler threads, in
    whatever order the scheduler runs them:
    - [FetchAdd]: [prev = g_active_clients.fetch_add(1)];
    - [Compare]: the test [prev >= g_max_active_clients], followed by
      the [fetch_sub] when it holds, and by [return true] and the start
      of the handler thread when it does not;
    - [CountRejection]: [g_overload_rejections.fetch_add(1)] and
      [return false];
    - [HandlerExit]: [release_client_slot()] at the end of a handler
      thread. *)
Inductive slot_event := FetchAdd | Compare | CountRejection | HandlerExit.

Definition slot_step (max_clients : Z) (s : Admission) (e : slot_event)
  : option Admission :=
  match e, accepting s with
  | FetchAdd, Outside =>
      Some {| counter := wrap32 (counter s + 1); rejections := rejections s;
              handlers := handlers s; accepting := Added (counter s) |}
  | Compare, Added prev =>
      if max_clients <=? prev then
        Some {| counter := wrap32 (counter s - 1); rejections := rejections s;
                handlers := handlers s; accepting := Undone |}
      else
        Some {| counter := counter s; rejections := rejections s;
                handlers := handlers s + 1; accepting := Outside |}
  | CountRejection, Undone =>
      Some {| counter := counter s; rejections := wrap64 (rejections s + 1);
              handlers := handlers s; accepting := Outside |}
  | HandlerExit, _ =>
      if 0 <? handlers s then
        Some {| counter := wrap32 (counter s - 1); rejections := rejections s;
                handlers := handlers s - 1; accepting := accepting s |}
      else None
  | _, _ => None
  end.

(** A schedule, run from a state; [None] when it asks for a step that
    no thread can take. *)
Fixpoint run_slots (max_clients : Z) (evs : list slot_event) (s : Admission)
  : option Admission :=
  match evs with
  | [] => Some s
  | e :: evs' =>
      match slot_step max_clients s e with
      | Some s' => run_slots max_clients evs' s'
      | None => None
      end
  end.

Definition admission_start : Admission :=
  {| counter := 0; rejections := 0; handlers := 0; accepting := Outside |}.

(** ** The routes file *)

Definition DQUOTE : ascii := "034"%char.

(** The longest run of bytes other than a double quote, and what
    follows it (a class negated on the quote, starred). *)
Fixpoint span_not_quote (s : string) : string * string :=
  match s with
  | EmptyString => (EmptyString, EmptyString)
  | String c s' =>
      if Ascii.eqb c DQUOTE then (EmptyString, s)
      else let '(a, r) := span_not_quote s' in (String c a, r)
  end.

(** A match of [pair_re] at the head of [s]: a quote, one or more
    bytes other than a quote (the first group), a quote, white space, a
    colon, white space, a quote, bytes other than a quote (the second
    group), a quote.  The result is the two groups and the text after
    the match.  No part of the expression can match in two ways, so the
    match at a position is unique. *)
Definition match_pair (s : string) : option (string * string * string) :=
  match s with
  | String q s1 =>
      if Ascii.eqb q DQUOTE then
        let '(host, s2) := span_not_quote s1 in
        if String.eqb host "" then None
        else
          match s2 with
          | String _ s3 =>
              match ltrim s3 with
              | String c s5 =>
                  if Ascii.eqb c ":" then
                    match ltrim s5 with
                    | String q' s7 =>
                        if Ascii.eqb q' DQUOTE then
                          let '(target, s8) := span_not_quote s7 in
                          match s8 with
                          | String _ s9 => Some (host, target, s9)
                          | EmptyString => None
                          end
                        else None
                    | EmptyString => None
                    end
                  else None
              | EmptyString => None
              end
          | EmptyString => None
          end
      else None
  | EmptyString => None
  end.

(** The matches an [std::sregex_iterator] goes through: the leftmost
    match, then the leftmost one in what follows it, and so on.  [skip]
    counts the bytes of the last match that are still to be passed. *)
Fixpoint route_pairs (skip : nat) (s : string) : list (string * string) :=
  match s with
  | EmptyString => []
  | String c s' =>
      match skip with
      | S k => route_pairs k s'
      | O =>
          match match_pair s with
          | Some (host, target, rest) =>
              (host, target)
              :: route_pairs (String.length s' - String.length rest) s'
          | None => route_pairs 0 s'
          end
      end
  end.

(** [parsed[host] = target] for a match whose two groups, lowered and
    trimmed, are not empty. *)
Definition add_route (parsed : gmap string string) (m : string * string)
  : gmap string string :=
  let host := to_lower m.1 in
  let target := trim m.2 in
  if negb (String.eqb host "") && negb (String.eqb target "")
  then <[host := target]> parsed else parsed.

(** The table that [reload_if_needed] builds from the content of the
    routes file. *)
Definition parse_routes (content : string) : gmap string string :=
  foldl add_route ∅ (route_pairs 0 content).

(** * Vocabulary of the properties *)

(** [pat] occurs in [s]. *)
Definition is_substring (pat s : string) : Prop :=
  ∃ pre post, s = pre +:+ pat +:+ post.

(** [s] has no byte [c]. *)
Definition no_char (c : ascii) (s : string) : Prop :=
  ∀ pre post, s ≠ pre +:+ String c post.

(** The request has a [Connection] header whose value, in lower case,
    contains [pat]. *)
Definition connection_has (req : Request) (pat : string) : Prop :=
  ∃ v, req_headers_lc req !! "connection" = Some v ∧ is_substring pat (to_lower v).

(** The answer of the probe for one peek that was not interrupted. *)
Definition peek_usable (ev : recv_event) : bool :=
  match ev with
  | RecvErr EAGAIN | RecvErr EWOULDBLOCK => true
  | _ => false
  end.

(** A decimal numeral: at least one byte, all of them digits. *)
Fixpoint all_digits (s : string) : bool :=
  match s with
  | EmptyString => true
  | String c s' => bool_decide (is_Some (digit_of 10 c)) && all_digits s'
  end.

Definition is_decimal (s : string) : bool :=
  negb (String.eqb s "") && all_digits s.

(** The number a decimal numeral denotes. *)
Fixpoint decimal_value_from (acc : Z) (s : string) : Z :=
  match s with
  | EmptyString => acc
  | String c s' => decimal_value_from (acc * 10 + (code c - 48)) s'
  end.

Definition decimal_value (s : string) : Z := decimal_value_from 0 s.

(** ** Response heads *)

(** No byte of [s] is white space. *)
Fixpoint no_space (s : string) : bool :=
  match s with
  | EmptyString => true
  | String c s' => negb (isspace c) && no_space s'
  end.

(** [s] does not begin with a decimal digit. *)
Definition no_leading_digit (s : string) : bool :=
  match s with
  | EmptyString => true
  | String c _ => negb (bool_decide (is_Some (digit_of 10 c)))
  end.

(** The status code a response head carries: the integer that follows
    the first word of its first line, as [operator>>] reads the two. *)
Definition status_of_head (raw_headers : string) : option Z :=
  match getlines raw_headers with
  | [] => None
  | line0 :: _ =>
      match extract_word (strip_cr line0) with
      | None => None
      | Some (_, after_version) => fst <$> extract_int after_version
      end
  end.

(** A header line that declares a length [std::stoull] rejects: its
    name, trimmed and in lower case, is content-length. *)
Definition bad_length_line (line0 : string) : Prop :=
  ∃ pos, find_char (strip_cr line0) ":" = Some pos
         ∧ to_lower (trim (substr (strip_cr line0) 0 pos)) = "content-length"
         ∧ stoull 10 (to_lower (trim (substr_from (strip_cr line0) (pos + 1)))) = None.

(** The head has such a line after its first line and before its blank
    line. *)
Definition rejected_length (raw_headers : string) : Prop :=
  ∃ line0 before line after,
    getlines raw_headers = line0 :: (before ++ line :: after)%list
    ∧ Forall (λ l, strip_cr l ≠ "") before
    ∧ bad_length_line line.

(** ** A small world to run the handler in

    One client on descriptor 5 and one upstream that [connect_upstream]
    returns on descriptor 7; both take every byte written to them.  The
    route table sends [example.test] to [target]. *)

Definition accept_all : list send_event := repeat (Sent 65536%positive) 8.

Definition example_world (client_rx upstream_rx : list recv_event)
    (target : string) : World := {|
  sockets :=
    <[5 := {| rx := client_rx; tx := accept_all; peeks := []; wire := "" |}]>
      (<[7 := {| rx := upstream_rx; tx := accept_all;
                 peeks := [RecvErr EAGAIN; RecvErr EAGAIN]; wire := "" |}]> ∅);
  closed := [];
  pool := {| by_key := ∅; idle_total := 0 |};
  routes := {[ "example.test" := target ]};
  connects := [(7, EAGAIN)];
  clock := [1000; 1001; 1002];
  running := [true; true; true];
  active_clients := 1;
  overload_rejections := 0;
|}.

(** The tunnel is not entered in these runs. *)
Definition no_tunnel (a_fd b_fd : Z) (w : World) : World := w.

Definition example_request : string :=
  "GET /p HTTP/1.1" +:+ CRLF +:+ "Host: example.test" +:+ CRLF +:+ CRLF.

Definition example_response : string :=
  "HTTP/1.1 200 OK" +:+ CRLF +:+ "Content-Length: 2" +:+ CRLF +:+ CRLF +:+ "OK".

(** What the client on descriptor 5 has been sent when the handler is
    done. *)
Definition client_sees (o : outcome World) : option string :=
  match o with
  | Ret w => Some (wire (socket_of w 5))
  | _ => None
  end.

(** The fields of [s] between occurrences of the byte [c]; two
    neighbouring occurrences enclose an empty field. *)
Fixpoint split_at (c : ascii) (s : string) : list string :=
  match s with
  | EmptyString => [EmptyString]
  | String a s' =>
      if Ascii.eqb a c then EmptyString :: split_at c s'
      else match split_at c s' with
           | [] => [String a EmptyString]
           | f :: fs => String a f :: fs
           end
  end.

(** The request line as the specification words it: METHOD SP PATH SP
    VERSION, three fields that are not empty, one space between them. *)
Definition exact_request_line (line : string) : bool :=
  match split_at " " line with
  | [method; path; version] =>
      negb (String.eqb method "") && negb (String.eqb path "")
      && negb (String.eqb version "")
  | _ => false
  end.

(** Reading a body with chunked framing: what [read_request] does after
    the head when it has selected that framing.  No [Content-Length]
    enters here. *)
Definition read_chunked (fuel : nat) (rx : list recv_event) (req : Request)
    (initial : string) : outcome (read_result * list recv_event) :=
  '(r, rx) ← decode_chunked_body fuel rx initial;
  match r with
  | ChunkedFail error => Ret (ReadFail error, rx)
  | ChunkedOk body leftover =>
      Ret (ReadOk (with_body (with_chunked req true) body leftover) leftover, rx)
  end.

(** The parse errors after which the handler leaves without a reply. *)
Definition silent_error (parse_error : string) : bool :=
  String.eqb parse_error ""
  || String.eqb parse_error "client closed before request"
  || String.eqb parse_error "client closed connection".

(** ** The pool under a sequence of calls *)

(** The two caps are [size_t] values. *)
Definition caps_in_range (cfg : Config) : Prop :=
  0 ≤ pool_max_idle_per_key cfg < two64 ∧ 0 ≤ pool_max_idle_total cfg < two64.

(** The two caps: the idle count is within the global cap and every
    per-key list is within the per-key cap. *)
Definition pool_within_caps (cfg : Config) (p : UpstreamPool) : Prop :=
  0 ≤ idle_total p ≤ pool_max_idle_total cfg
  ∧ ∀ key conns, by_key p !! key = Some conns →
      Z.of_nat (length conns) ≤ pool_max_idle_per_key cfg.

Inductive pool_op :=
| Acquire (key host : string) (port : Z)
| Release (key : string) (fd : Z).

Definition run_op (cfg : Config) (w : World) (op : pool_op) : World :=
  match op with
  | Acquire key host port => (acquire cfg key host port w).2
  | Release key fd => release cfg key fd w
  end.

Definition run_ops (cfg : Config) (ops : list pool_op) (w : World) : World :=
  foldl (run_op cfg) w ops.

(** The bytes that a run of [recv] results hands over. *)
Fixpoint payload (evs : list recv_event) : string :=
  match evs with
  | [] => ""
  | Recv bytes :: rest => bytes +:+ payload rest
  | RecvErr _ :: rest => payload rest
  end.

(** Between the worlds [w] and [w'] the buffer grew from [buf] to [buf']
    by exactly the bytes received on [fd] in between. *)
Definition received (fd : Z) (w w' : World) (buf buf' : string) : Prop :=
  ∃ consumed, rx (socket_of w fd) = (consumed ++ rx (socket_of w' fd))%list
              ∧ buf' = buf +:+ payload consumed.


(** ** More vocabulary *)

(** Every byte of [s] is white space. *)
Fixpoint all_space (s : string) : bool :=
  match s with
  | EmptyString => true
  | String c s' => isspace c && all_space s'
  end.

(** The first and the last byte of a string. *)
Definition first_char (s : string) : option ascii :=
  match s with
  | EmptyString => None
  | String c _ => Some c
  end.

Fixpoint last_char (s : string) : option ascii :=
  match s with
  | EmptyString => None
  | String c EmptyString => Some c
  | String _ s' => last_char s'
  end.

(** [s] neither begins nor ends with white space. *)
Definition no_outer_space (s : string) : Prop :=
  (∀ c, first_char s = Some c → isspace c = false)
  ∧ (∀ c, last_char s = Some c → isspace c = false).

(** The value of the last header in [headers] whose name is [key] once
    lower-cased. *)
Fixpoint last_header (key : string) (headers : list (string * string))
  : option string :=
  match headers with
  | [] => None
  | (k, v) :: rest =>
      match last_header key rest with
      | Some x => Some x
      | None => if String.eqb (to_lower k) key then Some v else None
      end
  end.

(** The header names [build_upstream_request] regenerates or drops. *)
Definition hop_headers : list string :=
  ["host"; "connection"; "proxy-connection"; "x-forwarded-for";
   "x-forwarded-host"; "x-forwarded-proto"; "content-length"; "transfer-encoding"].

(** A header as [build_upstream_request] writes it. *)
Definition header_line (kv : string * string) : string :=
  kv.1 +:+ ": " +:+ kv.2 +:+ CRLF.

(** The strings of a list, one after the other. *)
Fixpoint concat_strings (l : list string) : string :=
  match l with
  | [] => ""
  | s :: rest => s +:+ concat_strings rest
  end.

(** The idle connections a pool holds, counted over its lists. *)
Definition total_idle (m : gmap string (list PooledConn)) : Z :=
  map_fold (λ _ conns acc, Z.of_nat (length conns) + acc) 0 m.

(** [idle_total_] is the number of parked connections. *)
Definition pool_counted (p : UpstreamPool) : Prop :=
  idle_total p = total_idle (by_key p).

(** The invariant of the walk of [reap_locked] over the keys met so
    far ([m]), with [r] the table, the world and the idle count that
    the walk has built. *)
Definition reaped (cfg : Config) (now : Z) (w : World)
    (r : gmap string (list PooledConn) * World * Z)
    (m : gmap string (list PooledConn)) : Prop :=
  (∀ key conns, r.1.1 !! key = Some conns →
     conns ≠ []
     ∧ Forall (λ c, is_conn_fresh cfg now c = true) conns
     ∧ ∃ old, m !! key = Some old ∧ sublist conns old)
  ∧ (∀ key old c, m !! key = Some old → c ∈ old →
       (∃ conns, r.1.1 !! key = Some conns ∧ c ∈ conns)
       ∨ fd c ∈ closed r.1.2)
  ∧ (∀ x, x ∈ closed w → x ∈ closed r.1.2)
  ∧ connects r.1.2 = connects w.

(** A numeral as [std::stoull] reads one to its end in base 10: white
    space, an optional sign, decimal digits below 2^64; a minus sign
    negates modulo 2^64. *)
Definition u64_numeral (raw : string) (n : Z) : Prop :=
  ∃ ws sign digits,
    raw = ws +:+ sign +:+ digits
    ∧ all_space ws = true
    ∧ (sign = "" ∨ sign = "+" ∨ sign = "-")
    ∧ is_decimal digits = true
    ∧ decimal_value digits < two64
    ∧ n = if String.eqb sign "-" then wrap64 (two64 - decimal_value digits)
          else decimal_value digits.

(** The tunables as [main] leaves them. *)
Definition config_in_range (c : Config) : Prop :=
  1 ≤ pool_max_idle_per_key c < two64
  ∧ 1 ≤ pool_max_idle_total c < two64
  ∧ 1 ≤ pool_idle_timeout c ≤ INT32_MAX
  ∧ 1 ≤ pool_max_age c ≤ INT32_MAX
  ∧ 1 ≤ upstream_connect_timeout_ms c ≤ INT32_MAX
  ∧ 1 ≤ upstream_io_timeout_ms c ≤ INT32_MAX
  ∧ 1 ≤ client_io_timeout_ms c ≤ INT32_MAX
  ∧ 1 ≤ max_active_clients c ≤ INT32_MAX.

(** The counter stands for the running handlers, and for the client
    being admitted while the accepting thread is between its
    [fetch_add] and its test. *)
Definition slots_consistent (max_clients : Z) (s : Admission) : Prop :=
  0 ≤ handlers s ≤ max_clients
  ∧ match accepting s with
    | Added prev => counter s = wrap32 (handlers s + 1) ∧ handlers s ≤ prev
    | _ => counter s = handlers s
    end.

(** The probes of the entries [back_first], taken newest first, all
    fail; each entry is closed before the next is probed. *)
Fixpoint probes_fail (back_first : list PooledConn) (w : World) : Prop :=
  match back_first with
  | [] => True
  | c :: rest =>
      (socket_is_idle_usable (fd c) w).1 = false
      ∧ probes_fail rest (close (fd c) (socket_is_idle_usable (fd c) w).2)
  end.

(** The world those probes and closes leave. *)
Fixpoint probed_away (back_first : list PooledConn) (w : World) : World :=
  match back_first with
  | [] => w
  | c :: rest => probed_away rest (close (fd c) (socket_is_idle_usable (fd c) w).2)
  end.

(** The size that the decoder reads from a chunk's first line. *)
Definition chunk_size_of (line : string) : option Z :=
  let t := trim line in
  stoull 16 (match find_char t ";" with
             | None => t
             | Some semi => substr t 0 semi
             end).

(** A chunk is its size line and its data. *)
Definition encode_chunk (c : string * string) : string :=
  c.1 +:+ CRLF +:+ c.2 +:+ CRLF.

Definition chunk_ok (c : string * string) : Prop :=
  no_char CR c.1 ∧ chunk_size_of c.1 = Some (size c.2) ∧ 0 < size c.2.

Definition trailer_ok (t : string) : Prop := t ≠ "" ∧ no_char CR t.

(** The chunks, the line of the last chunk (of size zero), the trailer
    lines and the blank line that ends the body. *)
Definition chunked_encoding (chunks : list (string * string)) (last : string)
    (trailers : list string) : string :=
  concat_strings (encode_chunk <$> chunks)
  +:+ last +:+ CRLF
  +:+ concat_strings ((λ t, t +:+ CRLF) <$> trailers)
  +:+ CRLF.

(** [s] between double quotes. *)
Definition quoted (s : string) : string :=
  String DQUOTE (s +:+ String DQUOTE "").

(** Entries written as a quoted host, a colon, a space and a quoted
    target, each followed by a separator. *)
Fixpoint render_routes (entries : list (string * string * string)) : string :=
  match entries with
  | [] => ""
  | (host, target, sep) :: rest =>
      quoted host +:+ ": " +:+ quoted target +:+ sep +:+ render_routes rest
  end.

Definition entry_ok (e : string * string * string) : Prop :=
  e.1.1 ≠ "" ∧ no_char DQUOTE e.1.1 ∧ no_char DQUOTE e.1.2 ∧ no_char DQUOTE e.2.

(** How many entries of a list of descriptors are the number [fd0]. *)
Fixpoint occurrences (fd0 : Z) (l : list Z) : Z :=
  match l with
  | [] => 0
  | x :: l' => (if decide (x = fd0) then 1 else 0) + occurrences fd0 l'
  end.

(** How many entries of the pool hold the number [fd0]. *)
Definition parked_count (fd0 : Z) (m : gmap string (list PooledConn)) : Z :=
  map_fold (λ _ conns acc, acc + occurrences fd0 (fd <$> conns)) 0 m.

(** What has become of the descriptors with the number [fd0]: the
    closes of it on record and the entries of the pool that hold it. *)
Definition settled (fd0 : Z) (w : World) : Z :=
  occurrences fd0 (closed w) + parked_count fd0 (by_key (pool w)).

(** The two lists hold every descriptor number (the failures, below
    zero, apart) the same number of times. *)
Definition same_tokens (a b : list Z) : Prop :=
  ∀ fd0, 0 ≤ fd0 → occurrences fd0 a = occurrences fd0 b.

(** From [w] to [w'] some connections have been opened, and every
    descriptor is accounted for: for each number, the descriptors closed
    or parked in between, and those in the hands of the code on the way
    out ([outs]), are as many as those opened in between and those in
    its hands on the way in ([ins]). *)
Definition moves (w w' : World) (ins outs : list Z) : Prop :=
  ∃ used, connects w = (used ++ connects w')%list
          ∧ ∀ fd0, 0 ≤ fd0 →
              settled fd0 w' + occurrences fd0 outs
              = settled fd0 w + occurrences fd0 (used.*1) + occurrences fd0 ins.

(** Nothing has happened to the descriptors. *)
Definition same_fds (w w' : World) : Prop :=
  pool w' = pool w ∧ closed w' = closed w ∧ connects w' = connects w.

(** The cached descriptor of a handler comes with the key of its
    endpoint. *)
Definition handler_ok (h : Handler) : Prop :=
  0 ≤ cached_upstream_fd h → cached_upstream_key h ≠ "".

(** The descriptor the handler has cached. *)
Definition owned (h : Handler) : list Z := [cached_upstream_fd h].

(** [w'] comes from [w] by receiving [consumed] from the upstream [up]
    and writing [fwd] to the client [cl]. *)
Definition relayed (up cl : Z) (w w' : World) (consumed : list recv_event)
    (fwd : string) : Prop :=
  rx (socket_of w up) = (consumed ++ rx (socket_of w' up))%list
  ∧ wire (socket_of w' cl) = wire (socket_of w cl) +:+ fwd.
(** * Properties *)

(** ** Strings *)

#[local] Arguments String.append !_ _ / : simpl nomatch.

Lemma append_nil_r (s : string) : s +:+ "" = s.
Proof. induction s as [|c s IH]; simpl; [done | by rewrite IH]. Qed.

Lemma append_assoc (a b c : string) : (a +:+ b) +:+ c = a +:+ (b +:+ c).
Proof. induction a as [|x a IH]; simpl; [done | by rewrite IH]. Qed.

Lemma length_append (a b : string) :
  String.length (a +:+ b) = (String.length a + String.length b)%nat.
Proof. induction a as [|x a IH]; simpl; [done | by rewrite IH]. Qed.

Lemma size_append (a b : string) : size (a +:+ b) = size a + size b.
Proof. unfold size. rewrite length_append. lia. Qed.

Lemma size_nonneg (s : string) : 0 ≤ size s.
Proof. unfold size. lia. Qed.

Lemma size_0_empty (s : string) : size s = 0 → s = "".
Proof. destruct s; [done | unfold size; simpl; lia]. Qed.

Lemma substring_0_0 (s : string) : substring 0 0 s = "".
Proof. by destruct s. Qed.

Lemma substring_0_app (a b : string) : substring 0 (String.length a) (a +:+ b) = a.
Proof.
  induction a as [|x a IH]; simpl.
  - apply substring_0_0.
  - by rewrite IH.
Qed.

Lemma substring_skip_app (a b : string) (m n : nat) :
  substring (String.length a + m) n (a +:+ b) = substring m n b.
Proof. induction a as [|x a IH]; simpl; [done | apply IH]. Qed.

Lemma substring_all (s : string) : substring 0 (String.length s) s = s.
Proof.
  induction s as [|x s IH]; simpl; [done | by rewrite IH].
Qed.

(** A [substring] of full length sits inside the string. *)
Lemma substring_0_split (n : nat) (s : string) :
  String.length (substring 0 n s) = n → ∃ post, s = substring 0 n s +:+ post.
Proof.
  revert s. induction n as [|n IH]; intros s Hlen.
  - exists s. by rewrite substring_0_0.
  - destruct s as [|c s]; simpl in *; [done|].
    destruct (IH s) as [post Hp]; [lia|].
    exists post. by rewrite <- Hp.
Qed.

Lemma substring_split (m n : nat) (s : string) :
  String.length (substring m n s) = n →
  ∃ pre post, s = pre +:+ substring m n s +:+ post ∧ String.length pre = m ∨ n = O.
Proof.
  revert s. induction m as [|m IH]; intros s Hlen.
  - destruct (substring_0_split n s Hlen) as [post Hp].
    exists "", post. left. simpl. done.
  - destruct s as [|c s].
    + exists "", "". right. simpl in Hlen. by destruct n.
    + simpl in *. destruct (IH s Hlen) as (pre & post & [[Hs Hl] | Hn]).
      * exists (String c pre), post. left. simpl. split; [by rewrite <- Hs | by rewrite Hl].
      * exists "", "". by right.
Qed.

Lemma find_at_0 (s pat : string) :
  find s pat 0 = Z.of_nat <$> String.index 0 pat s.
Proof.
  unfold find. pose proof (size_nonneg s).
  destruct (size s <? 0) eqn:E; [lia | done].
Qed.

(** [find] from the start answers whether the pattern occurs. *)
Lemma found_find_iff (s pat : string) :
  found (find s pat 0) = true ↔ is_substring pat s.
Proof.
  rewrite find_at_0. split.
  - destruct (String.index 0 pat s) as [m|] eqn:E; simpl; [intros _ | done].
    apply index_correct1 in E.
    destruct (substring_split m (String.length pat) s) as (pre & post & [[Hs _] | Hn]).
    + by rewrite E.
    + exists pre, post. by rewrite E in Hs.
    + exists "", s. destruct pat; [done | simpl in Hn; lia].
  - intros (pre & post & ->).
    destruct (String.index 0 pat (pre +:+ pat +:+ post)) as [m|] eqn:E; [done|].
    exfalso. destruct pat as [|c pat].
    + destruct (pre +:+ "" +:+ post); simpl in E; [done|].
      simpl in E. done.
    + eapply (index_correct3 0 (String.length pre)); [exact E | done | lia |].
      replace (String.length pre) with (String.length pre + 0)%nat by lia.
      rewrite substring_skip_app. apply substring_0_app.
Qed.

Lemma found_find_false (s pat : string) :
  found (find s pat 0) = false ↔ ¬ is_substring pat s.
Proof.
  rewrite <- found_find_iff. destruct (found _); split; congruence.
Qed.

(** ** Keep-alive derivation *)

Lemma connection_flag (req : Request) (pat : string) :
  match req_headers_lc req !! "connection" with
  | Some v => found (find (to_lower v) pat 0)
  | None => false
  end = true ↔ connection_has req pat.
Proof.
  unfold connection_has. destruct (req_headers_lc req !! "connection") as [v|].
  - rewrite found_find_iff. split; [eauto | by intros (? & [= <-] & ?)].
  - split; [done | by intros (? & ? & ?)].
Qed.

(** C3, as amended: the client keep-alive flag is true exactly when the
    version, compared without regard to case, is HTTP/1.1 and the
    Connection value does not contain "close", or it is HTTP/1.0 and the
    Connection value contains "keep-alive" (both searched in the
    lower-cased value); for every other version it is false. *)
Theorem keepalive_derivation (req : Request) :
  request_wants_keepalive req = true ↔
    (to_lower (req_version req) = "http/1.1" ∧ ¬ connection_has req "close")
    ∨ (to_lower (req_version req) = "http/1.0" ∧ connection_has req "keep-alive").
Proof.
  unfold request_wants_keepalive.
  pose proof (connection_flag req "close") as Hc.
  pose proof (connection_flag req "keep-alive") as Hk.
  destruct (req_headers_lc req !! "connection") as [v|];
    destruct (String.eqb_spec (to_lower (req_version req)) "http/1.1") as [E1|E1];
    destruct (String.eqb_spec (to_lower (req_version req)) "http/1.0") as [E0|E0];
    try (rewrite E1 in E0; discriminate);
    rewrite ?negb_true_iff, <- ?not_true_iff_false;
    try rewrite Hc; try rewrite Hk; intuition congruence.
Qed.

(** C3, counterexample: a version other than the two strings of the claim
    for which the flag is true. *)
Lemma keepalive_other_version_counterexample :
  ¬ (∀ req : Request,
       req_version req ≠ "HTTP/1.1" → req_version req ≠ "HTTP/1.0" →
       request_wants_keepalive req = false).
Proof.
  intros H.
  specialize (H {| req_method := "GET"; req_path := "/"; req_version := "http/1.1";
                   req_headers := []; req_headers_lc := ∅;
                   req_body := ""; req_leftover := ""; req_normalized_host := "";
                   req_chunked := false; req_client_wants_keepalive := false |}).
  simpl in H. vm_compute in H. by specialize (H ltac:(discriminate) ltac:(discriminate)).
Qed.

(** ** The liveness probe *)

(** C4, as amended: the probe skips the peeks that fail with EINTR and
    classifies by the first one that does not: usable when it fails with
    EAGAIN or EWOULDBLOCK; not usable when it returns 0 bytes, when bytes
    are pending, and on any other error. *)
Theorem socket_is_idle_usable_classifies (k : nat) (ev : recv_event)
    (rest : list recv_event) :
  ev ≠ RecvErr EINTR →
  socket_is_idle_usable_on (repeat (RecvErr EINTR) k ++ ev :: rest)
    = (peek_usable ev, rest)
  ∧ (peek_usable ev = true ↔ ev = RecvErr EAGAIN ∨ ev = RecvErr EWOULDBLOCK).
Proof.
  intros Hev. split.
  - induction k as [|k IH]; simpl.
    + destruct ev as [bytes | e]; simpl.
      * by destruct (size bytes =? 0).
      * destruct e; simpl; try done.
    + exact IH.
  - destruct ev as [bytes | e]; simpl.
    + split; [done | by intros [?|?]].
    + destruct e; split; (by auto) || (by intros [?|?]).
Qed.

Lemma socket_is_idle_usable_classifies_witness :
  socket_is_idle_usable_on (repeat (RecvErr EINTR) 2 ++ Recv "x" :: [RecvErr EAGAIN])
    = (false, [RecvErr EAGAIN]).
Proof.
  exact (proj1 (socket_is_idle_usable_classifies 2 (Recv "x") [RecvErr EAGAIN]
                  ltac:(discriminate))).
Defined.

(** C4, counterexample: a peek that fails with an error other than
    EAGAIN and EWOULDBLOCK, after which the probe still answers usable. *)
Lemma socket_is_idle_usable_other_error_counterexample :
  ¬ (∀ (e : Errno) (rest : list recv_event),
       e ≠ EAGAIN → e ≠ EWOULDBLOCK →
       (socket_is_idle_usable_on (RecvErr e :: rest)).1 = false).
Proof.
  intros H. specialize (H EINTR [RecvErr EAGAIN]). simpl in H.
  by specialize (H ltac:(discriminate) ltac:(discriminate)).
Qed.

(** ** Response framing *)

Lemma classify_body_no_body (req_method : string) (out : ResponseMeta) :
  no_body (classify_body req_method out)
  = (String.eqb (to_lower req_method) "head" || informational (status_code out)
     || (status_code out =? 204) || (status_code out =? 304)).
Proof.
  unfold classify_body. simpl.
  by destruct (String.eqb _ _ || _ || _ || _).
Qed.

Lemma classify_body_status (req_method : string) (out : ResponseMeta) :
  status_code (classify_body req_method out) = status_code out.
Proof.
  unfold classify_body. simpl.
  by destruct (String.eqb _ _ || _ || _ || _).
Qed.

Lemma classify_body_framing (req_method : string) (out : ResponseMeta) :
  no_body (classify_body req_method out) = true →
  meta_chunked (classify_body req_method out) = false
  ∧ content_length (classify_body req_method out) = Some 0.
Proof.
  unfold classify_body. simpl.
  by destruct (String.eqb _ _ || _ || _ || _).
Qed.

(** ** Route targets *)

Lemma rfind_nat_None (s : string) (c : ascii) :
  rfind_nat s c = None ↔ no_char c s.
Proof.
  induction s as [|a s IH]; simpl.
  - split; [|done]. intros _ [|x pre] post; simpl; discriminate.
  - destruct (rfind_nat s c) as [i|] eqn:E.
    + split; [done|]. intros Hno. exfalso.
      assert (Hs : no_char c s).
      { intros pre post Hp. apply (Hno (String a pre) post). simpl. by rewrite Hp. }
      apply IH in Hs. done.
    + destruct (Ascii.eqb_spec a c) as [->|Hac].
      * split; [done|]. intros Hno. exfalso. by apply (Hno "" s).
      * split; [|done]. intros _ [|x pre] post; simpl; intros [= ? Hp].
        -- done.
        -- subst. by apply (proj1 IH eq_refl pre post).
Qed.

Lemma rfind_nat_Some (s : string) (c : ascii) (i : nat) :
  rfind_nat s c = Some i →
  ∃ pre post, s = pre +:+ String c post ∧ String.length pre = i ∧ no_char c post.
Proof.
  revert i. induction s as [|a s IH]; intros i; simpl; [done|].
  destruct (rfind_nat s c) as [j|] eqn:E.
  - intros [= <-]. destruct (IH j eq_refl) as (pre & post & -> & <- & Hno).
    by exists (String a pre), post.
  - destruct (Ascii.eqb_spec a c) as [->|Hac]; [|done].
    intros [= <-]. exists "", s. split; [done|]. split; [done|].
    by apply rfind_nat_None.
Qed.

Lemma rfind_nat_app (pre post : string) (c : ascii) :
  no_char c post → rfind_nat (pre +:+ String c post) c = Some (String.length pre).
Proof.
  intros Hno%rfind_nat_None. induction pre as [|a pre IH]; simpl.
  - by rewrite Hno, Ascii.eqb_refl.
  - by rewrite IH.
Qed.

Lemma substr_prefix (a b : string) : substr (a +:+ b) 0 (size a) = a.
Proof.
  unfold substr, substr_throws. pose proof (size_nonneg (a +:+ b)).
  destruct (size (a +:+ b) <? 0) eqn:E; [lia|].
  rewrite size_append. pose proof (size_nonneg b).
  replace (Z.to_nat (Z.min (size a) (size a + size b - 0))) with (String.length a)
    by (unfold size in *; lia).
  apply substring_0_app.
Qed.

Lemma substr_from_suffix (a b : string) : substr_from (a +:+ b) (size a) = b.
Proof.
  unfold substr_from, substr, substr_throws. rewrite size_append.
  pose proof (size_nonneg a). pose proof (size_nonneg b).
  destruct (size a + size b <? size a) eqn:E; [lia|].
  replace (Z.to_nat (size a)) with (String.length a + 0)%nat by (unfold size; lia).
  rewrite substring_skip_app.
  replace (Z.to_nat (Z.min (size a + size b) (size a + size b - size a)))
    with (String.length b) by (unfold size in *; lia).
  apply substring_all.
Qed.

Lemma app_string_assoc (a : string) (c : ascii) (b : string) :
  a +:+ String c b = (a +:+ String c "") +:+ b.
Proof. by rewrite append_assoc. Qed.

(** What [parse_host_port] accepts: a target cut at its last colon into a
    host and a port text, neither empty, with the port text read by
    [std::stoi] into the range 1..65535. *)
Lemma parse_host_port_accepts (target host : string) (port : Z) :
  parse_host_port target = Some (host, port) ↔
  ∃ p, target = host +:+ ":" +:+ p ∧ host ≠ "" ∧ p ≠ "" ∧ no_char ":" p
       ∧ stoi p = Some port ∧ 1 ≤ port ≤ 65535.
Proof.
  unfold parse_host_port, rfind_char. split.
  - destruct (rfind_nat target ":") as [i|] eqn:E; simpl; [|done].
    destruct (rfind_nat_Some _ _ _ E) as (pre & post & -> & <- & Hno).
    rewrite (app_string_assoc pre) at 2.
    replace (Z.of_nat (String.length pre) + 1) with (size (pre +:+ ":")).
    2:{ rewrite size_append. reflexivity. }
    rewrite substr_from_suffix.
    change (Z.of_nat (String.length pre)) with (size pre).
    rewrite substr_prefix.
    destruct (size pre =? 0) eqn:E0; simpl; [done|].
    rewrite !size_append.
    destruct (size pre + size (String ":" post) <=? size pre + size ":") eqn:E1; [done|].
    destruct (stoi post) as [n|] eqn:Es; [|done].
    destruct ((1 <=? n) && (n <=? 65535)) eqn:Er; [|done].
    intros [= <- <-]. exists post. split; [done|].
    split. { intros ->. done. }
    split. { intros ->. unfold size in E1. simpl in E1. lia. }
    split; [done|]. split; [done|]. lia.
  - intros (p & -> & Hh & Hp & Hno & Hs & Hr).
    change (host +:+ ":" +:+ p) with (host +:+ String ":" p).
    rewrite (rfind_nat_app _ _ _ Hno). simpl.
    rewrite (app_string_assoc host) at 2.
    replace (Z.of_nat (String.length host) + 1) with (size (host +:+ ":")).
    2:{ rewrite size_append. reflexivity. }
    rewrite substr_from_suffix.
    change (Z.of_nat (String.length host)) with (size host).
    rewrite substr_prefix.
    destruct (size host =? 0) eqn:E0.
    { exfalso. apply Hh, size_0_empty. lia. }
    simpl. rewrite !size_append.
    destruct (size host + size (String ":" p) <=? size host + size ":") eqn:E1.
    { exfalso. apply Hp, size_0_empty. pose proof (size_nonneg p).
      change (String ":" p) with (":" +:+ p) in E1. rewrite size_append in E1. lia. }
    rewrite Hs.
    destruct ((1 <=? port) && (port <=? 65535)) eqn:Er; [done | lia].
Qed.

(** What the code sees of a decimal digit. *)
Lemma digit_char (c : ascii) (s : string) :
  is_Some (digit_of 10 c) →
  digit_of 10 c = Some (code c - 48)
  ∧ isspace c = false
  ∧ scan_sign (String c s) = (false, String c s)
  ∧ c ≠ ":"%char.
Proof.
  destruct c as [[] [] [] [] [] [] [] []]; vm_compute; intros [d Hd];
    try discriminate Hd; repeat split; discriminate.
Qed.

Lemma scan_digits_from_decimal (s : string) (acc : Z) :
  all_digits s = true →
  scan_digits_from 10 acc s = (decimal_value_from acc s, "").
Proof.
  revert acc. induction s as [|c s IH]; intros acc; simpl; [done|].
  intros [Hc Hs]%andb_true_iff. apply bool_decide_eq_true in Hc.
  destruct (digit_char c s Hc) as (-> & _). by apply IH.
Qed.

Lemma all_digits_no_colon (s : string) : all_digits s = true → no_char ":" s.
Proof.
  induction s as [|c s IH]; simpl.
  - intros _ [|x pre] post; simpl; discriminate.
  - intros [Hc Hs]%andb_true_iff. apply bool_decide_eq_true in Hc.
    destruct (digit_char c s Hc) as (_ & _ & _ & Hne).
    intros [|x pre] post; simpl; intros [= ? Hp]; [done|].
    by apply (IH Hs pre post).
Qed.

(** [std::stoi] reads a decimal numeral that fits an [int] as its value. *)
Lemma stoi_decimal (p : string) :
  is_decimal p = true → decimal_value p ≤ INT_MAX → stoi p = Some (decimal_value p).
Proof.
  unfold is_decimal, stoi, strto. intros [Hne Hd]%andb_true_iff Hmax.
  destruct p as [|c p]; [done|]. simpl in Hd.
  apply andb_true_iff in Hd as [Hc Hp]. apply bool_decide_eq_true in Hc.
  destruct (digit_char c p Hc) as (Hdig & Hsp & Hsign & _).
  simpl. rewrite Hsp, Hsign.
  assert (Hskip : skip_hex_prefix 10 (String c p) = String c p).
  { unfold skip_hex_prefix. destruct c as [[] [] [] [] [] [] [] []]; try done.
    by destruct p as [|x [|d r]]. }
  rewrite Hskip. simpl. rewrite Hdig, (scan_digits_from_decimal p _ Hp).
  unfold decimal_value in *. simpl in *.
  replace (0 * 10 + (code c - 48)) with (code c - 48) in Hmax by lia.
  assert (Hge : 0 ≤ decimal_value_from (code c - 48) p).
  { assert (H0 : 0 ≤ code c - 48).
    { unfold digit_of in Hdig. destruct ((48 <=? code c) && (code c <=? 57)) eqn:E; [lia|].
      exfalso. clear -Hc E. destruct c as [[] [] [] [] [] [] [] []]; vm_compute in *;
        try discriminate; by destruct Hc. }
    clear -H0 Hp. revert H0. generalize (code c - 48) as acc.
    induction p as [|d p IH]; intros acc Hacc; simpl; [done|].
    simpl in Hp. apply andb_true_iff in Hp as [Hd Hp].
    apply bool_decide_eq_true in Hd. apply IH; [done|].
    assert (0 ≤ code d - 48); [|lia].
    clear -Hd. destruct d as [[] [] [] [] [] [] [] []]; vm_compute in *;
      try discriminate; by destruct Hd. }
  destruct ((_ <? INT_MIN) || (INT_MAX <? _)) eqn:E; [|done].
  unfold INT_MIN, INT_MAX in *. lia.
Qed.

(** C5, as amended: the handler goes on to forward exactly when
    [parse_host_port] accepts the target, that is when the target is
    [host:p] with [host] and [p] not empty, no colon in [p], and
    [std::stoi] reading from [p] (white space and a sign allowed before
    the digits, anything allowed after them) a port with
    1 ≤ port ≤ 65535; for every other target it replies 502 Bad Gateway
    and leaves the loop.  A target whose port text is a decimal numeral
    in that range, after a host that is not empty, is always accepted. *)
Theorem route_target_gate (cfg : Config) (tunnel : Z → Z → World → World)
    (fuel : nat) (client_fd : Z) (req : Request) (h : Handler) (w : World)
    (target : string) :
  req_path req ≠ health_path →
  req_normalized_host req ≠ "" →
  (routes_lookup (req_normalized_host req) w).1 = Some target →
  (serve cfg tunnel fuel client_fd req h w =
     match parse_host_port target with
     | Some (upstream_host, upstream_port) =>
         forward cfg tunnel fuel client_fd req upstream_host upstream_port h
           (reload_if_needed w)
     | None =>
         Ret (Break, h, send_simple_response client_fd 502 "Bad Gateway"
                          ("Invalid target route" +:+ NL) (reload_if_needed w))
     end)
  ∧ (∀ host port,
       parse_host_port target = Some (host, port) ↔
       ∃ p, target = host +:+ ":" +:+ p ∧ host ≠ "" ∧ p ≠ "" ∧ no_char ":" p
            ∧ stoi p = Some port ∧ 1 ≤ port ≤ 65535)
  ∧ (∀ host p,
       host ≠ "" → is_decimal p = true → 1 ≤ decimal_value p ≤ 65535 →
       parse_host_port (host +:+ ":" +:+ p) = Some (host, decimal_value p)).
Proof.
  intros Hpath Hhost Hroute. split; [|split; [apply parse_host_port_accepts|]].
  2:{ intros host p Hh Hp Hr. apply parse_host_port_accepts. exists p.
      pose proof Hp as [Hne Hd]%andb_true_iff.
      split; [done|]. split; [done|].
      split. { intros ->. done. }
      split; [by apply all_digits_no_colon|].
      split; [apply stoi_decimal; [done | unfold INT_MAX; lia] | done]. }
  unfold serve.
  destruct (String.eqb_spec (req_path req) health_path) as [|_]; [done|].
  destruct (size (req_normalized_host req) =? 0) eqn:E.
  { exfalso. apply Hhost, size_0_empty. lia. }
  unfold routes_lookup in *. simpl in Hroute. rewrite Hroute.
  by destruct (parse_host_port target) as [[??]|].
Qed.

Lemma route_target_gate_witness :
  let req := {| req_method := "GET"; req_path := "/p"; req_version := "HTTP/1.1";
                req_headers := []; req_headers_lc := ∅;
                req_body := ""; req_leftover := "";
                req_normalized_host := "example.test";
                req_chunked := false; req_client_wants_keepalive := true |} in
  let h := {| pending := ""; cached_upstream_fd := -1; cached_upstream_key := "" |} in
  let w := example_world [] [] "localhost:" in
  serve default_config no_tunnel 10 5 req h w
  = Ret (Break, h, send_simple_response 5 502 "Bad Gateway"
                     ("Invalid target route" +:+ NL) (reload_if_needed w)).
Proof.
  intros req h w.
  exact (proj1 (route_target_gate default_config no_tunnel 10 5 req h w "localhost:"
                  ltac:(discriminate) ltac:(discriminate) ltac:(reflexivity))).
Defined.

(** C5, counterexample: the port text "9000x" is not a decimal numeral,
    yet the handler forwards the request to port 9000 and the client
    receives the upstream's answer instead of a 502. *)
Lemma route_target_trailing_bytes_counterexample :
  is_decimal "9000x" = false
  ∧ parse_host_port "127.0.0.1:9000x" = Some ("127.0.0.1", 9000)
  ∧ client_sees (handle_client default_config no_tunnel 5 50 5
                   (example_world [Recv example_request] [Recv example_response]
                                  "127.0.0.1:9000x"))
    = Some example_response.
Proof. repeat split; vm_compute; reflexivity. Qed.
(** ** Response heads *)

Lemma digit_of_nonneg (base : Z) (c : ascii) (d : Z) :
  digit_of base c = Some d → 0 ≤ d.
Proof.
  unfold digit_of.
  destruct ((48 <=? code c) && (code c <=? 57)) eqn:E1;
    [|destruct ((97 <=? code c) && (code c <=? 122)) eqn:E2;
      [|destruct ((65 <=? code c) && (code c <=? 90)) eqn:E3]];
    match goal with |- context [?d <? base] => destruct (d <? base) end;
    intros [= <-]; lia.
Qed.

Lemma decimal_value_from_nonneg (acc : Z) (s : string) :
  all_digits s = true → 0 ≤ acc → 0 ≤ decimal_value_from acc s.
Proof.
  revert acc. induction s as [|c s IH]; intros acc; simpl; [done|].
  intros [Hc Hs]%andb_true_iff Hacc. apply bool_decide_eq_true in Hc.
  apply IH; [done|].
  destruct (digit_char c s Hc) as (Hd & _).
  pose proof (digit_of_nonneg _ _ _ Hd). lia.
Qed.

Lemma no_char_cons (c a : ascii) (s : string) :
  no_char c (String a s) → a ≠ c ∧ no_char c s.
Proof.
  intros H. split.
  - intros ->. by apply (H "" s).
  - intros pre post ->. by apply (H (String a pre) post).
Qed.

Lemma response_header_lines_None (lines : list string) (out : ResponseMeta) :
  response_header_lines lines out = None ↔
  ∃ before line after,
    lines = (before ++ line :: after)%list
    ∧ Forall (λ l, strip_cr l ≠ "") before
    ∧ bad_length_line line.
Proof.
  revert out. induction lines as [|line0 rest IH]; intros out; simpl.
  - split; [done|]. intros (before & line & after & H & _). by destruct before.
  - assert (Hskip : ∀ out', strip_cr line0 ≠ "" → ¬ bad_length_line line0 →
              (response_header_lines rest out' = None ↔
               ∃ before line after,
                 line0 :: rest = (before ++ line :: after)%list
                 ∧ Forall (λ l, strip_cr l ≠ "") before
                 ∧ bad_length_line line)).
    { intros out' Hne Hnb. rewrite IH. split.
      - intros (before & line & after & -> & Hb & Hl).
        exists (line0 :: before), line, after. split; [done|]. split; [|done].
        by constructor.
      - intros (before & line & after & Heq & Hb & Hl).
        destruct before as [|b before]; simpl in Heq.
        + injection Heq as <- <-. done.
        + injection Heq as <- ->. apply Forall_cons in Hb as [_ Hb].
          by exists before, line, after. }
    destruct (String.eqb_spec (strip_cr line0) "") as [He|Hne].
    { split; [done|]. intros (before & line & after & Heq & Hb & Hl).
      destruct before as [|b before]; simpl in Heq.
      - injection Heq as <- <-. destruct Hl as (pos & Hf & _).
        rewrite He in Hf. done.
      - injection Heq as <- ->. by apply Forall_cons in Hb as [Hb _]. }
    destruct (find_char (strip_cr line0) ":") as [pos|] eqn:Ef.
    2:{ apply Hskip; [done|]. intros (pos & Hf & _). congruence. }
    remember (to_lower (trim (substr (strip_cr line0) 0 pos))) as key eqn:Ek.
    destruct (String.eqb_spec key "content-length") as [Hcl|Hcl].
    2:{ assert (Hnb : ¬ bad_length_line line0).
        { intros (pos' & Hf & Hk & _). rewrite Ef in Hf. injection Hf as <-. congruence. }
        destruct (_ && _); [by apply Hskip|].
        destruct (_ && _); by apply Hskip. }
    subst key. rewrite Hcl. simpl.
    destruct (stoull 10 _) as [n|] eqn:Es.
    + apply Hskip; [done|]. intros (pos' & Hf & _ & Hs).
      rewrite Ef in Hf. injection Hf as <-. congruence.
    + split; [|done]. intros _. exists [], line0, rest.
      split; [done|]. split; [constructor|]. by exists pos.
Qed.

Lemma no_char_append (c : ascii) (a b : string) :
  no_char c a → no_char c b → no_char c (a +:+ b).
Proof.
  induction a as [|x a IH]; simpl; [done|].
  intros Ha Hb. destruct (no_char_cons _ _ _ Ha) as [Hx Ha'].
  intros [|y pre] post; simpl; intros [= ? Hp]; [done|].
  by apply (IH Ha' Hb pre post).
Qed.

Lemma no_char_nil (c : ascii) : no_char c "".
Proof. intros [|x pre] post; simpl; discriminate. Qed.

Lemma no_char_String (c x : ascii) (s : string) :
  x ≠ c → no_char c s → no_char c (String x s).
Proof.
  intros Hx Hs [|y pre] post; simpl; intros [= ? Hp]; [done|].
  by apply (Hs pre post).
Qed.

Lemma no_space_no_lf (s : string) : no_space s = true → no_char LF s.
Proof.
  induction s as [|c s IH]; simpl; [intros _; apply no_char_nil|].
  intros [Hc Hs]%andb_true_iff. apply no_char_String; [|by apply IH].
  intros ->. done.
Qed.

Lemma all_digits_no_lf (s : string) : all_digits s = true → no_char LF s.
Proof.
  induction s as [|c s IH]; simpl; [intros _; apply no_char_nil|].
  intros [Hc Hs]%andb_true_iff. apply bool_decide_eq_true in Hc.
  apply no_char_String; [|by apply IH].
  intros ->. by destruct Hc.
Qed.

(** The first [getline] takes the bytes before the first line feed. *)
Lemma getlines_first (line tail : string) :
  no_char LF line → getlines (line +:+ String LF tail) = line :: getlines tail.
Proof.
  induction line as [|c line IH]; simpl; intros Hno.
  - done.
  - destruct (no_char_cons _ _ _ Hno) as [Hc Hl].
    destruct (Ascii.eqb_spec c LF) as [|_]; [done|]. by rewrite (IH Hl).
Qed.

Lemma strip_cr_snoc (line : string) : strip_cr (line +:+ String CR "") = line.
Proof.
  induction line as [|c line IH]; simpl; [done|].
  rewrite IH. by destruct (line +:+ String CR "") eqn:E; [destruct line|].
Qed.

Lemma take_token_word (word rest : string) :
  no_space word = true → take_token (word +:+ String " " rest) = (word, String " " rest).
Proof.
  induction word as [|c word IH]; simpl; [done|].
  intros [Hc Hw]%andb_true_iff. apply negb_true_iff in Hc. rewrite Hc.
  by rewrite (IH Hw).
Qed.

Lemma extract_word_first (word rest : string) :
  word ≠ "" → no_space word = true →
  extract_word (word +:+ String " " rest) = Some (word, String " " rest).
Proof.
  intros Hne Hw. unfold extract_word.
  destruct word as [|c word]; [done|]. simpl in Hw.
  apply andb_true_iff in Hw as [Hc Hw]. apply negb_true_iff in Hc.
  simpl. rewrite Hc. simpl. rewrite Hc.
  by rewrite (take_token_word _ _ Hw).
Qed.

Lemma scan_digits_from_stop (digits after : string) (acc : Z) :
  all_digits digits = true → no_leading_digit after = true →
  scan_digits_from 10 acc (digits +:+ after) = (decimal_value_from acc digits, after).
Proof.
  revert acc. induction digits as [|c digits IH]; intros acc; simpl.
  - intros _ Ha. destruct after as [|a after]; [done|]. simpl in *.
    apply negb_true_iff, bool_decide_eq_false in Ha.
    destruct (digit_of 10 a) as [d|]; [|done]. exfalso. apply Ha. by eexists.
  - intros [Hc Hs]%andb_true_iff Ha. apply bool_decide_eq_true in Hc.
    destruct (digit_char c digits Hc) as (-> & _). by apply IH.
Qed.

(** [operator>>] reads a decimal numeral that fits an [int] as its
    value and stops before what follows it. *)
Lemma extract_int_decimal (digits after : string) :
  is_decimal digits = true → decimal_value digits ≤ INT_MAX →
  no_leading_digit after = true →
  extract_int (String " " (digits +:+ after)) = Some (decimal_value digits, after).
Proof.
  unfold is_decimal, extract_int. intros [Hne Hd]%andb_true_iff Hmax Ha.
  destruct digits as [|c digits]; [done|]. simpl in Hd.
  apply andb_true_iff in Hd as [Hc Hp]. apply bool_decide_eq_true in Hc.
  destruct (digit_char c (digits +:+ after) Hc) as (Hdig & Hsp & Hsign & _).
  change (ltrim (String " " (String c digits +:+ after)))
    with (ltrim (String c (digits +:+ after))).
  simpl ltrim. rewrite Hsp, Hsign. simpl. rewrite Hdig.
  rewrite (scan_digits_from_stop _ _ _ Hp Ha).
  unfold decimal_value in *. simpl in *.
  replace (0 * 10 + (code c - 48)) with (code c - 48) in * by lia.
  assert (Hge : 0 ≤ decimal_value_from (code c - 48) digits).
  { apply decimal_value_from_nonneg; [done|].
    pose proof (digit_of_nonneg _ _ _ Hdig). lia. }
  destruct ((_ <? INT_MIN) || (INT_MAX <? _)) eqn:E; [|done].
  unfold INT_MIN, INT_MAX in *. lia.
Qed.

(** The status code of a head whose first line is a version, a space
    and a decimal numeral. *)
Lemma status_of_head_numeral (version digits after tail : string) :
  version ≠ "" → no_space version = true →
  is_decimal digits = true → decimal_value digits ≤ INT_MAX →
  no_leading_digit after = true → no_char LF after →
  status_of_head (version +:+ " " +:+ digits +:+ after +:+ CRLF +:+ tail)
  = Some (decimal_value digits).
Proof.
  intros Hv Hs Hd Hmax Ha Hlf. unfold status_of_head.
  replace (version +:+ " " +:+ digits +:+ after +:+ CRLF +:+ tail)
    with ((version +:+ " " +:+ digits +:+ after +:+ String CR "") +:+ String LF tail).
  2:{ by rewrite !append_assoc. }
  rewrite getlines_first.
  2:{ pose proof Hd as [_ Hall]%andb_true_iff.
      apply no_char_append; [by apply no_space_no_lf|].
      apply no_char_append; [apply no_char_String; [done | apply no_char_nil]|].
      apply no_char_append; [by apply all_digits_no_lf|].
      apply no_char_append; [done|].
      apply no_char_String; [done | apply no_char_nil]. }
  replace (version +:+ " " +:+ digits +:+ after +:+ String CR "")
    with ((version +:+ " " +:+ digits +:+ after) +:+ String CR "").
  2:{ by rewrite !append_assoc. }
  rewrite strip_cr_snoc.
  change (version +:+ " " +:+ digits +:+ after)
    with (version +:+ String " " (digits +:+ after)).
  rewrite (extract_word_first _ _ Hv Hs).
  by rewrite (extract_int_decimal _ _ Hd Hmax Ha).
Qed.

Lemma response_header_lines_status (lines : list string) (m out : ResponseMeta) :
  response_header_lines lines m = Some out → status_code out = status_code m.
Proof.
  revert m. induction lines as [|line0 rest IH]; intros m; simpl.
  - by intros [= <-].
  - destruct (String.eqb _ ""); [by intros [= <-]|].
    destruct (find_char _ ":") as [pos|]; [|apply IH].
    destruct (_ && _); [intros H; by rewrite (IH _ H)|].
    destruct (String.eqb _ "content-length").
    { destruct (stoull 10 _); [|done]. intros H. by rewrite (IH _ H). }
    destruct (_ && _); [intros H; by rewrite (IH _ H) | apply IH].
Qed.

(** C6, as amended: the status code of a head is the integer after the
    first word of its first line (for a line made of a version, a
    space and a decimal numeral, the number the numeral denotes).
    [parse_response_headers] refuses a head exactly when that integer
    cannot be read or when a Content-Length header before the blank
    line has a value that [std::stoull] rejects, whatever the method
    and the status.  For a head it accepts, [status_code] is the status
    code of the head, [no_body] is true exactly when the request method
    is HEAD without regard to case, or the status is 204 or 304, or it
    is a 1xx other than 101; and when [no_body] is true the chunked
    flag is cleared, the length is 0 and the relay of the body depends
    on neither. *)
Theorem no_body_classification (raw_headers req_method : string) :
  (parse_response_headers raw_headers req_method = None
   ↔ status_of_head raw_headers = None ∨ rejected_length raw_headers)
  ∧ (∀ meta, parse_response_headers raw_headers req_method = Some meta →
       status_of_head raw_headers = Some (status_code meta)
       ∧ (no_body meta = true ↔
            to_lower req_method = "head"
            ∨ status_code meta = 204 ∨ status_code meta = 304
            ∨ (100 ≤ status_code meta < 200 ∧ status_code meta ≠ 101))
       ∧ (no_body meta = true →
          meta_chunked meta = false ∧ content_length meta = Some 0
          ∧ ∀ fuel upstream_fd client_fd body_buf w chunked declared,
              relay_body fuel upstream_fd client_fd
                (set_content_length declared (set_chunked chunked meta)) body_buf w
              = relay_body fuel upstream_fd client_fd meta body_buf w))
  ∧ (∀ version digits after tail,
       raw_headers = version +:+ " " +:+ digits +:+ after +:+ CRLF +:+ tail →
       version ≠ "" → no_space version = true →
       is_decimal digits = true → decimal_value digits ≤ INT_MAX →
       no_leading_digit after = true → no_char LF after →
       status_of_head raw_headers = Some (decimal_value digits)).
Proof.
  split; [|split].
  - unfold parse_response_headers, status_of_head, rejected_length.
    destruct (getlines raw_headers) as [|line0 rest].
    { split; [by left | done]. }
    destruct (extract_word _) as [[http_version after]|].
    2:{ split; [by left | done]. }
    destruct (extract_int _) as [[code0 r]|]; simpl.
    2:{ split; [by left | done]. }
    destruct (response_header_lines _ _) as [out|] eqn:El.
    + split; [done|]. intros [|(l0 & before & line & after' & [= <- ->] & Hb & Hl)]; [done|].
      assert (response_header_lines (before ++ line :: after') (set_status_code code0 empty_meta)
              = None) as Hn.
      { apply response_header_lines_None. by exists before, line, after'. }
      congruence.
    + split; [|done]. intros _. right.
      apply response_header_lines_None in El as (before & line & after' & -> & Hb & Hl).
      by exists line0, before, line, after'.
  - unfold parse_response_headers, status_of_head. intros meta H.
    destruct (getlines raw_headers) as [|line0 rest]; [done|].
    destruct (extract_word _) as [[http_version after]|]; [|done].
    destruct (extract_int _) as [[code0 r]|]; [|done].
    destruct (response_header_lines _ _) as [out|] eqn:El; [|done].
    injection H as <-.
    apply response_header_lines_status in El. simpl in El.
    split. { simpl. by rewrite classify_body_status, El. }
    split.
    + rewrite classify_body_no_body, classify_body_status.
      unfold informational.
      rewrite !orb_true_iff, !andb_true_iff, negb_true_iff, String.eqb_eq.
      rewrite !Z.eqb_eq, Z.eqb_neq, Z.leb_le, Z.ltb_lt. tauto.
    + intros Hnb. destruct (classify_body_framing _ _ Hnb) as [Hc Hl].
      split; [done|]. split; [done|].
      intros. unfold relay_body. simpl. by rewrite Hnb.
  - intros version digits after tail -> Hv Hs Hd Hmax Ha Hlf.
    by apply status_of_head_numeral.
Qed.

(** C6, witness: a 304 that declares a length and chunked framing. *)
Lemma no_body_classification_witness :
  let raw := "HTTP/1.1 304 Not Modified" +:+ CRLF +:+ "Content-Length: 10" +:+ CRLF
             +:+ "Transfer-Encoding: chunked" +:+ CRLF +:+ CRLF in
  ∃ meta, parse_response_headers raw "GET" = Some meta
          ∧ status_of_head raw = Some 304
          ∧ status_code meta = 304
          ∧ no_body meta = true ∧ meta_chunked meta = false
          ∧ content_length meta = Some 0.
Proof.
  intros raw. eexists. split; [vm_compute; reflexivity|].
  match goal with
  | |- _ ∧ status_code ?m = _ ∧ _ =>
      destruct (no_body_classification raw "GET") as (_ & Hmeta & Hline);
      destruct (Hmeta m ltac:(vm_compute; reflexivity)) as (Hst & Hiff & Hfr)
  end.
  pose proof (Hline "HTTP/1.1" "304" " Not Modified"
                ("Content-Length: 10" +:+ CRLF +:+ "Transfer-Encoding: chunked"
                 +:+ CRLF +:+ CRLF)
                eq_refl ltac:(discriminate) eq_refl eq_refl ltac:(vm_compute; discriminate)
                eq_refl) as Hnum.
  assert (Hlf : no_char LF " Not Modified").
  { intros pre post E.
    repeat (destruct pre as [|? pre]; [discriminate E|]; injection E as _ E).
    destruct pre; discriminate E. }
  specialize (Hnum Hlf).
  split; [exact Hnum|].
  assert (Hc : status_code
    {| status_code := 304; meta_chunked := false; connection_close := false;
       no_body := true; content_length := Some 0 |} = 304) by reflexivity.
  split; [exact Hc|].
  assert (Hnb : no_body
    {| status_code := 304; meta_chunked := false; connection_close := false;
       no_body := true; content_length := Some 0 |} = true) by reflexivity.
  split; [exact Hnb|]. destruct (Hfr Hnb) as (Hch & Hl & _). split; [exact Hch | exact Hl].
Defined.

(** C6, counterexample: the status is 304, and the declared length is
    not ignored: with the value 10 the head is accepted, classified as
    having no body and forwarded; with the value abc it is refused and
    the client is sent nothing. *)
Lemma no_body_rejected_length_counterexample :
  let head declared := "HTTP/1.1 304 Not Modified" +:+ CRLF
                       +:+ "Content-Length: " +:+ declared +:+ CRLF +:+ CRLF in
  ¬ (∀ declared, ∃ meta, parse_response_headers (head declared) "GET" = Some meta
                          ∧ no_body meta = true)
  ∧ (∃ meta, parse_response_headers (head "10") "GET" = Some meta ∧ no_body meta = true)
  ∧ parse_response_headers (head "abc") "GET" = None
  ∧ (∃ out w', relay_response_and_decide_reuse 10 7 5 "GET"
                 (example_world [] [Recv (head "10")] "127.0.0.1:9000") = Ret (out, w')
               ∧ wire (socket_of w' 5) = head "10")
  ∧ (∃ out w', relay_response_and_decide_reuse 10 7 5 "GET"
                 (example_world [] [Recv (head "abc")] "127.0.0.1:9000") = Ret (out, w')
               ∧ wire (socket_of w' 5) = "").
Proof.
  intros head. split.
  { intros H. destruct (H "abc") as (meta & Hp & _). vm_compute in Hp. discriminate Hp. }
  split. { eexists. split; [vm_compute; reflexivity | reflexivity]. }
  split; [vm_compute; reflexivity|].
  split; eexists _, _; (split; [vm_compute; reflexivity | reflexivity]).
Qed.


(** ** The request line *)

Lemma isspace_is_space (c : ascii) : isspace c = Ascii.is_space c.
Proof. destruct c as [[] [] [] [] [] [] [] []]; reflexivity. Qed.

Lemma rev_app_append (s1 s2 : string) :
  String.rev_app s1 s2 = String.rev_app s1 "" +:+ s2.
Proof.
  revert s2. induction s1 as [|a s1 IH]; intros s2; simpl; [done|].
  rewrite (IH (String a s2)), (IH (String a "")).
  by rewrite append_assoc.
Qed.

(** A word in progress is completed by the token at the head of the
    stream. *)
Lemma words_go_take_token (s cur : string) :
  String.words_go (Some cur) s
  = (String.rev cur +:+ (take_token s).1) :: String.words_go None (take_token s).2.
Proof.
  revert cur. induction s as [|a s IH]; intros cur; simpl.
  - by rewrite append_nil_r.
  - rewrite isspace_is_space. destruct (Ascii.is_space a) eqn:E; simpl.
    + rewrite append_nil_r, E. done.
    + rewrite IH. destruct (take_token s) as [t r]. simpl.
      unfold String.rev. simpl. rewrite (rev_app_append cur).
      by rewrite append_assoc.
Qed.

Lemma words_ltrim (s : string) : String.words (ltrim s) = String.words s.
Proof.
  unfold String.words. induction s as [|a s IH]; simpl; [done|].
  rewrite isspace_is_space. destruct (Ascii.is_space a) eqn:E; simpl; [done|].
  by rewrite E.
Qed.

(** [stream >> word] takes the first white-space separated word and
    leaves the stream before the others. *)
Lemma extract_word_words (s : string) :
  match extract_word s with
  | None => String.words s = []
  | Some (word, rest) => String.words s = word :: String.words rest
  end.
Proof.
  unfold extract_word. rewrite <- (words_ltrim s).
  destruct (ltrim s) as [|a s1] eqn:E; [done|].
  assert (Ha : isspace a = false).
  { clear -E. induction s as [|b s IH]; simpl in E; [done|].
    destruct (isspace b) eqn:Eb; [by apply IH | by injection E as -> _]. }
  unfold String.words. simpl. rewrite Ha.
  rewrite <- isspace_is_space, Ha. simpl.
  rewrite words_go_take_token. by destruct (take_token s1).
Qed.

(** The three extractions of the request line succeed exactly when the
    line has three words or more, and yield the first three. *)
Lemma parse_request_line_words (line : string) :
  parse_request_line line =
    match String.words line with
    | method :: path :: version :: _ => Some (method, path, version)
    | _ => None
    end.
Proof.
  unfold parse_request_line.
  pose proof (extract_word_words line) as H1.
  destruct (extract_word line) as [[method r1]|]; simpl; [|by rewrite H1].
  rewrite H1. pose proof (extract_word_words r1) as H2.
  destruct (extract_word r1) as [[path r2]|]; simpl; [|by rewrite H2].
  rewrite H2. pose proof (extract_word_words r2) as H3.
  destruct (extract_word r2) as [[version r3]|]; simpl; [|by rewrite H3].
  by rewrite H3.
Qed.

(** C7, as amended: once the head is complete, request-line parsing
    succeeds exactly when the first line holds at least three words
    separated by white space; the first three are the method, the path
    and the version, runs of white space count as one separator and
    whatever follows the third word is ignored.  With fewer than three
    words the request fails with "invalid request line". *)
Theorem request_line_needs_three_words (fuel : nat) (rx rx' : list recv_event)
    (pending buf : string) (header_end : Z) (line0 : string) (rest : list string) :
  read_head rx pending = (inr (buf, header_end), rx') →
  getlines (substr buf 0 (header_end + 4)) = line0 :: rest →
  match String.words (strip_cr line0) with
  | method :: path :: version :: _ =>
      ∃ req, parse_head (substr buf 0 (header_end + 4)) = inr req
             ∧ req_method req = method ∧ req_path req = path
             ∧ req_version req = version
             ∧ read_request fuel rx pending
               = read_framed_body fuel rx' req (substr_from buf (header_end + 4))
  | _ => read_request fuel rx pending = Ret (ReadFail "invalid request line", rx')
  end.
Proof.
  intros Hhead Hlines. unfold read_request, parse_head.
  rewrite Hhead, Hlines, parse_request_line_words.
  destruct (String.words (strip_cr line0)) as [|method [|path [|version more]]];
    try done.
  destruct (request_header_lines rest [] ∅) as [headers headers_lc] eqn:Eh.
  eexists. split; [reflexivity|]. simpl. done.
Qed.

Lemma request_line_needs_three_words_witness :
  read_request 10 [] ("GET /" +:+ CRLFCRLF)
  = Ret (ReadFail "invalid request line", []).
Proof.
  exact (request_line_needs_three_words 10 [] [] ("GET /" +:+ CRLFCRLF) ("GET /" +:+ CRLFCRLF) 5
           ("GET /" +:+ String CR "") [String CR ""]
           ltac:(reflexivity) ltac:(reflexivity)).
Defined.

(** C7, counterexample: a first line with a doubled space, a tab and a
    fourth word is not of the form METHOD SP PATH SP VERSION, and the
    request is read all the same. *)
Lemma request_line_loose_counterexample :
  let line := "GET  /x" +:+ String "009" "" +:+ "HTTP/1.1 junk" in
  exact_request_line line = false
  ∧ ∃ req, read_request 10 [] (line +:+ CRLF +:+ "Host: a" +:+ CRLFCRLF)
           = Ret (ReadOk req "", [])
           ∧ req_method req = "GET" ∧ req_path req = "/x"
           ∧ req_version req = "HTTP/1.1".
Proof.
  split; [reflexivity|]. eexists. split; [vm_compute; reflexivity|]. done.
Qed.

(** ** Framing of the request body *)

(** C1, as amended: when the Transfer-Encoding value of a request
    contains "chunked" in any case, [read_request] reads the body with
    chunked framing provided the Content-Length header is absent or
    [std::stoul] accepts its value, and that value then plays no part;
    a Content-Length that [std::stoul] rejects fails the request with
    "invalid content-length", chunked or not. *)
Theorem chunked_framing_selection (fuel : nat) (rx rx' : list recv_event)
    (pending buf : string) (header_end : Z) (req : Request) (te : string) :
  read_head rx pending = (inr (buf, header_end), rx') →
  parse_head (substr buf 0 (header_end + 4)) = inr req →
  req_headers_lc req !! "transfer-encoding" = Some te →
  is_substring "chunked" (to_lower te) →
  ((req_headers_lc req !! "content-length" = None
    ∨ ∃ v n, req_headers_lc req !! "content-length" = Some v ∧ stoul v = Some n) →
   read_request fuel rx pending
   = read_chunked fuel rx' req (substr_from buf (header_end + 4)))
  ∧ (∀ v, req_headers_lc req !! "content-length" = Some v → stoul v = None →
     read_request fuel rx pending = Ret (ReadFail "invalid content-length", rx')).
Proof.
  intros Hhead Hparse Hte Hchunked%found_find_iff.
  unfold read_request. rewrite Hhead, Hparse. unfold read_framed_body.
  rewrite Hte, Hchunked. split.
  - intros [-> | (v & n & -> & ->)]; reflexivity.
  - intros v -> ->. reflexivity.
Qed.

Lemma chunked_framing_selection_witness :
  let raw := "POST / HTTP/1.1" +:+ CRLF +:+ "Transfer-Encoding: Chunked" +:+ CRLF
             +:+ "Content-Length: 77" +:+ CRLF +:+ CRLF
             +:+ "5" +:+ CRLF +:+ "hello" +:+ CRLF +:+ "0" +:+ CRLFCRLF in
  ∃ req, parse_head (substr raw 0 (63 + 4)) = inr req
         ∧ read_request 10 [] raw = read_chunked 10 [] req (substr_from raw (63 + 4))
         ∧ ∃ req', read_chunked 10 [] req (substr_from raw (63 + 4))
                   = Ret (ReadOk req' "", []) ∧ req_body req' = "hello".
Proof.
  intros raw. eexists. split; [vm_compute; reflexivity|]. split.
  - refine (proj1 (chunked_framing_selection 10 [] [] raw raw 63 _ "Chunked"
                     _ _ _ _) _).
    + vm_compute; reflexivity.
    + vm_compute; reflexivity.
    + vm_compute; reflexivity.
    + exists "", "". reflexivity.
    + right. exists "77", 77. split; vm_compute; reflexivity.
  - eexists. split; [vm_compute; reflexivity | reflexivity].
Defined.

(** C1, counterexample: a request with a chunked Transfer-Encoding and a
    Content-Length that is not a number fails with "invalid
    content-length" and its chunked body is never read. *)
Lemma chunked_with_bad_content_length_counterexample :
  read_request 10 []
    ("POST / HTTP/1.1" +:+ CRLF +:+ "Transfer-Encoding: chunked" +:+ CRLF
     +:+ "Content-Length: abc" +:+ CRLF +:+ CRLF
     +:+ "5" +:+ CRLF +:+ "hello" +:+ CRLF +:+ "0" +:+ CRLFCRLF)
  = Ret (ReadFail "invalid content-length", []).
Proof. vm_compute; reflexivity. Qed.

(** ** Parse failures in the handler *)

(** C8, as amended: when [read_request] fails, the handler leaves the
    loop without writing anything if the error is "client closed before
    request" or "client closed connection" (or empty); for every other
    error, "client closed before full request body" among them, it
    replies 400 Bad Request with the error text and a newline as body,
    and leaves the loop. *)
Theorem parse_failure_reply (cfg : Config) (tunnel : Z → Z → World → World)
    (fuel : nat) (client_fd : Z) (h : Handler) (w w1 : World)
    (parse_error : string) :
  read_request_from fuel client_fd (pending h) w = Ret (ReadFail parse_error, w1) →
  handle_client_round cfg tunnel fuel client_fd h w
  = Ret (Break, set_pending "" h,
         if silent_error parse_error then w1
         else (send_all client_fd
                 (simple_response 400 "Bad Request" (parse_error +:+ NL)) w1).2).
Proof.
  intros Hread. unfold handle_client_round. rewrite Hread. simpl.
  unfold reject, silent_error, send_simple_response.
  assert (Hempty : (size parse_error =? 0) = String.eqb parse_error "").
  { destruct parse_error; [done|]. unfold size. simpl. lia. }
  rewrite Hempty.
  by destruct (String.eqb parse_error ""),
      (String.eqb parse_error "client closed before request"),
      (String.eqb parse_error "client closed connection").
Qed.

Lemma parse_failure_reply_witness :
  let h := {| pending := ""; cached_upstream_fd := -1; cached_upstream_key := "" |} in
  let w := example_world [Recv "GET"] [] "127.0.0.1:9000" in
  ∃ w1, read_request_from 10 5 (pending h) w
        = Ret (ReadFail "client closed before request", w1)
        ∧ handle_client_round default_config no_tunnel 10 5 h w
          = Ret (Break, set_pending "" h, w1).
Proof.
  intros h w. eexists. split; [vm_compute; reflexivity|].
  refine (parse_failure_reply default_config no_tunnel 10 5 h w _
            "client closed before request" _).
  vm_compute; reflexivity.
Defined.

(** C8, counterexample: the error "client closed before full request
    body" begins with "client closed", and the handler answers it with a
    400 instead of leaving silently. *)
Lemma truncated_body_counterexample :
  let parse_error := "client closed before full request body" in
  String.prefix "client closed" parse_error = true
  ∧ client_sees (handle_client default_config no_tunnel 5 50 5
                   (example_world
                      [Recv ("POST / HTTP/1.1" +:+ CRLF +:+ "Host: example.test" +:+ CRLF
                             +:+ "Content-Length: 5" +:+ CRLF +:+ CRLF +:+ "ab")]
                      [] "127.0.0.1:9000"))
    = Some (simple_response 400 "Bad Request" (parse_error +:+ NL)).
Proof. split; vm_compute; reflexivity. Qed.

(** ** The health path *)

(** C10: a request whose path is the health path is answered inline
    with a 200 OK, whatever its method and with or without a Host
    header: the round writes the health response and nothing else, and
    goes on only when the write succeeded and the client asked for
    keep-alive. *)
Theorem health_intercept (cfg : Config) (tunnel : Z → Z → World → World)
    (fuel : nat) (client_fd : Z) (h : Handler) (w w1 : World)
    (req : Request) (pending' : string) :
  read_request_from fuel client_fd (pending h) w = Ret (ReadOk req pending', w1) →
  req_path req = health_path →
  handle_client_round cfg tunnel fuel client_fd h w
  = (let '(ok, w2) := send_all client_fd (health_response cfg req w1) w1 in
     Ret (if ok && req_client_wants_keepalive req then Continue else Break,
          set_pending pending' h, w2))
  ∧ String.prefix ("HTTP/1.1 200 OK" +:+ CRLF) (health_response cfg req w1) = true.
Proof.
  intros Hread Hpath. split; [|reflexivity].
  unfold handle_client_round. rewrite Hread. simpl. unfold serve.
  rewrite Hpath, String.eqb_refl.
  destruct (send_all client_fd _ w1) as [ok w2].
  by destruct ok, (req_client_wants_keepalive req).
Qed.

Lemma health_intercept_witness :
  let h := {| pending := ""; cached_upstream_fd := -1; cached_upstream_key := "" |} in
  let w := example_world [Recv ("DELETE " +:+ health_path +:+ " HTTP/1.0" +:+ CRLFCRLF)]
                         [] "127.0.0.1:9000" in
  ∃ req w1, read_request_from 10 5 (pending h) w = Ret (ReadOk req "", w1)
            ∧ req_method req = "DELETE" ∧ req_normalized_host req = ""
            ∧ handle_client_round default_config no_tunnel 10 5 h w
              = (let '(ok, w2) := send_all 5 (health_response default_config req w1) w1 in
                 Ret (if ok && req_client_wants_keepalive req then Continue else Break,
                      set_pending "" h, w2)).
Proof.
  intros h w. eexists _, _. split; [vm_compute; reflexivity|].
  split; [reflexivity|]. split; [reflexivity|].
  match goal with
  | |- context [health_response _ ?req ?w1] =>
      exact (proj1 (health_intercept default_config no_tunnel 10 5 h w w1 req ""
                      ltac:(vm_compute; reflexivity) ltac:(reflexivity)))
  end.
Defined.

(** ** The caps of the upstream pool *)

Lemma dec_idle_bounds (idle : Z) : 0 ≤ idle → 0 ≤ dec_idle idle ≤ idle.
Proof. unfold dec_idle. destruct (0 <? idle) eqn:E; lia. Qed.

Lemma socket_is_idle_usable_pool (fd : Z) (w : World) :
  pool (socket_is_idle_usable fd w).2 = pool w.
Proof.
  unfold socket_is_idle_usable.
  by destruct (socket_is_idle_usable_on _) as [usable peeks'].
Qed.

(** Reaping one key keeps a part of the list, never raises the idle
    count and leaves the pool itself to its caller. *)
Lemma reap_conns_spec (cfg : Config) (now : Z) (conns : list PooledConn)
    (w : World) (idle : Z) :
  0 ≤ idle →
  (length (reap_conns cfg now conns w idle).1.1 ≤ length conns)%nat
  ∧ 0 ≤ (reap_conns cfg now conns w idle).2 ≤ idle
  ∧ pool (reap_conns cfg now conns w idle).1.2 = pool w.
Proof.
  revert w idle. induction conns as [|conn rest IH]; intros w idle Hidle; simpl.
  - repeat split; lia.
  - destruct (is_conn_fresh cfg now conn).
    + pose proof (socket_is_idle_usable_pool (fd conn) w) as Hp.
      destruct (socket_is_idle_usable (fd conn) w) as [usable w1]. simpl in Hp.
      destruct usable.
      * specialize (IH w1 idle Hidle).
        destruct (reap_conns cfg now rest w1 idle) as [[kept w2] idle2].
        simpl in *. destruct IH as (? & ? & ?). repeat split; [lia..|congruence].
      * pose proof (dec_idle_bounds idle Hidle).
        specialize (IH (close (fd conn) w1) (dec_idle idle) ltac:(lia)).
        destruct IH as (? & ? & ?). repeat split; [lia..|]. simpl in *. congruence.
    + pose proof (dec_idle_bounds idle Hidle).
      specialize (IH (close (fd conn) w) (dec_idle idle) ltac:(lia)).
      destruct IH as (? & ? & ?). repeat split; [lia..|done].
Qed.

Lemma reap_locked_caps (cfg : Config) (now : Z) (w : World) :
  pool_within_caps cfg (pool w) → pool_within_caps cfg (pool (reap_locked cfg now w)).
Proof.
  intros [Hidle Hkeys]. unfold reap_locked.
  assert (H : ∀ m : gmap string (list PooledConn),
    (∀ key conns, m !! key = Some conns →
       Z.of_nat (length conns) ≤ pool_max_idle_per_key cfg) →
    let r := map_fold (reap_step cfg now) (∅, w, idle_total (pool w)) m in
    (∀ key conns, r.1.1 !! key = Some conns →
       Z.of_nat (length conns) ≤ pool_max_idle_per_key cfg)
    ∧ 0 ≤ r.2 ≤ idle_total (pool w)).
  { intros m. apply (map_fold_weak_ind (λ r m,
      (∀ key conns, m !! key = Some conns →
         Z.of_nat (length conns) ≤ pool_max_idle_per_key cfg) →
      (∀ key conns, r.1.1 !! key = Some conns →
         Z.of_nat (length conns) ≤ pool_max_idle_per_key cfg)
      ∧ 0 ≤ r.2 ≤ idle_total (pool w))).
    - intros _. simpl. split; [|lia]. intros key conns. by rewrite lookup_empty.
    - intros key conns m0 [[m' w'] idle'] Hfresh IH Hb. simpl in IH.
      destruct IH as [IHk IHi].
      { intros k cs Hk. apply (Hb k cs). rewrite lookup_insert_ne; [done|].
        intros ->. congruence. }
      unfold reap_step.
      pose proof (reap_conns_spec cfg now conns w' idle' ltac:(lia)) as (Hl & Hi & _).
      destruct (reap_conns cfg now conns w' idle') as [[kept w2] idle2]. simpl in *.
      split; [|lia]. intros k cs. destruct kept as [|c0 kept]; [apply IHk|].
      destruct (decide (key = k)) as [->|Hne].
      + rewrite lookup_insert_eq. intros [= <-].
        specialize (Hb k conns (lookup_insert_eq _ _ _)). simpl in *. lia.
      + rewrite lookup_insert_ne by done. apply IHk. }
  specialize (H (by_key (pool w)) Hkeys).
  destruct (map_fold _ _ _) as [[m' w'] idle']. simpl in *.
  destruct H as [Hk Hi]. split; simpl; [lia | exact Hk].
Qed.

Lemma acquire_pop_spec (cfg : Config) (now : Z) (back_first : list PooledConn)
    (w : World) (idle : Z) :
  0 ≤ idle →
  (length (acquire_pop cfg now back_first w idle).1.1.2 ≤ length back_first)%nat
  ∧ 0 ≤ (acquire_pop cfg now back_first w idle).2 ≤ idle.
Proof.
  revert w idle. induction back_first as [|conn rest IH]; intros w idle Hidle; simpl.
  - split; lia.
  - pose proof (dec_idle_bounds idle Hidle).
    destruct (is_conn_fresh cfg now conn).
    + destruct (socket_is_idle_usable (fd conn) w) as [usable w1].
      destruct usable; simpl; [split; lia|].
      specialize (IH (close (fd conn) w1) (dec_idle idle) ltac:(lia)). lia.
    + specialize (IH (close (fd conn) w) (dec_idle idle) ltac:(lia)). lia.
Qed.

Lemma steady_clock_now_pool (w : World) : pool (steady_clock_now w).2 = pool w.
Proof. unfold steady_clock_now. by destruct (clock w). Qed.

Lemma connect_upstream_pool (host : string) (port : Z) (w : World) :
  pool (connect_upstream host port w).2 = pool w.
Proof. unfold connect_upstream. by destruct (connects w) as [|[??]?]. Qed.

Lemma acquire_caps (cfg : Config) (key host : string) (port : Z) (w : World) :
  pool_within_caps cfg (pool w) →
  pool_within_caps cfg (pool (acquire cfg key host port w).2).
Proof.
  intros Hw. unfold acquire.
  pose proof (steady_clock_now_pool w) as Hc.
  destruct (steady_clock_now w) as [now w0]. simpl in Hc. rewrite <- Hc in Hw.
  pose proof (reap_locked_caps cfg now w0 Hw) as [Hidle Hkeys].
  destruct (by_key (pool (reap_locked cfg now w0)) !! key) as [conns|] eqn:Ek.
  - pose proof (acquire_pop_spec cfg now (rev conns) (reap_locked cfg now w0)
                  (idle_total (pool (reap_locked cfg now w0))) ltac:(lia)) as [Hl Hi].
    destruct (acquire_pop _ _ _ _ _) as [[[got rest] w1] idle1]. simpl in Hl, Hi.
    assert (Hcaps : pool_within_caps cfg
              {| by_key := <[key := rev rest]> (by_key (pool (reap_locked cfg now w0)));
                 idle_total := idle1 |}).
    { split; simpl; [lia|]. intros k cs.
      destruct (decide (key = k)) as [->|Hne].
      - rewrite lookup_insert_eq. intros [= <-].
        specialize (Hkeys k conns Ek). rewrite length_rev in *. lia.
      - rewrite lookup_insert_ne by done. apply Hkeys. }
    destruct got as [fd0|]; simpl; [done|].
    by rewrite connect_upstream_pool.
  - rewrite connect_upstream_pool. by split.
Qed.

Lemma release_caps (cfg : Config) (key : string) (fd : Z) (w : World) :
  caps_in_range cfg →
  pool_within_caps cfg (pool w) →
  pool_within_caps cfg (pool (release cfg key fd w)).
Proof.
  intros [Hrk Hrt] Hw. unfold release. destruct (fd <? 0); [done|].
  pose proof (socket_is_idle_usable_pool fd w) as Hp.
  destruct (socket_is_idle_usable fd w) as [usable w1]. simpl in Hp.
  rewrite <- Hp in Hw. destruct usable; simpl; [|done].
  pose proof (steady_clock_now_pool w1) as Hc.
  destruct (steady_clock_now w1) as [now w2]. simpl in Hc. rewrite <- Hc in Hw.
  pose proof (reap_locked_caps cfg now w2 Hw) as [Hidle Hkeys].
  destruct (pool_max_idle_total cfg <=? _) eqn:Et; [by split|].
  destruct (pool_max_idle_per_key cfg <=? _) eqn:Ek; simpl.
  - split; simpl; [lia|]. intros k cs.
    destruct (decide (key = k)) as [->|Hne].
    + rewrite lookup_insert_eq. intros [= <-].
      destruct (by_key _ !! k) as [conns|] eqn:E; simpl in *; [by eapply Hkeys | lia].
    + rewrite lookup_insert_ne by done. apply Hkeys.
  - split; simpl.
    + unfold wrap64, two64.
      pose proof (Z.mod_pos_bound (idle_total (pool (reap_locked cfg now w2)) + 1)
                    18446744073709551616 ltac:(lia)).
      pose proof (Z.mod_le (idle_total (pool (reap_locked cfg now w2)) + 1)
                    18446744073709551616 ltac:(lia) ltac:(lia)).
      lia.
    + intros k cs. destruct (decide (key = k)) as [->|Hne].
      * rewrite lookup_insert_eq. intros [= <-]. rewrite length_app. simpl. lia.
      * rewrite lookup_insert_ne by done. apply Hkeys.
Qed.

Lemma run_ops_caps (cfg : Config) (ops : list pool_op) (w : World) :
  caps_in_range cfg →
  pool_within_caps cfg (pool w) → pool_within_caps cfg (pool (run_ops cfg ops w)).
Proof.
  intros Hr. unfold run_ops. revert w.
  induction ops as [|op ops IH]; intros w Hw; simpl; [done|].
  apply IH. destruct op; simpl; [by apply acquire_caps | by apply release_caps].
Qed.

(** C2: the pool starts within its caps (it starts empty), and from a
    pool within its caps every sequence of [acquire] and [release]
    calls leaves the pool within its caps after each call: the
    idle count never exceeds [pool_max_idle_total] and no per-key list
    is longer than [pool_max_idle_per_key].  And [release] of a
    descriptor closes it and parks nothing when the liveness probe
    fails, when the idle count has reached the global cap, or when the
    key's list has reached the per-key cap; otherwise it appends the
    descriptor with [last_used_at] set to now and adds one to the idle
    count.  (Both caps are tested after the reaping that [release] does
    first.) *)
Theorem pool_caps_hold (cfg : Config) :
  caps_in_range cfg →
  pool_within_caps cfg {| by_key := ∅; idle_total := 0 |}
  ∧ (∀ (ops : list pool_op) (w : World) (n : nat),
     pool_within_caps cfg (pool w) →
     pool_within_caps cfg (pool (run_ops cfg (take n ops) w)))
  ∧ (∀ (key : string) (fd : Z) (w : World),
       0 ≤ fd → pool_within_caps cfg (pool w) →
       let '(usable, w1) := socket_is_idle_usable fd w in
       let '(now, w2) := steady_clock_now w1 in
       let w3 := reap_locked cfg now w2 in
       let conns := default [] (by_key (pool w3) !! key) in
       let w' := release cfg key fd w in
       if negb usable then w' = close fd w1
       else if pool_max_idle_total cfg <=? idle_total (pool w3) then w' = close fd w3
       else if pool_max_idle_per_key cfg <=? Z.of_nat (length conns) then
         closed w' = fd :: closed w3
         ∧ idle_total (pool w') = idle_total (pool w3)
         ∧ default [] (by_key (pool w') !! key) = conns
       else
         closed w' = closed w3
         ∧ by_key (pool w') !! key
           = Some (conns ++ [{| fd := fd; created_at := now; last_used_at := now |}])%list
         ∧ idle_total (pool w') = idle_total (pool w3) + 1).
Proof.
  intros Hr. split; [|split].
  - destruct Hr as [Hrk Hrt]. split; simpl; [lia|].
    intros key conns. by rewrite lookup_empty.
  - intros ops w n. by apply run_ops_caps.
  - intros key fd0 w Hfd Hw. unfold release.
    destruct (fd0 <? 0) eqn:E; [lia|].
    pose proof (socket_is_idle_usable_pool fd0 w) as Hp.
    destruct (socket_is_idle_usable fd0 w) as [usable w1]. simpl in Hp.
    rewrite <- Hp in Hw.
    pose proof (steady_clock_now_pool w1) as Hc.
    destruct (steady_clock_now w1) as [now w2]. simpl in Hc. rewrite <- Hc in Hw.
    destruct usable; simpl; [|done].
    pose proof (reap_locked_caps cfg now w2 Hw) as [Hidle Hkeys].
    destruct (pool_max_idle_total cfg <=? _) eqn:Et; [done|].
    destruct (pool_max_idle_per_key cfg <=? _) eqn:Ek; simpl.
    + by rewrite lookup_insert_eq.
    + rewrite lookup_insert_eq. split; [done|]. split; [done|].
      destruct Hr as [_ Hrt]. unfold wrap64. apply Z.mod_small. lia.
Qed.

Lemma pool_caps_hold_witness :
  pool_within_caps default_config
    (pool (run_ops default_config
             (take 3 [Release "127.0.0.1:9000" 7; Acquire "127.0.0.1:9000" "127.0.0.1" 9000;
                      Release "127.0.0.1:9000" 7])
             (example_world [] [] "127.0.0.1:9000"))).
Proof.
  pose proof (pool_caps_hold default_config
                ltac:(unfold caps_in_range, two64; simpl; lia)) as (Hfresh & Hops & _).
  apply Hops. exact Hfresh.
Defined.

(** ** The chunked relay *)

Lemma payload_app (a b : list recv_event) :
  payload (a ++ b) = payload a +:+ payload b.
Proof.
  induction a as [|[bytes|e] a IH]; simpl; [done | | done].
  by rewrite IH, append_assoc.
Qed.

Lemma socket_of_put (fd fd' : Z) (s : Socket) (w : World) :
  socket_of (put_socket fd s w) fd' = if decide (fd = fd') then s else socket_of w fd'.
Proof.
  unfold socket_of, put_socket. simpl. destruct (decide (fd = fd')) as [->|Hne].
  - by rewrite lookup_insert_eq.
  - by rewrite lookup_insert_ne.
Qed.

Lemma received_refl (fd : Z) (w : World) (buf : string) : received fd w w buf buf.
Proof. exists []. simpl. by rewrite append_nil_r. Qed.

Lemma received_trans (fd : Z) (w1 w2 w3 : World) (b1 b2 b3 : string) :
  received fd w1 w2 b1 b2 → received fd w2 w3 b2 b3 → received fd w1 w3 b1 b3.
Proof.
  intros (c1 & Hr1 & ->) (c2 & Hr2 & ->). exists (c1 ++ c2)%list.
  rewrite Hr1, Hr2, payload_app, append_assoc. split; [by rewrite <- app_assoc | done].
Qed.

Lemma recv_append_upstream_on_received (rx0 : list recv_event) (buf : string) :
  ∃ consumed,
    rx0 = (consumed ++ (recv_append_upstream_on rx0 buf).2)%list
    ∧ (recv_append_upstream_on rx0 buf).1.2 = buf +:+ payload consumed.
Proof.
  induction rx0 as [|[bytes|e] rx0 IH]; simpl.
  - exists []. simpl. by rewrite append_nil_r.
  - destruct (size bytes =? 0) eqn:E; simpl.
    + exists [Recv bytes]. simpl. apply Z.eqb_eq, size_0_empty in E. subst.
      by rewrite append_nil_r.
    + exists [Recv bytes]. simpl. by rewrite append_nil_r.
  - destruct (decide (e = EINTR)); simpl.
    + destruct IH as (consumed & Hr & Hb). exists (RecvErr e :: consumed).
      simpl. split; [by rewrite <- Hr | done].
    + exists [RecvErr e]. simpl. by rewrite append_nil_r.
Qed.

Lemma recv_append_upstream_received (fd : Z) (buf : string) (w : World) :
  received fd w (recv_append_upstream fd buf w).2 buf (recv_append_upstream fd buf w).1.2.
Proof.
  unfold recv_append_upstream.
  destruct (recv_append_upstream_on_received (rx (socket_of w fd)) buf)
    as (consumed & Hr & Hb).
  destruct (recv_append_upstream_on _ _) as [[ok buf'] rx']. simpl in *.
  exists consumed. rewrite socket_of_put. destruct (decide (fd = fd)); [|done].
  simpl. done.
Qed.

Lemma send_all_rx (fd fd' : Z) (data : string) (w : World) :
  rx (socket_of (send_all fd data w).2 fd') = rx (socket_of w fd').
Proof.
  unfold send_all. destruct (send_all_loop _ _ _) as [[ok tx'] wire']. simpl.
  rewrite socket_of_put. by destruct (decide (fd = fd')) as [->|].
Qed.

Lemma received_send_all (fd client_fd : Z) (data : string) (w w1 : World)
    (b b1 : string) :
  received fd w w1 b b1 → received fd w (send_all client_fd data w1).2 b b1.
Proof.
  intros (consumed & Hr & Hb). exists consumed. by rewrite send_all_rx.
Qed.

Lemma recv_until_size_received (fuel : nat) (fd : Z) (buf : string) (need : Z)
    (w : World) (ok : bool) (buf' : string) (w' : World) :
  recv_until_size fuel fd buf need w = Ret (ok, buf', w') →
  received fd w w' buf buf'.
Proof.
  revert buf w. induction fuel as [|fuel IH]; intros buf w; simpl.
  - destruct (need <=? size buf); [|done]. intros [= <- <- <-]. apply received_refl.
  - destruct (need <=? size buf); [intros [= <- <- <-]; apply received_refl|].
    pose proof (recv_append_upstream_received fd buf w) as Hrec.
    destruct (recv_append_upstream fd buf w) as [[ok1 buf1] w1]. simpl in Hrec.
    destruct ok1; simpl.
    + intros H. eapply received_trans; [exact Hrec | by eapply IH].
    + by intros [= <- <- <-].
Qed.

Lemma recv_until_found_received (fuel : nat) (fd : Z) (buf pat : string)
    (cursor : Z) (w : World) (at_ : option Z) (buf' : string) (w' : World) :
  recv_until_found fuel fd buf pat cursor w = Ret (at_, buf', w') →
  received fd w w' buf buf'
  ∧ ∀ i, at_ = Some i → find buf' pat cursor = Some i.
Proof.
  revert buf w. induction fuel as [|fuel IH]; intros buf w; simpl.
  - destruct (find buf pat cursor) as [i|] eqn:E; [|done].
    intros [= <- <- <-]. split; [apply received_refl | by intros ? [= <-]].
  - destruct (find buf pat cursor) as [i|] eqn:E.
    { intros [= <- <- <-]. split; [apply received_refl | by intros ? [= <-]]. }
    pose proof (recv_append_upstream_received fd buf w) as Hrec.
    destruct (recv_append_upstream fd buf w) as [[ok1 buf1] w1]. simpl in Hrec.
    destruct ok1; simpl.
    + intros H. destruct (IH _ _ H) as [Hr Hf].
      split; [by eapply received_trans | done].
    + intros [= <- <- <-]. split; [done | by intros ? ?].
Qed.

(** The relay's buffer holds what it was given and what it received; the
    relay answers true only when the \r\n\r\n it found is at the very
    end of that buffer, and false whenever bytes follow the one it
    found. *)
Lemma relay_chunked_loop_spec (fuel : nat) (upstream_fd client_fd : Z)
    (buf : string) (cursor : Z) (w : World)
    (complete : bool) (found_end : option Z) (buf' : string) (w' : World) :
  relay_chunked_loop fuel upstream_fd client_fd buf cursor w
  = Ret (complete, found_end, buf', w') →
  received upstream_fd w w' buf buf'
  ∧ (complete = true →
     ∃ from trailer_end, find buf' CRLFCRLF from = Some trailer_end
                         ∧ found_end = Some (trailer_end + 4)
                         ∧ trailer_end + 4 = size buf')
  ∧ (∀ e, found_end = Some e → e ≠ size buf' → complete = false).
Proof.
  revert buf cursor w. induction fuel as [|fuel IH]; intros buf cursor w; simpl; [done|].
  destruct (recv_until_found fuel upstream_fd buf CRLF cursor w)
    as [[[line_end buf1] w1]| | |] eqn:E1; simpl; try done.
  apply recv_until_found_received in E1 as [Hr1 _].
  destruct line_end as [line_end|]; [|by intros [= <- <- <- <-]].
  destruct (stoull 16 _) as [chunk_size|]; [|by intros [= <- <- <- <-]].
  destruct (recv_until_size fuel upstream_fd buf1 _ w1)
    as [[[ok2 buf2] w2]| | |] eqn:E2; simpl; try done.
  apply recv_until_size_received in E2 as Hr2.
  pose proof (received_trans _ _ _ _ _ _ _ Hr1 Hr2) as Hr12.
  destruct ok2; simpl; [|by intros [= <- <- <- <-]].
  destruct (substr_throws buf2 _); [done|].
  destruct (String.eqb _ CRLF); simpl; [|by intros [= <- <- <- <-]].
  destruct (_ <? cursor); [done|].
  destruct (send_all client_fd _ w2) as [ok3 w3] eqn:E3.
  assert (Hr3 : received upstream_fd w w3 buf buf2).
  { replace w3 with (send_all client_fd
      (substr buf2 cursor (wrap64 (line_end + 2 + chunk_size + 2) - cursor)) w2).2
      by (by rewrite E3).
    by apply received_send_all. }
  destruct ok3; simpl; [|by intros [= <- <- <- <-]].
  destruct (chunk_size =? 0).
  - destruct (recv_until_found fuel upstream_fd buf2 CRLFCRLF _ w3)
      as [[[trailer_end buf4] w4]| | |] eqn:E4; simpl; try done.
    apply recv_until_found_received in E4 as [Hr4 Hf4].
    pose proof (received_trans _ _ _ _ _ _ _ Hr3 Hr4) as Hr34.
    destruct trailer_end as [trailer_end|]; [|by intros [= <- <- <- <-]].
    destruct (send_all client_fd _ w4) as [ok5 w5] eqn:E5.
    assert (Hr5 : received upstream_fd w w5 buf buf4).
    { replace w5 with (send_all client_fd
        (substr buf4 (wrap64 (line_end + 2 + chunk_size + 2))
           (trailer_end + 4 - wrap64 (line_end + 2 + chunk_size + 2))) w4).2
        by (by rewrite E5).
      by apply received_send_all. }
    destruct ok5; simpl; intros [= <- <- <- <-]; (split; [done|]); split.
    + intros Hend%Z.eqb_eq.
      exists (wrap64 (line_end + 2 + chunk_size + 2)), trailer_end.
      split; [by apply Hf4 | done].
    + intros e [= <-] Hne. by apply Z.eqb_neq.
    + done.
    + done.
  - intros H. destruct (IH _ _ _ H) as (Hr & Hc & Hb).
    split; [by eapply received_trans | done].
Qed.

(** C9, the code at an input that shows the defect.  An upstream
    answers with a chunked body that is complete, 5 hello 0 and the
    blank line, and goes on with eighteen more bytes.  The relay takes
    the blank line for the end of the data of the chunk of size zero
    and only then looks for \r\n\r\n: it forwards the eighteen bytes
    to the client as part of the body and reports the body complete,
    since its buffer ends with them; the same body with nothing after
    it is reported incomplete.  [decode_chunked_body] reads the same
    bytes as the body hello and the eighteen bytes as leftover. *)
Theorem chunked_relay_overruns_terminator :
  let head := "HTTP/1.1 200 OK" +:+ CRLF +:+ "Transfer-Encoding: chunked" +:+ CRLFCRLF in
  let body := "5" +:+ CRLF +:+ "hello" +:+ CRLF +:+ "0" +:+ CRLFCRLF in
  let more := "HTTP/1.1 500 X" +:+ CRLFCRLF in
  let w_more := example_world [] [Recv (head +:+ body +:+ more)] "127.0.0.1:9000" in
  let w_body := example_world [] [Recv (head +:+ body)] "127.0.0.1:9000" in
  (∃ w', relay_response_and_decide_reuse 10 7 5 "GET" w_more
         = Ret ({| upstream_reusable := true; client_can_keepalive := true |}, w')
         ∧ wire (socket_of w' 5) = head +:+ body +:+ more
         ∧ rx (socket_of w' 7) = [])
  ∧ (∃ w', relay_response_and_decide_reuse 10 7 5 "GET" w_body = Ret (no_reuse, w')
           ∧ wire (socket_of w' 5) = head +:+ body)
  ∧ decode_chunked_body 10 [] (body +:+ more) = Ret (ChunkedOk "hello" more, []).
Proof.
  intros head body more w_more w_body. split; [|split].
  - eexists. split; [vm_compute; reflexivity|].
    split; vm_compute; reflexivity.
  - eexists. split; [vm_compute; reflexivity|]. vm_compute; reflexivity.
  - vm_compute; reflexivity.
Qed.

(** A round that ends in [Break] ends the loop, and [handle_client]
    always ends by closing the client descriptor. *)
Lemma break_leaves_loop (cfg : Config) (tunnel : Z → Z → World → World)
    (rounds fuel : nat) (client_fd : Z) (h h' : Handler) (w w1 w2 : World) :
  load_running w = (true, w1) →
  handle_client_round cfg tunnel fuel client_fd h w1 = Ret (Break, h', w2) →
  handle_client_loop cfg tunnel (S rounds) fuel client_fd h w = Ret (h', w2).
Proof. intros Hrun Hround. simpl. by rewrite Hrun, Hround. Qed.

Lemma handle_client_closes_client (cfg : Config) (tunnel : Z → Z → World → World)
    (rounds fuel : nat) (client_fd : Z) (w w' : World) :
  handle_client cfg tunnel rounds fuel client_fd w = Ret w' →
  ∃ w'', w' = close client_fd w''.
Proof.
  unfold handle_client.
  destruct (handle_client_loop _ _ _ _ _ _ _) as [[h w1]| | |]; simpl; try done.
  destruct (release_cached cfg h w1) as [h2 w2]. intros [= <-]. eauto.
Qed.

(** ** Runs of the handler *)

(** A route hit: the client receives the upstream's answer byte for byte
    and the upstream receives the rewritten head. *)
Example basic_route_hit :
  ∃ w', handle_client default_config no_tunnel 5 50 5
          (example_world [Recv example_request] [Recv example_response]
                         "127.0.0.1:9000") = Ret w'
        ∧ wire (socket_of w' 5) = example_response
        ∧ wire (socket_of w' 7)
          = "GET /p HTTP/1.1" +:+ CRLF +:+ "Host: localhost" +:+ CRLF
            +:+ "X-Forwarded-Host: example.test" +:+ CRLF
            +:+ "X-Forwarded-Proto: http" +:+ CRLF
            +:+ "Connection: keep-alive" +:+ CRLF
            +:+ "Content-Length: 0" +:+ CRLFCRLF
        ∧ closed w' = [5]
        ∧ idle_total (pool w') = 1.
Proof. eexists. split; [vm_compute; reflexivity|]. repeat split. Qed.

(** A host without a route gets a 404 that names it. *)
Example missing_route :
  client_sees (handle_client default_config no_tunnel 5 50 5
                 (example_world
                    [Recv ("GET / HTTP/1.1" +:+ CRLF +:+ "Host: Unknown.test:80"
                           +:+ CRLFCRLF)] [] "127.0.0.1:9000"))
  = Some (simple_response 404 "Not Found"
            ("No local route configured for unknown.test" +:+ NL)).
Proof. vm_compute; reflexivity. Qed.

(** After the last chunk and its \r\n the chunked relay looks for one
    more \r\n\r\n: a body that stops at "0\r\n\r\n" is forwarded in full
    and then reported incomplete once the upstream stops sending. *)
Example relay_waits_after_last_chunk :
  let body := "5" +:+ CRLF +:+ "hello" +:+ CRLF +:+ "0" +:+ CRLFCRLF in
  ∃ w', relay_chunked_body 10 7 5 body (example_world [] [] "127.0.0.1:9000")
        = Ret (false, w')
        ∧ wire (socket_of w' 5) = body.
Proof. eexists. split; [vm_compute; reflexivity | reflexivity]. Qed.

(** A size line can make the end of the chunk wrap around 2^64 to a
    position before the cursor: [send_all] is then called with a length
    that reaches far beyond the buffer. *)
Example relay_chunk_size_wraps :
  let body := "1" +:+ CRLF +:+ "A" +:+ CRLF +:+ "ffffffffffffffe9" +:+ CRLF in
  relay_chunked_body 10 7 5 body (example_world [] [] "127.0.0.1:9000") = Undefined.
Proof. vm_compute; reflexivity. Qed.

(** * More properties of the code *)

(** ** Trimming *)

Lemma ltrim_split (s : string) :
  ∃ pre, s = pre +:+ ltrim s ∧ all_space pre = true
         ∧ ∀ c, first_char (ltrim s) = Some c → isspace c = false.
Proof.
  induction s as [|a s IH]; simpl.
  - exists "". repeat split; done.
  - destruct (isspace a) eqn:E.
    + destruct IH as (pre & Hs & Hp & Hf). exists (String a pre). simpl.
      rewrite E, Hp. split; [by rewrite <- Hs | done].
    + exists "". simpl. split; [done|]. split; [done|]. by intros c [= <-].
Qed.

Lemma rtrim_split (t : string) :
  ∃ post, t = rtrim t +:+ post ∧ all_space post = true
          ∧ (∀ c, last_char (rtrim t) = Some c → isspace c = false)
          ∧ (∀ c, first_char t = Some c → isspace c = false →
                  first_char (rtrim t) = Some c).
Proof.
  induction t as [|a t IH]; simpl.
  - exists "". repeat split; done.
  - destruct IH as (post & Ht & Hp & Hl & _).
    destruct (rtrim t) as [|b r] eqn:E.
    + destruct (isspace a) eqn:Ea.
      * exists (String a t). simpl. rewrite Ea. simpl in Ht. subst post.
        split; [done|]. split; [by rewrite Hp|]. split; [done|].
        intros c [= <-]. congruence.
      * exists t. simpl. simpl in Ht. subst post. split; [done|]. split; [done|].
        split; [by intros c [= <-] | done].
    + exists post. simpl. split; [simpl in Ht; congruence|]. split; [done|].
      split; [|done]. intros c Hc. apply Hl. by destruct r.
Qed.

Lemma trim_fixed (t : string) : no_outer_space t → trim t = t.
Proof.
  intros [Hf Hl]. unfold trim.
  assert (Hlt : ltrim t = t).
  { destruct t as [|a t]; [done|]. simpl. by rewrite (Hf a eq_refl). }
  rewrite Hlt. clear Hf Hlt. induction t as [|a t IH]; [done|]. simpl.
  destruct t as [|b t].
  - simpl. by rewrite (Hl a eq_refl).
  - rewrite IH; [done|]. intros c Hc. apply Hl. done.
Qed.

Lemma trim_cut (s : string) :
  ∃ pre post, s = pre +:+ trim s +:+ post
              ∧ all_space pre = true ∧ all_space post = true.
Proof.
  unfold trim.
  destruct (ltrim_split s) as (pre & Hs & Hpre & _).
  destruct (rtrim_split (ltrim s)) as (post & Ht & Hpost & _).
  exists pre, post. split; [|done]. by rewrite <- Ht.
Qed.

Lemma trim_no_outer_space (s : string) : no_outer_space (trim s).
Proof.
  unfold trim.
  destruct (ltrim_split s) as (pre & Hs & Hpre & Hfirst).
  destruct (rtrim_split (ltrim s)) as (post & Ht & Hpost & Hlast & Hkeep).
  split; [|done]. intros c Hc.
  destruct (ltrim s) as [|a t] eqn:E; [done|].
  pose proof (Hfirst a eq_refl) as Ha.
  rewrite (Hkeep a eq_refl Ha) in Hc. by injection Hc as <-.
Qed.

Lemma trim_idem (s : string) : trim (trim s) = trim s.
Proof. apply trim_fixed, trim_no_outer_space. Qed.

(** X1: [trim] cuts white space, and only white space, from the two
    ends of a string: the string is the result between two runs of
    white space, the result neither begins nor ends with white space,
    and trimming it again changes nothing. *)
Theorem trim_strips_outer_space (s : string) :
  (∃ pre post, s = pre +:+ trim s +:+ post
               ∧ all_space pre = true ∧ all_space post = true)
  ∧ no_outer_space (trim s)
  ∧ trim (trim s) = trim s.
Proof.
  split; [apply trim_cut | split; [apply trim_no_outer_space | apply trim_idem]].
Qed.

(** ** The headers of a request *)

Lemma index_char_step (c a : ascii) (s : string) :
  String.index 0 (String c "") (String a s)
  = if Ascii.eqb c a then Some O else S <$> String.index 0 (String c "") s.
Proof.
  simpl. destruct (ascii_dec c a) as [->|Hne].
  - rewrite Ascii.eqb_refl. assert (String.prefix "" s = true) as -> by (by destruct s).
    done.
  - apply Ascii.eqb_neq in Hne. rewrite Hne.
    by destruct (String.index 0 (String c "") s).
Qed.

Lemma find_char_split (s : string) (c : ascii) (pos : Z) :
  find_char s c = Some pos →
  ∃ pre post, s = pre +:+ String c post ∧ size pre = pos ∧ no_char c pre.
Proof.
  unfold find_char. rewrite find_at_0.
  destruct (String.index 0 (String c "") s) as [n|] eqn:E; [|done].
  simpl. intros [= <-]. revert n E.
  induction s as [|a s IH]; intros n E; [done|].
  rewrite index_char_step in E. destruct (Ascii.eqb_spec c a) as [->|Hne].
  - injection E as <-. exists "", s. split; [done|]. split; [done|].
    intros [|x pre] post; simpl; discriminate.
  - destruct (String.index 0 (String c "") s) as [m|]; [|done].
    injection E as <-. destruct (IH m eq_refl) as (pre & post & -> & Hsz & Hno).
    exists (String a pre), post. split; [done|].
    split; [unfold size in *; simpl; lia|].
    intros [|x pre'] post'; simpl; intros [= ? Hp]; [congruence|].
    by apply (Hno pre' post').
Qed.

Lemma find_char_none (s : string) (c : ascii) :
  find_char s c = None → no_char c s.
Proof.
  unfold find_char. rewrite find_at_0.
  destruct (String.index 0 (String c "") s) as [n|] eqn:E; [done|]. intros _.
  induction s as [|a s IH]; [intros [|x pre] post; simpl; discriminate|].
  rewrite index_char_step in E. destruct (Ascii.eqb_spec c a) as [Heq|Hne]; [done|].
  destruct (String.index 0 (String c "") s) as [m|]; [done|].
  intros [|x pre] post; simpl; intros [= ? Hp]; [congruence|].
  by apply (IH eq_refl pre post).
Qed.

Lemma strip_port_no_colon (host : string) :
  no_char ":" (strip_port_from_host host).
Proof.
  unfold strip_port_from_host. destruct (find_char host ":") as [pos|] eqn:E.
  - destruct (find_char_split _ _ _ E) as (pre & post & -> & <- & Hno).
    by rewrite substr_prefix.
  - by apply find_char_none.
Qed.

Lemma tolower_idem (c : ascii) : tolower (tolower c) = tolower c.
Proof. destruct c as [[] [] [] [] [] [] [] []]; reflexivity. Qed.

Lemma to_lower_idem (s : string) : to_lower (to_lower s) = to_lower s.
Proof. induction s as [|c s IH]; simpl; [done | by rewrite tolower_idem, IH]. Qed.

Lemma tolower_colon (c : ascii) : tolower c = ":"%char → c = ":"%char.
Proof. destruct c as [[] [] [] [] [] [] [] []]; vm_compute; congruence. Qed.

Lemma to_lower_no_colon (s : string) : no_char ":" s → no_char ":" (to_lower s).
Proof.
  induction s as [|a s IH]; simpl; intros Hno.
  - intros [|x pre] post; simpl; discriminate.
  - intros [|x pre] post; simpl; intros [= Ha Hs].
    + apply tolower_colon in Ha. subst. by apply (Hno "" s).
    + apply (IH (λ p q Hp, Hno (String a p) q ltac:(simpl; by rewrite Hp)) pre post Hs).
Qed.

(** What a successful [read_request] is made of. *)
Lemma read_request_ok (fuel : nat) (rx rx' : list recv_event) (pending pending' : string)
    (req' : Request) :
  read_request fuel rx pending = Ret (ReadOk req' pending', rx') →
  ∃ buf header_end rx1 req chunked body,
    read_head rx pending = (inr (buf, header_end), rx1)
    ∧ parse_head (substr buf 0 (header_end + 4)) = inr req
    ∧ req' = with_body (with_chunked req chunked) body pending'.
Proof.
  unfold read_request.
  destruct (read_head rx pending) as [[error|[buf header_end]] rx1] eqn:Eh; [done|].
  destruct (parse_head _) as [error|req] eqn:Ep; [done|].
  unfold read_framed_body.
  destruct (match req_headers_lc req !! "content-length" with
            | Some v => stoul v | None => Some 0 end) as [n|]; [|done].
  match goal with |- context [with_chunked req ?c] => set (chunked := c) end.
  destruct chunked eqn:Ec.
  - destruct (decode_chunked_body fuel rx1 _) as [[[e|body leftover] rx2]| | |];
      simpl; try done.
    intros [= <- <- <-]. by exists buf, header_end, rx1, req, true, body.
  - destruct (n <=? size _).
    + intros [= <- <- <-]. by eexists buf, header_end, rx1, req, false, _.
    + destruct (string_max_size <? n); [done|].
      destruct (read_body rx1 _ n) as [[body|] rx2]; [|done].
      destruct (n <? size body); intros [= <- <- <-];
        by eexists buf, header_end, rx1, req, false, _.
Qed.

(** X2: the normalized host of a request that [read_request] has
    accepted holds no colon (the port is cut at the first one) and is
    in lower case. *)
Theorem normalized_host_lower_no_colon (fuel : nat) (rx rx' : list recv_event)
    (pending pending' : string) (req : Request) :
  read_request fuel rx pending = Ret (ReadOk req pending', rx') →
  no_char ":" (req_normalized_host req)
  ∧ to_lower (req_normalized_host req) = req_normalized_host req.
Proof.
  intros H. apply read_request_ok in H
    as (buf & header_end & rx1 & req0 & chunked & body & _ & Hp & ->).
  simpl. unfold parse_head in Hp.
  destruct (getlines _) as [|line0 rest]; [done|].
  destruct (parse_request_line _) as [[[m p] v]|]; [|done].
  destruct (request_header_lines rest [] ∅) as [headers headers_lc].
  injection Hp as <-. simpl.
  destruct (headers_lc !! "host") as [v0|].
  - split; [apply to_lower_no_colon, strip_port_no_colon | apply to_lower_idem].
  - split; [|done]. intros [|x pre] post; simpl; discriminate.
Qed.

(** X2, witness: [normalized_host_lower_no_colon] at an input. *)
Lemma normalized_host_lower_no_colon_witness :
  let raw := "GET / HTTP/1.1" +:+ CRLF +:+ "Host: Example.Test:8080" +:+ CRLF +:+ CRLF in
  ∃ req, read_request 10 [] raw = Ret (ReadOk req "", [])
         ∧ req_normalized_host req = "example.test"
         ∧ no_char ":" (req_normalized_host req)
         ∧ to_lower (req_normalized_host req) = req_normalized_host req.
Proof.
  intros raw. eexists. split; [vm_compute; reflexivity|]. split; [reflexivity|].
  refine (normalized_host_lower_no_colon 10 [] [] raw "" _ _).
  vm_compute; reflexivity.
Defined.

Lemma last_header_snoc (key k v : string) (headers : list (string * string)) :
  last_header key (headers ++ [(k, v)])
  = if String.eqb (to_lower k) key then Some v else last_header key headers.
Proof.
  induction headers as [|[k0 v0] rest IH]; simpl.
  - done.
  - rewrite IH. destruct (String.eqb (to_lower k) key); [done|].
    by destruct (last_header key rest).
Qed.

Lemma request_header_lines_index (lines : list string)
    (headers : list (string * string)) (headers_lc : gmap string string) :
  (∀ key, headers_lc !! key = last_header key headers) →
  ∀ key, (request_header_lines lines headers headers_lc).2 !! key
         = last_header key (request_header_lines lines headers headers_lc).1.
Proof.
  revert headers headers_lc.
  induction lines as [|line0 rest IH]; intros headers headers_lc Hinv; simpl; [done|].
  destruct (String.eqb (strip_cr line0) ""); [done|].
  destruct (find_char (strip_cr line0) ":") as [pos|]; [|by apply IH].
  apply IH. intros key. rewrite last_header_snoc.
  destruct (String.eqb_spec (to_lower (trim (substr (strip_cr line0) 0 pos))) key)
    as [->|Hne].
  - by rewrite lookup_insert_eq.
  - by rewrite lookup_insert_ne.
Qed.

Lemma request_header_lines_trimmed (lines : list string)
    (headers : list (string * string)) (headers_lc : gmap string string) :
  Forall (λ kv, trim kv.1 = kv.1 ∧ trim kv.2 = kv.2 ∧ no_char ":" kv.1) headers →
  Forall (λ kv, trim kv.1 = kv.1 ∧ trim kv.2 = kv.2 ∧ no_char ":" kv.1)
    (request_header_lines lines headers headers_lc).1.
Proof.
  revert headers headers_lc.
  induction lines as [|line0 rest IH]; intros headers headers_lc Hinv; simpl; [done|].
  destruct (String.eqb (strip_cr line0) ""); [done|].
  destruct (find_char (strip_cr line0) ":") as [pos|] eqn:E; [|by apply IH].
  apply IH. apply Forall_app. split; [done|]. constructor; [|constructor].
  simpl. split; [apply trim_idem|].
  split; [apply trim_idem|].
  destruct (find_char_split _ _ _ E) as (pre & post & Hs & <- & Hno).
  rewrite Hs, substr_prefix.
  destruct (trim_cut pre) as (p1 & p2 & Hpre & _).
  intros a b Hab. apply (Hno (p1 +:+ a) (b +:+ p2)).
  rewrite Hpre at 1. rewrite Hab. by rewrite !append_assoc.
Qed.

(** X3: in a request that [read_request] has accepted, the index
    [headers_lc] gives for every lower-case name the value of the last
    header with that name (a repeated header replaces the earlier one),
    and every header is kept with its name and value trimmed and no
    colon in the name. *)
Theorem header_index_last_wins (fuel : nat) (rx rx' : list recv_event)
    (pending pending' : string) (req : Request) :
  read_request fuel rx pending = Ret (ReadOk req pending', rx') →
  (∀ key, req_headers_lc req !! key = last_header key (req_headers req))
  ∧ Forall (λ kv, trim kv.1 = kv.1 ∧ trim kv.2 = kv.2 ∧ no_char ":" kv.1)
      (req_headers req).
Proof.
  intros H. apply read_request_ok in H
    as (buf & header_end & rx1 & req0 & chunked & body & _ & Hp & ->).
  simpl. unfold parse_head in Hp.
  destruct (getlines _) as [|line0 rest]; [done|].
  destruct (parse_request_line _) as [[[m p] v]|]; [|done].
  pose proof (request_header_lines_index rest [] ∅
                ltac:(intros key; by rewrite lookup_empty)) as Hidx.
  pose proof (request_header_lines_trimmed rest [] ∅ ltac:(constructor)) as Htrim.
  destruct (request_header_lines rest [] ∅) as [headers headers_lc].
  injection Hp as <-. simpl in *. done.
Qed.

(** X3, witness: [header_index_last_wins] at an input. *)
Lemma header_index_last_wins_witness :
  let raw := "GET / HTTP/1.1" +:+ CRLF +:+ "X-Tag: one" +:+ CRLF
             +:+ "x-tag:  two " +:+ CRLF +:+ CRLF in
  ∃ req, read_request 10 [] raw = Ret (ReadOk req "", [])
         ∧ req_headers req = [("X-Tag", "one"); ("x-tag", "two")]
         ∧ req_headers_lc req !! "x-tag" = Some "two"
         ∧ (∀ key, req_headers_lc req !! key = last_header key (req_headers req))
         ∧ Forall (λ kv, trim kv.1 = kv.1 ∧ trim kv.2 = kv.2 ∧ no_char ":" kv.1)
             (req_headers req).
Proof.
  intros raw. eexists. split; [vm_compute; reflexivity|]. split; [reflexivity|].
  split; [vm_compute; reflexivity|].
  refine (header_index_last_wins 10 [] [] raw "" _ _).
  vm_compute; reflexivity.
Defined.

(** ** What is forwarded, and how it is sent *)

Lemma iequals_ascii_lower (a b : string) :
  iequals_ascii a b = true ↔ to_lower a = to_lower b.
Proof.
  revert b. induction a as [|x a IH]; intros [|y b]; simpl; try (split; done).
  destruct (Ascii.eqb_spec (tolower x) (tolower y)) as [Heq|Hne].
  - rewrite IH, Heq. split; [by intros -> | by intros [= ->]].
  - split; [done | by intros [= ? _]].
Qed.

Lemma should_skip_iff (key : string) :
  should_skip_forward_header key = true ↔ to_lower key ∈ hop_headers.
Proof.
  unfold should_skip_forward_header, hop_headers.
  rewrite !orb_true_iff, !iequals_ascii_lower, !elem_of_cons, elem_of_nil. simpl.
  tauto.
Qed.

(** X4: the headers that [build_upstream_request] copies from the
    client are exactly those whose name, compared without case, is none
    of the eight it drops or writes itself, in their order and
    unchanged. *)
Theorem forwarded_headers_filter (headers : list (string * string)) :
  forwarded_headers headers
  = concat_strings
      (header_line <$> filter (λ kv, to_lower kv.1 ∉ hop_headers) headers).
Proof.
  induction headers as [|[key value] rest IH]; simpl; [done|].
  rewrite filter_cons. simpl.
  destruct (should_skip_forward_header key) eqn:E.
  - apply should_skip_iff in E.
    destruct (decide (to_lower key ∉ hop_headers)) as [Hn|_]; [exfalso; exact (Hn E) | done].
  - destruct (decide (to_lower key ∉ hop_headers)) as [_|Hn].
    + rewrite fmap_cons. cbn [concat_strings]. unfold header_line at 1.
      cbn [fst snd]. by rewrite <- IH, !append_assoc.
    + exfalso. apply Hn. intros Hin. apply should_skip_iff in Hin. congruence.
Qed.

Lemma substring_split_at (n : nat) (s : string) :
  (n ≤ String.length s)%nat →
  s = substring 0 n s +:+ substring n (String.length s - n) s.
Proof.
  revert s. induction n as [|n IH]; intros s Hn.
  - rewrite substring_0_0. simpl. rewrite Nat.sub_0_r. by rewrite substring_all.
  - destruct s as [|c s]; simpl in *; [lia|].
    rewrite <- IH by lia. done.
Qed.

Lemma substr_split_at (s : string) (n : Z) :
  0 ≤ n ≤ size s → s = substr s 0 n +:+ substr_from s n.
Proof.
  intros Hn. unfold substr_from, substr, substr_throws.
  destruct (size s <? 0) eqn:E0; [lia|]. destruct (size s <? n) eqn:E1; [lia|].
  replace (Z.to_nat (Z.min n (size s - 0))) with (Z.to_nat n) by lia.
  replace (Z.to_nat (Z.min (size s) (size s - n)))
    with (String.length s - Z.to_nat n)%nat by (unfold size in *; lia).
  apply substring_split_at. unfold size in *. lia.
Qed.

Lemma size_substr_prefix (s : string) (n : Z) :
  0 ≤ n ≤ size s → size (substr s 0 n) = n.
Proof.
  intros Hn. pose proof (substr_split_at s n Hn) as Hs.
  apply (f_equal size) in Hs. rewrite size_append in Hs.
  unfold substr_from, substr, substr_throws in *.
  destruct (size s <? 0) eqn:E0; [lia|]. destruct (size s <? n) eqn:E1; [lia|].
  replace (Z.to_nat (Z.min n (size s - 0))) with (Z.to_nat n) in * by lia.
  clear Hs. unfold size in *.
  assert (H : ∀ (k : nat) (t : string), (k ≤ String.length t)%nat →
              String.length (substring 0 k t) = k).
  { induction k as [|k IH]; intros t Hk; [by rewrite substring_0_0|].
    destruct t as [|c t]; simpl in *; [lia|]. rewrite IH; lia. }
  rewrite H; lia.
Qed.

(** [send_all] writes a prefix of the data, in order, and all of it
    exactly when it answers true. *)
Lemma send_all_loop_spec (tx0 : list send_event) (data wire0 : string) :
  ∃ written rest,
    data = written +:+ rest
    ∧ (send_all_loop tx0 data wire0).2 = wire0 +:+ written
    ∧ ((send_all_loop tx0 data wire0).1.1 = true ↔ rest = "").
Proof.
  revert data wire0. induction tx0 as [|[k|e|e] tx0 IH]; intros data wire0; simpl.
  - destruct (size data =? 0) eqn:E; simpl.
    + exists data, "". rewrite !append_nil_r.
      apply Z.eqb_eq, size_0_empty in E. subst. by rewrite append_nil_r.
    + exists "", data. simpl. rewrite append_nil_r. split; [done|]. split; [done|].
      split; [done|]. intros ->. done.
  - destruct (size data =? 0) eqn:E; simpl.
    { exists data, "". rewrite !append_nil_r.
      apply Z.eqb_eq, size_0_empty in E. subst. by rewrite append_nil_r. }
    destruct (IH (substr_from data (Z.min (Z.pos k) (size data)))
                 (wire0 +:+ substr data 0 (Z.min (Z.pos k) (size data))))
      as (written & rest & Hd & Hw & Hok).
    exists (substr data 0 (Z.min (Z.pos k) (size data)) +:+ written), rest.
    split; [|split; [by rewrite Hw, append_assoc | done]].
    rewrite append_assoc, <- Hd. apply substr_split_at.
    pose proof (size_nonneg data). lia.
  - destruct (size data =? 0) eqn:E; simpl.
    { exists data, "". rewrite !append_nil_r.
      apply Z.eqb_eq, size_0_empty in E. subst. by rewrite append_nil_r. }
    destruct (decide (e = EINTR)); [apply IH|]. simpl.
    exists "", data. simpl. rewrite append_nil_r. split; [done|]. split; [done|].
    split; [done|]. intros ->. done.
  - destruct (size data =? 0) eqn:E; simpl.
    { exists data, "". rewrite !append_nil_r.
      apply Z.eqb_eq, size_0_empty in E. subst. by rewrite append_nil_r. }
    destruct (decide (e = EINTR)); [apply IH|]. simpl.
    exists "", data. simpl. rewrite append_nil_r. split; [done|]. split; [done|].
    split; [done|]. intros ->. done.
Qed.

(** X5: [send_all] writes a prefix of the data to the descriptor, in
    order, after what was written before; it answers true exactly when
    the prefix is all of the data; it reads nothing and leaves every
    other socket as it was. *)
Theorem send_all_writes_prefix (fd : Z) (data : string) (w : World) :
  ∃ written rest,
    data = written +:+ rest
    ∧ wire (socket_of (send_all fd data w).2 fd) = wire (socket_of w fd) +:+ written
    ∧ ((send_all fd data w).1 = true ↔ rest = "")
    ∧ rx (socket_of (send_all fd data w).2 fd) = rx (socket_of w fd)
    ∧ ∀ fd', fd' ≠ fd → socket_of (send_all fd data w).2 fd' = socket_of w fd'.
Proof.
  unfold send_all.
  destruct (send_all_loop_spec (tx (socket_of w fd)) data (wire (socket_of w fd)))
    as (written & rest & Hd & Hw & Hok).
  destruct (send_all_loop _ _ _) as [[ok tx'] wire'] eqn:E. simpl in *.
  exists written, rest. rewrite socket_of_put.
  destruct (decide (fd = fd)); [|done]. simpl.
  repeat split; try done; try apply Hok.
  intros fd' Hne. rewrite socket_of_put. by destruct (decide (fd = fd')).
Qed.

(** ** Cutting the stream into requests *)

Lemma scan_digits_from_nonneg (base acc : Z) (s : string) :
  0 ≤ base → 0 ≤ acc → 0 ≤ (scan_digits_from base acc s).1.
Proof.
  intros Hb. revert acc. induction s as [|c s IH]; intros acc Hacc; simpl; [done|].
  destruct (digit_of base c) as [d|] eqn:E; [|done].
  apply IH. pose proof (digit_of_nonneg _ _ _ E). nia.
Qed.

Lemma stoull_range (base : Z) (s : string) (n : Z) :
  0 ≤ base → stoull base s = Some n → 0 ≤ n < two64.
Proof.
  intros Hb. unfold stoull, strto.
  destruct (scan_sign (ltrim s)) as [neg s1].
  unfold scan_digits. destruct (skip_hex_prefix base s1) as [|c s2]; [done|].
  destruct (digit_of base c) as [d|] eqn:E; [|done].
  pose proof (scan_digits_from_nonneg base d s2 Hb (digit_of_nonneg _ _ _ E)) as Hv.
  destruct (scan_digits_from base d s2) as [v r]. simpl in Hv.
  destruct (two64 <=? v) eqn:Ev; [done|].
  intros [= <-]. destruct neg; [|lia].
  unfold wrap64. apply Z.mod_pos_bound. unfold two64. lia.
Qed.

Lemma find_split (s pat : string) (i : Z) :
  find s pat 0 = Some i → pat ≠ "" →
  ∃ pre post, s = pre +:+ pat +:+ post ∧ size pre = i.
Proof.
  rewrite find_at_0. destruct (String.index 0 pat s) as [m|] eqn:E; [|done].
  simpl. intros [= <-] Hne. apply index_correct1 in E.
  destruct (substring_split m (String.length pat) s) as (pre & post & [[Hs Hl] | Hn]).
  - by rewrite E.
  - exists pre, post. rewrite E in Hs. split; [done|]. unfold size. lia.
  - destruct pat; [done | simpl in Hn; lia].
Qed.

Lemma read_head_spec (rx0 : list recv_event) (pending buf : string)
    (header_end : Z) (rx1 : list recv_event) :
  read_head rx0 pending = (inr (buf, header_end), rx1) →
  ∃ consumed, rx0 = (consumed ++ rx1)%list
              ∧ buf = pending +:+ payload consumed
              ∧ find buf CRLFCRLF 0 = Some header_end.
Proof.
  revert pending. induction rx0 as [|[bytes|e] rx0 IH]; intros pending; simpl.
  - destruct (find pending CRLFCRLF 0) as [i|] eqn:E.
    + intros [= <- <- <-]. exists []. simpl. by rewrite append_nil_r.
    + by destruct (kMaxHeaderBytes <? size pending).
  - destruct (find pending CRLFCRLF 0) as [i|] eqn:E.
    + intros [= <- <- <-]. exists []. simpl. by rewrite append_nil_r.
    + destruct (kMaxHeaderBytes <? size pending); [done|].
      destruct (size bytes =? 0); [done|]. intros H.
      destruct (IH _ H) as (consumed & -> & -> & Hf).
      exists (Recv bytes :: consumed). simpl. rewrite append_assoc in Hf. by rewrite append_assoc.
  - destruct (find pending CRLFCRLF 0) as [i|] eqn:E.
    + intros [= <- <- <-]. exists []. simpl. by rewrite append_nil_r.
    + destruct (kMaxHeaderBytes <? size pending); [done|].
      destruct (decide (e = EINTR)); [|done]. intros H.
      destruct (IH _ H) as (consumed & -> & -> & Hf).
      exists (RecvErr e :: consumed). done.
Qed.

Lemma read_body_spec (rx0 : list recv_event) (body body' : string) (n : Z)
    (rx1 : list recv_event) :
  read_body rx0 body n = (Some body', rx1) →
  ∃ consumed, rx0 = (consumed ++ rx1)%list
              ∧ body' = body +:+ payload consumed ∧ n ≤ size body'.
Proof.
  revert body. induction rx0 as [|[bytes|e] rx0 IH]; intros body; simpl.
  - destruct (n <=? size body) eqn:E; [|done].
    intros [= <- <-]. exists []. simpl. rewrite append_nil_r. split; [done|]. split; [done|lia].
  - destruct (n <=? size body) eqn:E.
    + intros [= <- <-]. exists []. simpl. rewrite append_nil_r.
      split; [done|]. split; [done|lia].
    + destruct (size bytes =? 0); [done|]. intros H.
      destruct (IH _ H) as (consumed & -> & -> & Hn).
      exists (Recv bytes :: consumed). simpl. rewrite append_assoc in Hn. by rewrite append_assoc.
  - destruct (n <=? size body) eqn:E.
    + intros [= <- <-]. exists []. simpl. rewrite append_nil_r.
      split; [done|]. split; [done|lia].
    + destruct (decide (e = EINTR)); [|done]. intros H.
      destruct (IH _ H) as (consumed & -> & -> & Hn).
      exists (RecvErr e :: consumed). done.
Qed.

(** X6: for a request that is not chunked, [read_request] cuts the
    bytes it had and received, with nothing lost and nothing added,
    into the head (up to the first blank line), a body of exactly the
    length that [Content-Length] declares (zero without the header),
    and the leftover that it hands to the next round. *)
Theorem content_length_framing_splits_stream (fuel : nat) (rx rx' : list recv_event)
    (pending pending' : string) (req : Request) :
  read_request fuel rx pending = Ret (ReadOk req pending', rx') →
  req_chunked req = false →
  ∃ consumed head,
    rx = (consumed ++ rx')%list
    ∧ pending +:+ payload consumed = head +:+ req_body req +:+ req_leftover req
    ∧ find (pending +:+ payload consumed) CRLFCRLF 0 = Some (size head - 4)
    ∧ match req_headers_lc req !! "content-length" with
      | Some v => stoul v
      | None => Some 0
      end = Some (size (req_body req))
    ∧ pending' = req_leftover req.
Proof.
  unfold read_request.
  destruct (read_head rx pending) as [[error|[buf header_end]] rx1] eqn:Eh; [done|].
  destruct (read_head_spec _ _ _ _ _ Eh) as (c1 & -> & Hbuf & Hfind).
  destruct (find_split _ _ _ Hfind ltac:(discriminate)) as (pre & post & Hs & Hpre).
  assert (Hlen : 0 ≤ header_end + 4 ≤ size buf).
  { rewrite Hs, !size_append. pose proof (size_nonneg pre). pose proof (size_nonneg post).
    change (size CRLFCRLF) with 4. lia. }
  pose proof (substr_split_at buf (header_end + 4) Hlen) as Hsplit.
  pose proof (size_substr_prefix buf (header_end + 4) Hlen) as Hhead.
  destruct (parse_head _) as [error|req0] eqn:Ep; [done|].
  unfold read_framed_body.
  destruct (match req_headers_lc req0 !! "content-length" with
            | Some v => stoul v | None => Some 0 end) as [n|] eqn:En; [|done].
  assert (Hn : 0 ≤ n).
  { destruct (req_headers_lc req0 !! "content-length") as [v|].
    - unfold stoul in En. apply stoull_range in En; lia.
    - by injection En as <-. }
  match goal with |- context [with_chunked req0 ?c] => destruct c eqn:Ec end.
  - destruct (decode_chunked_body fuel rx1 _) as [[[e|body leftover] rx2]| | |];
      simpl; try done.
    intros [= <- <- <-]. simpl. done.
  - set (initial := substr_from buf (header_end + 4)) in *.
    destruct (n <=? size initial) eqn:Ei.
    + intros [= <- <- <-] _. simpl.
      exists c1, (substr buf 0 (header_end + 4)).
      split; [done|]. rewrite <- Hbuf.
      split. { rewrite <- (substr_split_at initial n) by lia. exact Hsplit. }
      split. { rewrite Hhead. rewrite Hfind. f_equal. lia. }
      split; [|done]. rewrite En. f_equal. symmetry. apply size_substr_prefix. lia.
    + destruct (string_max_size <? n); [done|].
      destruct (read_body rx1 initial n) as [[body|] rx2] eqn:Eb; [|done].
      destruct (read_body_spec _ _ _ _ _ Eb) as (c2 & -> & Hbody & Hge).
      assert (Hcons : pending +:+ payload (c1 ++ c2) = substr buf 0 (header_end + 4) +:+ body).
      { rewrite payload_app, <- append_assoc, <- Hbuf, Hbody, <- append_assoc.
        by rewrite <- Hsplit. }
      assert (Hfind' : find (pending +:+ payload (c1 ++ c2)) CRLFCRLF 0
                       = Some (size (substr buf 0 (header_end + 4)) - 4)).
      { rewrite Hhead, payload_app, <- append_assoc, <- Hbuf.
        replace (header_end + 4 - 4) with header_end by lia.
        rewrite find_at_0 in *.
        destruct (String.index 0 CRLFCRLF buf) as [m|] eqn:Ei0; [|done].
        injection Hfind as <-.
        destruct (String.index 0 CRLFCRLF (buf +:+ payload c2)) as [m'|] eqn:Ei1.
        - simpl. f_equal. f_equal.
          destruct (Nat.lt_trichotomy m m') as [Hlt|[->|Hgt]]; [|done|].
          + exfalso. eapply (index_correct2 _ _ _ _ Ei1 m); [lia | done |].
            apply index_correct1 in Ei0. rewrite Hs.
            replace m with (String.length pre + 0)%nat by (unfold size in *; lia).
            rewrite append_assoc, substring_skip_app.
            rewrite append_assoc. apply substring_0_app.
          + exfalso. eapply (index_correct2 _ _ _ _ Ei0 m'); [lia | done |].
            apply index_correct1 in Ei1.
            assert (Hm' : (m' + 4 ≤ String.length buf)%nat).
            { rewrite Hs in *. rewrite !length_append in *. unfold size in *.
              change (String.length CRLFCRLF) with 4%nat. lia. }
            destruct (substring_split m' (String.length CRLFCRLF) (buf +:+ payload c2))
              as (p1 & p2 & [[Hs1 Hl1] | Hz]); [by rewrite Ei1 | | done].
            rewrite Ei1 in Hs1.
            assert (Hbp : buf = p1 +:+ CRLFCRLF +:+ substring (m' + 4) (String.length buf - (m' + 4)) buf).
            { rewrite (substring_split_at (m' + 4) buf Hm') at 1.
              assert (Hpre4 : substring 0 (m' + 4) buf = substring 0 (m' + 4) (buf +:+ payload c2)).
              { clear -Hm'. revert Hm'. generalize (m' + 4)%nat as k.
                induction buf as [|x b IH]; intros k Hk; simpl in *.
                - assert (k = 0)%nat as -> by lia. by rewrite !substring_0_0.
                - destruct k as [|k]; [done|]. simpl. rewrite IH; [done|lia]. }
              rewrite Hpre4, Hs1 at 1.
              replace (m' + 4)%nat with (String.length (p1 +:+ CRLFCRLF))
                by (rewrite length_append; change (String.length CRLFCRLF) with 4%nat; lia).
              rewrite <- append_assoc, substring_0_app. by rewrite append_assoc. }
            rewrite Hbp at 1. rewrite <- Hl1.
            replace (String.length p1) with (String.length p1 + 0)%nat at 1 by lia.
            rewrite substring_skip_app. apply substring_0_app.
        - exfalso. eapply (index_correct3 _ m _ _ Ei1); [done | lia|].
          apply index_correct1 in Ei0. rewrite Hs.
          replace m with (String.length pre + 0)%nat by (unfold size in *; lia).
          rewrite !append_assoc, substring_skip_app. apply substring_0_app. }
      destruct (n <? size body) eqn:Elt.
      * intros [= <- <- <-] _. simpl.
        exists (c1 ++ c2)%list, (substr buf 0 (header_end + 4)).
        split; [by rewrite app_assoc|].
        split. { rewrite Hcons. by rewrite <- (substr_split_at body n) by (subst; lia). }
        split; [done|]. split; [|done].
        rewrite En. f_equal. symmetry. apply size_substr_prefix. lia.
      * intros [= <- <- <-] _. simpl.
        exists (c1 ++ c2)%list, (substr buf 0 (header_end + 4)).
        split; [by rewrite app_assoc|].
        split. { rewrite Hcons. by rewrite append_nil_r. }
        split; [done|]. split; [|done]. rewrite En. f_equal. lia.
Qed.

(** X6, witness: [content_length_framing_splits_stream] at an input. *)
Lemma content_length_framing_splits_stream_witness :
  let head := "POST / HTTP/1.1" +:+ CRLF +:+ "Content-Length: 5" +:+ CRLF +:+ CRLF in
  let rx := [Recv (head +:+ "he"); Recv "lloGET"] in
  ∃ req, read_request 10 rx "" = Ret (ReadOk req "GET", [])
         ∧ req_body req = "hello"
         ∧ ∃ consumed head',
             rx = (consumed ++ [])%list
             ∧ "" +:+ payload consumed = head' +:+ req_body req +:+ req_leftover req
             ∧ find ("" +:+ payload consumed) CRLFCRLF 0 = Some (size head' - 4)
             ∧ match req_headers_lc req !! "content-length" with
               | Some v => stoul v
               | None => Some 0
               end = Some (size (req_body req))
             ∧ "GET" = req_leftover req.
Proof.
  intros head rx. eexists. split; [vm_compute; reflexivity|]. split; [reflexivity|].
  refine (content_length_framing_splits_stream 10 rx [] "" "GET" _ _ _).
  - vm_compute; reflexivity.
  - reflexivity.
Defined.

(** ** Relaying a body of known length *)

Lemma send_all_true_wire (fd : Z) (data : string) (w : World) :
  (send_all fd data w).1 = true →
  wire (socket_of (send_all fd data w).2 fd) = wire (socket_of w fd) +:+ data.
Proof.
  unfold send_all.
  destruct (send_all_loop_spec (tx (socket_of w fd)) data (wire (socket_of w fd)))
    as (written & rest & Hd & Hw & Hok).
  destruct (send_all_loop _ _ _) as [[ok tx'] wire']. simpl in *.
  intros ->. rewrite socket_of_put. destruct (decide (fd = fd)); [|done]. simpl.
  rewrite Hw, Hd. destruct Hok as [Hok _]. rewrite (Hok eq_refl).
  by rewrite append_nil_r.
Qed.

Lemma sys_recv_wire (fd fd' : Z) (w : World) :
  wire (socket_of (sys_recv fd w).2 fd') = wire (socket_of w fd').
Proof.
  unfold sys_recv. destruct (rx (socket_of w fd)) as [|ev rx0] eqn:E; simpl; [done|].
  rewrite socket_of_put. by destruct (decide (fd = fd')) as [->|].
Qed.

Lemma sys_recv_rx (fd : Z) (w : World) :
  rx (socket_of w fd) = ((sys_recv fd w).1 :: rx (socket_of (sys_recv fd w).2 fd))%list
  ∨ (rx (socket_of w fd) = [] ∧ sys_recv fd w = (Recv "", w)).
Proof.
  unfold sys_recv. destruct (rx (socket_of w fd)) as [|ev rx0] eqn:E; simpl.
  - by right.
  - left. rewrite socket_of_put. by destruct (decide (fd = fd)).
Qed.

Lemma relay_body_loop_spec (fuel : nat) (up cl : Z) (sent len : Z) (w w' : World) :
  relay_body_loop fuel up cl sent len w = Ret (true, w') →
  sent ≤ len →
  ∃ consumed,
    rx (socket_of w up) = (consumed ++ rx (socket_of w' up))%list
    ∧ size (payload consumed) = len - sent
    ∧ wire (socket_of w' cl) = wire (socket_of w cl) +:+ payload consumed.
Proof.
  revert sent w. induction fuel as [|fuel IH]; intros sent w; simpl.
  - destruct (len <=? sent) eqn:E; [|done]. intros [= <-] Hle.
    exists []. simpl. rewrite append_nil_r. split; [done|]. split; [|done].
    change (size "") with 0. lia.
  - destruct (len <=? sent) eqn:E.
    { intros [= <-] Hle. exists []. simpl. rewrite append_nil_r.
      split; [done|]. split; [|done]. change (size "") with 0. lia. }
    pose proof (sys_recv_rx up w) as Hrx.
    pose proof (sys_recv_wire up cl w) as Hwire.
    destruct (sys_recv up w) as [[bytes|e] w1] eqn:Es; simpl in Hrx, Hwire.
    + destruct (size bytes =? 0) eqn:En; [done|].
      pose proof (send_all_true_wire cl (substr bytes 0 (Z.min (size bytes) (len - sent))) w1) as Hsw.
      pose proof (send_all_rx cl up (substr bytes 0 (Z.min (size bytes) (len - sent))) w1) as Hsr.
      destruct (send_all cl _ w1) as [ok w2]. simpl in Hsw, Hsr.
      destruct ok; [|done]. simpl.
      destruct (Z.min (size bytes) (len - sent) <? size bytes) eqn:Elt; [done|].
      intros Hloop Hle.
      assert (Hmin : Z.min (size bytes) (len - sent) = size bytes) by lia.
      rewrite Hmin in *.
      assert (Hall : substr bytes 0 (size bytes) = bytes).
      { pose proof (substr_split_at bytes (size bytes)) as Hs.
        pose proof (size_substr_prefix bytes (size bytes)) as Hz.
        pose proof (size_nonneg bytes).
        specialize (Hs ltac:(lia)). specialize (Hz ltac:(lia)).
        assert (Hr : substr_from bytes (size bytes) = "").
        { apply size_0_empty. apply (f_equal size) in Hs.
          rewrite size_append in Hs. lia. }
        rewrite Hr, append_nil_r in Hs. done. }
      rewrite Hall in *.
      destruct (IH _ _ Hloop ltac:(lia)) as (consumed & Hc & Hsz & Hw).
      destruct Hrx as [Hrx | [_ [=]]]; [| by subst; simpl in En].
      exists (Recv bytes :: consumed). simpl.
      split. { rewrite Hrx, <- Hsr, Hc. done. }
      split. { rewrite size_append. lia. }
      rewrite Hw, Hsw by done. rewrite Hwire. by rewrite append_assoc.
    + destruct (decide (e = EINTR)) as [->|]; [|done].
      intros Hloop Hle.
      destruct (IH _ _ Hloop Hle) as (consumed & Hc & Hsz & Hw).
      destruct Hrx as [Hrx | [_ [=]]].
      exists (RecvErr EINTR :: consumed). simpl.
      split. { rewrite Hrx, Hc. done. }
      split; [done|]. by rewrite Hw, Hwire.
Qed.

Lemma relay_body_with_length_true (fuel : nat) (up cl : Z) (body_buf : string)
    (len : Z) (w w' : World) :
  relay_body_with_length fuel up cl body_buf len w = Ret (true, w') →
  0 ≤ len →
  ∃ consumed,
    rx (socket_of w up) = (consumed ++ rx (socket_of w' up))%list
    ∧ size (body_buf +:+ payload consumed) = len
    ∧ wire (socket_of w' cl) = wire (socket_of w cl) +:+ body_buf +:+ payload consumed.
Proof.
  unfold relay_body_with_length. pose proof (size_nonneg body_buf) as Hnn.
  destruct (size body_buf =? 0) eqn:E0; simpl.
  - apply Z.eqb_eq, size_0_empty in E0. subst body_buf. simpl.
    intros Hloop Hlen.
    destruct (relay_body_loop_spec _ _ _ _ _ _ _ Hloop Hlen) as (consumed & Hc & Hsz & Hw).
    exists consumed. split; [done|]. split; [lia | done].
  - destruct (0 <? Z.min (size body_buf) len) eqn:Ef.
    + pose proof (send_all_true_wire cl (substr body_buf 0 (Z.min (size body_buf) len)) w) as Hsw.
      pose proof (send_all_rx cl up (substr body_buf 0 (Z.min (size body_buf) len)) w) as Hsr.
      destruct (send_all cl _ w) as [ok w1]. simpl in Hsw, Hsr.
      destruct ok; [|done]. simpl.
      destruct (len <? size body_buf) eqn:Elt; [done|].
      intros Hloop Hlen.
      assert (Hmin : Z.min (size body_buf) len = size body_buf) by lia.
      rewrite Hmin in *.
      assert (Hall : substr body_buf 0 (size body_buf) = body_buf).
      { pose proof (substr_split_at body_buf (size body_buf) ltac:(lia)) as Hs.
        assert (Hr : substr_from body_buf (size body_buf) = "").
        { apply size_0_empty.
          pose proof (size_substr_prefix body_buf (size body_buf) ltac:(lia)) as Hz.
          apply (f_equal size) in Hs. rewrite size_append in Hs. lia. }
        rewrite Hr, append_nil_r in Hs. done. }
      rewrite Hall in *.
      destruct (relay_body_loop_spec _ _ _ _ _ _ _ Hloop ltac:(lia))
        as (consumed & Hc & Hsz & Hw).
      exists consumed. split; [by rewrite <- Hsr|].
      split; [rewrite size_append; lia|].
      rewrite Hw, Hsw by done. by rewrite append_assoc.
    + simpl. destruct (len <? size body_buf) eqn:Elt; [done|].
      intros _ Hlen. lia.
Qed.

Lemma send_all_wire_prefix (fd : Z) (data : string) (w : World) :
  ∃ written rest,
    data = written +:+ rest
    ∧ wire (socket_of (send_all fd data w).2 fd) = wire (socket_of w fd) +:+ written.
Proof.
  unfold send_all.
  destruct (send_all_loop_spec (tx (socket_of w fd)) data (wire (socket_of w fd)))
    as (written & rest & Hd & Hw & _).
  destruct (send_all_loop _ _ _) as [[ok tx'] wire']. simpl in *.
  exists written, rest. split; [done|].
  rewrite socket_of_put. by destruct (decide (fd = fd)).
Qed.

Lemma length_substring_bound (m k : nat) (s : string) :
  (String.length (substring m k s) ≤ k)%nat.
Proof.
  revert m k. induction s as [|c s IH]; intros m k; simpl.
  - destruct m, k; simpl; lia.
  - destruct m as [|m]; [|apply IH].
    destruct k as [|k]; simpl; [lia|]. specialize (IH 0%nat k). lia.
Qed.

Lemma size_substr_le (s : string) (pos n : Z) : 0 ≤ n → size (substr s pos n) ≤ n.
Proof.
  intros Hn. unfold substr. destruct (substr_throws s pos); [unfold size; simpl; lia|].
  pose proof (length_substring_bound (Z.to_nat pos)
                (Z.to_nat (Z.min n (size s - pos))) s).
  unfold size in *. lia.
Qed.

Lemma relay_body_loop_bound (fuel : nat) (up cl : Z) (sent len : Z) (w w' : World)
    (ok : bool) :
  relay_body_loop fuel up cl sent len w = Ret (ok, w') →
  sent ≤ len →
  ∃ forwarded,
    wire (socket_of w' cl) = wire (socket_of w cl) +:+ forwarded
    ∧ size forwarded ≤ len - sent.
Proof.
  revert sent w. induction fuel as [|fuel IH]; intros sent w Hrun Hle; revert Hrun; simpl.
  - destruct (len <=? sent) eqn:E; [|done]. intros [= <- <-].
    exists "". rewrite append_nil_r. split; [done|]. change (size "") with 0. lia.
  - destruct (len <=? sent) eqn:E.
    { intros [= <- <-]. exists "". rewrite append_nil_r.
      split; [done|]. change (size "") with 0. lia. }
    pose proof (sys_recv_wire up cl w) as Hwire.
    destruct (sys_recv up w) as [[bytes|e] w1] eqn:Es; simpl in Hwire.
    + destruct (size bytes =? 0) eqn:En.
      { intros [= <- <-]. exists "". rewrite append_nil_r.
        split; [done|]. change (size "") with 0. lia. }
      pose proof (size_nonneg bytes) as Hb.
      set (to_send := Z.min (size bytes) (len - sent)).
      assert (Hts : 0 ≤ to_send ≤ len - sent) by (subst to_send; lia).
      destruct (send_all_wire_prefix cl (substr bytes 0 to_send) w1)
        as (written & rest & Hd & Hsw).
      assert (Hwr : size written ≤ to_send).
      { pose proof (size_substr_le bytes 0 to_send ltac:(lia)) as Hs.
        rewrite Hd, size_append in Hs. pose proof (size_nonneg rest). lia. }
      destruct (send_all cl _ w1) as [ok1 w2]. simpl in Hsw.
      destruct ok1; simpl.
      * destruct (to_send <? size bytes) eqn:Elt.
        { intros [= <- <-]. exists written. split; [congruence | lia]. }
        intros Hloop.
        destruct (IH _ _ Hloop ltac:(lia)) as (forwarded & Hw & Hsz).
        exists (written +:+ forwarded).
        split; [by rewrite Hw, Hsw, Hwire, append_assoc|].
        rewrite size_append. lia.
      * intros [= <- <-]. exists written. split; [congruence | lia].
    + destruct (decide (e = EINTR)) as [->|].
      * intros Hloop. destruct (IH _ _ Hloop Hle) as (forwarded & Hw & Hsz).
        exists forwarded. split; [congruence | done].
      * intros [= <- <-]. exists "". rewrite append_nil_r.
        split; [done|]. change (size "") with 0. lia.
Qed.

(** X7: whatever happens, [relay_body_with_length] writes to the
    client at most [body_len] bytes of body; when it answers true it
    has written exactly [body_len] bytes, which are the bytes it was
    given followed by all it received from the upstream. *)
Theorem fixed_length_relay_respects_length (fuel : nat) (up cl : Z)
    (body_buf : string) (len : Z) (w w' : World) (ok : bool) :
  relay_body_with_length fuel up cl body_buf len w = Ret (ok, w') →
  0 ≤ len →
  ∃ forwarded,
    wire (socket_of w' cl) = wire (socket_of w cl) +:+ forwarded
    ∧ size forwarded ≤ len
    ∧ (ok = true →
       ∃ consumed,
         rx (socket_of w up) = (consumed ++ rx (socket_of w' up))%list
         ∧ forwarded = body_buf +:+ payload consumed
         ∧ size forwarded = len).
Proof.
  intros Hrun Hlen. destruct ok.
  - destruct (relay_body_with_length_true _ _ _ _ _ _ _ Hrun Hlen)
      as (consumed & Hrx & Hsz & Hw).
    exists (body_buf +:+ payload consumed).
    split; [done|]. split; [lia|]. intros _. by exists consumed.
  - revert Hrun. unfold relay_body_with_length.
    pose proof (size_nonneg body_buf) as Hnn.
    destruct (size body_buf =? 0) eqn:E0; simpl.
    + intros Hloop. destruct (relay_body_loop_bound _ _ _ _ _ _ _ _ Hloop Hlen)
        as (forwarded & Hw & Hsz).
      exists forwarded. split; [done|]. split; [lia | done].
    + set (first := Z.min (size body_buf) len).
      assert (Hpre : ∃ written w1,
                 (if 0 <? first then send_all cl (substr body_buf 0 first) w
                  else (true, w)).2 = w1
                 ∧ wire (socket_of w1 cl) = wire (socket_of w cl) +:+ written
                 ∧ size written ≤ first).
      { destruct (0 <? first) eqn:Ef.
        - destruct (send_all_wire_prefix cl (substr body_buf 0 first) w)
            as (written & rest & Hd & Hsw).
          exists written, (send_all cl (substr body_buf 0 first) w).2.
          split; [done|]. split; [done|].
          pose proof (size_substr_le body_buf 0 first ltac:(lia)) as Hs.
          rewrite Hd, size_append in Hs. pose proof (size_nonneg rest). lia.
        - exists "", w. simpl. rewrite append_nil_r. split; [done|]. split; [done|].
          change (size "") with 0. lia. }
      destruct Hpre as (written & w1 & Hw1 & Hwire1 & Hsz1).
      destruct (if 0 <? first then _ else _) as [ok1 w1']. simpl in Hw1. subst w1'.
      destruct ok1; simpl.
      * destruct (len <? size body_buf) eqn:Elt.
        { intros [= <-]. exists written. split; [done|]. split; [lia | done]. }
        intros Hloop.
        destruct (relay_body_loop_bound _ _ _ _ _ _ _ _ Hloop ltac:(lia))
          as (forwarded & Hw & Hsz).
        exists (written +:+ forwarded).
        split; [by rewrite Hw, Hwire1, append_assoc|].
        split; [rewrite size_append; lia | done].
      * intros [= <-]. exists written. split; [done|]. split; [lia | done].
Qed.

(** X7, witness: [fixed_length_relay_respects_length] at an input. *)
Lemma fixed_length_relay_respects_length_witness :
  let w := example_world [] [Recv "llo"] "127.0.0.1:9000" in
  ∃ w', relay_body_with_length 10 7 5 "he" 5 w = Ret (true, w')
        ∧ wire (socket_of w' 5) = "hello"
        ∧ ∃ forwarded,
            wire (socket_of w' 5) = wire (socket_of w 5) +:+ forwarded
            ∧ size forwarded ≤ 5
            ∧ (true = true →
               ∃ consumed,
                 rx (socket_of w 7) = (consumed ++ rx (socket_of w' 7))%list
                 ∧ forwarded = "he" +:+ payload consumed
                 ∧ size forwarded = 5).
Proof.
  intros w. eexists. split; [vm_compute; reflexivity|]. split; [vm_compute; reflexivity|].
  refine (fixed_length_relay_respects_length 10 7 5 "he" 5 w _ true _ _).
  - vm_compute; reflexivity.
  - lia.
Defined.

(** ** Slices of a buffer *)

Lemma substr_mid (p m r : string) : substr (p +:+ m +:+ r) (size p) (size m) = m.
Proof.
  unfold substr, substr_throws. rewrite !size_append.
  pose proof (size_nonneg m). pose proof (size_nonneg r).
  destruct (_ <? _) eqn:E; [lia|].
  replace (Z.to_nat (size p)) with (String.length p + 0)%nat by (unfold size; lia).
  replace (Z.to_nat _) with (String.length m) by (unfold size in *; lia).
  by rewrite substring_skip_app, substring_0_app.
Qed.

Lemma substr_from_app (p r : string) : substr_from (p +:+ r) (size p) = r.
Proof.
  unfold substr_from, substr, substr_throws. rewrite !size_append.
  pose proof (size_nonneg p). pose proof (size_nonneg r).
  destruct (_ <? _) eqn:E; [lia|].
  replace (Z.to_nat (size p)) with (String.length p + 0)%nat by (unfold size; lia).
  replace (Z.to_nat _) with (String.length r) by (unfold size in *; lia).
  by rewrite substring_skip_app, substring_all.
Qed.

Lemma cut_at (s : string) (n : Z) :
  0 ≤ n ≤ size s → ∃ p r, s = p +:+ r ∧ size p = n.
Proof.
  intros Hn. exists (substr s 0 n), (substr_from s n).
  split; [by apply substr_split_at | by apply size_substr_prefix].
Qed.

(** Two adjacent slices of a buffer that has grown in between make up
    the slice from the first start. *)
Lemma substr_then_rest (buf more : string) (c e : Z) :
  0 ≤ c ≤ e → e ≤ size buf →
  substr buf c (e - c) +:+ substr_from (buf +:+ more) e = substr_from (buf +:+ more) c.
Proof.
  intros Hc He.
  destruct (cut_at buf c ltac:(lia)) as (p & r1 & -> & Hp).
  rewrite size_append in He.
  destruct (cut_at r1 (e - c) ltac:(lia)) as (m & r & -> & Hm).
  assert (He' : e = size (p +:+ m)) by (rewrite size_append; lia).
  rewrite <- Hm. subst c e. rewrite substr_mid.
  rewrite (append_assoc p (m +:+ r) more), (append_assoc m r more).
  rewrite substr_from_app.
  rewrite <- (append_assoc p m (r +:+ more)). by rewrite substr_from_app.
Qed.

Lemma substr_to_end (s : string) (c : Z) :
  0 ≤ c → substr s c (size s - c) = substr_from s c.
Proof.
  intros Hc. unfold substr_from, substr. destruct (substr_throws s c); [done|].
  f_equal. lia.
Qed.

Lemma index_ge (n m : nat) (pat s : string) :
  String.index n pat s = Some m → (n ≤ m)%nat.
Proof.
  revert n m. induction s as [|b s IH]; intros n m; simpl.
  - destruct n; [|done]. destruct pat; [|done]. intros [= <-]. lia.
  - destruct n as [|n].
    + lia.
    + destruct (String.index n pat s) as [k|] eqn:E; [|done].
      intros [= <-]. apply IH in E. lia.
Qed.

Lemma length_substring_le (m n : nat) (s : string) :
  n ≠ O → String.length (substring m n s) = n → (m + n ≤ String.length s)%nat.
Proof.
  intros Hn. revert m n Hn. induction s as [|b s IH]; intros m n Hn; simpl.
  - destruct m, n; simpl; intros; lia.
  - destruct m as [|m].
    + destruct n as [|n]; simpl; [lia|]. intros [= H].
      destruct n as [|n]; [lia|]. apply (IH 0%nat) in H; lia.
    + intros H. apply IH in H; lia.
Qed.

Lemma find_bounds (s pat : string) (from i : Z) :
  0 ≤ from → pat ≠ "" → find s pat from = Some i → from ≤ i ∧ i + size pat ≤ size s.
Proof.
  intros Hf Hp. unfold find. destruct (size s <? from); [done|].
  destruct (String.index _ pat s) as [m|] eqn:E; [|done].
  simpl. intros [= <-]. split.
  - apply index_ge in E. lia.
  - apply index_correct1 in E. apply (f_equal String.length) in E.
    apply length_substring_le in E; [unfold size; lia|].
    by destruct pat.
Qed.

(** ** Receiving leaves what was written alone *)

Lemma recv_append_upstream_wire (fd fd' : Z) (buf : string) (w : World) :
  wire (socket_of (recv_append_upstream fd buf w).2 fd') = wire (socket_of w fd').
Proof.
  unfold recv_append_upstream.
  destruct (recv_append_upstream_on _ _) as [[ok buf'] rx']. simpl.
  rewrite socket_of_put. by destruct (decide (fd = fd')) as [->|].
Qed.

Lemma recv_until_size_spec (fuel : nat) (fd fd' : Z) (buf : string) (need : Z)
    (w : World) (ok : bool) (buf' : string) (w' : World) :
  recv_until_size fuel fd buf need w = Ret (ok, buf', w') →
  wire (socket_of w' fd') = wire (socket_of w fd')
  ∧ (ok = true → need ≤ size buf').
Proof.
  revert buf w. induction fuel as [|fuel IH]; intros buf w; simpl.
  - destruct (need <=? size buf) eqn:E; [|done]. intros [= <- <- <-].
    split; [done | lia].
  - destruct (need <=? size buf) eqn:E; [intros [= <- <- <-]; split; [done | lia]|].
    pose proof (recv_append_upstream_wire fd fd' buf w) as Hw.
    destruct (recv_append_upstream fd buf w) as [[ok1 buf1] w1]. simpl in Hw.
    destruct ok1; simpl.
    + intros H. destruct (IH _ _ H) as [Hw' Hok]. split; [congruence | done].
    + by intros [= <- <- <-].
Qed.

Lemma recv_until_found_wire (fuel : nat) (fd fd' : Z) (buf pat : string)
    (cursor : Z) (w : World) (at_ : option Z) (buf' : string) (w' : World) :
  recv_until_found fuel fd buf pat cursor w = Ret (at_, buf', w') →
  wire (socket_of w' fd') = wire (socket_of w fd').
Proof.
  revert buf w. induction fuel as [|fuel IH]; intros buf w; simpl.
  - destruct (find buf pat cursor); [|done]. by intros [= <- <- <-].
  - destruct (find buf pat cursor); [by intros [= <- <- <-]|].
    pose proof (recv_append_upstream_wire fd fd' buf w) as Hw.
    destruct (recv_append_upstream fd buf w) as [[ok1 buf1] w1]. simpl in Hw.
    destruct ok1; simpl.
    + intros H. rewrite (IH _ _ H). done.
    + by intros [= <- <- <-].
Qed.

Lemma received_size (fd : Z) (w w' : World) (b b' : string) :
  received fd w w' b b' → size b ≤ size b'.
Proof.
  intros (c & _ & ->). rewrite size_append. pose proof (size_nonneg (payload c)). lia.
Qed.

(** A chunked relay that reports the body complete has written to the
    client every byte of its buffer from the cursor on. *)
Lemma relay_chunked_loop_wire (fuel : nat) (up cl : Z) (buf : string) (cursor : Z)
    (w : World) (found_end : option Z) (buf' : string) (w' : World) :
  relay_chunked_loop fuel up cl buf cursor w = Ret (true, found_end, buf', w') →
  0 ≤ cursor →
  wire (socket_of w' cl) = wire (socket_of w cl) +:+ substr_from buf' cursor.
Proof.
  revert buf cursor w. induction fuel as [|fuel IH]; intros buf cursor w; simpl; [done|].
  destruct (recv_until_found fuel up buf CRLF cursor w)
    as [[[line_end buf1] w1]| | |] eqn:E1; simpl; try done.
  pose proof (recv_until_found_wire _ _ cl _ _ _ _ _ _ _ E1) as Hw1.
  destruct line_end as [line_end|]; [|done].
  destruct (stoull 16 _) as [chunk_size|]; [|done].
  set (chunk_end := wrap64 (line_end + 2 + chunk_size + 2)).
  destruct (recv_until_size fuel up buf1 chunk_end w1)
    as [[[ok2 buf2] w2]| | |] eqn:E2; simpl; try done.
  destruct (recv_until_size_spec _ _ cl _ _ _ _ _ _ E2) as [Hw2 Hsz2].
  destruct ok2; simpl; [|done]. specialize (Hsz2 eq_refl).
  destruct (substr_throws buf2 _); [done|].
  destruct (String.eqb _ CRLF); simpl; [|done].
  destruct (chunk_end <? cursor) eqn:Ece; [done|].
  pose proof (send_all_true_wire cl (substr buf2 cursor (chunk_end - cursor)) w2) as Hs3.
  destruct (send_all cl _ w2) as [ok3 w3] eqn:E3. simpl in Hs3.
  destruct ok3; simpl; [|done]. specialize (Hs3 eq_refl).
  destruct (chunk_size =? 0).
  - destruct (recv_until_found fuel up buf2 CRLFCRLF chunk_end w3)
      as [[[trailer_end buf4] w4]| | |] eqn:E4; simpl; try done.
    pose proof (recv_until_found_wire _ _ cl _ _ _ _ _ _ _ E4) as Hw4.
    apply recv_until_found_received in E4 as [(c4 & _ & Hb4) Hf4].
    destruct trailer_end as [trailer_end|]; [|done].
    pose proof (send_all_true_wire cl
      (substr buf4 chunk_end (trailer_end + 4 - chunk_end)) w4) as Hs5.
    destruct (send_all cl _ w4) as [ok5 w5] eqn:E5. simpl in Hs5.
    destruct ok5; simpl; [|done]. specialize (Hs5 eq_refl).
    intros [= Hend <- <- <-] Hc. apply Z.eqb_eq in Hend.
    rewrite Hs5, Hw4, Hs3, Hw2, Hw1. rewrite append_assoc. f_equal.
    rewrite Hend, substr_to_end by lia. subst buf4.
    apply substr_then_rest; lia.
  - intros H Hc.
    destruct (relay_chunked_loop_spec _ _ _ _ _ _ _ _ _ _ H) as [(c & _ & Hb) _].
    rewrite (IH _ _ _ H) by lia.
    rewrite Hs3, Hw2, Hw1. rewrite append_assoc. f_equal. subst buf'.
    apply substr_then_rest; lia.
Qed.

Lemma relay_read_head_spec (fuel : nat) (up fd' : Z) (buf : string) (w : World)
    (buf' : string) (header_end : Z) (w' : World) :
  relay_read_head fuel up buf w = Ret (Some (buf', header_end), w') →
  received up w w' buf buf'
  ∧ find buf' CRLFCRLF 0 = Some header_end
  ∧ wire (socket_of w' fd') = wire (socket_of w fd').
Proof.
  revert buf w. induction fuel as [|fuel IH]; intros buf w; simpl.
  - destruct (find buf CRLFCRLF 0) eqn:E; [|done]. intros [= <- <- <-].
    split; [apply received_refl | done].
  - destruct (find buf CRLFCRLF 0) eqn:E.
    { intros [= <- <- <-]. split; [apply received_refl | done]. }
    pose proof (recv_append_upstream_received up buf w) as Hrec.
    pose proof (recv_append_upstream_wire up fd' buf w) as Hw.
    destruct (recv_append_upstream up buf w) as [[ok1 buf1] w1]. simpl in Hrec, Hw.
    destruct ok1; simpl; [|done].
    destruct (kMaxHeaderBytes <? size buf1); [done|].
    intros H. destruct (IH _ _ H) as (Hr & Hf & Hw').
    split; [by eapply received_trans|]. split; [done | congruence].
Qed.

Lemma response_header_lines_length (lines : list string) (out out' : ResponseMeta) :
  response_header_lines lines out = Some out' →
  (∀ n, content_length out = Some n → 0 ≤ n) →
  ∀ n, content_length out' = Some n → 0 ≤ n.
Proof.
  revert out. induction lines as [|line0 rest IH]; intros out; simpl.
  - by intros [= <-].
  - destruct (String.eqb (strip_cr line0) ""); [by intros [= <-]|].
    destruct (find_char (strip_cr line0) ":") as [pos|]; [|apply IH].
    destruct (_ && _); [intros H Hc; by apply (IH _ H)|].
    destruct (String.eqb _ "content-length").
    + destruct (stoull 10 _) as [k|] eqn:Ek; [|done].
      intros H _. apply (IH _ H). simpl. intros n [= <-].
      apply stoull_range in Ek; lia.
    + destruct (_ && _); intros H Hc; by apply (IH _ H).
Qed.

Lemma parse_response_headers_length (raw method : string) (meta : ResponseMeta) (n : Z) :
  parse_response_headers raw method = Some meta →
  content_length meta = Some n → 0 ≤ n.
Proof.
  unfold parse_response_headers.
  destruct (getlines raw) as [|line0 rest]; [done|].
  destruct (extract_word _) as [[v after]|]; [|done].
  destruct (extract_int after) as [[c r]|]; [|done].
  destruct (response_header_lines _ _) as [out|] eqn:E; [|done].
  intros [= <-]. unfold classify_body.
  match goal with |- context [if ?b then _ else _] => destruct b end; simpl.
  - intros [= <-]. done.
  - by apply (response_header_lines_length _ _ _ E).
Qed.

(** X8: the two answers of [relay_response_and_decide_reuse] are
    always equal; and when they are true the client has been sent,
    byte for byte, everything that was received from the upstream: a
    head without [Connection: close] that parsed, and a body that is
    empty for a response without body and of the declared length for a
    response framed by [Content-Length]. *)
Theorem reusable_upstream_was_relayed_whole (fuel : nat) (up cl : Z)
    (method : string) (w w' : World) (out : RelayOutcome) :
  relay_response_and_decide_reuse fuel up cl method w = Ret (out, w') →
  upstream_reusable out = client_can_keepalive out
  ∧ (upstream_reusable out = true →
     ∃ consumed head body meta,
       rx (socket_of w up) = (consumed ++ rx (socket_of w' up))%list
       ∧ payload consumed = head +:+ body
       ∧ wire (socket_of w' cl) = wire (socket_of w cl) +:+ head +:+ body
       ∧ find (head +:+ body) CRLFCRLF 0 = Some (size head - 4)
       ∧ parse_response_headers head method = Some meta
       ∧ connection_close meta = false
       ∧ (no_body meta = true → body = "")
       ∧ (no_body meta = false → meta_chunked meta = false →
          content_length meta = Some (size body))).
Proof.
  unfold relay_response_and_decide_reuse.
  destruct (relay_read_head fuel up "" w) as [[[[buf header_end]|] w1]| | |] eqn:Eh;
    simpl; try done; [|by intros [= <- <-]].
  destruct (relay_read_head_spec _ _ cl _ _ _ _ _ Eh) as ((c1 & Hrx1 & Hbuf) & Hfind & Hw1).
  simpl in Hbuf.
  destruct (find_bounds buf CRLFCRLF 0 header_end ltac:(lia) ltac:(discriminate) Hfind) as [Hhe Hlen].
  change (size CRLFCRLF) with 4 in Hlen.
  pose proof (substr_split_at buf (header_end + 4) ltac:(lia)) as Hsplit.
  pose proof (size_substr_prefix buf (header_end + 4) ltac:(lia)) as Hhead.
  remember (substr buf 0 (header_end + 4)) as head eqn:Ehead in *.
  remember (substr_from buf (header_end + 4)) as body_buf eqn:Ebody in *.
  clear Ehead Ebody.
  destruct (parse_response_headers head method) as [meta|] eqn:Ep;
    [|by intros [= <- <-]].
  pose proof (send_all_true_wire cl head w1) as Hs2.
  pose proof (send_all_rx cl up head w1) as Hr2.
  destruct (send_all cl head w1) as [ok2 w2]. simpl in Hs2, Hr2.
  destruct ok2; simpl; [|by intros [= <- <-]]. specialize (Hs2 eq_refl).
  assert (Hfind' : ∀ more, find (head +:+ body_buf +:+ more) CRLFCRLF 0
                           = Some (size head - 4)).
  { intros more. rewrite <- append_assoc, <- Hsplit, Hhead.
    replace (header_end + 4 - 4) with header_end by lia.
    destruct (find_split _ _ _ Hfind ltac:(discriminate)) as (pre & post & Hs & Hpre).
    rewrite find_at_0 in *.
    destruct (String.index 0 CRLFCRLF buf) as [m|] eqn:Ei0; [|done].
    injection Hfind as <-.
    destruct (String.index 0 CRLFCRLF (buf +:+ more)) as [m'|] eqn:Ei1.
    - simpl. f_equal. f_equal.
      destruct (Nat.lt_trichotomy m m') as [Hlt|[->|Hgt]]; [|done|].
      + exfalso. eapply (index_correct2 _ _ _ _ Ei1 m); [lia | done |].
        apply index_correct1 in Ei0. rewrite Hs.
        replace m with (String.length pre + 0)%nat by (unfold size in *; lia).
        rewrite append_assoc, substring_skip_app.
        rewrite append_assoc. apply substring_0_app.
      + exfalso. eapply (index_correct2 _ _ _ _ Ei0 m'); [lia | done |].
        apply index_correct1 in Ei1.
        assert (Hm' : (m' + 4 ≤ String.length buf)%nat)
          by (unfold size in *; lia).
        destruct (substring_split m' (String.length CRLFCRLF) (buf +:+ more))
          as (p1 & p2 & [[Hs1 Hl1] | Hz]); [by rewrite Ei1 | | done].
        rewrite Ei1 in Hs1.
        assert (Hbp : buf = p1 +:+ CRLFCRLF
                      +:+ substring (m' + 4) (String.length buf - (m' + 4)) buf).
        { rewrite (substring_split_at (m' + 4) buf Hm') at 1.
          assert (Hpre4 : substring 0 (m' + 4) buf = substring 0 (m' + 4) (buf +:+ more)).
          { clear -Hm'. revert Hm'. generalize (m' + 4)%nat as k.
            induction buf as [|x b IH]; intros k Hk; simpl in *.
            - assert (k = 0)%nat as -> by lia. by rewrite !substring_0_0.
            - destruct k as [|k]; [done|]. simpl. rewrite IH; [done|lia]. }
          rewrite Hpre4, Hs1 at 1.
          replace (m' + 4)%nat with (String.length (p1 +:+ CRLFCRLF))
            by (rewrite length_append; change (String.length CRLFCRLF) with 4%nat; lia).
          rewrite <- append_assoc, substring_0_app. by rewrite append_assoc. }
        rewrite Hbp at 1. rewrite <- Hl1.
        replace (String.length p1) with (String.length p1 + 0)%nat at 1 by lia.
        rewrite substring_skip_app. apply substring_0_app.
    - exfalso. eapply (index_correct3 _ m _ _ Ei1); [done | lia|].
      apply index_correct1 in Ei0. rewrite Hs.
      replace m with (String.length pre + 0)%nat by (unfold size in *; lia).
      rewrite !append_assoc, substring_skip_app. apply substring_0_app. }
  unfold relay_body. destruct (no_body meta) eqn:Enb.
  - destruct (size body_buf =? 0) eqn:E0; simpl.
    + apply Z.eqb_eq, size_0_empty in E0.
      intros [= <- <-]. simpl. split; [done|]. intros Hcc.
      exists c1, head, "", meta. rewrite append_nil_r.
      split; [by rewrite Hr2|]. split; [by rewrite <- Hbuf, Hsplit, E0, append_nil_r|].
      split; [by rewrite Hs2, Hw1|].
      split. { specialize (Hfind' ""). by rewrite E0, !append_nil_r in Hfind'. }
      split; [done|]. split; [by destruct (connection_close meta)|].
      split; [done | intros; congruence].
    + destruct (send_all cl body_buf w2). by intros [= <- <-].
  - destruct (meta_chunked meta) eqn:Ech.
    + unfold relay_chunked_body.
      destruct (relay_chunked_loop fuel up cl body_buf 0 w2)
        as [[[[complete found_end] buf'] w3]| | |] eqn:E; simpl; try done.
      intros [= <- <-]. simpl. split; [done|].
      intros [-> Hcc%negb_true_iff]%andb_true_iff.
      destruct (relay_chunked_loop_spec _ _ _ _ _ _ _ _ _ _ E) as ((c2 & Hrx2 & Hb2) & _).
      pose proof (relay_chunked_loop_wire _ _ _ _ _ _ _ _ _ E ltac:(lia)) as Hw3.
      exists (c1 ++ c2)%list, head, buf', meta.
      split; [by rewrite Hrx1, <- Hr2, Hrx2, app_assoc|].
      split; [by rewrite payload_app, <- Hbuf, Hb2, <- append_assoc, <- Hsplit|].
      split. { rewrite Hw3, Hs2, Hw1, append_assoc. f_equal. f_equal.
               apply (substr_from_app "" buf'). }
      split; [rewrite Hb2; apply Hfind'|].
      split; [done|]. split; [done|]. split; intros; congruence.
    + destruct (content_length meta) as [len|] eqn:Ecl.
      * destruct (relay_body_with_length fuel up cl body_buf len w2)
          as [[ok w3]| | |] eqn:E; simpl; try done.
        intros [= <- <-]. simpl. split; [done|].
        intros [-> Hcc%negb_true_iff]%andb_true_iff.
        destruct (relay_body_with_length_true _ _ _ _ _ _ _ E
                    (parse_response_headers_length _ _ _ _ Ep Ecl))
          as (c2 & Hrx2 & Hsz & Hw3).
        exists (c1 ++ c2)%list, head, (body_buf +:+ payload c2), meta.
        split; [by rewrite Hrx1, <- Hr2, Hrx2, app_assoc|].
        split; [by rewrite payload_app, <- Hbuf, <- append_assoc, <- Hsplit|].
        split; [by rewrite Hw3, Hs2, Hw1, !append_assoc|].
        split; [apply Hfind'|]. split; [done|]. split; [done|].
        split; [intros; congruence|]. intros _ _. by rewrite Hsz.
      * destruct (if negb (size body_buf =? 0) then send_all cl body_buf w2 else (true, w2))
          as [ok w3]. destruct ok; simpl; [|by intros [= <- <-]].
        destruct (relay_until_close fuel up cl w3); simpl; try done.
        by intros [= <- <-].
Qed.

(** X8, witness: [reusable_upstream_was_relayed_whole] at an input. *)
Lemma reusable_upstream_was_relayed_whole_witness :
  let w := example_world [] [Recv example_response] "127.0.0.1:9000" in
  ∃ out w', relay_response_and_decide_reuse 10 7 5 "GET" w = Ret (out, w')
            ∧ upstream_reusable out = true
            ∧ wire (socket_of w' 5) = example_response
            ∧ upstream_reusable out = client_can_keepalive out.
Proof.
  intros w. eexists _, _. split; [vm_compute; reflexivity|]. split; [reflexivity|].
  split; [vm_compute; reflexivity|].
  refine (proj1 (reusable_upstream_was_relayed_whole 10 7 5 "GET" w _ _ _)).
  vm_compute; reflexivity.
Defined.

(** ** The idle count of the pool *)

Lemma total_idle_empty : total_idle ∅ = 0.
Proof. unfold total_idle. by rewrite map_fold_empty. Qed.

Lemma total_idle_insert_fresh (m : gmap string (list PooledConn)) (k : string)
    (x : list PooledConn) :
  m !! k = None → total_idle (<[k := x]> m) = Z.of_nat (length x) + total_idle m.
Proof.
  intros Hk. unfold total_idle. rewrite map_fold_insert_L; [done | | done].
  intros. lia.
Qed.

Lemma total_idle_delete (m : gmap string (list PooledConn)) (k : string)
    (x : list PooledConn) :
  m !! k = Some x → total_idle m = Z.of_nat (length x) + total_idle (delete k m).
Proof.
  intros Hk. rewrite <- (insert_delete_id m k x Hk) at 1.
  apply total_idle_insert_fresh. apply lookup_delete_eq.
Qed.

Lemma total_idle_nonneg (m : gmap string (list PooledConn)) : 0 ≤ total_idle m.
Proof.
  unfold total_idle. apply (map_fold_weak_ind (λ r _, 0 ≤ r)); [lia|].
  intros. lia.
Qed.

Lemma total_idle_insert (m : gmap string (list PooledConn)) (k : string)
    (x : list PooledConn) :
  total_idle (<[k := x]> m)
  = total_idle m - Z.of_nat (length (default [] (m !! k))) + Z.of_nat (length x).
Proof.
  destruct (m !! k) as [old|] eqn:Ek; simpl.
  - rewrite (total_idle_delete m k old Ek).
    rewrite <- insert_delete_eq.
    rewrite total_idle_insert_fresh by apply lookup_delete_eq. lia.
  - rewrite total_idle_insert_fresh by done. lia.
Qed.

Lemma total_idle_lookup_le (m : gmap string (list PooledConn)) (k : string)
    (x : list PooledConn) :
  m !! k = Some x → Z.of_nat (length x) ≤ total_idle m.
Proof.
  intros Hk. rewrite (total_idle_delete m k x Hk).
  pose proof (total_idle_nonneg (delete k m)). lia.
Qed.

Lemma dec_idle_exact (idle : Z) : 0 < idle → dec_idle idle = idle - 1.
Proof. unfold dec_idle. destruct (0 <? idle) eqn:E; lia. Qed.

Lemma reap_conns_count (cfg : Config) (now : Z) (conns : list PooledConn)
    (w : World) (idle : Z) :
  Z.of_nat (length conns) ≤ idle →
  (reap_conns cfg now conns w idle).2
  = idle - Z.of_nat (length conns)
    + Z.of_nat (length (reap_conns cfg now conns w idle).1.1).
Proof.
  revert w idle. induction conns as [|conn rest IH]; intros w idle Hidle; simpl.
  - lia.
  - simpl in Hidle.
    destruct (if is_conn_fresh cfg now conn then socket_is_idle_usable (fd conn) w
              else (false, w)) as [keep w1].
    destruct keep.
    + specialize (IH w1 idle ltac:(lia)).
      destruct (reap_conns cfg now rest w1 idle) as [[kept w2] idle2].
      simpl in *. lia.
    + rewrite dec_idle_exact by lia.
      rewrite IH by lia. lia.
Qed.

Lemma reap_locked_counted (cfg : Config) (now : Z) (w : World) :
  pool_counted (pool w) → pool_counted (pool (reap_locked cfg now w)).
Proof.
  unfold pool_counted, reap_locked. intros Hc.
  assert (H : ∀ m : gmap string (list PooledConn),
    let r := map_fold (reap_step cfg now) (∅, w, idle_total (pool w)) m in
    total_idle m ≤ idle_total (pool w) →
    r.2 = idle_total (pool w) - total_idle m + total_idle r.1.1
    ∧ ∀ k, m !! k = None → r.1.1 !! k = None).
  { intros m. apply (map_fold_weak_ind (λ r m,
      total_idle m ≤ idle_total (pool w) →
      r.2 = idle_total (pool w) - total_idle m + total_idle r.1.1
      ∧ ∀ k, m !! k = None → r.1.1 !! k = None)).
    - intros _. simpl. rewrite total_idle_empty. split; [lia | done].
    - intros key conns m0 [[m' w'] idle'] Hfresh IH Hle. simpl in IH.
      rewrite total_idle_insert_fresh in * by done.
      pose proof (total_idle_nonneg m0). pose proof (total_idle_nonneg m').
      destruct IH as [IHi IHk]; [lia|].
      unfold reap_step.
      pose proof (reap_conns_count cfg now conns w' idle' ltac:(lia)) as Hr.
      destruct (reap_conns cfg now conns w' idle') as [[kept w2] idle2]. simpl in *.
      split.
      + destruct kept as [|c0 kept]; [simpl in *; lia|].
        rewrite total_idle_insert_fresh by (by apply IHk). lia.
      + intros k Hk. apply lookup_insert_None in Hk as [Hk Hne].
        destruct kept as [|c0 kept]; [by apply IHk|].
        rewrite lookup_insert_ne by done. by apply IHk. }
  specialize (H (by_key (pool w))). simpl in H.
  destruct (map_fold _ _ _) as [[m' w'] idle']. simpl in *.
  destruct H as [Hi _]; lia.
Qed.

Lemma acquire_pop_count (cfg : Config) (now : Z) (back_first : list PooledConn)
    (w : World) (idle : Z) :
  Z.of_nat (length back_first) ≤ idle →
  (acquire_pop cfg now back_first w idle).2
  = idle - Z.of_nat (length back_first)
    + Z.of_nat (length (acquire_pop cfg now back_first w idle).1.1.2).
Proof.
  revert w idle. induction back_first as [|conn rest IH]; intros w idle Hidle; simpl.
  - lia.
  - simpl in Hidle. rewrite dec_idle_exact by lia.
    destruct (if is_conn_fresh cfg now conn then socket_is_idle_usable (fd conn) w
              else (false, w)) as [usable w1].
    destruct usable; simpl; [lia|]. rewrite IH by lia. lia.
Qed.

Lemma acquire_counted (cfg : Config) (key host : string) (port : Z) (w : World) :
  pool_counted (pool w) → pool_counted (pool (acquire cfg key host port w).2).
Proof.
  intros Hw. unfold acquire.
  pose proof (steady_clock_now_pool w) as Hc.
  destruct (steady_clock_now w) as [now w0]. simpl in Hc. rewrite <- Hc in Hw.
  pose proof (reap_locked_counted cfg now w0 Hw) as Hr.
  destruct (by_key (pool (reap_locked cfg now w0)) !! key) as [conns|] eqn:Ek.
  - pose proof (total_idle_lookup_le _ _ _ Ek) as Hle.
    pose proof (acquire_pop_count cfg now (rev conns) (reap_locked cfg now w0)
                  (idle_total (pool (reap_locked cfg now w0)))) as Hp.
    rewrite length_rev in Hp. specialize (Hp ltac:(unfold pool_counted in Hr; lia)).
    destruct (acquire_pop _ _ _ _ _) as [[[got rest] w1] idle1]. simpl in Hp.
    assert (Hcnt : pool_counted
              {| by_key := <[key := rev rest]> (by_key (pool (reap_locked cfg now w0)));
                 idle_total := idle1 |}).
    { unfold pool_counted in *. simpl. rewrite total_idle_insert, Ek. simpl.
      rewrite length_rev. lia. }
    destruct got as [fd0|]; simpl; [done|].
    by rewrite connect_upstream_pool.
  - by rewrite connect_upstream_pool.
Qed.

Lemma release_counted (cfg : Config) (key : string) (fd : Z) (w : World) :
  caps_in_range cfg →
  pool_counted (pool w) → pool_counted (pool (release cfg key fd w)).
Proof.
  intros [Hrk Hrt] Hw. unfold release. destruct (fd <? 0); [done|].
  pose proof (socket_is_idle_usable_pool fd w) as Hp.
  destruct (socket_is_idle_usable fd w) as [usable w1]. simpl in Hp.
  rewrite <- Hp in Hw. destruct usable; simpl; [|done].
  pose proof (steady_clock_now_pool w1) as Hc.
  destruct (steady_clock_now w1) as [now w2]. simpl in Hc. rewrite <- Hc in Hw.
  pose proof (reap_locked_counted cfg now w2 Hw) as Hr.
  destruct (pool_max_idle_total cfg <=? _) eqn:Et; [done|].
  unfold pool_counted in *.
  pose proof (total_idle_nonneg (by_key (pool (reap_locked cfg now w2)))).
  destruct (pool_max_idle_per_key cfg <=? _) eqn:Ek; simpl.
  - rewrite total_idle_insert. lia.
  - rewrite total_idle_insert, length_app. simpl.
    unfold wrap64. rewrite Z.mod_small; lia.
Qed.

(** X9: as long as the caps fit their type, every sequence of
    [acquire] and [release] calls keeps the counter [idle_total_] equal
    to the number of connections in the lists of the pool. *)
Theorem idle_count_is_exact (cfg : Config) (ops : list pool_op) (w : World) :
  caps_in_range cfg →
  pool_counted (pool w) →
  pool_counted (pool (run_ops cfg ops w)).
Proof.
  intros Hr. unfold run_ops. revert w.
  induction ops as [|op ops IH]; intros w Hw; simpl; [done|].
  apply IH. destruct op; simpl; [by apply acquire_counted | by apply release_counted].
Qed.

(** X9, witness: [idle_count_is_exact] at an input. *)
Lemma idle_count_is_exact_witness :
  pool_counted
    (pool (run_ops default_config
             [Release "127.0.0.1:9000" 7; Acquire "127.0.0.1:9000" "127.0.0.1" 9000;
              Release "127.0.0.1:9000" 7]
             (example_world [] [] "127.0.0.1:9000"))).
Proof.
  apply idle_count_is_exact.
  - unfold caps_in_range, two64. simpl. lia.
  - reflexivity.
Defined.

(** ** Reaping and reuse *)

Lemma socket_is_idle_usable_closed (fd : Z) (w : World) :
  closed (socket_is_idle_usable fd w).2 = closed w.
Proof.
  unfold socket_is_idle_usable.
  by destruct (socket_is_idle_usable_on _) as [usable peeks'].
Qed.

Lemma socket_is_idle_usable_connects (fd : Z) (w : World) :
  connects (socket_is_idle_usable fd w).2 = connects w.
Proof.
  unfold socket_is_idle_usable.
  by destruct (socket_is_idle_usable_on _) as [usable peeks'].
Qed.

(** Reaping one key: what stays is a part of the list, in order, and is
    fresh; what goes has been closed. *)
Lemma reap_conns_kept (cfg : Config) (now : Z) (conns : list PooledConn)
    (w : World) (idle : Z) :
  sublist (reap_conns cfg now conns w idle).1.1 conns
  ∧ Forall (λ c, is_conn_fresh cfg now c = true) (reap_conns cfg now conns w idle).1.1
  ∧ (∀ c, c ∈ conns →
       c ∈ (reap_conns cfg now conns w idle).1.1
       ∨ fd c ∈ closed (reap_conns cfg now conns w idle).1.2)
  ∧ (∀ x, x ∈ closed w → x ∈ closed (reap_conns cfg now conns w idle).1.2)
  ∧ connects (reap_conns cfg now conns w idle).1.2 = connects w.
Proof.
  revert w idle. induction conns as [|conn rest IH]; intros w idle; simpl.
  - split; [done|]. split; [done|]. split; [|done]. by intros c ?%elem_of_nil.
  - destruct (is_conn_fresh cfg now conn) eqn:Ef.
    + pose proof (socket_is_idle_usable_closed (fd conn) w) as Hcl.
      pose proof (socket_is_idle_usable_connects (fd conn) w) as Hco.
      destruct (socket_is_idle_usable (fd conn) w) as [usable w1]. simpl in Hcl, Hco.
      destruct usable.
      * specialize (IH w1 idle).
        destruct (reap_conns cfg now rest w1 idle) as [[kept w2] idle2]. simpl in *.
        destruct IH as (Hs & Hf & Hc & Hl & Hn).
        split; [by apply sublist_skip|]. split; [by constructor|].
        split; [|split; [|congruence]].
        -- intros c [->|Hin]%elem_of_cons; [left; apply elem_of_cons; by left|].
           destruct (Hc c Hin) as [?|?]; [left; apply elem_of_cons; by right | by right].
        -- intros x Hx. apply Hl. by rewrite Hcl.
      * specialize (IH (close (fd conn) w1) (dec_idle idle)).
        destruct IH as (Hs & Hf & Hc & Hl & Hn).
        split; [by apply sublist_cons|]. split; [done|].
        split; [|split; [|simpl in Hn; congruence]].
        -- intros c [->|Hin]%elem_of_cons; [|by apply Hc].
           right. apply Hl. simpl. apply elem_of_cons. by left.
        -- intros x Hx. apply Hl. simpl. apply elem_of_cons. right. by rewrite Hcl.
    + specialize (IH (close (fd conn) w) (dec_idle idle)).
      destruct IH as (Hs & Hf & Hc & Hl & Hn).
      split; [by apply sublist_cons|]. split; [done|].
      split; [|split; [|done]].
      * intros c [->|Hin]%elem_of_cons; [|by apply Hc].
        right. apply Hl. simpl. apply elem_of_cons. by left.
      * intros x Hx. apply Hl. simpl. apply elem_of_cons. by right.
Qed.

Lemma reap_step_reaped (cfg : Config) (now : Z) (w : World) (key : string)
    (conns : list PooledConn) (m : gmap string (list PooledConn))
    (r : gmap string (list PooledConn) * World * Z) :
  m !! key = None →
  reaped cfg now w r m →
  reaped cfg now w (reap_step cfg now key conns r) (<[key := conns]> m).
Proof.
  destruct r as [[m' w1] idle1]. intros Hfresh (IH1 & IH2 & IH3 & IH4).
  simpl in IH1, IH2, IH3, IH4. unfold reaped, reap_step.
  pose proof (reap_conns_kept cfg now conns w1 idle1) as (Hs & Hf & Hc & Hl & Hn).
  destruct (reap_conns cfg now conns w1 idle1) as [[kept w2] idle2]. simpl in *.
  assert (Hm' : m' !! key = None).
  { destruct (m' !! key) as [cs|] eqn:E; [|done].
    destruct (IH1 _ _ E) as (_ & _ & old & Ho & _). congruence. }
  split; [|split; [|split]].
  - intros k cs Hk.
    destruct (decide (key = k)) as [<-|Hne].
    + destruct kept as [|c0 kept]; [congruence|].
      rewrite lookup_insert_eq in Hk. injection Hk as <-.
      split; [done|]. split; [done|]. exists conns. by rewrite lookup_insert_eq.
    + assert (Hk' : m' !! k = Some cs).
      { destruct kept; [done|]. by rewrite lookup_insert_ne in Hk. }
      destruct (IH1 _ _ Hk') as (Hne' & Hfr & old & Ho & Hsub).
      split; [done|]. split; [done|]. exists old. by rewrite lookup_insert_ne.
  - intros k old c Hk Hin.
    destruct (decide (key = k)) as [<-|Hne].
    + rewrite lookup_insert_eq in Hk. injection Hk as <-.
      destruct (Hc c Hin) as [Hkept|?]; [|by right]. left.
      destruct kept as [|c0 kept]; [by apply elem_of_nil in Hkept|].
      exists (c0 :: kept). by rewrite lookup_insert_eq.
    + rewrite lookup_insert_ne in Hk by done.
      destruct (IH2 _ _ _ Hk Hin) as [(cs & Hcs & Hcin)|Hcl].
      * left. exists cs. split; [|done].
        destruct kept; [done|]. by rewrite lookup_insert_ne.
      * right. by apply Hl.
  - intros x Hx. by apply Hl, IH3.
  - congruence.
Qed.

Lemma reap_locked_spec (cfg : Config) (now : Z) (w : World) :
  reaped cfg now w
    (by_key (pool (reap_locked cfg now w)), reap_locked cfg now w, 0)
    (by_key (pool w)).
Proof.
  unfold reap_locked.
  pose proof (map_fold_weak_ind (reaped cfg now w)
    (reap_step cfg now) (∅, w, idle_total (pool w))) as Hind.
  assert (H0 : reaped cfg now w (∅, w, idle_total (pool w)) ∅).
  { unfold reaped. simpl. split; [by intros ?? ?%lookup_empty_Some|].
    split; [by intros ??? ?%lookup_empty_Some|]. done. }
  specialize (Hind H0 (λ i x m r Hi Hr, reap_step_reaped cfg now w i x m r Hi Hr)
                (by_key (pool w))).
  destruct (map_fold _ _ _) as [[m' w'] idle']. exact Hind.
Qed.

(** X10: after [reap_locked] every list of the pool is a part, in
    order, of the list the key had before, holds only fresh entries and
    is not empty; an entry that is gone has had its descriptor closed;
    and no record of a closed descriptor is lost. *)
Theorem reap_keeps_fresh_closes_rest (cfg : Config) (now : Z) (w : World) :
  let w' := reap_locked cfg now w in
  (∀ key conns, by_key (pool w') !! key = Some conns →
     conns ≠ []
     ∧ Forall (λ c, is_conn_fresh cfg now c = true) conns
     ∧ ∃ old, by_key (pool w) !! key = Some old ∧ sublist conns old)
  ∧ (∀ key old c, by_key (pool w) !! key = Some old → c ∈ old →
       (∃ conns, by_key (pool w') !! key = Some conns ∧ c ∈ conns)
       ∨ fd c ∈ closed w')
  ∧ (∀ x, x ∈ closed w → x ∈ closed w').
Proof.
  pose proof (reap_locked_spec cfg now w) as (H1 & H2 & H3 & _).
  simpl in H1, H2, H3. intros w'. split; [exact H1 | split; [exact H2 | exact H3]].
Qed.

Lemma probes_fail_app (a b : list PooledConn) (w : World) :
  probes_fail (a ++ b) w ↔ probes_fail a w ∧ probes_fail b (probed_away a w).
Proof.
  revert w. induction a as [|c a IH]; intros w; simpl; [tauto|].
  rewrite IH. tauto.
Qed.

Lemma probed_away_app (a b : list PooledConn) (w : World) :
  probed_away (a ++ b) w = probed_away b (probed_away a w).
Proof. revert w. induction a as [|c a IH]; intros w; simpl; [done | apply IH]. Qed.

(** The loop of [acquire] on entries that are all fresh, newest first:
    it stops at the first whose probe answers; the probes of the entries
    before it have failed, one after the other. *)
Lemma acquire_pop_exact (cfg : Config) (now : Z) (back_first : list PooledConn)
    (w : World) (idle : Z) :
  Forall (λ c, is_conn_fresh cfg now c = true) back_first →
  ∃ skipped,
    probes_fail skipped w
    ∧ ((∃ conn rest,
          back_first = (skipped ++ conn :: rest)%list
          ∧ (socket_is_idle_usable (fd conn) (probed_away skipped w)).1 = true
          ∧ acquire_pop cfg now back_first w idle
            = (Some (fd conn), rest,
               (socket_is_idle_usable (fd conn) (probed_away skipped w)).2,
               Nat.iter (S (length skipped)) dec_idle idle))
       ∨ (back_first = skipped
          ∧ acquire_pop cfg now back_first w idle
            = (None, [], probed_away skipped w,
               Nat.iter (length skipped) dec_idle idle))).
Proof.
  revert w idle. induction back_first as [|conn bf IH]; intros w idle Hfresh; simpl.
  - exists []. split; [done|]. by right.
  - apply Forall_cons in Hfresh as [Hf Hfresh]. rewrite Hf.
    destruct (socket_is_idle_usable (fd conn) w) as [usable w1] eqn:Eu.
    destruct usable.
    + exists []. split; [done|]. left. exists conn, bf. simpl. by rewrite Eu.
    + destruct (IH (close (fd conn) w1) (dec_idle idle) Hfresh)
        as (skipped & Hsk & Hcase).
      exists (conn :: skipped). simpl. rewrite Eu. simpl.
      split; [done|].
      destruct Hcase as [(c & rest & -> & Hu & Hpop)|[-> Hpop]].
      * left. exists c, rest. split; [done|]. split; [done|].
        rewrite Hpop. f_equal. by rewrite <- !Nat.iter_succ_r.
      * right. split; [done|]. rewrite Hpop. f_equal.
        by rewrite <- !Nat.iter_succ_r.
Qed.

(** X11: [acquire] reaps, then tries the entries of the key from the
    most recently parked one: the entries are all fresh; the probes of
    the newer ones fail, one after the other, each followed by the
    close of its descriptor; the first entry whose probe answers is
    handed out, the older ones stay parked in their order, and the
    world is the one that probe leaves, with the idle count lowered
    once for every entry taken from the list.  [acquire] connects only
    when every probe has failed or the key has no entry, and then no
    entry is left under the key. *)
Theorem acquire_reuses_newest_fresh (cfg : Config) (key host : string) (port : Z)
    (w : World) :
  let now := (steady_clock_now w).1 in
  let wr := reap_locked cfg now (steady_clock_now w).2 in
  let parked := default [] (by_key (pool wr) !! key) in
  let idle n := Nat.iter n dec_idle (idle_total (pool wr)) in
  Forall (λ c, is_conn_fresh cfg now c = true) parked
  ∧ ∃ older newer,
      probes_fail (rev newer) wr
      ∧ ((∃ conn,
            parked = (older ++ conn :: newer)%list
            ∧ (socket_is_idle_usable (fd conn) (probed_away (rev newer) wr)).1 = true
            ∧ acquire cfg key host port w
              = (fd conn, EAGAIN,
                 set_pool {| by_key := <[key := older]> (by_key (pool wr));
                             idle_total := idle (S (length newer)) |}
                   (socket_is_idle_usable (fd conn) (probed_away (rev newer) wr)).2))
         ∨ (parked = newer ∧ older = []
            ∧ acquire cfg key host port w
              = connect_upstream host port
                  (match newer with
                   | [] => wr
                   | _ => set_pool {| by_key := <[key := []]> (by_key (pool wr));
                                      idle_total := idle (length newer) |}
                            (probed_away (rev newer) wr)
                   end))).
Proof.
  unfold acquire. destruct (steady_clock_now w) as [now w0]. simpl.
  set (wr := reap_locked cfg now w0).
  pose proof (reap_locked_spec cfg now w0) as (Hreap & _). simpl in Hreap.
  fold wr in Hreap.
  destruct (by_key (pool wr) !! key) as [conns|] eqn:Ek; simpl.
  - destruct (Hreap _ _ Ek) as (Hne & Hfresh & _). split; [done|].
    destruct (acquire_pop_exact cfg now (rev conns) wr (idle_total (pool wr)))
      as (skipped & Hsk & Hcase).
    { by apply Forall_rev. }
    destruct Hcase as [(conn & rest & Hrev & Hu & Hpop)|[Hrev Hpop]].
    + exists (rev rest), (rev skipped). rewrite rev_involutive, length_rev.
      split; [done|]. left. exists conn.
      split. { apply (f_equal (@rev PooledConn)) in Hrev. rewrite rev_involutive in Hrev.
               rewrite Hrev, rev_app_distr. simpl. by rewrite <- app_assoc. }
      split; [done|]. by rewrite Hpop.
    + exists [], (rev skipped). rewrite rev_involutive, length_rev.
      split; [done|]. right.
      assert (Hc : conns = rev skipped).
      { apply (f_equal (@rev PooledConn)) in Hrev. by rewrite rev_involutive in Hrev. }
      split; [done|]. split; [done|]. rewrite Hpop. simpl.
      destruct (rev skipped) eqn:E; [by rewrite <- Hc in Hne | done].
  - split; [done|]. exists [], []. split; [done|]. right. done.
Qed.

(** ** Printing a number and reading it back *)

Lemma pretty_N_char_digit (d : N) :
  (d < 10)%N →
  is_Some (digit_of 10 (pretty_N_char d))
  ∧ code (pretty_N_char d) - 48 = Z.of_N d.
Proof.
  intros Hd.
  assert (d = 0 ∨ d = 1 ∨ d = 2 ∨ d = 3 ∨ d = 4 ∨ d = 5 ∨ d = 6 ∨ d = 7
          ∨ d = 8 ∨ d = 9)%N as H by lia.
  destruct H as [->|[->|[->|[->|[->|[->|[->|[->|[->| ->]]]]]]]]];
    by vm_compute; eauto.
Qed.

Lemma pretty_N_go_decimal (x : N) (s : string) :
  all_digits s = true →
  all_digits (pretty_N_go x s) = true
  ∧ decimal_value_from 0 (pretty_N_go x s) = decimal_value_from (Z.of_N x) s
  ∧ (s ≠ "" → pretty_N_go x s ≠ "").
Proof.
  revert s. induction (N.lt_wf_0 x) as [x _ IH]; intros s Hs.
  assert (x = 0 ∨ 0 < x)%N as [->|Hpos] by lia.
  - by rewrite pretty_N_go_0.
  - rewrite pretty_N_go_step by done.
    destruct (pretty_N_char_digit (x `mod` 10)%N) as [Hd Hc].
    { apply N.mod_lt. lia. }
    destruct (IH (x `div` 10)%N (N.div_lt x 10 Hpos eq_refl)
                (String (pretty_N_char (x `mod` 10)) s)) as (Ha & Hv & Hn).
    { simpl. rewrite Hs. by rewrite bool_decide_eq_true_2. }
    split; [done|]. split; [|by intros _; apply Hn].
    rewrite Hv. simpl. f_equal. rewrite Hc.
    rewrite (N.div_mod x 10) at 3 by lia. lia.
Qed.

Lemma to_string_decimal (n : Z) :
  0 ≤ n → is_decimal (to_string n) = true ∧ decimal_value (to_string n) = n.
Proof.
  intros Hn. unfold to_string, pretty, pretty_Z, is_decimal, decimal_value.
  destruct n as [|p|p]; [done| |lia].
  unfold pretty, pretty_positive, pretty, pretty_N.
  destruct (decide (N.pos p = 0%N)); [done|].
  rewrite (pretty_N_go_step (N.pos p) "") by lia.
  destruct (pretty_N_char_digit (N.pos p `mod` 10)%N) as [Hd Hc].
  { apply N.mod_lt. lia. }
  destruct (pretty_N_go_decimal (N.pos p `div` 10)%N
              (String (pretty_N_char (N.pos p `mod` 10)) "")) as (Ha & Hv & Hne).
  { simpl. by rewrite bool_decide_eq_true_2. }
  split.
  - rewrite Ha, andb_true_r. apply negb_true_iff.
    destruct (String.eqb_spec (pretty_N_go (N.pos p `div` 10)
               (String (pretty_N_char (N.pos p `mod` 10)) "")) ""); [|done].
    by destruct Hne.
  - rewrite Hv. simpl. rewrite Hc.
    pose proof (N.div_mod (N.pos p) 10 ltac:(lia)) as Hdm. lia.
Qed.

(** X12: the key under which [handle_client] parks and looks up an
    upstream connection, host:port with the port printed in decimal, is
    read back by [parse_host_port] as the endpoint it was made from, so
    two endpoints share a key only when they are the same. *)
Theorem upstream_key_names_one_endpoint (target host : string) (port : Z) :
  parse_host_port target = Some (host, port) →
  parse_host_port (host +:+ ":" +:+ to_string port) = Some (host, port)
  ∧ ∀ target' host' port',
      parse_host_port target' = Some (host', port') →
      host' +:+ ":" +:+ to_string port' = host +:+ ":" +:+ to_string port →
      host' = host ∧ port' = port.
Proof.
  assert (Hkey : ∀ t h p, parse_host_port t = Some (h, p) →
            parse_host_port (h +:+ ":" +:+ to_string p) = Some (h, p)).
  { intros t h p (q & _ & Hh & _ & _ & _ & Hr)%parse_host_port_accepts.
    apply parse_host_port_accepts. exists (to_string p).
    destruct (to_string_decimal p ltac:(lia)) as [Hd Hv].
    split; [done|]. split; [done|].
    split. { intros E. by rewrite E in Hd. }
    split. { apply all_digits_no_colon. unfold is_decimal in Hd.
             by apply andb_true_iff in Hd as [_ ?]. }
    split; [|done]. rewrite <- Hv at 2. apply stoi_decimal; [done|].
    rewrite Hv. unfold INT_MAX. lia. }
  intros Ht. split; [by eapply Hkey|].
  intros t' h' p' Ht' Heq.
  pose proof (Hkey _ _ _ Ht) as H1. pose proof (Hkey _ _ _ Ht') as H2.
  rewrite Heq, H1 in H2. by injection H2 as <- <-.
Qed.

(** X12, witness: [upstream_key_names_one_endpoint] at an input. *)
Lemma upstream_key_names_one_endpoint_witness :
  parse_host_port "localhost:9000" = Some ("localhost", 9000)
  ∧ parse_host_port ("localhost" +:+ ":" +:+ to_string 9000) = Some ("localhost", 9000).
Proof.
  split; [vm_compute; reflexivity|].
  refine (proj1 (upstream_key_names_one_endpoint "localhost:9000" "localhost" 9000 _)).
  vm_compute; reflexivity.
Defined.

(** ** The command line *)

Lemma ltrim_app_space (ws r : string) : all_space ws = true → ltrim (ws +:+ r) = ltrim r.
Proof.
  induction ws as [|c ws IH]; simpl; [done|].
  intros [Hc Hw]%andb_true_iff. rewrite Hc. by apply IH.
Qed.

Lemma scan_digits_from_all (acc : Z) (s : string) (v : Z) :
  scan_digits_from 10 acc s = (v, "") →
  all_digits s = true ∧ v = decimal_value_from acc s.
Proof.
  revert acc. induction s as [|c s IH]; intros acc; simpl.
  - by intros [= <-].
  - destruct (digit_of 10 c) as [d|] eqn:Ed; [|done].
    destruct (digit_char c s ltac:(by rewrite Ed)) as (Hd & _).
    rewrite Hd in Ed. injection Ed as <-.
    intros H. destruct (IH _ H) as [Ha Hv].
    rewrite Ha, andb_true_r. split; [|done].
    apply bool_decide_eq_true_2. by eexists.
Qed.

Lemma skip_hex_prefix_10 (s : string) : skip_hex_prefix 10 s = s.
Proof.
  unfold skip_hex_prefix. destruct s as [|c [|x [|d r]]]; try done;
    destruct c as [[] [] [] [] [] [] [] []]; done.
Qed.

Lemma parse_u64_arg_numeral (raw : string) (out n : Z) :
  parse_u64_arg raw out = (true, n) ↔ u64_numeral raw n.
Proof.
  unfold parse_u64_arg, u64_numeral, strto. split.
  - destruct (String.eqb_spec raw ""); [done|].
    destruct (ltrim_split raw) as (ws & Hraw & Hws & _).
    destruct (scan_sign (ltrim raw)) as [neg s1] eqn:Esign.
    rewrite skip_hex_prefix_10. unfold scan_digits.
    destruct s1 as [|c s']; [done|].
    destruct (digit_of 10 c) as [d|] eqn:Ed; [|done].
    destruct (scan_digits_from 10 d s') as [v rest] eqn:Escan.
    destruct (two64 <=? v) eqn:Ev; [done|].
    intros [= Hidx <-]. apply Z.eqb_eq in Hidx.
    assert (rest = "") as -> by (apply size_0_empty; lia).
    destruct (scan_digits_from_all _ _ _ Escan) as [Hall Hv].
    destruct (digit_char c s' ltac:(by rewrite Ed)) as (Hd & _).
    rewrite Hd in Ed. injection Ed as <-.
    assert (Hdec : is_decimal (String c s') = true).
    { unfold is_decimal. simpl. rewrite Hall, andb_true_r.
      apply bool_decide_eq_true_2. by rewrite Hd. }
    assert (Hval : decimal_value (String c s') = v).
    { unfold decimal_value. simpl. rewrite Hv. f_equal. }
    assert (Hsign : ∃ sign, ltrim raw = sign +:+ String c s'
                            ∧ (sign = "" ∨ sign = "+" ∨ sign = "-")
                            ∧ neg = String.eqb sign "-").
    { unfold scan_sign in Esign.
      destruct (ltrim raw) as [|a r]; [by injection Esign|].
      destruct (Ascii.eqb_spec a "-") as [->|Hm].
      { injection Esign as <- <-. exists "-". eauto. }
      destruct (Ascii.eqb_spec a "+") as [->|Hp].
      { injection Esign as <- <-. exists "+". eauto. }
      assert ((false, String a r) = (neg, String c s')) as [= <- <- <-].
      { rewrite <- Esign. destruct a as [[] [] [] [] [] [] [] []]; done. }
      exists "". eauto. }
    destruct Hsign as (sign & Hl & Hs & ->).
    exists ws, sign, (String c s'). rewrite <- Hl, Hval.
    split; [done|]. split; [done|]. split; [done|]. split; [done|].
    split; [lia | done].
  - intros (ws & sign & digits & -> & Hws & Hsign & Hdec & Hlt & ->).
    unfold is_decimal in Hdec. apply andb_true_iff in Hdec as [Hne Hall].
    destruct digits as [|c s']; [done|]. simpl in Hall.
    apply andb_true_iff in Hall as [Hc Hs']. apply bool_decide_eq_true in Hc.
    destruct (digit_char c s' Hc) as (Hd & Hsp & Hss & _).
    assert (Hnz : ws +:+ sign +:+ String c s' ≠ "").
    { intros E. apply (f_equal String.length) in E.
      rewrite !length_append in E. simpl in E. lia. }
    destruct (String.eqb_spec (ws +:+ sign +:+ String c s') ""); [done|].
    rewrite ltrim_app_space by done.
    assert (Hscan : scan_sign (ltrim (sign +:+ String c s'))
                    = (String.eqb sign "-", String c s')).
    { destruct Hsign as [->|[->| ->]]; simpl; [by rewrite Hsp | done..]. }
    rewrite Hscan, skip_hex_prefix_10. simpl. rewrite Hd.
    rewrite (scan_digits_from_decimal s' _ Hs').
    unfold decimal_value in *. simpl in *.
    replace (0 * 10 + (code c - 48)) with (code c - 48) in * by lia.
    destruct (two64 <=? _) eqn:Ev; [lia|].
    change (size "") with 0. rewrite Z.sub_0_r, Z.eqb_refl. done.
Qed.

Lemma u64_numeral_range (raw : string) (n : Z) : u64_numeral raw n → 0 ≤ n < two64.
Proof.
  intros (ws & sign & digits & _ & _ & _ & Hdec & Hlt & ->).
  unfold is_decimal in Hdec. apply andb_true_iff in Hdec as [_ Hall].
  pose proof (decimal_value_from_nonneg 0 digits Hall ltac:(lia)) as Hnn.
  fold (decimal_value digits) in Hnn.
  destruct (String.eqb sign "-"); [|lia].
  unfold wrap64. apply Z.mod_pos_bound. unfold two64. lia.
Qed.

(** X13: what the two checked assignments of the command line
    accept: a numeral read to its end (white space, an optional sign,
    decimal digits below 2^64, a minus sign negating modulo 2^64)
    whose value is at least 1, and at most INT32_MAX for an [int];
    whatever else they are given, they leave the target as it was. *)
Theorem positive_arguments_accepted (value : string) (target : Z) :
  (∀ n, assign_positive_int value target = (true, n)
        ↔ u64_numeral value n ∧ 1 ≤ n ≤ INT32_MAX)
  ∧ (∀ n, assign_positive_size value target = (true, n)
          ↔ u64_numeral value n ∧ 1 ≤ n)
  ∧ ((assign_positive_int value target).1 = false →
     (assign_positive_int value target).2 = target)
  ∧ ((assign_positive_size value target).1 = false →
     (assign_positive_size value target).2 = target).
Proof.
  unfold assign_positive_int, assign_positive_size.
  pose proof (parse_u64_arg_numeral value 0) as Hnum.
  destruct (parse_u64_arg value 0) as [ok parsed].
  split; [|split; [|split]].
  - intros n. destruct ok; simpl.
    + destruct (parsed =? 0) eqn:E0; simpl.
      { split; [done|]. intros [Hn Hr]. apply Hnum in Hn. injection Hn as <-. lia. }
      destruct (INT32_MAX <? parsed) eqn:Em.
      { split; [done|]. intros [Hn Hr]. apply Hnum in Hn. injection Hn as <-. lia. }
      split.
      * intros [= <-]. pose proof (proj1 (Hnum parsed) eq_refl) as Hn.
        pose proof (u64_numeral_range _ _ Hn). split; [done | lia].
      * intros [Hn Hr]. apply Hnum in Hn. by injection Hn as <-.
    + split; [done|]. intros [Hn _]. by apply Hnum in Hn.
  - intros n. destruct ok; simpl.
    + destruct (parsed =? 0) eqn:E0; simpl.
      { split; [done|]. intros [Hn Hr]. apply Hnum in Hn. injection Hn as <-. lia. }
      destruct (two64 - 1 <? parsed) eqn:Em.
      { split; [done|]. intros [Hn Hr]. pose proof (u64_numeral_range _ _ Hn).
        apply Hnum in Hn. injection Hn as <-. lia. }
      split.
      * intros [= <-]. pose proof (proj1 (Hnum parsed) eq_refl) as Hn.
        pose proof (u64_numeral_range _ _ Hn). split; [done | lia].
      * intros [Hn Hr]. apply Hnum in Hn. by injection Hn as <-.
    + split; [done|]. intros [Hn _]. by apply Hnum in Hn.
  - by destruct (negb ok || (parsed =? 0) || (INT32_MAX <? parsed)).
  - by destruct (negb ok || (parsed =? 0) || (two64 - 1 <? parsed)).
Qed.

Lemma parse_u64_arg_range (raw : string) (out n : Z) :
  parse_u64_arg raw out = (true, n) → 0 ≤ n < two64.
Proof. intros H%parse_u64_arg_numeral. by eapply u64_numeral_range. Qed.

Lemma assign_positive_int_range (value : string) (target n : Z) :
  assign_positive_int value target = (true, n) → 1 ≤ n ≤ INT32_MAX.
Proof.
  unfold assign_positive_int.
  destruct (parse_u64_arg value 0) as [ok parsed] eqn:E.
  destruct ok; simpl; [|done]. apply parse_u64_arg_range in E.
  destruct (parsed =? 0) eqn:E0; simpl; [done|].
  destruct (INT32_MAX <? parsed) eqn:Em; [done|]. intros [= <-]. lia.
Qed.

Lemma assign_positive_size_range (value : string) (target n : Z) :
  assign_positive_size value target = (true, n) → 1 ≤ n < two64.
Proof.
  unfold assign_positive_size.
  destruct (parse_u64_arg value 0) as [ok parsed] eqn:E.
  destruct ok; simpl; [|done]. apply parse_u64_arg_range in E.
  destruct (parsed =? 0) eqn:E0; simpl; [done|].
  destruct (two64 - 1 <? parsed) eqn:Em; [done|]. intros [= <-]. lia.
Qed.

Lemma set_option_config (arg value : string) (st st' : Startup) :
  set_option arg value st = inr st' →
  config_in_range (config st) → config_in_range (config st').
Proof.
  unfold set_option, config_in_range.
  intros H (H1 & H2 & H3 & H4 & H5 & H6 & H7 & H8). revert H.
  repeat match goal with
  | |- context [String.eqb arg ?s] => destruct (String.eqb arg s)
  end;
  try (by intros [= <-]);
  try match goal with
  | |- context [assign_positive_int value ?t] =>
      pose proof (assign_positive_int_range value t) as Hr;
      destruct (assign_positive_int value t) as [[] n]; [|done];
      specialize (Hr n eq_refl); intros [= <-]; simpl; repeat split; lia
  | |- context [assign_positive_size value ?t] =>
      pose proof (assign_positive_size_range value t) as Hr;
      destruct (assign_positive_size value t) as [[] n]; [|done];
      specialize (Hr n eq_refl); intros [= <-]; simpl; repeat split; lia
  end.
Qed.

Lemma parse_args_config (args : list string) (st st' : Startup) :
  parse_args args st = inr st' →
  config_in_range (config st) → config_in_range (config st').
Proof.
  remember (length args) as k eqn:Hk. revert args st Hk.
  induction (lt_wf k) as [k _ IH]. intros args st Hk.
  destruct args as [|arg rest]; simpl; [by intros [= <-]|].
  destruct (String.eqb arg "-h" || String.eqb arg "--help"); [done|].
  destruct rest as [|value rest']; [done|].
  destruct (set_option arg value st) as [status|st1] eqn:Es; [done|].
  intros H Hc. apply (IH (length rest') ltac:(subst; simpl; lia) rest' st1 eq_refl H).
  by eapply set_option_config.
Qed.

(** X14: whatever the arguments, when [main] gets as far as starting
    the listener the tunables are positive and fit their types, the
    per-key cap of the pool does not exceed the global one, the two
    file names are set and the listen address has a host and a port in
    1..65535. *)
Theorem main_setup_leaves_sound_config (args : list string) (st : Startup)
    (listen_host : string) (listen_port : Z) :
  main_setup args = inr (st, listen_host, listen_port) →
  config_in_range (config st)
  ∧ caps_in_range (config st)
  ∧ pool_max_idle_per_key (config st) ≤ pool_max_idle_total (config st)
  ∧ routes_path st ≠ "" ∧ pidfile st ≠ ""
  ∧ parse_host_port (listen st) = Some (listen_host, listen_port)
  ∧ listen_host ≠ "" ∧ 1 ≤ listen_port ≤ 65535.
Proof.
  unfold main_setup.
  destruct (parse_args args initial_startup) as [status|st0] eqn:Ea; [done|].
  assert (Hc : config_in_range (config st0)).
  { apply (parse_args_config _ _ _ Ea). unfold config_in_range, two64, INT32_MAX.
    simpl. lia. }
  destruct (String.eqb_spec (routes_path st0) "") as [|Hr]; [done|].
  destruct (String.eqb_spec (pidfile st0) "") as [|Hp]; [done|]. simpl.
  unfold parse_listen.
  destruct (parse_host_port (listen st0)) as [[h p]|] eqn:El; [|done].
  intros [= <- <- <-]. simpl.
  apply parse_host_port_accepts in El as Hl.
  destruct Hl as (q & _ & Hh & _ & _ & _ & Hrange).
  destruct Hc as (H1 & H2 & H3 & H4 & H5 & H6 & H7 & H8).
  destruct (pool_max_idle_total (config st0) <? pool_max_idle_per_key (config st0))
    eqn:Elt; unfold config_in_range, caps_in_range; simpl; repeat split; try done; lia.
Qed.

(** X14, witness: [main_setup_leaves_sound_config] at an input. *)
Lemma main_setup_leaves_sound_config_witness :
  let args := ["--routes"; "/tmp/routes.json"; "--pidfile"; "/tmp/domainsd.pid";
               "--pool-max-idle-per-key"; "500"] in
  ∃ st, main_setup args = inr (st, "127.0.0.1", 80)
        ∧ pool_max_idle_total (config st) = 500
        ∧ config_in_range (config st)
        ∧ pool_max_idle_per_key (config st) ≤ pool_max_idle_total (config st).
Proof.
  intros args. eexists. split; [vm_compute; reflexivity|]. split; [reflexivity|].
  pose proof (main_setup_leaves_sound_config args _ "127.0.0.1" 80
                ltac:(vm_compute; reflexivity)) as (H1 & _ & H3 & _).
  split; [exact H1 | exact H3].
Defined.

(** ** Admission of clients *)

Lemma wrap32_add (a b : Z) : wrap32 (wrap32 a + b) = wrap32 (a + b).
Proof.
  unfold wrap32. f_equal.
  replace ((a + 2147483648) mod 4294967296 - 2147483648 + b + 2147483648)
    with ((a + 2147483648) mod 4294967296 + b) by lia.
  rewrite Zplus_mod_idemp_l. f_equal. lia.
Qed.

Lemma wrap32_small (z : Z) : -2147483648 ≤ z ≤ 2147483647 → wrap32 z = z.
Proof. intros Hz. unfold wrap32. rewrite Z.mod_small; lia. Qed.

Lemma slot_step_consistent (max_clients : Z) (s s' : Admission) (e : slot_event) :
  1 ≤ max_clients ≤ INT32_MAX →
  slots_consistent max_clients s →
  slot_step max_clients s e = Some s' →
  slots_consistent max_clients s'.
Proof.
  unfold INT32_MAX, slots_consistent, slot_step. intros Hmax [Hh Hc].
  destruct e, (accepting s) as [|prev|] eqn:Ea; try done.
  - intros [= <-]. simpl. rewrite Hc. split; [done|]. split; [done | lia].
  - destruct Hc as [Hc Hp]. destruct (max_clients <=? prev) eqn:E; intros [= <-]; simpl.
    + split; [done|]. rewrite Hc.
      replace (wrap32 (handlers s + 1) - 1) with (wrap32 (handlers s + 1) + -1) by lia.
      rewrite wrap32_add, wrap32_small; lia.
    + split; [lia|]. rewrite Hc. rewrite wrap32_small; lia.
  - by intros [= <-].
  - destruct (0 <? handlers s) eqn:E; [|done]. intros [= <-]. simpl. rewrite ?Ea.
    split; [lia|]. rewrite Hc. rewrite wrap32_small; lia.
  - destruct Hc as [Hc Hp]. destruct (0 <? handlers s) eqn:E; [|done].
    intros [= <-]. simpl. rewrite ?Ea. split; [lia|]. split; [|lia].
    rewrite Hc.
    replace (wrap32 (handlers s + 1) - 1) with (wrap32 (handlers s + 1) + -1) by lia.
    rewrite wrap32_add. f_equal. lia.
  - destruct (0 <? handlers s) eqn:E; [|done]. intros [= <-]. simpl. rewrite ?Ea.
    split; [lia|]. rewrite Hc. rewrite wrap32_small; lia.
Qed.

(** X15: under every interleaving of the accept loop with the
    handler threads, the number of handler threads stays within
    [g_max_active_clients], and the counter [g_active_clients] reads
    that number whenever no client is in the middle of being
    admitted. *)
Theorem handlers_never_exceed_limit (max_clients : Z) (evs : list slot_event)
    (s : Admission) :
  1 ≤ max_clients ≤ INT32_MAX →
  run_slots max_clients evs admission_start = Some s →
  0 ≤ handlers s ≤ max_clients
  ∧ ((∀ prev, accepting s ≠ Added prev) → counter s = handlers s).
Proof.
  intros Hmax Hrun.
  assert (Hinv : slots_consistent max_clients s).
  { assert (H0 : slots_consistent max_clients admission_start).
    { unfold slots_consistent. simpl. lia. }
    revert Hrun H0. generalize admission_start as s0.
    induction evs as [|e evs IH]; intros s0; simpl.
    - by intros [= <-].
    - destruct (slot_step max_clients s0 e) as [s1|] eqn:E; [|done].
      intros Hrun H0. apply (IH _ Hrun). by eapply slot_step_consistent. }
  destruct Hinv as [Hh Hc]. split; [done|]. intros Hno.
  destruct (accepting s) as [|prev|]; try done. by destruct (Hno prev).
Qed.

(** X15, witness: [handlers_never_exceed_limit] at an input. *)
Lemma handlers_never_exceed_limit_witness :
  let evs := [FetchAdd; Compare; FetchAdd; HandlerExit; Compare; CountRejection] in
  ∃ s, run_slots 1 evs admission_start = Some s
       ∧ rejections s = 1
       ∧ 0 ≤ handlers s ≤ 1
       ∧ ((∀ prev, accepting s ≠ Added prev) → counter s = handlers s).
Proof.
  intros evs. eexists. split; [vm_compute; reflexivity|]. split; [reflexivity|].
  refine (handlers_never_exceed_limit 1 evs _ _ _).
  - unfold INT32_MAX. lia.
  - vm_compute; reflexivity.
Defined.

(** ** When the loop goes on *)

Lemma relay_body_flags (fuel : nat) (up cl : Z) (meta : ResponseMeta)
    (body_buf : string) (w w' : World) (out : RelayOutcome) :
  relay_body fuel up cl meta body_buf w = Ret (out, w') →
  upstream_reusable out = client_can_keepalive out.
Proof.
  unfold relay_body. destruct (no_body meta).
  - destruct (negb (size body_buf =? 0)).
    + destruct (send_all cl body_buf w). by intros [= <- <-].
    + by intros [= <- <-].
  - destruct (meta_chunked meta).
    + destruct (relay_chunked_body fuel up cl body_buf w) as [[c w1]| | |];
        simpl; try done. by intros [= <- <-].
    + destruct (content_length meta) as [len|].
      * destruct (relay_body_with_length fuel up cl body_buf len w) as [[ok w1]| | |];
          simpl; try done. by intros [= <- <-].
      * destruct (if negb (size body_buf =? 0) then send_all cl body_buf w else (true, w))
          as [ok w1]. destruct ok; simpl; [|by intros [= <- <-]].
        destruct (relay_until_close fuel up cl w1); simpl; try done.
        by intros [= <- <-].
Qed.

Lemma relay_flags (fuel : nat) (up cl : Z) (method : string) (w w' : World)
    (out : RelayOutcome) :
  relay_response_and_decide_reuse fuel up cl method w = Ret (out, w') →
  upstream_reusable out = client_can_keepalive out.
Proof.
  unfold relay_response_and_decide_reuse.
  destruct (relay_read_head fuel up "" w) as [[[[buf header_end]|] w1]| | |];
    simpl; try done; [|by intros [= <- <-]].
  destruct (parse_response_headers _ method) as [meta|]; [|by intros [= <- <-]].
  destruct (send_all cl _ w1) as [ok w2]. destruct ok; simpl; [|by intros [= <- <-]].
  apply relay_body_flags.
Qed.

Lemma release_cached_pending (cfg : Config) (h : Handler) (w : World) :
  pending (release_cached cfg h w).1 = pending h.
Proof. unfold release_cached. by destruct (_ && _). Qed.

Lemma discard_cached_pending (h : Handler) (w : World) :
  pending (discard_cached h w).1 = pending h.
Proof. unfold discard_cached. by destruct (0 <=? _). Qed.

(** A round of [forward] that ends in [continue] has kept the upstream
    descriptor it used, under the key of the endpoint. *)
Lemma forward_continue (cfg : Config) (tunnel : Z → Z → World → World)
    (fuel : nat) (client_fd : Z) (req : Request) (host : string) (port : Z)
    (h h' : Handler) (w w' : World) :
  forward cfg tunnel fuel client_fd req host port h w = Ret (Continue, h', w') →
  is_upgrade_request req = false
  ∧ req_client_wants_keepalive req = true
  ∧ 0 ≤ cached_upstream_fd h'
  ∧ cached_upstream_key h' = host +:+ ":" +:+ to_string port
  ∧ pending h' = pending h.
Proof.
  unfold forward.
  set (key := host +:+ ":" +:+ to_string port).
  destruct (is_upgrade_request req) eqn:Eup; simpl.
  - (* an upgrade never continues *)
    destruct (release_cached cfg h w) as [h1 w1].
    destruct (connect_upstream host port w1) as [[fd1 e1] w2].
    destruct (fd1 <? 0) eqn:E1; [by destruct (decide (e1 = ETIMEDOUT))|].
    destruct (send_all fd1 _ w2) as [sent w3].
    destruct sent.
    + rewrite E1.
      destruct (if negb (size (req_leftover req) =? 0) then _ else _) as [ok w4].
      by destruct ok.
    + simpl. done.
  - assert (Hrelay : ∀ used fd0 h0 w0,
              pending h0 = pending h →
              relay_and_decide fuel client_fd fd0 key used req h0 w0
              = Ret (Continue, h', w') →
              0 ≤ fd0 →
              req_client_wants_keepalive req = true
              ∧ 0 ≤ cached_upstream_fd h'
              ∧ cached_upstream_key h' = key ∧ pending h' = pending h).
    { intros used fd0 h0 w0 Hp0. unfold relay_and_decide.
      destruct (relay_response_and_decide_reuse fuel fd0 client_fd (req_method req) w0)
        as [[relay w1]| | |] eqn:Er; simpl; try done.
      apply relay_flags in Er. unfold decide_reuse. rewrite Er.
      destruct (client_can_keepalive relay); simpl.
      - destruct (req_client_wants_keepalive req); simpl; [|done].
        intros [= <- <-] Hfd. simpl. done.
      - rewrite andb_false_r. simpl. by destruct used. }
    destruct ((0 <=? cached_upstream_fd h) && String.eqb (cached_upstream_key h) key)
      eqn:Ecached.
    + (* the cached descriptor *)
      apply andb_true_iff in Ecached as [Hfd%Z.leb_le Hkey].
      destruct (cached_upstream_fd h <? 0) eqn:En; [lia|].
      destruct (send_all (cached_upstream_fd h) _ w) as [sent w1].
      destruct sent.
      * rewrite En. intros H. split; [done|]. by apply (Hrelay _ _ _ _ eq_refl H).
      * simpl.
        pose proof (discard_cached_pending h w1) as Hp.
        destruct (discard_cached h w1) as [h1 w2]. simpl in Hp.
        destruct (acquire cfg key host port w2) as [[fd2 e2] w3].
        destruct (fd2 <? 0) eqn:E2; [by rewrite E2|].
        destruct (send_all fd2 _ w3) as [sent2 w4]. destruct sent2.
        -- rewrite E2. intros H. split; [done|].
           apply (Hrelay _ _ _ _ Hp H). lia.
        -- done.
    + pose proof (release_cached_pending cfg h w) as Hp.
      destruct (release_cached cfg h w) as [h1 w1]. simpl in Hp.
      destruct (acquire cfg key host port w1) as [[fd1 e1] w2].
      destruct (fd1 <? 0) eqn:E1; [by destruct (decide (e1 = ETIMEDOUT))|].
      destruct (send_all fd1 _ w2) as [sent w3]. destruct sent.
      * rewrite E1. intros H. split; [done|]. apply (Hrelay _ _ _ _ Hp H). lia.
      * simpl. done.
Qed.

(** X16: the loop of [handle_client] goes round again only after a
    request that was read whole from a client that asked to keep the
    connection; the bytes read past that request are kept for the next
    round; and unless the request was the health probe, the upstream
    connection it was forwarded on is kept for reuse under the key of
    its endpoint.  Every other round is the last. *)
Theorem round_continues_only_on_keepalive (cfg : Config)
    (tunnel : Z → Z → World → World) (fuel : nat) (client_fd : Z)
    (h h' : Handler) (w w' : World) :
  handle_client_round cfg tunnel fuel client_fd h w = Ret (Continue, h', w') →
  ∃ req w1,
    read_request_from fuel client_fd (pending h) w
    = Ret (ReadOk req (req_leftover req), w1)
    ∧ req_client_wants_keepalive req = true
    ∧ pending h' = req_leftover req
    ∧ (req_path req = health_path
       ∨ ∃ target host port,
           (routes_lookup (req_normalized_host req) w1).1 = Some target
           ∧ parse_host_port target = Some (host, port)
           ∧ is_upgrade_request req = false
           ∧ 0 ≤ cached_upstream_fd h'
           ∧ cached_upstream_key h' = host +:+ ":" +:+ to_string port).
Proof.
  unfold handle_client_round, read_request_from.
  destruct (read_request fuel (rx (socket_of w client_fd)) (pending h))
    as [[r rx']| | |] eqn:Er; simpl; try done.
  destruct r as [error|req pending']; [done|].
  destruct (read_request_ok _ _ _ _ _ _ Er) as (b & he & rx1 & req0 & ch & body & _ & _ & Hreq).
  assert (Hleft : req_leftover req = pending') by (by rewrite Hreq).
  subst pending'. clear Hreq.
  unfold serve.
  destruct (String.eqb_spec (req_path req) health_path) as [Hpath|Hpath].
  - destruct (send_all client_fd _ _) as [ok w2].
    destruct (negb ok || negb (req_client_wants_keepalive req)) eqn:E; [done|].
    intros [= <- <-]. apply orb_false_iff in E as [_ Hk%negb_false_iff].
    eexists req, _. split; [done|]. split; [done|]. split; [done|]. by left.
  - destruct (size (req_normalized_host req) =? 0); [done|].
    destruct (routes_lookup _ _) as [[target|] w2] eqn:Et; [|done].
    destruct (parse_host_port target) as [[host port]|] eqn:Ep; [|done].
    intros H. apply forward_continue in H as (Hup & Hk & Hfd & Hkey & Hpend).
    eexists req, _. split; [done|]. split; [done|]. split; [done|].
    right. exists target, host, port. split; [exact (f_equal fst Et) | done].
Qed.

(** X16, witness: [round_continues_only_on_keepalive] at an input. *)
Lemma round_continues_only_on_keepalive_witness :
  let h := {| pending := ""; cached_upstream_fd := -1; cached_upstream_key := "" |} in
  let w := example_world [Recv (example_request +:+ "GET")] [Recv example_response]
             "127.0.0.1:9000" in
  ∃ h' w', handle_client_round default_config no_tunnel 10 5 h w = Ret (Continue, h', w')
           ∧ cached_upstream_fd h' = 7
           ∧ ∃ req w1,
               read_request_from 10 5 (pending h) w = Ret (ReadOk req (req_leftover req), w1)
               ∧ req_client_wants_keepalive req = true
               ∧ pending h' = req_leftover req
               ∧ (req_path req = health_path
                  ∨ ∃ target host port,
                      (routes_lookup (req_normalized_host req) w1).1 = Some target
                      ∧ parse_host_port target = Some (host, port)
                      ∧ is_upgrade_request req = false
                      ∧ 0 ≤ cached_upstream_fd h'
                      ∧ cached_upstream_key h' = host +:+ ":" +:+ to_string port).
Proof.
  intros h w. eexists _, _. split; [vm_compute; reflexivity|]. split; [reflexivity|].
  refine (round_continues_only_on_keepalive default_config no_tunnel 10 5 h _ w _ _).
  vm_compute; reflexivity.
Defined.

(** ** Decoding a chunked body *)

Lemma index_skip_app (pre : string) (n : nat) (pat s : string) :
  String.index (String.length pre + n) pat (pre +:+ s)
  = (λ m, (String.length pre + m)%nat) <$> String.index n pat s.
Proof.
  induction pre as [|c pre IH]; simpl.
  - by destruct (String.index n pat s).
  - rewrite IH. by destruct (String.index n pat s).
Qed.

Lemma index_line_end (line rest : string) :
  no_char CR line →
  String.index 0 CRLF (line +:+ CRLF +:+ rest) = Some (String.length line).
Proof.
  induction line as [|c line IH]; intros Hno.
  - vm_compute. by destruct rest.
  - apply no_char_cons in Hno as [Hc Hno]. specialize (IH Hno).
    change (String c line +:+ CRLF +:+ rest) with (String c (line +:+ CRLF +:+ rest)).
    cbn [String.index].
    assert (Hp : String.prefix CRLF (String c (line +:+ CRLF +:+ rest)) = false).
    { unfold CRLF. cbn [String.prefix].
      destruct (ascii_dec CR c) as [E|E]; [by destruct Hc | done]. }
    rewrite Hp, IH. done.
Qed.

Lemma find_line_end (pre line rest : string) :
  no_char CR line →
  find (pre +:+ line +:+ CRLF +:+ rest) CRLF (size pre) = Some (size pre + size line).
Proof.
  intros Hno. unfold find. rewrite !size_append.
  pose proof (size_nonneg line). pose proof (size_nonneg rest).
  change (size CRLF) with 2.
  destruct (_ <? size pre) eqn:E; [lia|].
  replace (Z.to_nat (size pre)) with (String.length pre + 0)%nat by (unfold size; lia).
  rewrite index_skip_app, (index_line_end line rest Hno). simpl.
  f_equal. unfold size. lia.
Qed.

Lemma ensure_bytes_available_enough (fuel : nat) (rx0 : list recv_event)
    (buf : string) (need : Z) :
  need ≤ size buf → ensure_bytes_available fuel rx0 buf need = Ret (None, buf, rx0).
Proof.
  intros Hn. destruct fuel; simpl; destruct (need <=? size buf) eqn:E; done || lia.
Qed.

Lemma wrap64_small (z : Z) : 0 ≤ z < two64 → wrap64 z = z.
Proof. intros Hz. unfold wrap64. by apply Z.mod_small. Qed.

Lemma consume_trailers_reads (trailers : list string) (fuel : nat)
    (rx0 : list recv_event) (pre leftover out : string) :
  Forall trailer_ok trailers →
  (length trailers < fuel)%nat →
  consume_trailers fuel rx0
    (pre +:+ concat_strings ((λ t, t +:+ CRLF) <$> trailers) +:+ CRLF +:+ leftover)
    (size pre) out
  = Ret (ChunkedOk out leftover, rx0).
Proof.
  revert fuel pre. induction trailers as [|t ts IH]; intros fuel pre Hok Hfuel.
  - destruct fuel as [|fuel]; [simpl in Hfuel; lia|].
    cbn [fmap list_fmap concat_strings consume_trailers].
    change ("" +:+ CRLF +:+ leftover) with ("" +:+ CRLF +:+ leftover).
    rewrite (find_line_end pre "" leftover) by (intros [|??] ?; discriminate).
    change (size "") with 0. rewrite Z.add_0_r.
    replace (size pre - size pre) with (size "") by (change (size "") with 0; lia).
    rewrite (substr_mid pre "" (CRLF +:+ leftover)). simpl String.eqb. cbv iota.
    f_equal. f_equal. f_equal.
    replace (size pre + 2) with (size (pre +:+ CRLF))
      by (rewrite size_append; reflexivity).
    change (pre +:+ "" +:+ CRLF +:+ leftover) with (pre +:+ CRLF +:+ leftover).
    rewrite <- (append_assoc pre CRLF leftover). apply substr_from_app.
  - destruct fuel as [|fuel]; [simpl in Hfuel; lia|].
    apply Forall_cons in Hok as [[Hne Hno] Hok].
    cbn [fmap list_fmap concat_strings consume_trailers].
    rewrite !append_assoc.
    rewrite (find_line_end pre t _ Hno).
    replace (size pre + size t - size pre) with (size t) by lia.
    rewrite (substr_mid pre t _).
    destruct (String.eqb_spec t ""); [done|].
    replace (size pre + size t + 2) with (size (pre +:+ t +:+ CRLF))
      by (rewrite !size_append; change (size CRLF) with 2; lia).
    specialize (IH fuel (pre +:+ t +:+ CRLF) Hok ltac:(simpl in Hfuel; lia)).
    rewrite !append_assoc in IH. exact IH.
Qed.

Lemma decode_chunked_loop_reads (chunks : list (string * string)) (last : string)
    (trailers : list string) (fuel : nat) (rx0 : list recv_event)
    (pre leftover out : string) :
  Forall chunk_ok chunks →
  no_char CR last → chunk_size_of last = Some 0 →
  Forall trailer_ok trailers →
  size (pre +:+ chunked_encoding chunks last trailers +:+ leftover) < two64 →
  (length chunks + length trailers + 1 < fuel)%nat →
  decode_chunked_loop fuel rx0
    (pre +:+ chunked_encoding chunks last trailers +:+ leftover) (size pre) out
  = Ret (ChunkedOk (out +:+ concat_strings (chunks.*2)) leftover, rx0).
Proof.
  revert fuel pre out.
  induction chunks as [|[line data] chunks IH];
    intros fuel pre out Hchunks Hlast Hzero Htr Hsize Hfuel.
  - destruct fuel as [|fuel]; [simpl in Hfuel; lia|].
    unfold chunked_encoding in *. cbn [fmap list_fmap concat_strings] in *.
    change ("" +:+ ?x) with x in *.
    rewrite !append_assoc in *.
    cbn [decode_chunked_loop].
    rewrite (find_line_end pre last _ Hlast).
    replace (size pre + size last - size pre) with (size last) by lia.
    rewrite (substr_mid pre last _).
    unfold chunk_size_of in Hzero. rewrite Hzero.
    set (buf := pre +:+ last +:+ CRLF +:+ _) in *.
    assert (Hneed : size pre + size last + 2 + 0 + 2 ≤ size buf).
    { subst buf. rewrite !size_append. change (size CRLF) with 2.
      pose proof (size_nonneg pre). pose proof (size_nonneg last).
      pose proof (size_nonneg leftover).
      pose proof (size_nonneg (concat_strings ((λ t, t +:+ CRLF) <$> trailers))). lia. }
    pose proof (size_nonneg pre). pose proof (size_nonneg last).
    rewrite !wrap64_small by lia.
    rewrite ensure_bytes_available_enough by lia.
    cbn [mbind outcome_bind]. simpl Z.eqb. cbv iota.
    rewrite append_nil_r.
    replace (size pre + size last + 2) with (size (pre +:+ last +:+ CRLF))
      by (rewrite !size_append; change (size CRLF) with 2; lia).
    subst buf.
    pose proof (consume_trailers_reads trailers fuel rx0 (pre +:+ last +:+ CRLF)
                  leftover out Htr ltac:(lia)) as Hc.
    rewrite !append_assoc in Hc. exact Hc.
  - destruct fuel as [|fuel]; [simpl in Hfuel; lia|].
    apply Forall_cons in Hchunks as [(Hno & Hsz & Hpos) Hchunks]. simpl in Hno, Hsz, Hpos.
    unfold chunked_encoding in *. cbn [fmap list_fmap concat_strings] in *.
    unfold encode_chunk at 1. unfold encode_chunk at 1 in Hsize. cbn [fst snd] in *.
    rewrite !append_assoc in *.
    cbn [decode_chunked_loop].
    rewrite (find_line_end pre line _ Hno).
    replace (size pre + size line - size pre) with (size line) by lia.
    rewrite (substr_mid pre line _).
    unfold chunk_size_of in Hsz. rewrite Hsz.
    set (tail := concat_strings (encode_chunk <$> chunks) +:+ _) in *.
    set (buf := pre +:+ line +:+ CRLF +:+ data +:+ CRLF +:+ tail) in *.
    pose proof (size_nonneg pre). pose proof (size_nonneg line).
    pose proof (size_nonneg tail).
    assert (Hbuf : size buf = size pre + size line + 2 + size data + 2 + size tail).
    { subst buf. rewrite !size_append. change (size CRLF) with 2. lia. }
    rewrite ?wrap64_small by lia.
    rewrite ensure_bytes_available_enough by lia.
    cbn [mbind outcome_bind].
    destruct (size data =? 0) eqn:E0; [lia|].
    rewrite ?wrap64_small by lia.
    unfold substr_throws at 1.
    destruct (size buf <? size pre + size line + 2 + size data) eqn:Et; [lia|].
    assert (Hdata : substr buf (size pre + size line + 2) (size data) = data).
    { subst buf.
      replace (size pre + size line + 2) with (size (pre +:+ line +:+ CRLF))
        by (rewrite !size_append; change (size CRLF) with 2; lia).
      replace (pre +:+ line +:+ CRLF +:+ data +:+ CRLF +:+ tail)
        with ((pre +:+ line +:+ CRLF) +:+ data +:+ (CRLF +:+ tail))
        by (by rewrite !append_assoc).
      apply substr_mid. }
    assert (Hterm : substr buf (size pre + size line + 2 + size data) 2 = CRLF).
    { subst buf.
      replace (size pre + size line + 2 + size data)
        with (size (pre +:+ line +:+ CRLF +:+ data))
        by (rewrite !size_append; change (size CRLF) with 2; lia).
      change 2 with (size CRLF).
      replace (pre +:+ line +:+ CRLF +:+ data +:+ CRLF +:+ tail)
        with ((pre +:+ line +:+ CRLF +:+ data) +:+ CRLF +:+ tail)
        by (by rewrite !append_assoc).
      apply substr_mid. }
    rewrite Hdata, Hterm. simpl negb. cbv iota.
    rewrite ?wrap64_small by lia.
    replace (size pre + size line + 2 + size data + 2)
      with (size (pre +:+ line +:+ CRLF +:+ data +:+ CRLF))
      by (rewrite !size_append; change (size CRLF) with 2; lia).
    specialize (IH fuel (pre +:+ line +:+ CRLF +:+ data +:+ CRLF) (out +:+ data)
                  Hchunks Hlast Hzero Htr).
    unfold chunked_encoding in IH. fold tail in IH.
    rewrite !append_assoc in IH. fold buf in IH.
    apply IH; [lia | simpl in Hfuel; lia].
Qed.

(** X17: a chunked body that is well formed and already received is
    decoded to the data of its chunks, in order, and the bytes after
    its last line are handed back as leftover; nothing more is read
    from the client. *)
Theorem chunked_body_round_trip (chunks : list (string * string)) (last : string)
    (trailers : list string) (leftover : string) (fuel : nat)
    (rx0 : list recv_event) :
  Forall chunk_ok chunks →
  no_char CR last → chunk_size_of last = Some 0 →
  Forall trailer_ok trailers →
  size (chunked_encoding chunks last trailers +:+ leftover) < two64 →
  (length chunks + length trailers + 1 < fuel)%nat →
  decode_chunked_body fuel rx0 (chunked_encoding chunks last trailers +:+ leftover)
  = Ret (ChunkedOk (concat_strings (chunks.*2)) leftover, rx0).
Proof.
  intros Hc Hl Hz Ht Hs Hf. unfold decode_chunked_body.
  exact (decode_chunked_loop_reads chunks last trailers fuel rx0 "" leftover ""
           Hc Hl Hz Ht Hs Hf).
Qed.

(** X17, witness: [chunked_body_round_trip] at an input. *)
Lemma chunked_body_round_trip_witness :
  decode_chunked_body 10 []
    (chunked_encoding [("5", "hello"); ("1;ext", "!")] "0" ["X-Sum: 1"] +:+ "GET")
  = Ret (ChunkedOk "hello!" "GET", []).
Proof.
  refine (chunked_body_round_trip [("5", "hello"); ("1;ext", "!")] "0" ["X-Sum: 1"]
            "GET" 10 [] _ _ _ _ _ _).
  - repeat constructor; try (vm_compute; reflexivity);
      intros pre post E; vm_compute in E;
      repeat (destruct pre as [|? pre]; [discriminate E|]; injection E as _ E);
      destruct pre; discriminate E.
  - intros pre post E; vm_compute in E;
      repeat (destruct pre as [|? pre]; [discriminate E|]; injection E as _ E);
      destruct pre; discriminate E.
  - vm_compute; reflexivity.
  - repeat constructor; [discriminate|].
    intros pre post E; vm_compute in E;
      repeat (destruct pre as [|? pre]; [discriminate E|]; injection E as _ E);
      destruct pre; discriminate E.
  - vm_compute; reflexivity.
  - simpl. lia.
Defined.

(** ** The routes file *)

Lemma span_not_quote_spec (s : string) :
  s = (span_not_quote s).1 +:+ (span_not_quote s).2
  ∧ no_char DQUOTE (span_not_quote s).1.
Proof.
  induction s as [|c s IH]; simpl.
  - split; [done|]. intros [|??] ?; discriminate.
  - destruct (Ascii.eqb_spec c DQUOTE) as [->|Hc]; simpl.
    + split; [done|]. intros [|??] ?; discriminate.
    + destruct (span_not_quote s) as [a r]. simpl in *. destruct IH as [Hs Hno].
      split; [by rewrite <- Hs|].
      intros [|x pre] post; simpl; intros [= ? Hp]; [done|]. by apply (Hno pre post).
Qed.

Lemma span_not_quote_app (a r : string) :
  no_char DQUOTE a → span_not_quote (a +:+ String DQUOTE r) = (a, String DQUOTE r).
Proof.
  induction a as [|c a IH]; intros Hno; simpl.
  - done.
  - apply no_char_cons in Hno as [Hc Hno].
    destruct (Ascii.eqb_spec c DQUOTE); [done|]. by rewrite (IH Hno).
Qed.

Lemma match_pair_stops (s host target rest : string) :
  match_pair s = Some (host, target, rest) →
  host ≠ "" ∧ no_char DQUOTE host ∧ no_char DQUOTE target.
Proof.
  unfold match_pair. destruct s as [|q s1]; [done|].
  destruct (Ascii.eqb q DQUOTE); [|done].
  pose proof (span_not_quote_spec s1) as [_ Hh].
  destruct (span_not_quote s1) as [h s2]. simpl in Hh.
  destruct (String.eqb_spec h ""); [done|].
  destruct s2 as [|? s3]; [done|].
  destruct (ltrim s3) as [|c s5]; [done|].
  destruct (Ascii.eqb c ":"); [|done].
  destruct (ltrim s5) as [|q' s7]; [done|].
  destruct (Ascii.eqb q' DQUOTE); [|done].
  pose proof (span_not_quote_spec s7) as [_ Ht].
  destruct (span_not_quote s7) as [t s8]. simpl in Ht.
  destruct s8 as [|? s9]; [done|].
  by intros [= <- <- <-].
Qed.

Lemma route_pairs_stop (skip : nat) (s : string) :
  Forall (λ m, m.1 ≠ "" ∧ no_char DQUOTE m.1 ∧ no_char DQUOTE m.2)
         (route_pairs skip s).
Proof.
  revert skip. induction s as [|c s IH]; intros skip; [by constructor|].
  cbn [route_pairs]. destruct skip as [|k]; [|apply IH].
  destruct (match_pair (String c s)) as [[[h t] rest]|] eqn:E; [|apply IH].
  constructor; [|apply IH]. by apply match_pair_stops in E.
Qed.

Lemma tolower_not_quote (c : ascii) : tolower c = DQUOTE → c = DQUOTE.
Proof. destruct c as [[] [] [] [] [] [] [] []]; vm_compute; congruence. Qed.

Lemma to_lower_no_quote (s : string) : no_char DQUOTE s → no_char DQUOTE (to_lower s).
Proof.
  induction s as [|a s IH]; simpl; intros Hno.
  - intros [|x pre] post; simpl; discriminate.
  - apply no_char_cons in Hno as [Ha Hno].
    intros [|x pre] post; simpl; intros [= Hc Hs].
    + by apply tolower_not_quote in Hc.
    + by apply (IH Hno pre post).
Qed.

Lemma no_char_app (c : ascii) (a b : string) :
  no_char c (a +:+ b) → no_char c a ∧ no_char c b.
Proof.
  intros H. split.
  - intros pre post ->. apply (H pre (post +:+ b)).
    by rewrite !append_assoc.
  - intros pre post ->. apply (H (a +:+ pre) post). by rewrite append_assoc.
Qed.

Lemma trim_no_quote (s : string) : no_char DQUOTE s → no_char DQUOTE (trim s).
Proof.
  intros Hno. destruct (trim_cut s) as (pre & post & Hs & _).
  rewrite Hs in Hno. apply no_char_app in Hno as [_ Hno].
  by apply no_char_app in Hno as [Hno _].
Qed.

(** X18: every entry of the route table comes from a match in the
    routes file; its host is in lower case and not empty, its target is
    trimmed and not empty, and neither holds a double quote. *)
Theorem routes_table_entries (content host target : string) :
  parse_routes content !! host = Some target →
  host ≠ "" ∧ to_lower host = host ∧ no_char DQUOTE host
  ∧ target ≠ "" ∧ trim target = target ∧ no_char DQUOTE target
  ∧ ∃ h t, (h, t) ∈ route_pairs 0 content ∧ host = to_lower h ∧ target = trim t.
Proof.
  unfold parse_routes.
  pose proof (route_pairs_stop 0 content) as Hstop.
  assert (Hgen : ∀ (l : list (string * string)) (m0 : gmap string string),
    Forall (λ m, m.1 ≠ "" ∧ no_char DQUOTE m.1 ∧ no_char DQUOTE m.2) l →
    foldl add_route m0 l !! host = Some target →
    m0 !! host = Some target
    ∨ (host ≠ "" ∧ to_lower host = host ∧ no_char DQUOTE host
       ∧ target ≠ "" ∧ trim target = target ∧ no_char DQUOTE target
       ∧ ∃ h t, (h, t) ∈ l ∧ host = to_lower h ∧ target = trim t)).
  { induction l as [|[h t] l IH]; intros m0 Hl; simpl; [by left|].
    apply Forall_cons in Hl as [(Hh & Hqh & Hqt) Hl]. simpl in *.
    intros Hlook. destruct (IH _ Hl Hlook) as [Hm | (H1 & H2 & H3 & H4 & H5 & H6 & h' & t' & Hin & Hk & Hv)].
    - unfold add_route in Hm. simpl in Hm.
      destruct (String.eqb_spec (to_lower h) "") as [|Hne1]; simpl in Hm; [by left|].
      destruct (String.eqb_spec (trim t) "") as [|Hne2]; simpl in Hm; [by left|].
      destruct (decide (to_lower h = host)) as [<-|Hne].
      + rewrite lookup_insert_eq in Hm. injection Hm as <-. right.
        split; [done|]. split; [apply to_lower_idem|].
        split; [by apply to_lower_no_quote|]. split; [done|].
        split; [apply trim_idem|]. split; [by apply trim_no_quote|].
        exists h, t. split; [apply elem_of_cons; by left | done].
      + rewrite lookup_insert_ne in Hm by done. by left.
    - right. repeat (split; [done|]). exists h', t'.
      split; [apply elem_of_cons; by right | done]. }
  intros Hlook. destruct (Hgen _ ∅ Hstop Hlook) as [Hm|H]; [|done].
  by rewrite lookup_empty in Hm.
Qed.

(** X18, witness: [routes_table_entries] at an input. *)
Lemma routes_table_entries_witness :
  let content := "{ " +:+ quoted "Example.Test" +:+ " : " +:+ quoted " 127.0.0.1:9000 "
                 +:+ ", " +:+ quoted "b.test" +:+ ":" +:+ quoted "" +:+ " }" in
  parse_routes content !! "example.test" = Some "127.0.0.1:9000"
  ∧ parse_routes content !! "b.test" = None
  ∧ to_lower "example.test" = "example.test"
  ∧ trim "127.0.0.1:9000" = "127.0.0.1:9000".
Proof.
  intros content. split; [vm_compute; reflexivity|]. split; [vm_compute; reflexivity|].
  pose proof (routes_table_entries content "example.test" "127.0.0.1:9000"
                ltac:(vm_compute; reflexivity)) as (_ & H2 & _ & _ & H5 & _).
  split; [exact H2 | exact H5].
Defined.

Lemma quoted_app (k x : string) : quoted k +:+ x = String DQUOTE (k +:+ String DQUOTE x).
Proof. unfold quoted. simpl. by rewrite append_assoc. Qed.

Lemma match_pair_rendered (k v rest : string) :
  k ≠ "" → no_char DQUOTE k → no_char DQUOTE v →
  match_pair (quoted k +:+ ": " +:+ quoted v +:+ rest) = Some (k, v, rest).
Proof.
  intros Hk Hqk Hqv. rewrite quoted_app, (quoted_app v rest).
  unfold match_pair. change (Ascii.eqb DQUOTE DQUOTE) with true. cbv iota.
  rewrite (span_not_quote_app k _ Hqk).
  destruct (String.eqb_spec k ""); [done|].
  change (": " +:+ String DQUOTE (v +:+ String DQUOTE rest))
    with (String ":" (String " " (String DQUOTE (v +:+ String DQUOTE rest)))).
  assert (H1 : isspace ":" = false) by done.
  assert (H2 : isspace " " = true) by done.
  assert (H3 : isspace DQUOTE = false) by done.
  assert (H4 : Ascii.eqb ":" ":" = true) by done.
  assert (H5 : Ascii.eqb DQUOTE DQUOTE = true) by done.
  cbn [ltrim]. rewrite H1, H4. cbn [ltrim]. rewrite H2. cbn [ltrim]. rewrite H3, H5.
  by rewrite (span_not_quote_app v _ Hqv).
Qed.

Lemma route_pairs_skip (a r : string) :
  route_pairs (String.length a) (a +:+ r) = route_pairs 0 r.
Proof. induction a as [|c a IH]; simpl; [by destruct r | done]. Qed.

Lemma route_pairs_separator (sep r : string) :
  no_char DQUOTE sep → route_pairs 0 (sep +:+ r) = route_pairs 0 r.
Proof.
  induction sep as [|c sep IH]; intros Hno; simpl; [done|].
  apply no_char_cons in Hno as [Hc Hno].
  destruct (Ascii.eqb_spec c DQUOTE); [done|]. by apply IH.
Qed.

(** X19: a routes file of quoted host and target pairs, with
    separators that hold no double quote, is read back as these pairs,
    in order, each put in the table with its host lowered and its
    target trimmed (a later entry for a host replacing an earlier
    one). *)
Theorem routes_file_round_trip (sep0 : string)
    (entries : list (string * string * string)) :
  no_char DQUOTE sep0 →
  Forall entry_ok entries →
  route_pairs 0 (sep0 +:+ render_routes entries) = entries.*1
  ∧ parse_routes (sep0 +:+ render_routes entries) = foldl add_route ∅ (entries.*1).
Proof.
  intros Hsep Hok.
  assert (Hpairs : route_pairs 0 (sep0 +:+ render_routes entries) = entries.*1).
  { rewrite route_pairs_separator by done. clear sep0 Hsep.
    induction entries as [|[[k v] sep] entries IH]; [done|].
    apply Forall_cons in Hok as [(Hk & Hqk & Hqv & Hqs) Hok]. simpl in Hk, Hqk, Hqv, Hqs.
    cbn [render_routes fmap list_fmap fst].
    rewrite <- (append_assoc (quoted v) sep).
    pose proof (match_pair_rendered k v (sep +:+ render_routes entries) Hk Hqk Hqv) as Hm.
    rewrite <- (append_assoc (quoted v) sep) in Hm.
    remember (quoted k +:+ ": " +:+ (quoted v +:+ sep) +:+ render_routes entries) as s eqn:Hs.
    assert (Hs' : s = String DQUOTE
              ((k +:+ String DQUOTE (": " +:+ quoted v)) +:+ sep +:+ render_routes entries)).
    { rewrite Hs, quoted_app. f_equal. rewrite !append_assoc. simpl.
      by rewrite !append_assoc. }
    rewrite Hs' in *. cbn [route_pairs]. rewrite Hm. simpl fst. f_equal.
    replace (String.length ((k +:+ String DQUOTE (": " +:+ quoted v))
                             +:+ sep +:+ render_routes entries)
             - String.length (sep +:+ render_routes entries))%nat
      with (String.length (k +:+ String DQUOTE (": " +:+ quoted v)))
      by (rewrite (length_append (k +:+ _)); lia).
    rewrite route_pairs_skip, route_pairs_separator by done. by apply IH. }
  split; [done|]. unfold parse_routes. by rewrite Hpairs.
Qed.

(** X19, witness: [routes_file_round_trip] at an input. *)
Lemma routes_file_round_trip_witness :
  let entries := [("a.test", "127.0.0.1:3000", ", "); ("B.test", "127.0.0.1:4000", "}")] in
  route_pairs 0 ("{" +:+ render_routes entries) = entries.*1
  ∧ parse_routes ("{" +:+ render_routes entries) = foldl add_route ∅ (entries.*1).
Proof.
  intros entries.
  refine (routes_file_round_trip "{" entries _ _).
  - intros pre post E. vm_compute in E.
    repeat (destruct pre as [|? pre]; [discriminate E|]; injection E as _ E).
    destruct pre; discriminate E.
  - repeat constructor; try discriminate; simpl;
      intros pre post E; vm_compute in E;
      repeat (destruct pre as [|? pre]; [discriminate E|]; injection E as _ E);
      destruct pre; discriminate E.
Defined.

(** ** Where the upstream descriptors go *)

Lemma same_fds_refl (w : World) : same_fds w w.
Proof. done. Qed.

Lemma same_fds_trans (w1 w2 w3 : World) :
  same_fds w1 w2 → same_fds w2 w3 → same_fds w1 w3.
Proof. intros (?&?&?) (?&?&?). repeat split; congruence. Qed.

Lemma same_fds_put_socket (fd : Z) (s : Socket) (w : World) :
  same_fds w (put_socket fd s w).
Proof. done. Qed.

Lemma same_fds_send_all (fd : Z) (data : string) (w : World) :
  same_fds w (send_all fd data w).2.
Proof. unfold send_all. by destruct (send_all_loop _ _ _) as [[??]?]. Qed.

Lemma same_fds_send_simple_response (fd status : Z) (reason body : string) (w : World) :
  same_fds w (send_simple_response fd status reason body w).
Proof. apply same_fds_send_all. Qed.

Lemma same_fds_sys_recv (fd : Z) (w : World) : same_fds w (sys_recv fd w).2.
Proof. unfold sys_recv. by destruct (rx (socket_of w fd)). Qed.

Lemma same_fds_recv_append_upstream (fd : Z) (buf : string) (w : World) :
  same_fds w (recv_append_upstream fd buf w).2.
Proof.
  unfold recv_append_upstream. by destruct (recv_append_upstream_on _ _) as [[??]?].
Qed.

Lemma same_fds_socket_is_idle_usable (fd : Z) (w : World) :
  same_fds w (socket_is_idle_usable fd w).2.
Proof.
  unfold socket_is_idle_usable. by destruct (socket_is_idle_usable_on _) as [??].
Qed.

Lemma same_fds_recv_until_size (fuel : nat) (fd : Z) (buf : string) (need : Z)
    (w : World) (r : bool * string) (w' : World) :
  recv_until_size fuel fd buf need w = Ret (r, w') → same_fds w w'.
Proof.
  revert buf w. induction fuel as [|fuel IH]; intros buf w; simpl.
  - destruct (need <=? size buf); [|done]. by intros [= <- <-].
  - destruct (need <=? size buf); [by intros [= <- <-]|].
    pose proof (same_fds_recv_append_upstream fd buf w) as Hs.
    destruct (recv_append_upstream fd buf w) as [[ok1 buf1] w1]. simpl in Hs.
    destruct ok1; simpl.
    + intros H. eapply same_fds_trans; [exact Hs | by eapply IH].
    + by intros [= <- <-].
Qed.

Lemma same_fds_recv_until_found (fuel : nat) (fd : Z) (buf pat : string)
    (cursor : Z) (w : World) (r : option Z * string) (w' : World) :
  recv_until_found fuel fd buf pat cursor w = Ret (r, w') → same_fds w w'.
Proof.
  revert buf w. induction fuel as [|fuel IH]; intros buf w; simpl.
  - destruct (find buf pat cursor); [|done]. by intros [= <- <-].
  - destruct (find buf pat cursor); [by intros [= <- <-]|].
    pose proof (same_fds_recv_append_upstream fd buf w) as Hs.
    destruct (recv_append_upstream fd buf w) as [[ok1 buf1] w1]. simpl in Hs.
    destruct ok1; simpl.
    + intros H. eapply same_fds_trans; [exact Hs | by eapply IH].
    + by intros [= <- <-].
Qed.

Lemma same_fds_relay_body_loop (fuel : nat) (up cl sent len : Z) (w : World)
    (ok : bool) (w' : World) :
  relay_body_loop fuel up cl sent len w = Ret (ok, w') → same_fds w w'.
Proof.
  revert sent w. induction fuel as [|fuel IH]; intros sent w; simpl.
  - destruct (len <=? sent); [|done]. by intros [= <- <-].
  - destruct (len <=? sent); [by intros [= <- <-]|].
    pose proof (same_fds_sys_recv up w) as Hs.
    destruct (sys_recv up w) as [[bytes|e] w1]; simpl in Hs.
    + destruct (size bytes =? 0); [by intros [= <- <-]|].
      pose proof (same_fds_send_all cl
        (substr bytes 0 (Z.min (size bytes) (len - sent))) w1) as Hs2.
      destruct (send_all cl _ w1) as [ok1 w2]. simpl in Hs2.
      pose proof (same_fds_trans _ _ _ Hs Hs2) as Hs3.
      destruct ok1; simpl; [|by intros [= <- <-]].
      destruct (_ <? size bytes); [by intros [= <- <-]|].
      intros H. eapply same_fds_trans; [exact Hs3 | by eapply IH].
    + destruct (decide (e = EINTR)); [|by intros [= <- <-]].
      intros H. eapply same_fds_trans; [exact Hs | by eapply IH].
Qed.

Lemma same_fds_relay_body_with_length (fuel : nat) (up cl : Z) (body_buf : string)
    (len : Z) (w : World) (ok : bool) (w' : World) :
  relay_body_with_length fuel up cl body_buf len w = Ret (ok, w') → same_fds w w'.
Proof.
  unfold relay_body_with_length.
  destruct (negb (size body_buf =? 0)); [|apply same_fds_relay_body_loop].
  assert (Hs : same_fds w
    (if 0 <? Z.min (size body_buf) len
     then send_all cl (substr body_buf 0 (Z.min (size body_buf) len)) w
     else (true, w)).2).
  { destruct (0 <? _); [apply same_fds_send_all | done]. }
  destruct (if 0 <? _ then _ else _) as [ok1 w1]. simpl in Hs.
  destruct ok1; simpl; [|by intros [= <- <-]].
  destruct (len <? size body_buf); [by intros [= <- <-]|].
  intros H. eapply same_fds_trans; [exact Hs | by eapply same_fds_relay_body_loop].
Qed.

Lemma same_fds_relay_chunked_loop (fuel : nat) (up cl : Z) (buf : string)
    (cursor : Z) (w : World) (r : bool * option Z * string) (w' : World) :
  relay_chunked_loop fuel up cl buf cursor w = Ret (r, w') → same_fds w w'.
Proof.
  revert buf cursor w. induction fuel as [|fuel IH]; intros buf cursor w; simpl; [done|].
  destruct (recv_until_found fuel up buf CRLF cursor w)
    as [[[line_end buf1] w1]| | |] eqn:E1; simpl; try done.
  apply same_fds_recv_until_found in E1.
  destruct line_end as [line_end|]; [|by intros [= <- <-]].
  destruct (stoull 16 _) as [chunk_size|]; [|by intros [= <- <-]].
  destruct (recv_until_size fuel up buf1 _ w1)
    as [[[ok2 buf2] w2]| | |] eqn:E2; simpl; try done.
  apply same_fds_recv_until_size in E2.
  pose proof (same_fds_trans _ _ _ E1 E2) as H2.
  destruct ok2; simpl; [|by intros [= <- <-]].
  destruct (substr_throws buf2 _); [done|].
  destruct (String.eqb _ CRLF); simpl; [|by intros [= <- <-]].
  destruct (_ <? cursor); [done|].
  match goal with |- context [send_all cl ?d w2] =>
    pose proof (same_fds_send_all cl d w2) as Hs3 end.
  destruct (send_all cl _ w2) as [ok3 w3]. simpl in Hs3.
  pose proof (same_fds_trans _ _ _ H2 Hs3) as H3.
  destruct ok3; simpl; [|by intros [= <- <-]].
  destruct (chunk_size =? 0).
  - destruct (recv_until_found fuel up buf2 CRLFCRLF _ w3)
      as [[[trailer_end buf4] w4]| | |] eqn:E4; simpl; try done.
    apply same_fds_recv_until_found in E4.
    pose proof (same_fds_trans _ _ _ H3 E4) as H4.
    destruct trailer_end as [trailer_end|]; [|by intros [= <- <-]].
    match goal with |- context [send_all cl ?d w4] =>
      pose proof (same_fds_send_all cl d w4) as Hs5 end.
    destruct (send_all cl _ w4) as [ok5 w5]. simpl in Hs5.
    pose proof (same_fds_trans _ _ _ H4 Hs5) as H5.
    by destruct ok5; simpl; intros [= <- <-].
  - intros H. eapply same_fds_trans; [exact H3 | by eapply IH].
Qed.

Lemma same_fds_relay_read_head (fuel : nat) (up : Z) (buf : string) (w : World)
    (r : option (string * Z)) (w' : World) :
  relay_read_head fuel up buf w = Ret (r, w') → same_fds w w'.
Proof.
  revert buf w. induction fuel as [|fuel IH]; intros buf w; simpl.
  - destruct (find buf CRLFCRLF 0); [|done]. by intros [= <- <-].
  - destruct (find buf CRLFCRLF 0); [by intros [= <- <-]|].
    pose proof (same_fds_recv_append_upstream up buf w) as Hs.
    destruct (recv_append_upstream up buf w) as [[ok1 buf1] w1]. simpl in Hs.
    destruct ok1; simpl; [|by intros [= <- <-]].
    destruct (kMaxHeaderBytes <? size buf1); [by intros [= <- <-]|].
    intros H. eapply same_fds_trans; [exact Hs | by eapply IH].
Qed.

Lemma same_fds_relay_until_close (fuel : nat) (up cl : Z) (w w' : World) :
  relay_until_close fuel up cl w = Ret w' → same_fds w w'.
Proof.
  revert w. induction fuel as [|fuel IH]; intros w; simpl; [done|].
  pose proof (same_fds_sys_recv up w) as Hs.
  destruct (sys_recv up w) as [[bytes|e] w1]; simpl in Hs.
  - destruct (size bytes =? 0); [by intros [= <-]|].
    pose proof (same_fds_send_all cl bytes w1) as Hs2.
    destruct (send_all cl bytes w1) as [ok1 w2]. simpl in Hs2.
    pose proof (same_fds_trans _ _ _ Hs Hs2) as Hs3.
    destruct ok1; simpl; [|by intros [= <-]].
    intros H. eapply same_fds_trans; [exact Hs3 | by eapply IH].
  - destruct (decide (e = EINTR)); [|by intros [= <-]].
    intros H. eapply same_fds_trans; [exact Hs | by eapply IH].
Qed.

Lemma same_fds_relay_body (fuel : nat) (up cl : Z) (meta : ResponseMeta)
    (body_buf : string) (w w' : World) (out : RelayOutcome) :
  relay_body fuel up cl meta body_buf w = Ret (out, w') → same_fds w w'.
Proof.
  unfold relay_body. destruct (no_body meta).
  - destruct (negb (size body_buf =? 0)).
    + pose proof (same_fds_send_all cl body_buf w) as Hs.
      destruct (send_all cl body_buf w). by intros [= <- <-].
    + by intros [= <- <-].
  - destruct (meta_chunked meta).
    + unfold relay_chunked_body.
      destruct (relay_chunked_loop fuel up cl body_buf 0 w)
        as [[[[c fe] b] w1]| | |] eqn:E; simpl; try done.
      apply same_fds_relay_chunked_loop in E. by intros [= <- <-].
    + destruct (content_length meta) as [len|].
      * destruct (relay_body_with_length fuel up cl body_buf len w)
          as [[ok w1]| | |] eqn:E; simpl; try done.
        apply same_fds_relay_body_with_length in E. by intros [= <- <-].
      * assert (Hs : same_fds w
          (if negb (size body_buf =? 0) then send_all cl body_buf w else (true, w)).2).
        { destruct (negb _); [apply same_fds_send_all | done]. }
        destruct (if negb (size body_buf =? 0) then _ else _) as [ok w1]. simpl in Hs.
        destruct ok; simpl; [|by intros [= <- <-]].
        destruct (relay_until_close fuel up cl w1) as [w2| | |] eqn:E; simpl; try done.
        apply same_fds_relay_until_close in E. intros [= <- <-].
        by eapply same_fds_trans.
Qed.

Lemma same_fds_relay (fuel : nat) (up cl : Z) (method : string) (w w' : World)
    (out : RelayOutcome) :
  relay_response_and_decide_reuse fuel up cl method w = Ret (out, w') → same_fds w w'.
Proof.
  unfold relay_response_and_decide_reuse.
  destruct (relay_read_head fuel up "" w) as [[[[buf header_end]|] w1]| | |] eqn:Eh;
    simpl; try done; apply same_fds_relay_read_head in Eh; [|by intros [= <- <-]].
  destruct (parse_response_headers _ method) as [meta|]; [|by intros [= <- <-]].
  match goal with |- context [send_all cl ?d w1] =>
    pose proof (same_fds_send_all cl d w1) as Hs end.
  destruct (send_all cl _ w1) as [ok w2]. simpl in Hs.
  pose proof (same_fds_trans _ _ _ Eh Hs) as H2.
  destruct ok; simpl; [|by intros [= <- <-]].
  intros H. apply same_fds_relay_body in H. by eapply same_fds_trans.
Qed.

Lemma same_fds_read_request_from (fuel : nat) (client_fd : Z) (pending : string)
    (w : World) (r : read_result) (w' : World) :
  read_request_from fuel client_fd pending w = Ret (r, w') → same_fds w w'.
Proof.
  unfold read_request_from.
  destruct (read_request fuel _ pending) as [[r0 rx']| | |]; simpl; try done.
  by intros [= <- <-].
Qed.

Lemma same_fds_steady_clock_now (w : World) : same_fds w (steady_clock_now w).2.
Proof. unfold steady_clock_now. by destruct (clock w). Qed.

Lemma same_fds_load_running (w : World) : same_fds w (load_running w).2.
Proof. unfold load_running. by destruct (running w). Qed.

Lemma occurrences_app (fd0 : Z) (a b : list Z) :
  occurrences fd0 (a ++ b) = occurrences fd0 a + occurrences fd0 b.
Proof. induction a as [|x a IH]; simpl; [done|]. rewrite IH. lia. Qed.

Lemma occurrences_nonneg (fd0 : Z) (l : list Z) : 0 ≤ occurrences fd0 l.
Proof. induction l as [|x l IH]; simpl; [done|]. destruct (decide _); lia. Qed.

Lemma occurrences_rev (fd0 : Z) (l : list Z) :
  occurrences fd0 (rev l) = occurrences fd0 l.
Proof.
  induction l as [|x l IH]; simpl; [done|].
  rewrite occurrences_app, IH. simpl. lia.
Qed.

Lemma occurrences_fmap_rev (fd0 : Z) (l : list PooledConn) :
  occurrences fd0 (fd <$> rev l) = occurrences fd0 (fd <$> l).
Proof.
  induction l as [|x l IH]; simpl; [done|].
  rewrite fmap_app, occurrences_app, IH. simpl. unfold fmap. lia.
Qed.

Lemma same_tokens_neg (fd1 : Z) : fd1 < 0 → same_tokens [fd1] [].
Proof. intros H fd0 Hfd. simpl. destruct (decide (fd1 = fd0)); lia. Qed.

Lemma parked_count_empty (fd0 : Z) : parked_count fd0 ∅ = 0.
Proof. unfold parked_count. by rewrite map_fold_empty. Qed.

Lemma parked_count_insert_fresh (fd0 : Z) (m : gmap string (list PooledConn))
    (k : string) (x : list PooledConn) :
  m !! k = None →
  parked_count fd0 (<[k := x]> m) = occurrences fd0 (fd <$> x) + parked_count fd0 m.
Proof.
  intros Hk. unfold parked_count. rewrite map_fold_insert_L; [lia | | done].
  intros. lia.
Qed.

Lemma parked_count_delete (fd0 : Z) (m : gmap string (list PooledConn))
    (k : string) (x : list PooledConn) :
  m !! k = Some x →
  parked_count fd0 m = occurrences fd0 (fd <$> x) + parked_count fd0 (delete k m).
Proof.
  intros Hk. rewrite <- (insert_delete_id m k x Hk) at 1.
  apply parked_count_insert_fresh. apply lookup_delete_eq.
Qed.

Lemma parked_count_insert (fd0 : Z) (m : gmap string (list PooledConn))
    (k : string) (x : list PooledConn) :
  parked_count fd0 (<[k := x]> m)
  = parked_count fd0 m - occurrences fd0 (fd <$> default [] (m !! k))
    + occurrences fd0 (fd <$> x).
Proof.
  destruct (m !! k) as [old|] eqn:Ek; simpl.
  - rewrite (parked_count_delete fd0 m k old Ek).
    rewrite <- insert_delete_eq.
    rewrite parked_count_insert_fresh by apply lookup_delete_eq. lia.
  - rewrite parked_count_insert_fresh by done. lia.
Qed.

Lemma moves_same (w w' : World) (ins : list Z) :
  same_fds w w' → moves w w' ins ins.
Proof.
  intros (Hp & Hc & Hn). exists []. split; [by rewrite Hn|].
  intros fd0 _. unfold settled. rewrite Hp, Hc. simpl. lia.
Qed.

Lemma moves_trans (w1 w2 w3 : World) (a b c d : list Z) :
  moves w1 w2 a b → moves w2 w3 c d → same_tokens b c → moves w1 w3 a d.
Proof.
  intros (u1 & Hu1 & H1) (u2 & Hu2 & H2) Hbc. exists (u1 ++ u2)%list.
  split; [by rewrite Hu1, Hu2, app_assoc|].
  intros fd0 Hfd. specialize (H1 fd0 Hfd). specialize (H2 fd0 Hfd).
  specialize (Hbc fd0 Hfd). rewrite fmap_app, occurrences_app. lia.
Qed.

Lemma moves_weaken (w w' : World) (a b a' b' : list Z) :
  moves w w' a b → same_tokens a' a → same_tokens b b' → moves w w' a' b'.
Proof.
  intros (u & Hu & H) Ha Hb. exists u. split; [done|].
  intros fd0 Hfd. specialize (H fd0 Hfd). rewrite (Ha fd0 Hfd), <- (Hb fd0 Hfd). lia.
Qed.

Lemma moves_frame (w w' : World) (a b e : list Z) :
  moves w w' a b → moves w w' (a ++ e) (b ++ e).
Proof.
  intros (u & Hu & H). exists u. split; [done|].
  intros fd0 Hfd. specialize (H fd0 Hfd). rewrite !occurrences_app. lia.
Qed.

Lemma moves_close (fd1 : Z) (w : World) : moves w (close fd1 w) [fd1] [].
Proof.
  exists []. split; [done|]. intros fd0 _. unfold settled. simpl. lia.
Qed.

Lemma moves_discard (fd1 : Z) (w : World) : moves w (discard fd1 w) [fd1] [].
Proof.
  unfold discard. destruct (0 <=? fd1) eqn:E; [apply moves_close|].
  eapply moves_weaken; [apply (moves_same w w []), same_fds_refl | | done].
  apply same_tokens_neg. lia.
Qed.

Lemma moves_connect_upstream (host : string) (port : Z) (w : World) :
  moves w (connect_upstream host port w).2 [] [(connect_upstream host port w).1.1].
Proof.
  unfold connect_upstream. destruct (connects w) as [|[fd1 e] c] eqn:E; simpl.
  - exists []. split; [by rewrite E|].
    intros fd0 Hfd. simpl. destruct (decide (-1 = fd0)); lia.
  - exists [(fd1, e)]. split; [by rewrite E|].
    intros fd0 _. unfold settled. simpl. lia.
Qed.

(** The inner loop of [reap_locked]: every entry it drops is closed
    once. *)
Lemma reap_conns_tokens (cfg : Config) (now : Z) (conns : list PooledConn)
    (w : World) (idle : Z) :
  pool (reap_conns cfg now conns w idle).1.2 = pool w
  ∧ connects (reap_conns cfg now conns w idle).1.2 = connects w
  ∧ ∀ fd0, occurrences fd0 (closed (reap_conns cfg now conns w idle).1.2)
           + occurrences fd0 (fd <$> (reap_conns cfg now conns w idle).1.1)
           = occurrences fd0 (closed w) + occurrences fd0 (fd <$> conns).
Proof.
  revert w idle. induction conns as [|conn rest IH]; intros w idle; simpl.
  - split; [done|]. split; [done|]. intros. lia.
  - assert (Hk : ∀ keep w1, pool w1 = pool w → connects w1 = connects w →
                closed w1 = closed w →
                let r := if keep : bool
                         then (let '(kept, w0, idle0) := reap_conns cfg now rest w1 idle in
                               (conn :: kept, w0, idle0))
                         else reap_conns cfg now rest (close (fd conn) w1) (dec_idle idle) in
                pool r.1.2 = pool w ∧ connects r.1.2 = connects w
                ∧ ∀ fd0, occurrences fd0 (closed r.1.2) + occurrences fd0 (fd <$> r.1.1)
                         = occurrences fd0 (closed w)
                           + ((if decide (fd conn = fd0) then 1 else 0)
                              + occurrences fd0 (fd <$> rest))).
    { intros keep w1 Hp Hn Hc. destruct keep; simpl.
      - destruct (IH w1 idle) as (Hp' & Hn' & H).
        destruct (reap_conns cfg now rest w1 idle) as [[kept w2] idle2]. simpl in *.
        split; [congruence|]. split; [congruence|].
        intros fd0. specialize (H fd0). rewrite Hc in H. unfold fmap in *. lia.
      - destruct (IH (close (fd conn) w1) (dec_idle idle)) as (Hp' & Hn' & H).
        split; [by rewrite Hp'|]. split; [by rewrite Hn'|].
        intros fd0. specialize (H fd0). simpl in H. rewrite Hc in H. unfold fmap in *. lia. }
    destruct (is_conn_fresh cfg now conn).
    + pose proof (socket_is_idle_usable_pool (fd conn) w) as Hp.
      pose proof (socket_is_idle_usable_closed (fd conn) w) as Hc.
      pose proof (socket_is_idle_usable_connects (fd conn) w) as Hn.
      destruct (socket_is_idle_usable (fd conn) w) as [usable w1]. simpl in *.
      apply (Hk usable w1 Hp Hn Hc).
    + apply (Hk false w eq_refl eq_refl eq_refl).
Qed.

Lemma moves_reap_locked (cfg : Config) (now : Z) (w : World) :
  moves w (reap_locked cfg now w) [] [].
Proof.
  unfold reap_locked.
  assert (H : ∀ m : gmap string (list PooledConn),
    let r := map_fold (reap_step cfg now) (∅, w, idle_total (pool w)) m in
    pool r.1.2 = pool w ∧ connects r.1.2 = connects w
    ∧ (∀ fd0, occurrences fd0 (closed r.1.2) + parked_count fd0 r.1.1
              = occurrences fd0 (closed w) + parked_count fd0 m)
    ∧ ∀ k, m !! k = None → r.1.1 !! k = None).
  { intros m. apply (map_fold_weak_ind (λ r m,
      pool r.1.2 = pool w ∧ connects r.1.2 = connects w
      ∧ (∀ fd0, occurrences fd0 (closed r.1.2) + parked_count fd0 r.1.1
                = occurrences fd0 (closed w) + parked_count fd0 m)
      ∧ ∀ k, m !! k = None → r.1.1 !! k = None)).
    - simpl. split; [done|]. split; [done|]. split; [|done]. intros. lia.
    - intros key conns m0 [[m' w'] idle'] Hfresh (IHp & IHn & IHc & IHk). simpl in *.
      unfold reap_step.
      destruct (reap_conns_tokens cfg now conns w' idle') as (Hp & Hn & Hc).
      destruct (reap_conns cfg now conns w' idle') as [[kept w2] idle2]. simpl in *.
      split; [congruence|]. split; [congruence|]. split.
      + intros fd0. specialize (Hc fd0). specialize (IHc fd0).
        rewrite (parked_count_insert_fresh fd0 m0) by done.
        destruct kept as [|c0 kept]; [simpl in *; lia|].
        rewrite parked_count_insert_fresh by (by apply IHk). lia.
      + intros k Hk. apply lookup_insert_None in Hk as [Hk Hne].
        destruct kept as [|c0 kept]; [by apply IHk|].
        rewrite lookup_insert_ne by done. by apply IHk. }
  specialize (H (by_key (pool w))). simpl in H.
  destruct (map_fold _ _ _) as [[m' w'] idle']. simpl in *.
  destruct H as (Hp & Hn & Hc & _).
  exists []. split; [simpl; congruence|].
  intros fd0 _. unfold settled. simpl. specialize (Hc fd0). lia.
Qed.

(** The loop of [acquire]: every entry it passes over is closed once,
    the others stay or are handed out. *)
Lemma acquire_pop_tokens (cfg : Config) (now : Z) (back_first : list PooledConn)
    (w : World) (idle : Z) (got : option Z) (rest : list PooledConn)
    (w' : World) (idle' : Z) :
  acquire_pop cfg now back_first w idle = (got, rest, w', idle') →
  pool w' = pool w ∧ connects w' = connects w
  ∧ ∀ fd0, occurrences fd0 (closed w') + occurrences fd0 (fd <$> rest)
           + occurrences fd0 (match got with Some fd1 => [fd1] | None => [] end)
           = occurrences fd0 (closed w) + occurrences fd0 (fd <$> back_first).
Proof.
  revert w idle. induction back_first as [|conn bf IH]; intros w idle; simpl.
  - intros [= <- <- <- <-]. split; [done|]. split; [done|]. intros. simpl. lia.
  - assert (Hk : ∀ usable w1, pool w1 = pool w → connects w1 = connects w →
                closed w1 = closed w →
                (if usable : bool then (Some (fd conn), bf, w1, dec_idle idle)
                 else acquire_pop cfg now bf (close (fd conn) w1) (dec_idle idle))
                = (got, rest, w', idle') →
                pool w' = pool w ∧ connects w' = connects w
                ∧ ∀ fd0, occurrences fd0 (closed w') + occurrences fd0 (fd <$> rest)
                         + occurrences fd0 (match got with Some fd1 => [fd1] | None => [] end)
                         = occurrences fd0 (closed w)
                           + ((if decide (fd conn = fd0) then 1 else 0)
                              + occurrences fd0 (fd <$> bf))).
    { intros usable w1 Hp Hn Hc. destruct usable.
      - intros [= <- <- <- <-]. split; [done|]. split; [done|].
        intros fd0. simpl. rewrite Hc. lia.
      - intros H. destruct (IH _ _ H) as (Hp' & Hn' & H').
        split; [by rewrite Hp'|]. split; [by rewrite Hn'|].
        intros fd0. specialize (H' fd0). simpl in H'. rewrite Hc in H'. unfold fmap in *. lia. }
    destruct (is_conn_fresh cfg now conn).
    + pose proof (socket_is_idle_usable_pool (fd conn) w) as Hp.
      pose proof (socket_is_idle_usable_closed (fd conn) w) as Hc.
      pose proof (socket_is_idle_usable_connects (fd conn) w) as Hn.
      destruct (socket_is_idle_usable (fd conn) w) as [usable w1]. simpl in *.
      apply (Hk usable w1 Hp Hn Hc).
    + apply (Hk false w eq_refl eq_refl eq_refl).
Qed.

Lemma moves_acquire (cfg : Config) (key host : string) (port : Z) (w : World) :
  moves w (acquire cfg key host port w).2 [] [(acquire cfg key host port w).1.1].
Proof.
  unfold acquire.
  pose proof (same_fds_steady_clock_now w) as Hclock.
  destruct (steady_clock_now w) as [now w0]. simpl in Hclock.
  pose proof (moves_trans _ _ _ _ _ _ _ (moves_same w w0 [] Hclock)
                (moves_reap_locked cfg now w0) (λ x H, eq_refl)) as Hreap.
  set (wr := reap_locked cfg now w0) in *.
  destruct (by_key (pool wr) !! key) as [conns|] eqn:Ek.
  - destruct (acquire_pop cfg now (rev conns) wr (idle_total (pool wr)))
      as [[[got rest] w1] idle1] eqn:Ep.
    destruct (acquire_pop_tokens _ _ _ _ _ _ _ _ _ Ep) as (Hp & Hn & Hc).
    set (w2 := set_pool {| by_key := <[key:=rev rest]> (by_key (pool wr));
                           idle_total := idle1 |} w1).
    assert (Hpop : moves wr w2 [] (match got with Some fd1 => [fd1] | None => [] end)).
    { exists []. split; [by rewrite <- Hn|].
      intros fd0 _. specialize (Hc fd0). unfold settled. subst w2. simpl.
      rewrite parked_count_insert, Ek. simpl.
      rewrite !occurrences_fmap_rev in *. unfold fmap in *. lia. }
    destruct got as [fd1|]; simpl.
    + eapply moves_trans; [exact Hreap | exact Hpop | done].
    + eapply moves_trans; [exact Hreap | | done].
      eapply moves_trans; [exact Hpop | apply moves_connect_upstream | done].
  - eapply moves_trans; [exact Hreap | apply moves_connect_upstream | done].
Qed.

Lemma moves_release (cfg : Config) (key : string) (fd1 : Z) (w : World) :
  moves w (release cfg key fd1 w) [fd1] [].
Proof.
  unfold release. destruct (fd1 <? 0) eqn:Efd.
  { eapply moves_weaken; [apply (moves_same w w []), same_fds_refl | | done].
    apply same_tokens_neg. lia. }
  pose proof (same_fds_socket_is_idle_usable fd1 w) as Hprobe.
  destruct (socket_is_idle_usable fd1 w) as [usable w1]. simpl in Hprobe.
  destruct usable; simpl.
  2:{ eapply moves_trans; [apply (moves_same w w1 [fd1] Hprobe) | apply moves_close | done]. }
  pose proof (same_fds_steady_clock_now w1) as Hclock.
  destruct (steady_clock_now w1) as [now w2]. simpl in Hclock.
  pose proof (same_fds_trans _ _ _ Hprobe Hclock) as H2.
  assert (Hreap : moves w (reap_locked cfg now w2) [fd1] [fd1]).
  { eapply moves_trans; [apply (moves_same w w2 [fd1] H2) | | done].
    apply (moves_frame _ _ [] [] [fd1]), moves_reap_locked. }
  set (wr := reap_locked cfg now w2) in *.
  destruct (pool_max_idle_total cfg <=? idle_total (pool wr)).
  { eapply moves_trans; [exact Hreap | apply moves_close | done]. }
  destruct (pool_max_idle_per_key cfg <=? _).
  - eapply moves_trans; [exact Hreap | | done].
    exists []. split; [done|]. intros fd0 _. unfold settled. simpl.
    rewrite parked_count_insert. lia.
  - eapply moves_trans; [exact Hreap | | done].
    exists []. split; [done|]. intros fd0 _. unfold settled. simpl.
    rewrite parked_count_insert, fmap_app, occurrences_app. simpl. lia.
Qed.

Lemma moves_then_same (w w1 w2 : World) (a b : list Z) :
  moves w w1 a b → same_fds w1 w2 → moves w w2 a b.
Proof.
  intros H Hs. eapply moves_trans; [exact H | apply (moves_same w1 w2 b Hs) | done].
Qed.

Lemma moves_after_same (w w1 w2 : World) (a b : list Z) :
  same_fds w w1 → moves w1 w2 a b → moves w w2 a b.
Proof.
  intros Hs H. eapply moves_trans; [apply (moves_same w w1 a Hs) | exact H | done].
Qed.

Lemma moves_release_cached (cfg : Config) (h : Handler) (w : World) :
  handler_ok h →
  moves w (release_cached cfg h w).2 (owned h) []
  ∧ cached_upstream_fd (release_cached cfg h w).1 < 0.
Proof.
  intros Hok. unfold release_cached.
  destruct (0 <=? cached_upstream_fd h) eqn:Efd; simpl.
  - destruct (String.eqb_spec (cached_upstream_key h) "") as [Hk|Hk]; simpl.
    + exfalso. apply Hok; [lia | done].
    + split; [|lia]. apply moves_release.
  - split; [|lia].
    eapply moves_weaken; [apply (moves_same w w []), same_fds_refl | | done].
    apply same_tokens_neg. lia.
Qed.

Lemma moves_discard_cached (h : Handler) (w : World) :
  moves w (discard_cached h w).2 (owned h) []
  ∧ cached_upstream_fd (discard_cached h w).1 < 0.
Proof.
  unfold discard_cached.
  destruct (0 <=? cached_upstream_fd h) eqn:Efd; simpl.
  - split; [|lia]. apply moves_discard.
  - split; [|lia].
    eapply moves_weaken; [apply (moves_same w w []), same_fds_refl | | done].
    apply same_tokens_neg. lia.
Qed.

Lemma moves_decide_reuse (relay : RelayOutcome) (fd0 : Z) (key : string)
    (used : bool) (req : Request) (h : Handler) (w : World) :
  key ≠ "" →
  (if used then cached_upstream_fd h = fd0 else cached_upstream_fd h < 0) →
  moves w (decide_reuse relay fd0 key used req h w).2 [fd0]
        (owned (decide_reuse relay fd0 key used req h w).1.2)
  ∧ handler_ok (decide_reuse relay fd0 key used req h w).1.2.
Proof.
  intros Hkey Hused. unfold decide_reuse.
  destruct (upstream_reusable relay).
  - assert (moves w w [fd0] (owned (set_cached fd0 key h))
            ∧ handler_ok (set_cached fd0 key h)) as [Hm Hok].
    { split; [|by intros _]. apply (moves_same w w [fd0]), same_fds_refl. }
    by destruct (negb _).
  - assert (moves w (discard fd0 w) [fd0]
              (owned (if used then set_cached (-1) "" h else h))
            ∧ handler_ok (if used then set_cached (-1) "" h else h)) as [Hm Hok].
    { split.
      - eapply moves_weaken; [apply moves_discard | done |].
        intros x Hx. symmetry. apply same_tokens_neg; [|done].
        destruct used; simpl; lia.
      - destruct used; unfold handler_ok; simpl; lia. }
    by destruct (negb _).
Qed.

Section Descriptors.

Variable cfg : Config.

Variable tunnel : Z → Z → World → World.

(** The tunnel opens, parks and closes nothing. *)
Hypothesis tunnel_same_fds : ∀ a b w, same_fds w (tunnel a b w).

Lemma moves_relay_and_decide (fuel : nat) (client_fd fd0 : Z) (key : string)
    (used : bool) (req : Request) (h : Handler) (w : World)
    (c : ctl) (h' : Handler) (w' : World) :
  key ≠ "" →
  (if used then cached_upstream_fd h = fd0 else cached_upstream_fd h < 0) →
  relay_and_decide fuel client_fd fd0 key used req h w = Ret (c, h', w') →
  moves w w' [fd0] (owned h') ∧ handler_ok h'.
Proof.
  intros Hkey Hused. unfold relay_and_decide.
  destruct (relay_response_and_decide_reuse fuel fd0 client_fd (req_method req) w)
    as [[relay w1]| | |] eqn:Er; simpl; try done.
  apply same_fds_relay in Er.
  pose proof (moves_decide_reuse relay fd0 key used req h w1 Hkey Hused) as [Hm Hok].
  destruct (decide_reuse relay fd0 key used req h w1) as [[c1 h1] w2].
  simpl in Hm, Hok. intros [= <- <- <-]. split; [|done].
  by eapply moves_after_same.
Qed.

Lemma moves_forward (fuel : nat) (client_fd : Z) (req : Request) (host : string)
    (port : Z) (h : Handler) (w : World) (c : ctl) (h' : Handler) (w' : World) :
  handler_ok h →
  forward cfg tunnel fuel client_fd req host port h w = Ret (c, h', w') →
  moves w w' (owned h) (owned h') ∧ handler_ok h'.
Proof.
  intros Hok. unfold forward.
  set (key := host +:+ ":" +:+ to_string port).
  assert (Hkey : key ≠ "").
  { subst key. intros E. apply (f_equal String.length) in E.
    rewrite length_append in E. simpl in E. lia. }
  assert (Hlow : ∀ h0 : Handler, cached_upstream_fd h0 < 0 → handler_ok h0).
  { intros h0 H0 H1. lia. }
  assert (Hnone : ∀ h0 : Handler, cached_upstream_fd h0 < 0 → same_tokens [] (owned h0)).
  { intros h0 H0 x Hx. symmetry. by apply same_tokens_neg. }
  assert (Hlost : ∀ fd1 (h0 : Handler), fd1 < 0 → cached_upstream_fd h0 < 0 →
                    same_tokens [fd1] (owned h0)).
  { intros fd1 h0 H1 H0 x Hx. rewrite (same_tokens_neg fd1 H1 x Hx).
    symmetry. by apply same_tokens_neg. }
  destruct (is_upgrade_request req) eqn:Eup; simpl.
  - (* an upgrade: a connection of its own, closed when the tunnel ends *)
    pose proof (moves_release_cached cfg h w Hok) as [Hrel Hneg].
    destruct (release_cached cfg h w) as [h1 w1]. simpl in Hrel, Hneg.
    pose proof (moves_connect_upstream host port w1) as Hconn.
    destruct (connect_upstream host port w1) as [[fd1 e1] w2]. simpl in Hconn.
    assert (H2 : moves w w2 (owned h) [fd1])
      by (eapply moves_trans; [exact Hrel | exact Hconn | done]).
    destruct (fd1 <? 0) eqn:E1.
    { assert (Hend : ∀ w3, same_fds w2 w3 → moves w w3 (owned h) (owned h1)).
      { intros w3 Hs. eapply moves_then_same; [|exact Hs].
        eapply moves_weaken; [exact H2 | done |]. apply Hlost; lia. }
      destruct (decide (e1 = ETIMEDOUT)); intros [= <- <- <-];
        (split; [apply Hend, same_fds_send_simple_response | by apply Hlow]). }
    match goal with |- context [send_all fd1 ?d w2] =>
      pose proof (same_fds_send_all fd1 d w2) as Hs3 end.
    destruct (send_all fd1 _ w2) as [sent w3]. simpl in Hs3.
    pose proof (moves_then_same _ _ _ _ _ H2 Hs3) as H3.
    destruct sent.
    + rewrite E1.
      assert (Hs4 : same_fds w3
        (if negb (size (req_leftover req) =? 0)
         then send_all fd1 (req_leftover req) w3 else (true, w3)).2).
      { destruct (negb _); [apply same_fds_send_all | done]. }
      destruct (if negb (size (req_leftover req) =? 0) then _ else _) as [ok w4].
      simpl in Hs4. pose proof (moves_then_same _ _ _ _ _ H3 Hs4) as H4.
      destruct ok; simpl; intros [= <- <- <-]; (split; [|by apply Hlow]).
      * eapply moves_weaken; [|done | by apply Hnone].
        apply (moves_trans _ _ _ _ _ _ _
                 (moves_then_same _ _ _ _ _ H4 (tunnel_same_fds client_fd fd1 w4))
                 (moves_close fd1 _)). done.
      * eapply moves_weaken; [|done | by apply Hnone].
        eapply moves_trans; [exact H4 | apply moves_close | done].
    + simpl. intros [= <- <- <-]. split; [|by apply Hlow].
      eapply moves_then_same; [|apply same_fds_send_simple_response].
      eapply moves_weaken; [|done | by apply Hnone].
      eapply moves_trans; [exact H3 | apply moves_close | done].
  - destruct ((0 <=? cached_upstream_fd h) && String.eqb (cached_upstream_key h) key)
      eqn:Ecached.
    + (* the cached descriptor *)
      apply andb_true_iff in Ecached as [Hfd%Z.leb_le _].
      destruct (cached_upstream_fd h <? 0) eqn:En; [lia|].
      match goal with |- context [send_all (cached_upstream_fd h) ?d w] =>
        pose proof (same_fds_send_all (cached_upstream_fd h) d w) as Hs1 end.
      destruct (send_all (cached_upstream_fd h) _ w) as [sent w1]. simpl in Hs1.
      destruct sent.
      * rewrite En. intros H.
        destruct (moves_relay_and_decide _ _ _ _ true _ h _ _ _ _ Hkey eq_refl H) as [Hm Hok'].
        split; [|done]. by eapply moves_after_same.
      * simpl.
        pose proof (moves_discard_cached h w1) as [Hdis Hneg].
        destruct (discard_cached h w1) as [h1 w2]. simpl in Hdis, Hneg.
        pose proof (moves_acquire cfg key host port w2) as Hacq.
        destruct (acquire cfg key host port w2) as [[fd2 e2] w3]. simpl in Hacq.
        assert (H3 : moves w w3 (owned h) [fd2]).
        { eapply moves_after_same; [exact Hs1|].
          eapply moves_trans; [exact Hdis | exact Hacq | done]. }
        destruct (fd2 <? 0) eqn:E2.
        { rewrite E2. intros [= <- <- <-]. split; [|by apply Hlow].
          eapply moves_then_same; [|apply same_fds_send_simple_response].
          eapply moves_weaken; [exact H3 | done |]. apply Hlost; lia. }
        match goal with |- context [send_all fd2 ?d w3] =>
          pose proof (same_fds_send_all fd2 d w3) as Hs4 end.
        destruct (send_all fd2 _ w3) as [sent2 w4]. simpl in Hs4.
        pose proof (moves_then_same _ _ _ _ _ H3 Hs4) as H4.
        destruct sent2.
        -- rewrite E2. intros H.
           destruct (moves_relay_and_decide _ _ _ _ false _ _ _ _ _ _ Hkey Hneg H)
             as [Hm Hok'].
           split; [|done]. eapply moves_trans; [exact H4 | exact Hm | done].
        -- simpl. intros [= <- <- <-]. split; [|by apply Hlow].
           eapply moves_then_same; [|apply same_fds_send_simple_response].
           eapply moves_weaken; [|done | by apply Hnone].
           eapply moves_trans; [exact H4 | apply moves_discard | done].
    + pose proof (moves_release_cached cfg h w Hok) as [Hrel Hneg].
      destruct (release_cached cfg h w) as [h1 w1]. simpl in Hrel, Hneg.
      pose proof (moves_acquire cfg key host port w1) as Hacq.
      destruct (acquire cfg key host port w1) as [[fd1 e1] w2]. simpl in Hacq.
      assert (H2 : moves w w2 (owned h) [fd1])
        by (eapply moves_trans; [exact Hrel | exact Hacq | done]).
      destruct (fd1 <? 0) eqn:E1.
      { assert (Hend : ∀ w3, same_fds w2 w3 → moves w w3 (owned h) (owned h1)).
        { intros w3 Hs. eapply moves_then_same; [|exact Hs].
          eapply moves_weaken; [exact H2 | done |]. apply Hlost; lia. }
        destruct (decide (e1 = ETIMEDOUT)); intros [= <- <- <-];
          (split; [apply Hend, same_fds_send_simple_response | by apply Hlow]). }
      match goal with |- context [send_all fd1 ?d w2] =>
        pose proof (same_fds_send_all fd1 d w2) as Hs3 end.
      destruct (send_all fd1 _ w2) as [sent w3]. simpl in Hs3.
      pose proof (moves_then_same _ _ _ _ _ H2 Hs3) as H3.
      destruct sent.
      * rewrite E1. intros H.
        destruct (moves_relay_and_decide _ _ _ _ false _ _ _ _ _ _ Hkey Hneg H)
          as [Hm Hok'].
        split; [|done]. eapply moves_trans; [exact H3 | exact Hm | done].
      * simpl. intros [= <- <- <-]. split; [|by apply Hlow].
        eapply moves_then_same; [|apply same_fds_send_simple_response].
        eapply moves_weaken; [|done | by apply Hnone].
        eapply moves_trans; [exact H3 | apply moves_discard | done].
Qed.

Lemma moves_round (fuel : nat) (client_fd : Z) (h : Handler) (w : World)
    (c : ctl) (h' : Handler) (w' : World) :
  handler_ok h →
  handle_client_round cfg tunnel fuel client_fd h w = Ret (c, h', w') →
  moves w w' (owned h) (owned h') ∧ handler_ok h'.
Proof.
  intros Hok. unfold handle_client_round.
  destruct (read_request_from fuel client_fd (pending h) w) as [[r w1]| | |] eqn:Er;
    simpl; try done.
  apply same_fds_read_request_from in Er.
  assert (Hstay : ∀ p w2, same_fds w1 w2 →
            moves w w2 (owned h) (owned (set_pending p h))
            ∧ handler_ok (set_pending p h)).
  { intros p w2 Hs. split; [|done].
    apply (moves_same w w2 (owned h)). by eapply same_fds_trans. }
  destruct r as [error|req pending'].
  - intros [= <- <- <-]. apply Hstay. unfold reject.
    destruct (_ && _); [apply same_fds_send_simple_response | done].
  - unfold serve.
    destruct (String.eqb (req_path req) health_path).
    { match goal with |- context [send_all client_fd ?d w1] =>
        pose proof (same_fds_send_all client_fd d w1) as Hs end.
      destruct (send_all client_fd _ w1) as [ok w2]. simpl in Hs.
      destruct (negb ok || _); intros [= <- <- <-]; by apply Hstay. }
    destruct (size (req_normalized_host req) =? 0).
    { intros [= <- <- <-]. apply Hstay, same_fds_send_simple_response. }
    unfold routes_lookup, reload_if_needed.
    pose proof (same_fds_steady_clock_now w1) as Hc.
    destruct (steady_clock_now w1) as [now w2]. simpl in Hc. simpl.
    destruct (routes w2 !! _) as [target|].
    2:{ intros [= <- <- <-]. apply Hstay.
        eapply same_fds_trans; [exact Hc | apply same_fds_send_simple_response]. }
    destruct (parse_host_port target) as [[host port]|].
    2:{ intros [= <- <- <-]. apply Hstay.
        eapply same_fds_trans; [exact Hc | apply same_fds_send_simple_response]. }
    intros H. apply moves_forward in H as [Hm Hok']; [|done].
    split; [|done]. eapply moves_after_same; [|exact Hm].
    by eapply same_fds_trans.
Qed.

Lemma moves_loop (rounds fuel : nat) (client_fd : Z) (h : Handler) (w : World)
    (h' : Handler) (w' : World) :
  handler_ok h →
  handle_client_loop cfg tunnel rounds fuel client_fd h w = Ret (h', w') →
  moves w w' (owned h) (owned h') ∧ handler_ok h'.
Proof.
  revert h w. induction rounds as [|rounds IH]; intros h w Hok; simpl; [done|].
  pose proof (same_fds_load_running w) as Hs.
  destruct (load_running w) as [go w1]. simpl in Hs.
  destruct go; simpl.
  2:{ intros [= <- <-]. split; [|done]. by apply moves_same. }
  destruct (handle_client_round cfg tunnel fuel client_fd h w1)
    as [[[c h1] w2]| | |] eqn:Er; simpl; try done.
  apply moves_round in Er as [Hm Hok1]; [|done].
  pose proof (moves_after_same _ _ _ _ _ Hs Hm) as H2.
  destruct c.
  - intros H. destruct (IH _ _ Hok1 H) as [Hm' Hok'].
    split; [|done]. eapply moves_trans; [exact H2 | exact Hm' | done].
  - by intros [= <- <-].
Qed.

(** X20: when [handle_client] returns, the descriptors are accounted
    for, number by number: the closes on record and the entries of the
    pool have grown by exactly the connections that [connect_upstream]
    opened during the call, and by the close of the client's
    descriptor.  So every upstream connection the handler opened has
    been closed once or parked once, no descriptor has been closed
    twice, and this holds also when the kernel hands out a number
    again (the tunnel of an upgrade being assumed to open, park and
    close nothing itself). *)
Theorem handler_leaks_no_upstream (rounds fuel : nat) (client_fd : Z) (w w' : World) :
  handle_client cfg tunnel rounds fuel client_fd w = Ret w' →
  ∃ opened,
    connects w = (opened ++ connects w')%list
    ∧ ∀ fd0, 0 ≤ fd0 →
        occurrences fd0 (closed w') + parked_count fd0 (by_key (pool w'))
        = occurrences fd0 (closed w) + parked_count fd0 (by_key (pool w))
          + occurrences fd0 (opened.*1) + occurrences fd0 [client_fd].
Proof.
  unfold handle_client.
  destruct (handle_client_loop cfg tunnel rounds fuel client_fd _ w)
    as [[h1 w1]| | |] eqn:El; simpl; try done.
  apply moves_loop in El as [Hm Hok]; [|by intros ?; simpl in *; lia].
  pose proof (moves_release_cached cfg h1 w1 Hok) as [Hrel _].
  destruct (release_cached cfg h1 w1) as [h2 w2]. simpl in Hrel.
  intros [= <-].
  assert (Hall : moves w (close client_fd w2) ([-1] ++ [client_fd]) []).
  { eapply moves_trans; [exact (moves_frame _ _ _ _ [client_fd] Hm) | | done].
    eapply moves_trans; [exact (moves_frame _ _ _ _ [client_fd] Hrel) | | done].
    apply moves_close. }
  destruct Hall as (opened & Hc & Hall). exists opened. split; [done|].
  intros fd0 Hfd. specialize (Hall fd0 Hfd). unfold settled in Hall.
  rewrite occurrences_app, (same_tokens_neg (-1) ltac:(lia) fd0 Hfd) in Hall.
  simpl in *. lia.
Qed.

End Descriptors.

(** X20, witness: [handler_leaks_no_upstream] at an input. *)
Lemma handler_leaks_no_upstream_witness :
  let w := example_world [Recv example_request] [Recv example_response] "127.0.0.1:9000" in
  ∃ w', handle_client default_config no_tunnel 5 50 5 w = Ret w'
        ∧ parked_count 7 (by_key (pool w')) = 1
        ∧ ∃ opened,
            connects w = (opened ++ connects w')%list
            ∧ ∀ fd0, 0 ≤ fd0 →
                occurrences fd0 (closed w') + parked_count fd0 (by_key (pool w'))
                = occurrences fd0 (closed w) + parked_count fd0 (by_key (pool w))
                  + occurrences fd0 (opened.*1) + occurrences fd0 [5].
Proof.
  intros w. eexists. split; [vm_compute; reflexivity|].
  split; [vm_compute; reflexivity|].
  refine (handler_leaks_no_upstream default_config no_tunnel _ 5 50 5 w _ _).
  - intros a b w0. repeat split; reflexivity.
  - vm_compute; reflexivity.
Defined.

(** ** An upstream that does not answer with a response *)

Lemma recv_append_upstream_other (fd fd' : Z) (buf : string) (w : World) :
  fd' ≠ fd →
  socket_of (recv_append_upstream fd buf w).2 fd' = socket_of w fd'.
Proof.
  intros Hne. unfold recv_append_upstream.
  destruct (recv_append_upstream_on _ _) as [[ok buf'] rx']. simpl.
  rewrite socket_of_put. by destruct (decide (fd = fd')) as [->|].
Qed.

Lemma relay_read_head_other (fuel : nat) (up fd' : Z) (buf : string) (w : World)
    (r : option (string * Z)) (w' : World) :
  fd' ≠ up →
  relay_read_head fuel up buf w = Ret (r, w') →
  socket_of w' fd' = socket_of w fd'.
Proof.
  intros Hne. revert buf w. induction fuel as [|fuel IH]; intros buf w; simpl.
  - destruct (find buf CRLFCRLF 0); [|done]. by intros [= <- <-].
  - destruct (find buf CRLFCRLF 0); [by intros [= <- <-]|].
    pose proof (recv_append_upstream_other up fd' buf w Hne) as Hs.
    destruct (recv_append_upstream up buf w) as [[ok1 buf1] w1]. simpl in Hs.
    destruct ok1; simpl; [|by intros [= <- <-]].
    destruct (kMaxHeaderBytes <? size buf1); [by intros [= <- <-]|].
    intros H. by rewrite (IH _ _ H).
Qed.

(** X21: when the head of the upstream's response does not arrive,
    or arrives and cannot be parsed, the client is sent nothing at all
    (no 502 either): its socket is as it was, the upstream descriptor
    is discarded and the round is the last one. *)
Theorem unreadable_upstream_head_sends_nothing (fuel : nat) (up cl : Z)
    (method : string) (w w' : World) (out : RelayOutcome) :
  cl ≠ up →
  relay_response_and_decide_reuse fuel up cl method w = Ret (out, w') →
  (∀ buf header_end w1,
     relay_read_head fuel up "" w = Ret (Some (buf, header_end), w1) →
     parse_response_headers (substr buf 0 (header_end + 4)) method = None) →
  out = no_reuse
  ∧ socket_of w' cl = socket_of w cl
  ∧ ∀ key used req h,
      decide_reuse out up key used req h w'
      = (Break, if used then set_cached (-1) "" h else h, discard up w').
Proof.
  intros Hne. unfold relay_response_and_decide_reuse.
  destruct (relay_read_head fuel up "" w) as [[[[buf header_end]|] w1]| | |] eqn:Eh;
    simpl; try done.
  - intros Hrun Hbad. rewrite (Hbad _ _ _ eq_refl) in Hrun. injection Hrun as <- <-.
    split; [done|]. split; [by eapply relay_read_head_other|].
    intros key used req h. unfold decide_reuse. simpl. by rewrite andb_false_r.
  - intros [= <- <-] _.
    split; [done|]. split; [by eapply relay_read_head_other|].
    intros key used req h. unfold decide_reuse. simpl. by rewrite andb_false_r.
Qed.

(** X21, witness: [unreadable_upstream_head_sends_nothing] at an input. *)
Lemma unreadable_upstream_head_sends_nothing_witness :
  let w := example_world [] [Recv ("HTTP/1.1 OK" +:+ CRLF +:+ CRLF)] "127.0.0.1:9000" in
  ∃ w', relay_response_and_decide_reuse 10 7 5 "GET" w = Ret (no_reuse, w')
        ∧ wire (socket_of w' 5) = ""
        ∧ socket_of w' 5 = socket_of w 5.
Proof.
  intros w. eexists. split; [vm_compute; reflexivity|]. split; [vm_compute; reflexivity|].
  refine (proj1 (proj2 (unreadable_upstream_head_sends_nothing 10 7 5 "GET" w _ no_reuse
                          _ _ _))).
  - discriminate.
  - vm_compute; reflexivity.
  - intros buf header_end w1 H. vm_compute in H. injection H as <- <- <-.
    vm_compute; reflexivity.
Defined.

(** ** What the client is sent *)

Lemma append_cancel_l (pre a b : string) : pre +:+ a = pre +:+ b → a = b.
Proof. induction pre as [|c pre IH]; simpl; [done|]. intros [= H]. by apply IH. Qed.

Lemma relayed_refl (up cl : Z) (w : World) : relayed up cl w w [] "".
Proof. split; [done | by rewrite append_nil_r]. Qed.

Lemma relayed_trans (up cl : Z) (w1 w2 w3 : World) (c1 c2 : list recv_event)
    (f1 f2 : string) :
  relayed up cl w1 w2 c1 f1 → relayed up cl w2 w3 c2 f2 →
  relayed up cl w1 w3 (c1 ++ c2) (f1 +:+ f2).
Proof.
  intros [Hr1 Hw1] [Hr2 Hw2]. split.
  - by rewrite Hr1, Hr2, app_assoc.
  - by rewrite Hw2, Hw1, append_assoc.
Qed.

Lemma relayed_send_all (up cl : Z) (data : string) (w : World) :
  ∃ written rest, data = written +:+ rest
                  ∧ relayed up cl w (send_all cl data w).2 [] written.
Proof.
  destruct (send_all_wire_prefix cl data w) as (written & rest & Hd & Hw).
  exists written, rest. split; [done|]. split; [|done].
  simpl. by rewrite send_all_rx.
Qed.

Lemma relayed_sys_recv (up cl : Z) (w : World) :
  ∃ consumed, relayed up cl w (sys_recv up w).2 consumed ""
              ∧ payload consumed = match (sys_recv up w).1 with
                                   | Recv bytes => bytes
                                   | RecvErr _ => ""
                                   end.
Proof.
  pose proof (sys_recv_wire up cl w) as Hw.
  destruct (sys_recv_rx up w) as [Hrx | [Hrx Heq]].
  - exists [(sys_recv up w).1]. split.
    + split; [done | by rewrite Hw, append_nil_r].
    + simpl. destruct (sys_recv up w).1; [by rewrite append_nil_r | done].
  - exists []. rewrite Heq. simpl. split; [apply relayed_refl | done].
Qed.

Lemma relayed_received (up cl : Z) (w w' : World) (buf buf' : string) :
  received up w w' buf buf' →
  wire (socket_of w' cl) = wire (socket_of w cl) →
  ∃ consumed, relayed up cl w w' consumed "" ∧ buf' = buf +:+ payload consumed.
Proof.
  intros (consumed & Hr & Hb) Hw. exists consumed.
  split; [|done]. split; [done | by rewrite Hw, append_nil_r].
Qed.

(** Whatever the body loop answers, what it has written to the client
    is the beginning of what it has received. *)
Lemma relay_body_loop_prefix (fuel : nat) (up cl sent len : Z) (w w' : World)
    (ok : bool) :
  relay_body_loop fuel up cl sent len w = Ret (ok, w') →
  ∃ consumed fwd rest,
    relayed up cl w w' consumed fwd ∧ payload consumed = fwd +:+ rest.
Proof.
  revert sent w. induction fuel as [|fuel IH]; intros sent w; simpl.
  - destruct (len <=? sent); [|done]. intros [= <- <-].
    exists [], "", "". split; [apply relayed_refl | done].
  - destruct (len <=? sent) eqn:Elen.
    { intros [= <- <-]. exists [], "", "". split; [apply relayed_refl | done]. }
    destruct (relayed_sys_recv up cl w) as (c1 & Hrel1 & Hp1).
    destruct (sys_recv up w) as [[bytes|e] w1]; simpl in Hrel1, Hp1.
    + destruct (size bytes =? 0) eqn:En.
      { intros [= <- <-]. exists c1, "", bytes. split; [done | by rewrite Hp1]. }
      pose proof (size_nonneg bytes) as Hb.
      set (to_send := Z.min (size bytes) (len - sent)).
      assert (Hts : 0 ≤ to_send ≤ size bytes) by (subst to_send; lia).
      pose proof (substr_split_at bytes to_send Hts) as Hcut.
      destruct (relayed_send_all up cl (substr bytes 0 to_send) w1)
        as (written & r2 & Hd & Hrel2).
      pose proof (size_substr_prefix bytes to_send Hts) as Hsz.
      destruct (send_all cl (substr bytes 0 to_send) w1) as [ok1 w2] eqn:Es.
      simpl in Hrel2.
      pose proof (relayed_trans _ _ _ _ _ _ _ _ _ Hrel1 Hrel2) as Hrel.
      rewrite app_nil_r in Hrel. simpl in Hrel.
      assert (Hstop : ∃ consumed fwd rest,
                relayed up cl w w2 consumed fwd ∧ payload consumed = fwd +:+ rest).
      { exists c1, written, (r2 +:+ substr_from bytes to_send).
        split; [done|]. rewrite Hp1, Hcut at 1. by rewrite Hd, append_assoc. }
      destruct ok1; simpl; [|by intros [= <- <-]].
      destruct (to_send <? size bytes) eqn:Elt; [by intros [= <- <-]|].
      intros Hloop. destruct (IH _ _ Hloop) as (c3 & f3 & r3 & Hrel3 & Hp3).
      assert (Hall : written = bytes).
      { assert (Hfull : (send_all cl (substr bytes 0 to_send) w1).1 = true)
          by (by rewrite Es).
        pose proof (send_all_true_wire cl (substr bytes 0 to_send) w1 Hfull) as Hw.
        rewrite Es in Hw. simpl in Hw.
        destruct Hrel2 as [_ Hw2]. rewrite Hw in Hw2.
        assert (Heq : substr bytes 0 to_send = written) by (by eapply append_cancel_l).
        rewrite <- Heq.
        assert (Hr : substr_from bytes to_send = "").
        { apply size_0_empty. apply (f_equal size) in Hcut.
          rewrite size_append in Hcut. lia. }
        rewrite Hcut at 2. by rewrite Hr, append_nil_r. }
      subst written.
      exists (c1 ++ c3)%list, (bytes +:+ f3), r3.
      split; [by apply (relayed_trans _ _ _ _ _ _ _ _ _ Hrel Hrel3)|].
      by rewrite payload_app, Hp1, Hp3, append_assoc.
    + destruct (decide (e = EINTR)) as [->|].
      * intros Hloop. destruct (IH _ _ Hloop) as (c3 & f3 & r3 & Hrel3 & Hp3).
        exists (c1 ++ c3)%list, f3, r3.
        split; [exact (relayed_trans _ _ _ _ _ _ _ _ _ Hrel1 Hrel3)|].
        by rewrite payload_app, Hp1.
      * intros [= <- <-]. exists c1, "", "". split; [done | by rewrite Hp1].
Qed.

Lemma relay_body_with_length_prefix (fuel : nat) (up cl : Z) (body_buf : string)
    (len : Z) (w w' : World) (ok : bool) :
  relay_body_with_length fuel up cl body_buf len w = Ret (ok, w') →
  ∃ consumed fwd rest,
    relayed up cl w w' consumed fwd
    ∧ body_buf +:+ payload consumed = fwd +:+ rest.
Proof.
  unfold relay_body_with_length. pose proof (size_nonneg body_buf) as Hnn.
  destruct (size body_buf =? 0) eqn:E0; simpl.
  - apply Z.eqb_eq, size_0_empty in E0. subst body_buf. apply relay_body_loop_prefix.
  - set (first := Z.min (size body_buf) len).
    assert (Hpre : ∃ written rest w1,
               (if 0 <? first then send_all cl (substr body_buf 0 first) w
                else (true, w)).2 = w1
               ∧ relayed up cl w w1 [] written
               ∧ body_buf = written +:+ rest
               ∧ ((len <? size body_buf) = false → (0 <? first) = true →
                  (if 0 <? first then send_all cl (substr body_buf 0 first) w
                   else (true, w)).1 = true → rest = "")).
    { destruct (0 <? first) eqn:Ef.
      - destruct (relayed_send_all up cl (substr body_buf 0 first) w)
          as (written & r & Hd & Hrel).
        assert (Hf : 0 ≤ first ≤ size body_buf) by (subst first; lia).
        pose proof (substr_split_at body_buf first Hf) as Hcut.
        exists written, (r +:+ substr_from body_buf first),
          (send_all cl (substr body_buf 0 first) w).2.
        split; [done|]. split; [done|].
        split; [rewrite Hcut at 1; by rewrite Hd, append_assoc|].
        intros Hlen _ Hok.
        pose proof (send_all_true_wire cl (substr body_buf 0 first) w Hok) as Hw.
        destruct Hrel as [_ Hw2]. rewrite Hw in Hw2.
        assert (Heq : substr body_buf 0 first = written) by (by eapply append_cancel_l).
        assert (r = "") as ->.
        { rewrite <- Heq in Hd. apply (f_equal size) in Hd.
          rewrite size_append in Hd. apply size_0_empty. lia. }
        assert (Hr : substr_from body_buf first = "").
        { apply size_0_empty. apply (f_equal size) in Hcut.
          rewrite size_append, (size_substr_prefix body_buf first Hf) in Hcut.
          subst first. lia. }
        by rewrite Hr.
      - exists "", body_buf, w. split; [done|]. split; [apply relayed_refl|].
        split; [done|]. intros _ [=]. }
    destruct Hpre as (written & rest & w1 & Hw1 & Hrel & Hcut & Hfull).
    destruct (if 0 <? first then _ else _) as [ok1 w1'] eqn:Eif.
    simpl in Hw1. subst w1'.
    assert (Hstop : ∃ consumed fwd rest0,
              relayed up cl w w1 consumed fwd
              ∧ body_buf +:+ payload consumed = fwd +:+ rest0).
    { exists [], written, rest. split; [done|]. simpl. by rewrite append_nil_r. }
    destruct ok1; simpl; [|by intros [= <- <-]].
    destruct (len <? size body_buf) eqn:Elt; [by intros [= <- <-]|].
    intros Hloop.
    destruct (relay_body_loop_prefix _ _ _ _ _ _ _ _ Hloop) as (c3 & f3 & r3 & Hrel3 & Hp3).
    assert ((0 <? first) = true) as Hfirst by (subst first; lia).
    rewrite (Hfull eq_refl Hfirst eq_refl) in Hcut. rewrite append_nil_r in Hcut.
    subst written.
    exists c3, (body_buf +:+ f3), r3.
    split; [exact (relayed_trans _ _ _ _ _ _ _ _ _ Hrel Hrel3)|].
    by rewrite Hp3, append_assoc.
Qed.

Lemma relay_until_close_prefix (fuel : nat) (up cl : Z) (w w' : World) :
  relay_until_close fuel up cl w = Ret w' →
  ∃ consumed fwd rest,
    relayed up cl w w' consumed fwd ∧ payload consumed = fwd +:+ rest.
Proof.
  revert w. induction fuel as [|fuel IH]; intros w; simpl; [done|].
  destruct (relayed_sys_recv up cl w) as (c1 & Hrel1 & Hp1).
  destruct (sys_recv up w) as [[bytes|e] w1]; simpl in Hrel1, Hp1.
  - destruct (size bytes =? 0) eqn:En.
    { intros [= <-]. exists c1, "", bytes. split; [done | by rewrite Hp1]. }
    destruct (relayed_send_all up cl bytes w1) as (written & r2 & Hd & Hrel2).
    pose proof (send_all_true_wire cl bytes w1) as Hfullw.
    destruct (send_all cl bytes w1) as [ok1 w2] eqn:Es. simpl in Hrel2, Hfullw.
    pose proof (relayed_trans _ _ _ _ _ _ _ _ _ Hrel1 Hrel2) as Hrel.
    rewrite app_nil_r in Hrel. simpl in Hrel.
    destruct ok1; simpl.
    + intros Hloop. destruct (IH _ Hloop) as (c3 & f3 & r3 & Hrel3 & Hp3).
      assert (written = bytes) as ->.
      { destruct Hrel2 as [_ Hw2]. rewrite (Hfullw eq_refl) in Hw2.
        symmetry. by eapply append_cancel_l. }
      exists (c1 ++ c3)%list, (bytes +:+ f3), r3.
      split; [exact (relayed_trans _ _ _ _ _ _ _ _ _ Hrel Hrel3)|].
      by rewrite payload_app, Hp1, Hp3, append_assoc.
    + intros [= <-]. exists c1, written, r2. split; [done|]. by rewrite Hp1.
  - destruct (decide (e = EINTR)) as [->|].
    + intros Hloop. destruct (IH _ Hloop) as (c3 & f3 & r3 & Hrel3 & Hp3).
      exists (c1 ++ c3)%list, f3, r3.
      split; [exact (relayed_trans _ _ _ _ _ _ _ _ _ Hrel1 Hrel3)|].
      by rewrite payload_app, Hp1.
    + intros [= <-]. exists c1, "", "". split; [done | by rewrite Hp1].
Qed.

Lemma substr_cut_rest (buf : string) (c e : Z) :
  0 ≤ c ≤ e → e ≤ size buf →
  substr_from buf c = substr buf c (e - c) +:+ substr_from buf e.
Proof.
  intros Hc He. pose proof (substr_then_rest buf "" c e Hc He) as H.
  by rewrite append_nil_r in H.
Qed.

(** Whatever the chunked relay answers, what it has written to the
    client is the beginning of its buffer from the cursor on. *)
Lemma relay_chunked_loop_prefix (fuel : nat) (up cl : Z) (buf : string) (cursor : Z)
    (w : World) (r : bool * option Z) (buf' : string) (w' : World) :
  relay_chunked_loop fuel up cl buf cursor w = Ret (r, buf', w') →
  0 ≤ cursor →
  ∃ consumed fwd rest,
    relayed up cl w w' consumed fwd
    ∧ buf' = buf +:+ payload consumed
    ∧ substr_from buf' cursor = fwd +:+ rest.
Proof.
  revert buf cursor w. induction fuel as [|fuel IH];
    intros buf cursor w Hrun Hc; revert Hrun; simpl; [done|].
  destruct (recv_until_found fuel up buf CRLF cursor w)
    as [[[line_end buf1] w1]| | |] eqn:E1; simpl; try done.
  pose proof (recv_until_found_wire _ _ cl _ _ _ _ _ _ _ E1) as Hw1.
  apply recv_until_found_received in E1 as [Hr1 _].
  destruct (relayed_received up cl _ _ _ _ Hr1 Hw1) as (c1 & Hrel1 & Hb1).
  assert (Hquiet : ∀ (w0 : World) (b : string) (c : list recv_event),
            relayed up cl w w0 c "" → b = buf +:+ payload c →
            ∃ consumed fwd rest,
              relayed up cl w w0 consumed fwd
              ∧ b = buf +:+ payload consumed
              ∧ substr_from b cursor = fwd +:+ rest).
  { intros w0 b c Hrel Hb. exists c, "", (substr_from b cursor). done. }
  destruct line_end as [line_end|]; [|intros [= <- <- <-]; by eapply Hquiet].
  destruct (stoull 16 _) as [chunk_size|]; [|intros [= <- <- <-]; by eapply Hquiet].
  set (chunk_end := wrap64 (line_end + 2 + chunk_size + 2)).
  destruct (recv_until_size fuel up buf1 chunk_end w1)
    as [[[ok2 buf2] w2]| | |] eqn:E2; simpl; try done.
  destruct (recv_until_size_spec _ _ cl _ _ _ _ _ _ E2) as [Hw2 Hsz2].
  apply recv_until_size_received in E2 as Hr2.
  destruct (relayed_received up cl _ _ _ _ Hr2 Hw2) as (c2 & Hrel2 & Hb2).
  pose proof (relayed_trans _ _ _ _ _ _ _ _ _ Hrel1 Hrel2) as Hrel12. simpl in Hrel12.
  assert (Hb12 : buf2 = buf +:+ payload (c1 ++ c2))
    by (by rewrite payload_app, <- append_assoc, <- Hb1).
  destruct ok2; simpl; [|intros [= <- <- <-]; by eapply Hquiet].
  specialize (Hsz2 eq_refl).
  destruct (substr_throws buf2 _); [done|].
  destruct (String.eqb _ CRLF); simpl; [|intros [= <- <- <-]; by eapply Hquiet].
  destruct (chunk_end <? cursor) eqn:Ece; [done|].
  destruct (relayed_send_all up cl (substr buf2 cursor (chunk_end - cursor)) w2)
    as (written & r3 & Hd3 & Hrel3).
  pose proof (send_all_true_wire cl (substr buf2 cursor (chunk_end - cursor)) w2) as Hfull3.
  destruct (send_all cl _ w2) as [ok3 w3] eqn:E3. simpl in Hrel3, Hfull3.
  pose proof (relayed_trans _ _ _ _ _ _ _ _ _ Hrel12 Hrel3) as Hrel123.
  rewrite app_nil_r in Hrel123. simpl in Hrel123.
  destruct ok3; simpl.
  2:{ intros [= <- <- <-]. exists (c1 ++ c2)%list, written, (r3 +:+ substr_from buf2 chunk_end).
      split; [done|]. split; [done|].
      rewrite (substr_cut_rest buf2 cursor chunk_end) by lia.
      by rewrite Hd3, append_assoc. }
  assert (written = substr buf2 cursor (chunk_end - cursor)) as ->.
  { destruct Hrel3 as [_ Hw3]. rewrite (Hfull3 eq_refl) in Hw3.
    symmetry. by eapply append_cancel_l. }
  destruct (chunk_size =? 0).
  - destruct (recv_until_found fuel up buf2 CRLFCRLF chunk_end w3)
      as [[[trailer_end buf4] w4]| | |] eqn:E4; simpl; try done.
    pose proof (recv_until_found_wire _ _ cl _ _ _ _ _ _ _ E4) as Hw4.
    apply recv_until_found_received in E4 as [Hr4 Hf4].
    destruct (relayed_received up cl _ _ _ _ Hr4 Hw4) as (c4 & Hrel4 & Hb4).
    pose proof (relayed_trans _ _ _ _ _ _ _ _ _ Hrel123 Hrel4) as Hrel1234.
    rewrite append_nil_r in Hrel1234.
    assert (Hb : buf4 = buf +:+ payload ((c1 ++ c2) ++ c4))
      by (by rewrite payload_app, <- append_assoc, <- Hb12).
    assert (Hcut : substr_from buf4 cursor
                   = substr buf2 cursor (chunk_end - cursor) +:+ substr_from buf4 chunk_end).
    { rewrite Hb4. symmetry. apply substr_then_rest; lia. }
    destruct trailer_end as [trailer_end|].
    2:{ intros [= <- <- <-]. eexists _, _, _. split; [exact Hrel1234|]. done. }
    destruct (find_bounds buf4 CRLFCRLF chunk_end trailer_end
                ltac:(subst chunk_end; unfold wrap64, two64;
                      pose proof (Z.mod_pos_bound (line_end + 2 + chunk_size + 2)
                                    18446744073709551616 ltac:(lia)); lia)
                ltac:(discriminate) (Hf4 _ eq_refl)) as [Hge Hle].
    change (size CRLFCRLF) with 4 in Hle.
    destruct (relayed_send_all up cl
                (substr buf4 chunk_end (trailer_end + 4 - chunk_end)) w4)
      as (written5 & r5 & Hd5 & Hrel5).
    destruct (send_all cl _ w4) as [ok5 w5] eqn:E5. simpl in Hrel5.
    pose proof (relayed_trans _ _ _ _ _ _ _ _ _ Hrel1234 Hrel5) as Hrel12345.
    rewrite app_nil_r in Hrel12345.
    assert (Hend : ∃ consumed fwd rest,
              relayed up cl w w5 consumed fwd
              ∧ buf4 = buf +:+ payload consumed
              ∧ substr_from buf4 cursor = fwd +:+ rest).
    { eexists _, _, (r5 +:+ substr_from buf4 (trailer_end + 4)).
      split; [exact Hrel12345|]. split; [done|].
      rewrite Hcut. rewrite (substr_cut_rest buf4 chunk_end (trailer_end + 4)) by lia.
      by rewrite Hd5, !append_assoc. }
    by destruct ok5; simpl; intros [= <- <- <-].
  - intros H.
    destruct (IH _ _ _ H ltac:(lia)) as (c5 & f5 & r5 & Hrel5 & Hb5 & Hcut5).
    exists ((c1 ++ c2) ++ c5)%list, (substr buf2 cursor (chunk_end - cursor) +:+ f5), r5.
    split; [exact (relayed_trans _ _ _ _ _ _ _ _ _ Hrel123 Hrel5)|].
    split; [by rewrite payload_app, <- append_assoc, <- Hb12|].
    rewrite Hb5. rewrite <- (substr_then_rest buf2 (payload c5) cursor chunk_end) by lia.
    rewrite <- Hb5, Hcut5. by rewrite append_assoc.
Qed.

Lemma relay_body_prefix (fuel : nat) (up cl : Z) (meta : ResponseMeta)
    (body_buf : string) (w w' : World) (out : RelayOutcome) :
  relay_body fuel up cl meta body_buf w = Ret (out, w') →
  ∃ consumed fwd rest,
    relayed up cl w w' consumed fwd
    ∧ body_buf +:+ payload consumed = fwd +:+ rest.
Proof.
  assert (Hsend : ∀ w1, (send_all cl body_buf w).2 = w1 →
            ∃ consumed fwd rest,
              relayed up cl w w1 consumed fwd
              ∧ body_buf +:+ payload consumed = fwd +:+ rest).
  { intros w1 <-. destruct (relayed_send_all up cl body_buf w) as (written & r & Hd & Hrel).
    exists [], written, r. split; [done|]. simpl. by rewrite append_nil_r. }
  unfold relay_body. destruct (no_body meta).
  - destruct (negb (size body_buf =? 0)).
    + destruct (send_all cl body_buf w) as [ok w1] eqn:Es.
      intros [= <- <-]. by apply Hsend.
    + intros [= <- <-]. exists [], "", body_buf. split; [apply relayed_refl|].
      simpl. by rewrite append_nil_r.
  - destruct (meta_chunked meta).
    + unfold relay_chunked_body.
      destruct (relay_chunked_loop fuel up cl body_buf 0 w)
        as [[[[c fe] b] w1]| | |] eqn:E; simpl; try done.
      intros [= <- <-].
      destruct (relay_chunked_loop_prefix _ _ _ _ _ _ _ _ _ E ltac:(lia))
        as (consumed & fwd & rest & Hrel & Hb & Hcut).
      exists consumed, fwd, rest. split; [done|].
      rewrite <- Hb, <- Hcut. symmetry. apply (substr_from_app "" b).
    + destruct (content_length meta) as [len|].
      * destruct (relay_body_with_length fuel up cl body_buf len w)
          as [[ok w1]| | |] eqn:E; simpl; try done.
        intros [= <- <-]. by eapply relay_body_with_length_prefix.
      * destruct (negb (size body_buf =? 0)) eqn:En.
        -- destruct (relayed_send_all up cl body_buf w) as (written & r & Hd & Hrel).
           pose proof (send_all_true_wire cl body_buf w) as Hfull.
           destruct (send_all cl body_buf w) as [ok w1] eqn:Es. simpl in Hrel, Hfull.
           destruct ok; simpl.
           ++ destruct (relay_until_close fuel up cl w1) as [w2| | |] eqn:E;
                simpl; try done.
              intros [= <- <-].
              destruct (relay_until_close_prefix _ _ _ _ _ E) as (c3 & f3 & r3 & Hrel3 & Hp3).
              assert (written = body_buf) as ->.
              { destruct Hrel as [_ Hw]. rewrite (Hfull eq_refl) in Hw.
                symmetry. by eapply append_cancel_l. }
              exists c3, (body_buf +:+ f3), r3.
              split; [exact (relayed_trans _ _ _ _ _ _ _ _ _ Hrel Hrel3)|].
              by rewrite Hp3, append_assoc.
           ++ intros [= <- <-]. exists [], written, r. split; [done|].
              simpl. by rewrite append_nil_r.
        -- simpl.
           destruct (relay_until_close fuel up cl w) as [w2| | |] eqn:E;
             simpl; try done.
           intros [= <- <-].
           destruct (relay_until_close_prefix _ _ _ _ _ E) as (c3 & f3 & r3 & Hrel3 & Hp3).
           apply negb_false_iff, Z.eqb_eq, size_0_empty in En. subst body_buf.
           exists c3, f3, r3. done.
Qed.

(** X22: in every run of [relay_response_and_decide_reuse] that
    returns, however the relay ends, what it has written to the client
    is the beginning of what it has received from the upstream, byte
    for byte and in order.  Nothing is said of the runs that do not
    return: a chunk-size line that makes the end of the chunk wrap
    around 2^64 leads to an exception out of [substr] or to a
    [send_all] from beyond the buffer ([relay_chunk_size_wraps]). *)
Theorem client_is_sent_what_upstream_sent (fuel : nat) (up cl : Z)
    (method : string) (w w' : World) (out : RelayOutcome) :
  relay_response_and_decide_reuse fuel up cl method w = Ret (out, w') →
  ∃ consumed fwd rest,
    rx (socket_of w up) = (consumed ++ rx (socket_of w' up))%list
    ∧ wire (socket_of w' cl) = wire (socket_of w cl) +:+ fwd
    ∧ payload consumed = fwd +:+ rest.
Proof.
  unfold relay_response_and_decide_reuse.
  destruct (relay_read_head fuel up "" w) as [[[[buf header_end]|] w1]| | |] eqn:Eh;
    simpl; try done.
  2:{ intros [= <- <-].
      assert (Hr : ∀ f b w0 r, relay_read_head f up b w = Ret (r, w0) →
                ∃ consumed, rx (socket_of w up) = (consumed ++ rx (socket_of w0 up))%list
                            ∧ wire (socket_of w0 cl) = wire (socket_of w cl)).
      { clear. intros f. revert w. induction f as [|f IH]; intros w b w0 r; simpl.
        - destruct (find b CRLFCRLF 0); [|done]. intros [= <- <-]. by exists [].
        - destruct (find b CRLFCRLF 0); [intros [= <- <-]; by exists []|].
          destruct (recv_append_upstream_received up b w) as (c & Hc & _).
          pose proof (recv_append_upstream_wire up cl b w) as Hw.
          destruct (recv_append_upstream up b w) as [[ok1 b1] w1]. simpl in Hc, Hw.
          destruct ok1; simpl; [|intros [= <- <-]; by exists c].
          destruct (kMaxHeaderBytes <? size b1); [intros [= <- <-]; by exists c|].
          intros H. destruct (IH _ _ _ _ H) as (c' & Hc' & Hw').
          exists (c ++ c')%list. split; [by rewrite Hc, Hc', app_assoc | congruence]. }
      destruct (Hr _ _ _ _ Eh) as (consumed & Hrx & Hw).
      exists consumed, "", (payload consumed). split; [done|].
      split; [by rewrite Hw, append_nil_r | done]. }
  destruct (relay_read_head_spec _ _ cl _ _ _ _ _ Eh) as ((c1 & Hrx1 & Hbuf) & Hfind & Hw1).
  simpl in Hbuf.
  destruct (find_bounds buf CRLFCRLF 0 header_end ltac:(lia) ltac:(discriminate) Hfind)
    as [Hhe Hlen].
  change (size CRLFCRLF) with 4 in Hlen.
  pose proof (substr_split_at buf (header_end + 4) ltac:(lia)) as Hsplit.
  remember (substr buf 0 (header_end + 4)) as head eqn:Ehead in *.
  remember (substr_from buf (header_end + 4)) as body_buf eqn:Ebody in *.
  clear Ehead Ebody.
  assert (Hrel1 : relayed up cl w w1 c1 "")
    by (split; [done | by rewrite Hw1, append_nil_r]).
  destruct (parse_response_headers head method) as [meta|].
  2:{ intros [= <- <-]. exists c1, "", (payload c1). destruct Hrel1. done. }
  destruct (relayed_send_all up cl head w1) as (written & r & Hd & Hrel2).
  pose proof (send_all_true_wire cl head w1) as Hfull.
  destruct (send_all cl head w1) as [ok w2] eqn:Es. simpl in Hrel2, Hfull.
  pose proof (relayed_trans _ _ _ _ _ _ _ _ _ Hrel1 Hrel2) as Hrel12.
  rewrite app_nil_r in Hrel12. simpl in Hrel12.
  destruct ok; simpl.
  2:{ intros [= <- <-]. exists c1, written, (r +:+ body_buf). destruct Hrel12.
      split; [done|]. split; [done|]. by rewrite <- Hbuf, Hsplit, Hd, append_assoc. }
  assert (written = head) as ->.
  { destruct Hrel2 as [_ Hw]. rewrite (Hfull eq_refl) in Hw.
    symmetry. by eapply append_cancel_l. }
  intros H. destruct (relay_body_prefix _ _ _ _ _ _ _ _ H) as (c3 & f3 & r3 & Hrel3 & Hp3).
  destruct (relayed_trans _ _ _ _ _ _ _ _ _ Hrel12 Hrel3) as [Hrx Hw].
  exists (c1 ++ c3)%list, (head +:+ f3), r3.
  split; [done|]. split; [done|].
  by rewrite payload_app, <- Hbuf, Hsplit, !append_assoc, Hp3.
Qed.

(** X22, witness: [client_is_sent_what_upstream_sent] at an input. *)
Lemma client_is_sent_what_upstream_sent_witness :
  let w := example_world []
             [Recv ("HTTP/1.1 200 OK" +:+ CRLF +:+ "Content-Length: 2" +:+ CRLF +:+ CRLF
                    +:+ "OKHTTP/1.1 500")] "127.0.0.1:9000" in
  ∃ out w', relay_response_and_decide_reuse 10 7 5 "GET" w = Ret (out, w')
            ∧ wire (socket_of w' 5) = example_response
            ∧ ∃ consumed fwd rest,
                rx (socket_of w 7) = (consumed ++ rx (socket_of w' 7))%list
                ∧ wire (socket_of w' 5) = wire (socket_of w 5) +:+ fwd
                ∧ payload consumed = fwd +:+ rest.
Proof.
  intros w. eexists _, _. split; [vm_compute; reflexivity|].
  split; [vm_compute; reflexivity|].
  refine (client_is_sent_what_upstream_sent 10 7 5 "GET" w _ _ _).
  vm_compute; reflexivity.
Defined.
